(** * Magic mount: overlay tree builder and mount applier

    A shallow embedding of the tree builder ([src/module_tree.c]), the
    mount applier ([magic_mount.zig], stored behind [module_tree.c]), the
    reader of the configuration file and of the partition list
    ([main.zig], stored there as well), the KernelSU bridge
    ([src/ksu.zig]) and the path, string, SELinux and logging helpers
    ([src/utils.zig]), followed by the properties established about them.

    Conventions of the embedding:
    - a path or a name is a [string]; a fixed [PATH_MAX] buffer shows up as
      the length test the code performs before it writes to the buffer;
    - [st_mode] is an integer whose type bits are tested with the masks of
      [<sys/stat.h>]; mount flags are integers combined with [Z.lor];
    - the kernel is an interface ([Kernel]): probes read the world, calls
      with an effect return the next world and are appended to the trace;
    - code that mutates the context, the log or the mount table is written
      in a state monad; a Zig error union or a C return code is a [Res];
    - recursion over the file system or over the node tree takes a fuel
      argument, and running out of fuel is kept apart from every result
      the code can return ([None] of the monad);
    - allocation is assumed to succeed;
    - of the log calls, those on a path where a function gives up or
      rejects its input are kept; progress messages are left out. *)

From Stdlib Require Import String Ascii List ZArith Lia Bool Arith.
From Stdlib Require DecimalString.
Import ListNotations.

Local Open Scope string_scope.
Local Open Scope Z_scope.

(** ** Results and errors *)

(** The error values the modelled code raises itself, and [SysErr] for an
    errno handed back by the kernel. *)
Inductive Error : Type :=
| NameTooLong
| InvalidArgument
| Unexpected
| DirectoryCreationFailed
| PathAlreadyExists
| SysErr (errno : Z).

Inductive Res (A : Type) : Type :=
| Ok (a : A)
| Err (e : Error).
Arguments Ok {A} a.
Arguments Err {A} e.

Definition is_ok {A} (r : Res A) : bool :=
  match r with Ok _ => true | Err _ => false end.

(** ** Strings as the code handles them *)

Module Str.

Definition last (s : string) : option ascii :=
  match String.length s with
  | O => None
  | S n => String.get n s
  end.

Definition is_slash (c : ascii) : bool := Ascii.eqb c "/"%char.

(** [s[0..n]] *)
Definition take (n : nat) (s : string) : string := String.substring 0 n s.

Fixpoint starts_with (p s : string) : bool :=
  match p, s with
  | EmptyString, _ => true
  | String a p', String b s' => Ascii.eqb a b && starts_with p' s'
  | String _ _, EmptyString => false
  end.

(** Does [needle] occur in [haystack]? *)
Fixpoint contains (haystack needle : string) : bool :=
  starts_with needle haystack ||
  match haystack with
  | EmptyString => false
  | String _ rest => contains rest needle
  end.

(** [std.ascii.isWhitespace]: space, TAB, LF, VT, FF, CR. *)
Definition isWhitespace (c : ascii) : bool :=
  let n := nat_of_ascii c in
  (Nat.eqb n 32 || Nat.eqb n 9 || Nat.eqb n 10 ||
   Nat.eqb n 11 || Nat.eqb n 12 || Nat.eqb n 13)%bool.

Fixpoint drop_while (f : ascii -> bool) (s : string) : string :=
  match s with
  | EmptyString => EmptyString
  | String c rest => if f c then drop_while f rest else s
  end.

(** Removes the longest suffix whose characters all satisfy [f]. *)
Fixpoint drop_while_end (f : ascii -> bool) (s : string) : string :=
  match s with
  | EmptyString => EmptyString
  | String c rest =>
      match drop_while_end f rest with
      | EmptyString => if f c then EmptyString else String c EmptyString
      | r => String c r
      end
  end.

(** The characters before the first one that satisfies [f]. *)
Fixpoint take_until (f : ascii -> bool) (s : string) : string :=
  match s with
  | EmptyString => EmptyString
  | String c rest => if f c then EmptyString else String c (take_until f rest)
  end.

(** The index of the last [c] in [s], counted from [i]. *)
Fixpoint last_index_from (c : ascii) (s : string) (i : nat) : option nat :=
  match s with
  | EmptyString => None
  | String x rest =>
      match last_index_from c rest (S i) with
      | Some j => Some j
      | None => if Ascii.eqb x c then Some i else None
      end
  end.

Fixpoint mem (x : string) (l : list string) : bool :=
  match l with
  | [] => false
  | y :: l' => String.eqb x y || mem x l'
  end.

(** [std.ascii.toLower] *)
Definition toLower (c : ascii) : ascii :=
  let n := nat_of_ascii c in
  if (Nat.leb 65 n && Nat.leb n 90)%bool then ascii_of_nat (n + 32) else c.

(** [std.ascii.lowerString] *)
Fixpoint lowerString (s : string) : string :=
  match s with
  | EmptyString => EmptyString
  | String c rest => String (toLower c) (lowerString rest)
  end.

(** [std.ascii.eqlIgnoreCase] *)
Fixpoint eqlIgnoreCase (a b : string) : bool :=
  match a, b with
  | EmptyString, EmptyString => true
  | String x a', String y b' =>
      Ascii.eqb (toLower x) (toLower y) && eqlIgnoreCase a' b'
  | _, _ => false
  end.

(** [std.mem.indexOfScalar]: the index of the first [c] in [s]. *)
Fixpoint indexOfScalar (s : string) (c : ascii) : option nat :=
  match s with
  | EmptyString => None
  | String x rest =>
      if Ascii.eqb x c then Some O
      else match indexOfScalar rest c with
           | Some i => Some (S i)
           | None => None
           end
  end.

(** [s[n..]] *)
Fixpoint skip (n : nat) (s : string) : string :=
  match n, s with
  | O, _ => s
  | S n', String _ rest => skip n' rest
  | S _, EmptyString => EmptyString
  end.

End Str.

(** ** The kernel interface *)

Record Stat : Type := mkStat {
  st_mode : Z;
  st_rdev : Z;
  st_uid : Z;
  st_gid : Z
}.

(** [<sys/stat.h>] *)
Definition S_IFMT : Z := 0xF000.
Definition S_IFSOCK : Z := 0xC000.
Definition S_IFLNK : Z := 0xA000.
Definition S_IFREG : Z := 0x8000.
Definition S_IFBLK : Z := 0x6000.
Definition S_IFDIR : Z := 0x4000.
Definition S_IFCHR : Z := 0x2000.
Definition S_IFIFO : Z := 0x1000.

Definition S_ISCHR (m : Z) : bool := Z.land m S_IFMT =? S_IFCHR.
Definition S_ISREG (m : Z) : bool := Z.land m S_IFMT =? S_IFREG.
Definition S_ISDIR (m : Z) : bool := Z.land m S_IFMT =? S_IFDIR.
Definition S_ISLNK (m : Z) : bool := Z.land m S_IFMT =? S_IFLNK.

(** [<sys/mount.h>] *)
Definition MS_RDONLY : Z := 1.
Definition MS_REMOUNT : Z := 32.
Definition MS_BIND : Z := 4096.
Definition MS_MOVE : Z := 8192.
Definition MS_REC : Z := 16384.
Definition MS_PRIVATE : Z := 262144.
Definition MNT_DETACH : Z := 2.

(** What a directory iterator yields: the names, then the end of the
    directory or an error. *)
Record DirStream : Type := mkDirStream {
  ds_entries : list string;
  ds_error : option Error
}.

(** Calls that change the kernel's state. *)
Inductive Syscall : Type :=
| SysMount (source : option string) (target : string)
           (fstype : option string) (flags : Z)
| SysUmount2 (target : string) (flags : Z)
| SysMkdir (path : string) (mode : Z)
| SysCreate (path : string) (mode : Z)
| SysSymlink (target linkpath : string)
| SysChmod (path : string) (mode : Z)
| SysChown (path : string) (uid gid : Z)
| SysLsetxattr (path name value : string)
| SysRmdir (path : string)
| SysKsuIoctl (fd : Z) (mntpoint : string) (flags mode : Z).

Class Kernel (W : Type) : Type := {
  k_lstat : W -> string -> Res Stat;
  k_stat : W -> string -> Res Stat;
  k_opendir : W -> string -> Res DirStream;
  k_readlink : W -> string -> Res string;
  k_lgetxattr : W -> string -> string -> Res string;
  k_faccessat : W -> string -> string -> bool;
  (** the KernelSU install call: its return value and the fd it stores *)
  k_ksu_install : W -> W * (Z * Z);
  k_call : W -> Syscall -> W * Res unit
}.

(** What the run leaves behind for an observer: the calls that were made,
    in order, and the entries to [ksu_send_unmountable]. *)
Inductive Event : Type :=
| EvSys (c : Syscall)
| EvKsuInstall
| EvMarkUnmountable (mntpoint : string).

Inductive LogLevel : Type := LOG_ERROR | LOG_WARN | LOG_INFO | LOG_DEBUG.

(** ** magic_mount.h: the context *)

Record MountStats : Type := mkStats {
  modules_total : Z;
  nodes_total : Z;
  nodes_mounted : Z;
  nodes_skipped : Z;
  nodes_whiteout : Z;
  nodes_fail : Z
}.

Record MagicMount : Type := mkCtx {
  module_dir : option string;
  mount_source : string;
  stats : MountStats;
  failed_modules : list string;
  extra_parts : list string;
  enable_unmountable : bool
}.

Definition DISABLE_FILE_NAME : string := "disable".
Definition REMOVE_FILE_NAME : string := "remove".
Definition SKIP_MOUNT_FILE_NAME : string := "skip_mount".
Definition REPLACE_DIR_XATTR : string := "trusted.overlay.opaque".
Definition REPLACE_DIR_FILE_NAME : string := ".replace".
Definition DEFAULT_MOUNT_SOURCE : string := "KSU".
Definition DEFAULT_MODULE_DIR : string := "/data/adb/modules".
Definition SELINUX_XATTR : string := "security.selinux".

Definition zero_stats : MountStats := mkStats 0 0 0 0 0 0.

(** [magic_mount_init] *)
Definition magic_mount_init : MagicMount :=
  mkCtx (Some DEFAULT_MODULE_DIR) DEFAULT_MOUNT_SOURCE zero_stats [] [] true.

(** ** The state monad of the run *)

Record St (W : Type) : Type := mkSt {
  st_world : W;
  st_ctx : MagicMount;
  st_trace : list Event;
  st_log : list (LogLevel * string);
  (** [g_driver_fd], once [g_driver_fd_initialized] is set *)
  st_ksu_fd : option Z
}.
Arguments mkSt {W}.
Arguments st_world {W}.
Arguments st_ctx {W}.
Arguments st_trace {W}.
Arguments st_log {W}.
Arguments st_ksu_fd {W}.

Definition init_state {W} (w : W) (ctx : MagicMount) : St W :=
  mkSt w ctx [] [] None.

(** [None] is a run that exhausted its fuel. *)
Definition M (W A : Type) : Type := St W -> option (A * St W).

Definition ret {W A} (a : A) : M W A := fun s => Some (a, s).

Definition bind {W A B} (c : M W A) (k : A -> M W B) : M W B :=
  fun s => match c s with
           | Some (a, s') => k a s'
           | None => None
           end.

Definition out_of_fuel {W A} : M W A := fun _ => None.

Declare Scope mm_scope.
Delimit Scope mm_scope with mm.
Notation "x <- c ;; k" := (bind c (fun x => k))
  (at level 61, c at next level, right associativity) : mm_scope.
Notation "c ;; k" := (bind c (fun _ => k))
  (at level 61, right associativity) : mm_scope.
(** Zig's [try]: an error ends the computation with that error. *)
Notation "x <-? c ;; k" :=
  (bind c (fun r => match r with
                    | Ok x => k
                    | Err e => ret (Err e)
                    end))
  (at level 61, c at next level, right associativity) : mm_scope.
Notation "c ;;? k" :=
  (bind c (fun r => match r with
                    | Ok _ => k
                    | Err e => ret (Err e)
                    end))
  (at level 61, right associativity) : mm_scope.

Local Open Scope mm_scope.

Section Primitives.
Context {W : Type} `{Kernel W}.

Definition get_world : M W W := fun s => Some (st_world s, s).
Definition get_ctx : M W MagicMount := fun s => Some (st_ctx s, s).

Definition set_ctx (c : MagicMount) : M W unit :=
  fun s => Some (tt, mkSt (st_world s) c (st_trace s) (st_log s) (st_ksu_fd s)).

Definition set_stats (f : MountStats -> MountStats) : M W unit :=
  c <- get_ctx ;;
  set_ctx (mkCtx (module_dir c) (mount_source c) (f (stats c))
                 (failed_modules c) (extra_parts c) (enable_unmountable c)).

Definition emit (e : Event) : M W unit :=
  fun s => Some (tt, mkSt (st_world s) (st_ctx s) (st_trace s ++ [e])
                          (st_log s) (st_ksu_fd s)).

Definition LOG (lv : LogLevel) (msg : string) : M W unit :=
  fun s => Some (tt, mkSt (st_world s) (st_ctx s) (st_trace s)
                          (st_log s ++ [(lv, msg)]) (st_ksu_fd s)).

(** The state with one more line in the log and nothing else changed. *)
Definition logged (s : St W) (lv : LogLevel) (msg : string) : St W :=
  mkSt (st_world s) (st_ctx s) (st_trace s) (st_log s ++ [(lv, msg)])
       (st_ksu_fd s).

(** A call with an effect: recorded, then answered by the kernel. *)
Definition call (c : Syscall) : M W (Res unit) :=
  fun s =>
    let '(w', r) := k_call (st_world s) c in
    Some (r, mkSt w' (st_ctx s) (st_trace s ++ [EvSys c])
                  (st_log s) (st_ksu_fd s)).

Definition lstat (p : string) : M W (Res Stat) :=
  w <- get_world ;; ret (k_lstat w p).
Definition stat (p : string) : M W (Res Stat) :=
  w <- get_world ;; ret (k_stat w p).
Definition opendir (p : string) : M W (Res DirStream) :=
  w <- get_world ;; ret (k_opendir w p).
Definition readlink (p : string) : M W (Res string) :=
  w <- get_world ;; ret (k_readlink w p).
Definition lgetxattr (p name : string) : M W (Res string) :=
  w <- get_world ;; ret (k_lgetxattr w p name).
Definition faccessat (dir name : string) : M W bool :=
  w <- get_world ;; ret (k_faccessat w dir name).

Definition mount (source : option string) (target : string)
           (fstype : option string) (flags : Z) : M W (Res unit) :=
  call (SysMount source target fstype flags).

End Primitives.

(** ** utils.zig *)

Module Utils.

Definition PATH_MAX : Z := 4096.

(** [s.len] *)
Definition len (s : string) : Z := Z.of_nat (String.length s).

(** [path_join]: the buffer and the allocator do not show in the result,
    which is the slice [buf[0..offset]]. *)
Definition path_join (base name : string) : Res string :=
  if len name =? 0 then
    if PATH_MAX <=? len base then Err NameTooLong
    else Ok base
  else
    let use_slash :=
      if ((len base =? 0)
          || ((len base =? 1)
              && match String.get 0 base with
                 | Some c => Str.is_slash c
                 | None => false
                 end))%bool
      then true
      else match Str.last base with
           | Some c => negb (Str.is_slash c)
           | None => true
           end in
    let needed :=
      len base + (if use_slash then 1 else 0) + len name + 1 in
    if PATH_MAX <? needed then Err NameTooLong
    else Ok (base ++ (if use_slash then "/" else "") ++ name).

(** [str_trim] *)
Definition str_trim (str : string) : string :=
  Str.drop_while_end Str.isWhitespace (Str.drop_while Str.isWhitespace str).

(** [str_is_true] *)
Definition str_is_true (str : string) : bool :=
  let lower := Str.lowerString str in
  (String.eqb lower "true" || String.eqb lower "yes"
   || String.eqb lower "1" || String.eqb lower "on")%bool.

Section WithKernel.
Context {W : Type} `{Kernel W}.

Definition path_exists (path : string) : M W bool :=
  r <- stat path ;; ret (is_ok r).

Definition path_is_dir (path : string) : M W bool :=
  r <- stat path ;;
  ret (match r with Ok st => S_ISDIR (st_mode st) | Err _ => false end).

Definition path_is_symlink (path : string) : M W bool :=
  r <- lstat path ;;
  ret (match r with Ok st => S_ISLNK (st_mode st) | Err _ => false end).

(** [os.mkdir(p, 0o755) catch |err| if (err != PathAlreadyExists) return err] *)
Definition mkdir_tolerant (p : string) : M W (Res unit) :=
  r <- call (SysMkdir p 0x1ED) ;;
  ret (match r with
       | Ok _ => Ok tt
       | Err PathAlreadyExists => Ok tt
       | Err e => Err e
       end).

(** The loop of [mkdir_p] over the indices [i .. i + n - 1] of [dir]. *)
Fixpoint mkdir_p_loop (dir : string) (i n : nat) : M W (Res unit) :=
  match n with
  | O => ret (Ok tt)
  | S n' =>
      match String.get i dir with
      | Some c =>
          if (Str.is_slash c && negb (Nat.eqb i 0))%bool then
            let part := Str.take i dir in
            isdir <- path_is_dir part ;;
            if isdir then mkdir_p_loop dir (S i) n'
            else mkdir_tolerant part ;;? mkdir_p_loop dir (S i) n'
          else mkdir_p_loop dir (S i) n'
      | None => ret (Ok tt)
      end
  end.

Definition mkdir_p (dir : string) : M W (Res unit) :=
  if Nat.eqb (String.length dir) 0 then ret (Err InvalidArgument)
  else
    isdir <- path_is_dir dir ;;
    if isdir then ret (Ok tt)
    else
      mkdir_p_loop dir 0 (String.length dir) ;;?
      mkdir_tolerant dir.

(** *** SELinux xattr *)

Definition set_selcon (path con : string) : M W (Res unit) :=
  if (Nat.eqb (String.length path) 0 || Nat.eqb (String.length con) 0)%bool
  then LOG LOG_DEBUG "set_selcon: skip null args" ;; ret (Ok tt)
  else
    LOG LOG_DEBUG ("set_selcon(" ++ path ++ ")") ;;
    call (SysLsetxattr path SELINUX_XATTR con).

Definition get_selcon (path : string) : M W (Res string) :=
  if Nat.eqb (String.length path) 0 then ret (Err InvalidArgument)
  else
    r1 <- lgetxattr path SELINUX_XATTR ;;
    match r1 with
    | Err e => LOG LOG_WARN ("getcon " ++ path) ;; ret (Err e)
    | Ok sized =>
        r2 <- lgetxattr path SELINUX_XATTR ;;
        match r2 with
        | Err e => LOG LOG_WARN ("getcon " ++ path) ;; ret (Err e)
        | Ok value =>
            if negb (Nat.eqb (String.length value) (String.length sized))
            then ret (Err Unexpected)
            else LOG LOG_DEBUG ("get_selcon(" ++ path ++ ")") ;;
                 ret (Ok value)
        end
    end.

Definition copy_selcon (src dst : string) : M W (Res unit) :=
  if (Nat.eqb (String.length src) 0 || Nat.eqb (String.length dst) 0)%bool
  then LOG LOG_DEBUG "copy_selcon: skip null args" ;;
       ret (Err InvalidArgument)
  else
    LOG LOG_DEBUG ("copy_selcon(" ++ src ++ " -> " ++ dst ++ ")") ;;
    con <-? get_selcon src ;;
    set_selcon dst con.

End WithKernel.

End Utils.

(** ** ksu.zig *)

Module Ksu.
Section WithKernel.
Context {W : Type} `{Kernel W}.

Definition set_driver_fd (fd : Z) : M W unit :=
  fun s => Some (tt, mkSt (st_world s) (st_ctx s) (st_trace s)
                          (st_log s) (Some fd)).

Definition ksuGrabFdOnce : M W unit :=
  fun s =>
    let '(w', (result, fd)) := k_ksu_install (st_world s) in
    let s' := mkSt w' (st_ctx s) (st_trace s ++ [EvKsuInstall])
                   (st_log s) (st_ksu_fd s) in
    if negb (result =? 0) then
      (LOG LOG_WARN "failed to grab KSU driver fd" ;;
       set_driver_fd result) s'
    else
      (LOG (if fd <? 0 then LOG_WARN else LOG_DEBUG)
           (if fd <? 0 then "grabbed invalid KSU driver fd"
            else "grabbed KSU driver fd") ;;
       set_driver_fd fd) s'.

Definition ksuGrabFd : M W Z :=
  fun s =>
    match st_ksu_fd s with
    | Some fd => Some (fd, s)
    | None =>
        (ksuGrabFdOnce ;;
         (fun s' => Some (match st_ksu_fd s' with
                          | Some fd => fd
                          | None => -1
                          end, s'))) s
    end.

Definition ksu_send_unmountable (mntpoint : string) : M W Z :=
  emit (EvMarkUnmountable mntpoint) ;;
  fd <- ksuGrabFd ;;
  if fd <? 0 then ret (-1)
  else
    rc <- call (SysKsuIoctl fd mntpoint 2 1) ;;
    match rc with
    | Ok _ => ret 0
    | Err _ =>
        LOG LOG_ERROR "ioctl KSU_IOCTL_ADD_TRY_UMOUNT failed" ;;
        ret (-1)
    end.

End WithKernel.
End Ksu.

(** ** module_tree.c *)

Module ModuleTree.

Inductive NodeFileType : Type :=
| NFT_REGULAR
| NFT_DIRECTORY
| NFT_SYMLINK
| NFT_WHITEOUT.

Definition NodeFileType_eqb (a b : NodeFileType) : bool :=
  match a, b with
  | NFT_REGULAR, NFT_REGULAR => true
  | NFT_DIRECTORY, NFT_DIRECTORY => true
  | NFT_SYMLINK, NFT_SYMLINK => true
  | NFT_WHITEOUT, NFT_WHITEOUT => true
  | _, _ => false
  end.

(** [struct Node]; the fields carry the prefix [n_]. *)
#[warnings="-register-all"] Inductive Node : Type := mkNode {
  n_name : string;
  n_type : NodeFileType;
  n_children : list Node;
  n_module_path : option string;
  n_module_name : option string;
  n_replace : bool;
  n_skip : bool;
  n_done : bool
}.

Definition set_children (n : Node) (cs : list Node) : Node :=
  mkNode (n_name n) (n_type n) cs (n_module_path n) (n_module_name n)
         (n_replace n) (n_skip n) (n_done n).

Definition set_module_name (n : Node) (m : option string) : Node :=
  mkNode (n_name n) (n_type n) (n_children n) (n_module_path n) m
         (n_replace n) (n_skip n) (n_done n).

Definition set_skip (n : Node) (b : bool) : Node :=
  mkNode (n_name n) (n_type n) (n_children n) (n_module_path n)
         (n_module_name n) (n_replace n) b (n_done n).

Definition set_done (n : Node) (b : bool) : Node :=
  mkNode (n_name n) (n_type n) (n_children n) (n_module_path n)
         (n_module_name n) (n_replace n) (n_skip n) b.

Definition node_new (name : string) (t : NodeFileType) : Node :=
  mkNode name t [] None None false false false.

Definition node_type_from_stat (st : Stat) : NodeFileType :=
  if (S_ISCHR (st_mode st) && (st_rdev st =? 0))%bool then NFT_WHITEOUT
  else if S_ISREG (st_mode st) then NFT_REGULAR
  else if S_ISDIR (st_mode st) then NFT_DIRECTORY
  else if S_ISLNK (st_mode st) then NFT_SYMLINK
  else NFT_WHITEOUT.

Definition node_child_append (parent child : Node) : Node :=
  set_children parent (n_children parent ++ [child]).

Fixpoint find_child (cs : list Node) (name : string) : option Node :=
  match cs with
  | [] => None
  | c :: rest => if String.eqb (n_name c) name then Some c
                 else find_child rest name
  end.

Definition node_child_find (parent : Node) (name : string) : option Node :=
  find_child (n_children parent) name.

(** Removes the first child called [name]; the others keep their order
    ([memmove]). *)
Fixpoint detach_child (cs : list Node) (name : string)
  : option (Node * list Node) :=
  match cs with
  | [] => None
  | c :: rest =>
      if String.eqb (n_name c) name then Some (c, rest)
      else match detach_child rest name with
           | Some (n, rest') => Some (n, c :: rest')
           | None => None
           end
  end.

Definition node_child_detach (parent : Node) (name : string)
  : option (Node * Node) :=
  match detach_child (n_children parent) name with
  | Some (n, cs) => Some (n, set_children parent cs)
  | None => None
  end.

(** A write through the pointer [node_child_find] returned: the first
    child called [name] becomes [c']. *)
Fixpoint store_child (cs : list Node) (name : string) (c' : Node)
  : list Node :=
  match cs with
  | [] => []
  | c :: rest => if String.eqb (n_name c) name then c' :: rest
                 else c :: store_child rest name c'
  end.

Definition node_child_store (parent : Node) (name : string) (c' : Node)
  : Node :=
  set_children parent (store_child (n_children parent) name c').

(** *** Extra partition blacklist *)

Definition blacklist : list string :=
  [ "bin"; "etc"; "data"; "data_mirror"; "sdcard";
    "tmp"; "dev"; "sys"; "mnt"; "proc"; "d"; "test";
    "product"; "vendor"; "system_ext"; "odm" ].

(** The copy into [char buf[16]]: at most 15 characters, up to the first
    ['/']. *)
Fixpoint first_segment (room : nat) (name : string) : string :=
  match room, name with
  | S room', String c rest =>
      if Str.is_slash c then EmptyString
      else String c (first_segment room' rest)
  | _, _ => EmptyString
  end.

Definition extra_part_blacklisted (name : string) : bool :=
  match name with
  | EmptyString => false
  | _ =>
      let name := Str.drop_while Str.is_slash name in
      let buf := first_segment 15 name in
      Str.mem buf blacklist
  end.

(** [str_array_append(&ctx->extra_parts, &ctx->extra_parts_count, buf)] *)
Definition str_array_append_extra (c : MagicMount) (buf : string)
  : MagicMount :=
  mkCtx (module_dir c) (mount_source c) (stats c) (failed_modules c)
        (extra_parts c ++ [buf]) (enable_unmountable c).

Section WithKernel.
Context {W : Type} `{Kernel W}.

(** [strcmp] reads the bytes of the attribute up to the first NUL
    among them. *)
Definition dir_is_replace (path : string) : M W bool :=
  x <- lgetxattr path REPLACE_DIR_XATTR ;;
  let by_xattr :=
    match x with
    | Ok v => (Nat.ltb 0 (String.length v)
               && Nat.leb (String.length v) 7
               && String.eqb
                    (Str.take_until (fun c => Ascii.eqb c Ascii.zero) v)
                    "y")%bool
    | Err _ => false
    end in
  if by_xattr then ret true
  else
    d <- opendir path ;;
    match d with
    | Err _ => ret false
    | Ok _ => faccessat path REPLACE_DIR_FILE_NAME
    end.

Definition node_create_from_fs (name path : string)
           (module_name : option string) : M W (option Node) :=
  r <- lstat path ;;
  match r with
  | Err _ =>
      LOG LOG_DEBUG ("node_create_from_fs: lstat failed: " ++ path) ;;
      ret None
  | Ok st =>
      if negb (S_ISCHR (st_mode st) || S_ISREG (st_mode st)
               || S_ISDIR (st_mode st) || S_ISLNK (st_mode st))
      then
        LOG LOG_DEBUG
            ("node_create_from_fs: skip unsupported file type for " ++ path) ;;
        ret None
      else
        let t := node_type_from_stat st in
        let n := node_new name t in
        rep <- (if NodeFileType_eqb t NFT_DIRECTORY
                then dir_is_replace path else ret false) ;;
        let n := mkNode (n_name n) (n_type n) (n_children n)
                        (Some path) module_name rep false false in
        set_stats (fun st =>
          mkStats (modules_total st) (nodes_total st + 1)
                  (nodes_mounted st) (nodes_skipped st)
                  (nodes_whiteout st) (nodes_fail st)) ;;
        ret (Some n)
  end.

Definition module_mark_failed (module_name : string) : M W unit :=
  c <- get_ctx ;;
  if Str.mem module_name (failed_modules c) then ret tt
  else set_ctx (mkCtx (module_dir c) (mount_source c) (stats c)
                      (failed_modules c ++ [module_name])
                      (extra_parts c) (enable_unmountable c)).

(** [start] and [len] delimit the token: the argument is that token. *)
Definition extra_partition_register (token : string) : M W unit :=
  if Nat.eqb (String.length token) 0 then
    LOG LOG_WARN "extra_partition_register: invalid input" ;; ret tt
  else
    let buf := Utils.str_trim token in
    match buf with
    | EmptyString =>
        LOG LOG_WARN
            "extra_partition_register: rejected empty string after trim" ;;
        ret tt
    | _ =>
        if extra_part_blacklisted buf then
          LOG LOG_WARN
              ("extra_partition_register: rejected '" ++ buf
               ++ "' (blacklisted)") ;;
          ret tt
        else
          c <- get_ctx ;;
          set_ctx (str_array_append_extra c buf) ;;
          LOG LOG_INFO
              ("extra_partition_register: success added '" ++ buf ++ "'")
    end.

Fixpoint any_exists (mod_dir : string) (files : list string) : M W bool :=
  match files with
  | [] => ret false
  | f :: rest =>
      match Utils.path_join mod_dir f with
      | Ok buf =>
          e <- Utils.path_exists buf ;;
          if e then ret true else any_exists mod_dir rest
      | Err _ => any_exists mod_dir rest
      end
  end.

Definition module_is_disabled (mod_dir : string) : M W bool :=
  any_exists mod_dir
    [DISABLE_FILE_NAME; REMOVE_FILE_NAME; SKIP_MOUNT_FILE_NAME].


(** *** Node collect *)

(** The [while] loop of [node_scan_dir] over the entries that
    [readdir] yields. [scan] stands for the recursive call
    [node_scan_dir(ctx, child, path, module_name, &sub)]. *)
Fixpoint scan_entries (scan : Node -> string -> M W (Res (Node * bool)))
         (dir : string) (module_name : option string)
         (entries : list string) (self : Node) (any : bool)
  : M W (Res (Node * bool)) :=
  match entries with
  | [] => ret (Ok (self, any))
  | d_name :: rest =>
      if (String.eqb d_name "." || String.eqb d_name "..")%bool
      then scan_entries scan dir module_name rest self any
      else
        match Utils.path_join dir d_name with
        | Err e => ret (Err e)
        | Ok path =>
            found <-
              match node_child_find self d_name with
              | Some c => ret (self, Some c)
              | None =>
                  n <- node_create_from_fs d_name path module_name ;;
                  match n with
                  | Some n => ret (node_child_append self n, Some n)
                  | None => ret (self, None)
                  end
              end ;;
            let '(self, child) := found in
            match child with
            | Some c =>
                match n_type c with
                | NFT_DIRECTORY =>
                    r <- scan c path ;;
                    match r with
                    | Err e => ret (Err e)
                    | Ok (c', sub) =>
                        scan_entries scan dir module_name rest
                          (node_child_store self d_name c')
                          (if (sub || n_replace c')%bool then true else any)
                    end
                | _ => scan_entries scan dir module_name rest self true
                end
            | None => scan_entries scan dir module_name rest self any
            end
        end
  end.

(** [node_scan_dir]: the node [self] with the entries of [dir] merged
    in, and [*has_any]; an error stands for the return value [-1]. *)
Fixpoint node_scan_dir (fuel : nat) (self : Node) (dir : string)
         (module_name : option string) : M W (Res (Node * bool)) :=
  match fuel with
  | O => out_of_fuel
  | S fuel' =>
      d <- opendir dir ;;
      match d with
      | Err e => ret (Err e)
      | Ok ds =>
          scan_entries (fun child path =>
                          node_scan_dir fuel' child path module_name)
                       dir module_name (ds_entries ds) self false
      end
  end.

(** *** Symlink compatibility *)

(** [strncmp(a, b, n) == 0] on NUL-terminated strings. *)
Fixpoint strncmp_eq (a b : string) (n : nat) {struct n} : bool :=
  match n with
  | O => true
  | S n' =>
      match a, b with
      | EmptyString, EmptyString => true
      | String x a', String y b' => (Ascii.eqb x y && strncmp_eq a' b' n')%bool
      | _, _ => false
      end
  end.

(** [snprintf(buf, PATH_MAX, "../%s", part_name)] *)
Definition expected_relative (part_name : string) : string :=
  Str.take (Z.to_nat (Utils.PATH_MAX - 1)) ("../" ++ part_name).

(** [strncmp(link_target, expected, target_len) == 0 &&
    expected[target_len] == 0] *)
Definition same_upto (link_target expected : string) (target_len : nat)
  : bool :=
  (strncmp_eq link_target expected target_len
   && Nat.eqb (String.length expected) target_len)%bool.

(** The paths are joined with [path_join] of utils.zig. *)
Definition is_compatible_symlink (link_target part_name : string)
           (ctx : option MagicMount) (module_name : option string) : bool :=
  let target_len :=
    String.length (Str.drop_while_end Str.is_slash link_target) in
  if Nat.eqb target_len 0 then false
  else if same_upto link_target (expected_relative part_name) target_len
  then true
  else
    match ctx, module_name with
    | Some c, Some mn =>
        match module_dir c with
        | Some mdir =>
            match Utils.path_join mdir mn with
            | Ok tmp =>
                match Utils.path_join tmp part_name with
                | Ok expected_absolute =>
                    same_upto link_target expected_absolute target_len
                | Err _ => false
                end
            | Err _ => false
            end
        | None => false
        end
    | _, _ => false
    end.

(** [opendir(ctx->module_dir)]; a null [module_dir] cannot be opened. *)
Definition open_module_dir : M W (Res DirStream) :=
  c <- get_ctx ;;
  match module_dir c with
  | Some mdir => opendir mdir
  | None => ret (Err (SysErr 14))
  end.

Definition ctx_module_dir : M W string :=
  c <- get_ctx ;;
  ret (match module_dir c with Some mdir => mdir | None => "" end).

(** The module directory [mod_path] of the entry [d_name], when it is
    an enabled module; [None] is the [continue] of the loops. *)
Definition enabled_module (mdir d_name : string) : M W (option string) :=
  match Utils.path_join mdir d_name with
  | Err _ => ret None
  | Ok mod_path =>
      st <- stat mod_path ;;
      match st with
      | Err _ => ret None
      | Ok mod_st =>
          if negb (S_ISDIR (st_mode mod_st)) then ret None
          else
            dis <- module_is_disabled mod_path ;;
            if dis then ret None else ret (Some mod_path)
      end
  end.

Fixpoint find_real_partition_loop (mdir part_name : string)
         (entries : list string) (buf_size : nat)
  : M W (option (string * string)) :=
  match entries with
  | [] => ret None
  | d_name :: rest =>
      if (String.eqb d_name "." || String.eqb d_name "..")%bool
      then find_real_partition_loop mdir part_name rest buf_size
      else
        m <- enabled_module mdir d_name ;;
        match m with
        | None => find_real_partition_loop mdir part_name rest buf_size
        | Some mod_path =>
            match Utils.path_join mod_path part_name with
            | Err _ => find_real_partition_loop mdir part_name rest buf_size
            | Ok part_path =>
                isdir <- Utils.path_is_dir part_path ;;
                if isdir
                then ret (Some (Str.take (buf_size - 1) part_path,
                                Str.take (buf_size - 1) d_name))
                else find_real_partition_loop mdir part_name rest buf_size
            end
        end
  end.

Definition find_real_partition_dir (part_name : string) (buf_size : nat)
  : M W (option (string * string)) :=
  d <- open_module_dir ;;
  match d with
  | Err _ => ret None
  | Ok ds =>
      mdir <- ctx_module_dir ;;
      find_real_partition_loop mdir part_name (ds_entries ds) buf_size
  end.

(** The return value and the node [system] as the call leaves it. *)
Definition symlink_resolve_partition (fuel : nat) (system : Node)
           (part_name : string) : M W (Z * Node) :=
  match node_child_find system part_name with
  | None => ret (0, system)
  | Some sys_child =>
      match n_type sys_child, n_module_path sys_child with
      | NFT_SYMLINK, Some mp =>
          l <- readlink mp ;;
          match l with
          | Err _ => ret (0, system)
          | Ok target =>
              let link_target := Str.take (Z.to_nat (Utils.PATH_MAX - 1)) target in
              c <- get_ctx ;;
              if negb (is_compatible_symlink link_target part_name (Some c)
                         (n_module_name sys_child))
              then ret (0, system)
              else
                f <- find_real_partition_dir part_name 256 ;;
                match f with
                | None => ret (0, system)
                | Some (real_part_path, module_name_buf) =>
                    let new_part := node_new part_name NFT_DIRECTORY in
                    r <- node_scan_dir fuel new_part real_part_path
                                       (Some module_name_buf) ;;
                    match r with
                    | Err _ => ret (-1, system)
                    | Ok (new_part, part_has_any) =>
                        if negb part_has_any then ret (0, system)
                        else
                          let system :=
                            match node_child_detach system part_name with
                            | Some (_, system') => system'
                            | None => system
                            end in
                          let new_part :=
                            set_module_name new_part (Some module_name_buf) in
                          ret (0, node_child_append system new_part)
                    end
                end
          end
      | _, _ => ret (0, system)
      end
  end.

Fixpoint symlink_resolve_each (fuel : nat) (system : Node)
         (parts : list string) : M W Node :=
  match parts with
  | [] => ret system
  | p :: rest =>
      r <- symlink_resolve_partition fuel system p ;;
      symlink_resolve_each fuel (snd r) rest
  end.

Definition symlink_resolve_all_partition_links (fuel : nat) (system : Node)
  : M W Node :=
  system <- symlink_resolve_each fuel system
              ["vendor"; "system_ext"; "product"; "odm"] ;;
  c <- get_ctx ;;
  symlink_resolve_each fuel system (extra_parts c).


(** *** Extra partition collect *)

Fixpoint partition_scan_loop (fuel : nat) (mdir part_name : string)
         (entries : list string) (parent_node : Node) (has_any : bool)
  : M W (Z * Node) :=
  match entries with
  | [] => ret (if has_any then 0 else 1, parent_node)
  | d_name :: rest =>
      if (String.eqb d_name "." || String.eqb d_name "..")%bool
      then partition_scan_loop fuel mdir part_name rest parent_node has_any
      else
        m <- enabled_module mdir d_name ;;
        match m with
        | None =>
            partition_scan_loop fuel mdir part_name rest parent_node has_any
        | Some mod_path =>
            match Utils.path_join mod_path part_name with
            | Err _ =>
                partition_scan_loop fuel mdir part_name rest parent_node
                                    has_any
            | Ok part_path =>
                isdir <- Utils.path_is_dir part_path ;;
                if negb isdir
                then partition_scan_loop fuel mdir part_name rest
                                         parent_node has_any
                else
                  r <- node_scan_dir fuel parent_node part_path
                                     (Some d_name) ;;
                  match r with
                  | Err _ => ret (-1, parent_node)
                  | Ok (parent_node, sub) =>
                      partition_scan_loop fuel mdir part_name rest
                        parent_node (if sub then true else has_any)
                  end
            end
        end
  end.

(** [0]: content was collected; [1]: none; [-1]: failure. *)
Definition partition_scan_from_modules (fuel : nat) (part_name : string)
           (parent_node : Node) : M W (Z * Node) :=
  d <- open_module_dir ;;
  match d with
  | Err _ => ret (-1, parent_node)
  | Ok ds =>
      mdir <- ctx_module_dir ;;
      partition_scan_loop fuel mdir part_name (ds_entries ds)
                          parent_node false
  end.

(** *** Partition promotion *)

(** The return value, [root] and [system]. *)
Definition partition_promote_to_root (root system : Node)
           (part_name : string) (need_symlink : bool)
  : M W (Z * Node * Node) :=
  match Utils.path_join "/" part_name,
        Utils.path_join "/system" part_name with
  | Ok rp, Ok sp =>
      isdir <- Utils.path_is_dir rp ;;
      if negb isdir then ret (0, root, system)
      else
        skip <- (if need_symlink
                 then l <- Utils.path_is_symlink sp ;; ret (negb l)
                 else ret false) ;;
        if (skip : bool) then ret (0, root, system)
        else
          match node_child_detach system part_name with
          | None => ret (0, root, system)
          | Some (child, system') =>
              ret (0, node_child_append root child, system')
          end
  | _, _ => ret (-1, root, system)
  end.

Fixpoint promote_builtin (root system : Node)
         (parts : list (string * bool)) : M W (Res (Node * Node)) :=
  match parts with
  | [] => ret (Ok (root, system))
  | (part, need_symlink) :: rest =>
      r <- partition_promote_to_root root system part need_symlink ;;
      let '(rc, root, system) := r in
      if negb (rc =? 0) then ret (Err (SysErr rc))
      else promote_builtin root system rest
  end.

(** *** Root collection *)

Definition count_module : M W unit :=
  set_stats (fun st =>
    mkStats (modules_total st + 1) (nodes_total st) (nodes_mounted st)
            (nodes_skipped st) (nodes_whiteout st) (nodes_fail st)).

Definition count_root_and_system : M W unit :=
  set_stats (fun st =>
    mkStats (modules_total st) (nodes_total st + 2) (nodes_mounted st)
            (nodes_skipped st) (nodes_whiteout st) (nodes_fail st)).

(** The first loop of [build_mount_tree], over the entries of the
    module directory: [system] with every module merged in, and
    [has_any]. An error is one of the [return NULL] of the loop. *)
Fixpoint collect_modules (fuel : nat) (mdir : string)
         (entries : list string) (system : Node) (has_any : bool)
  : M W (Res (Node * bool)) :=
  match entries with
  | [] => ret (Ok (system, has_any))
  | d_name :: rest =>
      if (String.eqb d_name "." || String.eqb d_name "..")%bool
      then collect_modules fuel mdir rest system has_any
      else
        match Utils.path_join mdir d_name with
        | Err e => ret (Err e)
        | Ok mod_path =>
            st <- stat mod_path ;;
            match st with
            | Err _ => collect_modules fuel mdir rest system has_any
            | Ok mod_st =>
                if negb (S_ISDIR (st_mode mod_st))
                then collect_modules fuel mdir rest system has_any
                else
                  dis <- module_is_disabled mod_path ;;
                  if dis
                  then collect_modules fuel mdir rest system has_any
                  else
                    match Utils.path_join mod_path "system" with
                    | Err e => ret (Err e)
                    | Ok mod_sys =>
                        isdir <- Utils.path_is_dir mod_sys ;;
                        if negb isdir
                        then collect_modules fuel mdir rest system has_any
                        else
                          count_module ;;
                          r <- node_scan_dir fuel system mod_sys
                                             (Some d_name) ;;
                          match r with
                          | Err e => ret (Err e)
                          | Ok (system, sub) =>
                              collect_modules fuel mdir rest system
                                (if sub then true else has_any)
                          end
                    end
            end
        end
  end.

(** The loop over [ctx->extra_parts]. *)
Fixpoint attach_extra_parts (fuel : nat) (root : Node)
         (names : list string) : M W (Res Node) :=
  match names with
  | [] => ret (Ok root)
  | name :: rest =>
      match Utils.path_join "/" name with
      | Err _ => attach_extra_parts fuel root rest
      | Ok rp =>
          isdir <- Utils.path_is_dir rp ;;
          if negb isdir then attach_extra_parts fuel root rest
          else
            let child := node_new name NFT_DIRECTORY in
            r <- partition_scan_from_modules fuel name child ;;
            let '(rc, child) := r in
            if rc =? 0
            then attach_extra_parts fuel (node_child_append root child) rest
            else if rc =? 1
            then attach_extra_parts fuel root rest
            else ret (Err (SysErr rc))
      end
  end.

(** [ctx->module_dir ? ctx->module_dir : DEFAULT_MODULE_DIR] *)
Definition scanned_module_dir (c : MagicMount) : string :=
  match module_dir c with
  | Some d => d
  | None => DEFAULT_MODULE_DIR
  end.

(** [NULL] is [None]. *)
Definition build_mount_tree (fuel : nat) : M W (option Node) :=
  c <- get_ctx ;;
  let mdir := scanned_module_dir c in
  let root := node_new "" NFT_DIRECTORY in
  let system := node_new "system" NFT_DIRECTORY in
  d <- opendir mdir ;;
  match d with
  | Err _ => ret None
  | Ok ds =>
      r <- collect_modules fuel mdir (ds_entries ds) system false ;;
      match r with
      | Err _ => ret None
      | Ok (system, has_any) =>
          if negb has_any then
            LOG LOG_WARN
                "build_mount_tree: no module contributed any content, abort" ;;
            ret None
          else
            count_root_and_system ;;
            system <- symlink_resolve_all_partition_links fuel system ;;
            p <- promote_builtin root system
                   [("vendor", true); ("system_ext", true);
                    ("product", true); ("odm", false)] ;;
            match p with
            | Err _ => ret None
            | Ok (root, system) =>
                c <- get_ctx ;;
                x <- attach_extra_parts fuel root (extra_parts c) ;;
                match x with
                | Err _ => ret None
                | Ok root => ret (Some (node_child_append root system))
                end
            end
      end
  end.

End WithKernel.
End ModuleTree.

(** ** magic_mount.zig *)

Module Apply.
Import ModuleTree.

Definition WORKDIR_MARK : string := ".magic_mount/workdir/".

Section WithKernel.
Context {W : Type} `{Kernel W}.

Definition count_mounted : M W unit :=
  set_stats (fun st =>
    mkStats (modules_total st) (nodes_total st) (nodes_mounted st + 1)
            (nodes_skipped st) (nodes_whiteout st) (nodes_fail st)).

Definition count_whiteout : M W unit :=
  set_stats (fun st =>
    mkStats (modules_total st) (nodes_total st) (nodes_mounted st)
            (nodes_skipped st) (nodes_whiteout st + 1) (nodes_fail st)).

Definition count_fail : M W unit :=
  set_stats (fun st =>
    mkStats (modules_total st) (nodes_total st) (nodes_mounted st)
            (nodes_skipped st) (nodes_whiteout st) (nodes_fail st + 1)).

Definition mm_clone_symlink (src dst : string) : M W (Res unit) :=
  target <-? readlink src ;;
  call (SysSymlink target dst) ;;?
  _ <- Utils.copy_selcon src dst ;;
  ret (Ok tt).

(** [mm_mirror_entry] *)
Fixpoint mm_mirror_entry (fuel : nat) (path work name : string)
  : M W (Res unit) :=
  match fuel with
  | O => out_of_fuel
  | S fuel' =>
      match Utils.path_join path name, Utils.path_join work name with
      | Ok src, Ok dst =>
          l <- lstat src ;;
          match l with
          | Err _ => LOG LOG_WARN ("lstat " ++ src) ;; ret (Ok tt)
          | Ok st =>
              if S_ISREG (st_mode st) then
                call (SysCreate dst (Z.land (st_mode st) 0xFFF)) ;;?
                mount (Some src) dst None MS_BIND
              else if S_ISDIR (st_mode st) then
                mk <- call (SysMkdir dst (Z.land (st_mode st) 0xFFF)) ;;
                match mk with
                | Err PathAlreadyExists | Ok _ =>
                    _ <- call (SysChmod dst (Z.land (st_mode st) 0xFFF)) ;;
                    _ <- call (SysChown dst (st_uid st) (st_gid st)) ;;
                    _ <- Utils.copy_selcon src dst ;;
                    dir <-? opendir src ;;
                    (fix each (entries : list string) : M W (Res unit) :=
                       match entries with
                       | [] => ret (match ds_error dir with
                                    | Some e => Err e
                                    | None => Ok tt
                                    end)
                       | entry :: rest =>
                           if (String.eqb entry "."
                               || String.eqb entry "..")%bool
                           then each rest
                           else mm_mirror_entry fuel' src dst entry ;;?
                                each rest
                       end) (ds_entries dir)
                | Err _ => ret (Err DirectoryCreationFailed)
                end
              else if S_ISLNK (st_mode st) then mm_clone_symlink src dst
              else ret (Ok tt)
          end
      | _, _ => ret (Ok tt)
      end
  end.

(** [mm_apply_regular_file], from the test of [node.module_path] on.
    The test before the call of [ksu_send_unmountable] asks whether
    [target] contains [".magic_mount/workdir/"]. *)
Definition apply_regular_bind (path target : string) (node : Node)
  : M W (Res unit) :=
  match n_module_path node with
  | None =>
      LOG LOG_ERROR ("no module file for " ++ path) ;;
      ret (Err InvalidArgument)
  | Some module_path =>
      mount (Some module_path) target None MS_BIND ;;?
      (if negb (Str.contains target WORKDIR_MARK) then
         c <- get_ctx ;;
         if enable_unmountable c
         then _ <- Ksu.ksu_send_unmountable path ;; ret tt
         else ret tt
       else ret tt) ;;
      _ <- mount None target None
                 (Z.lor (Z.lor MS_REMOUNT MS_BIND) MS_RDONLY) ;;
      count_mounted ;;
      ret (Ok tt)
  end.

(** [mm_apply_regular_file] *)
Definition mm_apply_regular_file (path wpath : string) (node : Node)
           (has_tmpfs : bool) : M W (Res unit) :=
  let target := if has_tmpfs then wpath else path in
  if has_tmpfs then
    match Str.last_index_from "/"%char wpath 0 with
    | None => ret (Ok tt)
    | Some last_slash =>
        let parent := Str.take last_slash wpath in
        Utils.mkdir_p parent ;;?
        call (SysCreate wpath 0x1A4) ;;?
        apply_regular_bind path target node
    end
  else apply_regular_bind path target node.

Definition mm_apply_symlink (path wpath : string) (node : Node)
  : M W (Res unit) :=
  match n_module_path node with
  | None =>
      LOG LOG_ERROR ("no module symlink for " ++ path) ;;
      ret (Err InvalidArgument)
  | Some module_path =>
      mm_clone_symlink module_path wpath ;;?
      count_mounted ;;
      ret (Ok tt)
  end.

(** The loop of [mm_check_need_tmpfs]: the answer, and the children
    with the [skip] marks it set. *)
Fixpoint check_need_tmpfs_loop (has_module_path : bool) (path : string)
         (cs : list Node) : M W (bool * list Node) :=
  match cs with
  | [] => ret (false, [])
  | child :: rest =>
      let continue_ (child : Node) : M W (bool * list Node) :=
        r <- check_need_tmpfs_loop has_module_path path rest ;;
        ret (fst r, child :: snd r) in
      match Utils.path_join path (n_name child) with
      | Err _ => continue_ child
      | Ok rp =>
          need <-
            match n_type child with
            | NFT_SYMLINK => ret (Some true)
            | NFT_WHITEOUT => e <- Utils.path_exists rp ;; ret (Some e)
            | _ =>
                l <- lstat rp ;;
                match l with
                | Err _ => ret None
                | Ok st =>
                    let rt := node_type_from_stat st in
                    ret (Some (negb (NodeFileType_eqb rt (n_type child))
                               || NodeFileType_eqb rt NFT_SYMLINK)%bool)
                end
            end ;;
          match need with
          | None => continue_ child
          | Some need =>
              if (need && negb has_module_path)%bool then
                LOG LOG_ERROR ("cannot create tmpfs on " ++ path) ;;
                continue_ (set_skip child true)
              else if need then ret (true, child :: rest)
              else continue_ child
          end
      end
  end.

Definition mm_check_need_tmpfs (node : Node) (path : string)
  : M W (bool * Node) :=
  r <- check_need_tmpfs_loop
         (match n_module_path node with Some _ => true | None => false end)
         path (n_children node) ;;
  ret (fst r, set_children node (snd r)).

(** [mm_setup_dir_tmpfs]: the metadata is copied on the branch where
    [stat(path)] succeeded. *)
Definition mm_setup_dir_tmpfs (path wpath : string) (node : Node)
  : M W (Res unit) :=
  Utils.mkdir_p wpath ;;?
  r <- stat path ;;
  match r with
  | Err err1 =>
      match n_module_path node with
      | Some mp =>
          r2 <- stat mp ;;
          match r2 with
          | Err _ => LOG LOG_ERROR ("no dir meta for " ++ path) ;;
                     ret (Err err1)
          | Ok _ => ret (Ok tt)
          end
      | None => LOG LOG_ERROR ("no dir meta for " ++ path) ;;
                ret (Err err1)
      end
  | Ok st =>
      _ <- call (SysChmod wpath (Z.land (st_mode st) 0xFFF)) ;;
      _ <- call (SysChown wpath (st_uid st) (st_gid st)) ;;
      _ <- Utils.copy_selcon path wpath ;;
      ret (Ok tt)
  end.

(** The [catch] block shared by the two loops over the children. *)
Definition child_failed (node c : Node) : M W unit :=
  match n_module_name c, n_module_name node with
  | Some mn, _ | None, Some mn => module_mark_failed mn
  | None, None => ret tt
  end ;;
  count_fail.

Section Children.
(** The recursive call [mm_apply_node_recursive(ctx, allocator, base,
    wbase, node, has_tmpfs)], which returns the node as the call
    leaves it. *)
Variable apply : string -> string -> Node -> bool -> M W (Res unit * Node).
Variable fuel : nat.

(** The [while] loop of [mm_process_dir_children]. *)
Fixpoint dir_children_loop (path wpath : string) (now_tmp : bool)
         (stream_error : option Error)
         (entries : list string) (node : Node)
  : M W (Res unit * Node) :=
  match entries with
  | [] => ret (match stream_error with
               | Some e => Err e
               | None => Ok tt
               end, node)
  | entry :: rest =>
      if (String.eqb entry "." || String.eqb entry "..")%bool
      then dir_children_loop path wpath now_tmp stream_error rest node
      else
        match node_child_find node entry with
        | Some c =>
            if n_skip c then
              dir_children_loop path wpath now_tmp stream_error rest
                (node_child_store node entry (set_done c true))
            else
              r <- apply path wpath (set_done c true) now_tmp ;;
              let '(res, c') := r in
              let node := node_child_store node entry c' in
              match res with
              | Ok _ =>
                  dir_children_loop path wpath now_tmp stream_error
                                    rest node
              | Err err =>
                  child_failed node c' ;;
                  if now_tmp then ret (Err err, node)
                  else dir_children_loop path wpath now_tmp
                                         stream_error rest node
              end
        | None =>
            if now_tmp then
              _ <- mm_mirror_entry fuel path wpath entry ;;
              dir_children_loop path wpath now_tmp stream_error rest node
            else
              dir_children_loop path wpath now_tmp stream_error rest node
        end
  end.

Definition mm_process_dir_children (path wpath : string) (node : Node)
           (now_tmp : bool) : M W (Res unit * Node) :=
  e <- Utils.path_exists path ;;
  if (negb e || n_replace node)%bool then ret (Ok tt, node)
  else
    d <- opendir path ;;
    match d with
    | Err err =>
        if negb now_tmp then ret (Ok tt, node)
        else LOG LOG_ERROR ("opendir " ++ path) ;; ret (Err err, node)
    | Ok dir =>
        dir_children_loop path wpath now_tmp (ds_error dir)
                          (ds_entries dir) node
    end.

(** The [for] loop of [mm_process_remaining_children] over the
    children that are still to visit; the children as the loop
    leaves them. *)
Fixpoint remaining_children_loop (path wpath : string) (node : Node)
         (now_tmp : bool) (cs : list Node)
  : M W (Res unit * list Node) :=
  match cs with
  | [] => ret (Ok tt, [])
  | child :: rest =>
      if (n_skip child || n_done child)%bool then
        r <- remaining_children_loop path wpath node now_tmp rest ;;
        ret (fst r, child :: snd r)
      else
        r <- apply path wpath child now_tmp ;;
        let '(res, child') := r in
        match res with
        | Ok _ =>
            r <- remaining_children_loop path wpath node now_tmp rest ;;
            ret (fst r, child' :: snd r)
        | Err err =>
            child_failed node child' ;;
            if now_tmp then ret (Err err, child' :: rest)
            else
              r <- remaining_children_loop path wpath node now_tmp rest ;;
              ret (fst r, child' :: snd r)
        end
  end.

Definition mm_process_remaining_children (path wpath : string)
           (node : Node) (now_tmp : bool) : M W (Res unit * Node) :=
  r <- remaining_children_loop path wpath node now_tmp
                               (n_children node) ;;
  ret (fst r, set_children node (snd r)).

End Children.


(** The last step of a directory that was built in the workdir. *)
Definition finalise_tmpfs (path wpath : string) : M W (Res unit) :=
  _ <- mount None wpath None (Z.lor (Z.lor MS_REMOUNT MS_BIND) MS_RDONLY) ;;
  mount (Some wpath) path None MS_MOVE ;;?
  _ <- mount None path None (Z.lor MS_REC MS_PRIVATE) ;;
  c <- get_ctx ;;
  (if enable_unmountable c
   then _ <- Ksu.ksu_send_unmountable path ;; ret tt
   else ret tt) ;;
  ret (Ok tt).

(** [mm_apply_node_recursive]: the result, and the node with the marks
    the call set on it and below it. *)
Fixpoint mm_apply_node_recursive (fuel : nat) (base wbase : string)
         (node : Node) (has_tmpfs : bool) : M W (Res unit * Node) :=
  match fuel with
  | O => out_of_fuel
  | S fuel' =>
      match Utils.path_join base (n_name node),
            Utils.path_join wbase (n_name node) with
      | Ok path, Ok wpath =>
          match n_type node with
          | NFT_REGULAR =>
              r <- mm_apply_regular_file path wpath node has_tmpfs ;;
              ret (r, node)
          | NFT_SYMLINK =>
              r <- mm_apply_symlink path wpath node ;;
              ret (r, node)
          | NFT_WHITEOUT =>
              count_whiteout ;;
              ret (Ok tt, node)
          | NFT_DIRECTORY =>
              let create_tmp :=
                (negb has_tmpfs && n_replace node
                 && match n_module_path node with
                    | Some _ => true
                    | None => false
                    end)%bool in
              probe <- (if (negb has_tmpfs && negb create_tmp)%bool
                        then mm_check_need_tmpfs node path
                        else ret (create_tmp, node)) ;;
              let '(create_tmp, node) := probe in
              let now_tmp := (has_tmpfs || create_tmp)%bool in
              setup <- (if now_tmp then mm_setup_dir_tmpfs path wpath node
                        else ret (Ok tt)) ;;
              match setup with
              | Err e => ret (Err e, node)
              | Ok _ =>
                  self <- (if create_tmp
                           then mount (Some wpath) wpath None MS_BIND
                           else ret (Ok tt)) ;;
                  match self with
                  | Err e => ret (Err e, node)
                  | Ok _ =>
                      r1 <- mm_process_dir_children
                              (mm_apply_node_recursive fuel') fuel'
                              path wpath node now_tmp ;;
                      match r1 with
                      | (Err e, node) => ret (Err e, node)
                      | (Ok _, node) =>
                          r2 <- mm_process_remaining_children
                                  (mm_apply_node_recursive fuel')
                                  path wpath node now_tmp ;;
                          match r2 with
                          | (Err e, node) => ret (Err e, node)
                          | (Ok _, node) =>
                              fin <- (if create_tmp
                                      then finalise_tmpfs path wpath
                                      else ret (Ok tt)) ;;
                              match fin with
                              | Err e => ret (Err e, node)
                              | Ok _ => count_mounted ;; ret (Ok tt, node)
                              end
                          end
                      end
                  end
              end
          end
      | _, _ => ret (Ok tt, node)
      end
  end.

(** [magic_mount] *)
Definition magic_mount (fuel : nat) (tmp_root : string) : M W (Res Z) :=
  b <- build_mount_tree fuel ;;
  match b with
  | None =>
      LOG LOG_INFO "no modules, magic_mount skipped" ;;
      ret (Ok 0)
  | Some root =>
      match Utils.path_join tmp_root "workdir" with
      | Err _ => ret (Ok (-1))
      | Ok tmp_dir =>
          Utils.mkdir_p tmp_dir ;;?
          c <- get_ctx ;;
          mount (Some (mount_source c)) tmp_dir (Some "tmpfs") 0 ;;?
          _ <- mount None tmp_dir None (Z.lor MS_REC MS_PRIVATE) ;;
          r <- mm_apply_node_recursive fuel "/" tmp_dir root false ;;
          rc <- match fst r with
                | Ok _ => ret 0
                | Err _ => count_fail ;; ret (-1)
                end ;;
          u <- call (SysUmount2 tmp_dir MNT_DETACH) ;;
          match u with
          | Err _ => LOG LOG_ERROR ("umount " ++ tmp_dir)
          | Ok _ => ret tt
          end ;;
          _ <- call (SysRmdir tmp_dir) ;;
          ret (Ok rc)
      end
  end.

End WithKernel.
End Apply.

(** ** The logger ([src/utils.zig])

    The globals of the logger are the fields of [Logger]; [written] is
    what the logger has handed to a writer, with the file it went to
    ([None] for the standard error stream). A write that fails is ignored
    by the code ([catch {}]) and is recorded like any other. *)

Module Logging.

Inductive LogLevel : Type := debug | info | warn | error.

Definition intFromEnum (lv : LogLevel) : Z :=
  match lv with
  | debug => 0
  | info => 1
  | warn => 2
  | error => 3
  end.

(** The line feed that ends a line of the log. *)
Definition newline : string := String (Ascii.ascii_of_nat 10) EmptyString.

(** A [std.fs.File], by its descriptor. *)
Definition File : Type := Z.

Record Logger : Type := mkLogger {
  g_log_level : LogLevel;
  g_log_file : option File;
  g_log_initialized : bool;
  g_log_buf : list string;
  written : list (option File * string)
}.

(** The initial values of the globals, and [logInit]. *)
Definition logInit : Logger := mkLogger info None false [] [].

Definition logSetLevel (level : LogLevel) (lg : Logger) : Logger :=
  mkLogger level (g_log_file lg) (g_log_initialized lg) (g_log_buf lg)
           (written lg).

Definition logLevelStr (lv : LogLevel) : string :=
  match lv with
  | error => "ERROR"
  | warn => "WARN"
  | info => "INFO"
  | debug => "DEBUG"
  end.

Definition logFlushBuffer (lg : Logger) : Logger :=
  let out := g_log_file lg in
  mkLogger (g_log_level lg) (g_log_file lg) (g_log_initialized lg) []
           (fold_left (fun w line =>
                         (w ++ [(out, (line ++ newline)%string)])%list)
                      (g_log_buf lg) (written lg)).

Definition logSetFile (file : option File) (lg : Logger) : Logger :=
  let lg := mkLogger (g_log_level lg) file (g_log_initialized lg)
                     (g_log_buf lg) (written lg) in
  if negb (g_log_initialized lg)
  then logFlushBuffer
         (mkLogger (g_log_level lg) (g_log_file lg) true (g_log_buf lg)
                   (written lg))
  else lg.

(** The decimal digits of [{d}]. *)
Definition decimal (n : N) : string :=
  DecimalString.NilZero.string_of_uint (N.to_uint n).

(** [logWrite]; [msg] is [fmt] with [args] filled in. *)
Definition logWrite (level : LogLevel) (file : string) (line : N)
           (msg : string) (lg : Logger) : Logger :=
  if intFromEnum level >? intFromEnum (g_log_level lg) then lg
  else
    let prefix :=
      "[" ++ logLevelStr level ++ "] " ++ file ++ ":" ++ decimal line ++ ": " in
    let full := prefix ++ msg ++ newline in
    if negb (g_log_initialized lg)
    then
      let entry := String.substring 0 (String.length full - 1) full in
      mkLogger (g_log_level lg) (g_log_file lg) (g_log_initialized lg)
               (g_log_buf lg ++ [entry])%list (written lg)
    else
      mkLogger (g_log_level lg) (g_log_file lg) (g_log_initialized lg)
               (g_log_buf lg) (written lg ++ [(g_log_file lg, full)])%list.

End Logging.

(** ** main.zig *)

Module Main.

Record Config : Type := mkConfig {
  cfg_module_dir : option string;
  cfg_temp_dir : option string;
  cfg_mount_source : option string;
  cfg_log_file : option string;
  cfg_partitions : option string;
  cfg_debug : bool;
  cfg_umount : bool
}.

(** [var cfg: Config = .{ .umount = true }] *)
Definition default_config : Config :=
  mkConfig None None None None None false true.

(** [list[p] == ',' or std.ascii.isWhitespace(list[p])] *)
Definition is_separator (c : ascii) : bool :=
  (Ascii.eqb c ","%char || Str.isWhitespace c)%bool.

(** [while (p < list.len and f(list[p])) p += 1]: the index at which the
    loop stops; it makes at most [n] steps. *)
Fixpoint advance (f : ascii -> bool) (list : string) (p n : nat) : nat :=
  match n with
  | O => p
  | S n' =>
      match String.get p list with
      | Some c => if f c then advance f list (S p) n' else p
      | None => p
      end
  end.

Section WithKernel.
Context {W : Type} `{Kernel W}.

(** The body of the [while] loop of [load_config_file] for one line
    that the reader yields. *)
Definition config_line (line : string) (cfg : Config) : M W Config :=
  let trimmed := Utils.str_trim line in
  if (Nat.eqb (String.length trimmed) 0
      || match String.get 0 trimmed with
         | Some c => Ascii.eqb c "#"%char
         | None => false
         end)%bool
  then ret cfg
  else
    match Str.indexOfScalar trimmed "="%char with
    | None => LOG LOG_WARN "config: invalid line (no '=')" ;; ret cfg
    | Some eq_index =>
        let key := Utils.str_trim (Str.take eq_index trimmed) in
        let val := Utils.str_trim (Str.skip (eq_index + 1) trimmed) in
        if (Nat.eqb (String.length key) 0
            || Nat.eqb (String.length val) 0)%bool
        then ret cfg
        else if Str.eqlIgnoreCase key "module_dir" then
          ret (mkConfig (Some val) (cfg_temp_dir cfg)
                        (cfg_mount_source cfg) (cfg_log_file cfg)
                        (cfg_partitions cfg) (cfg_debug cfg)
                        (cfg_umount cfg))
        else if Str.eqlIgnoreCase key "temp_dir" then
          ret (mkConfig (cfg_module_dir cfg) (Some val)
                        (cfg_mount_source cfg) (cfg_log_file cfg)
                        (cfg_partitions cfg) (cfg_debug cfg)
                        (cfg_umount cfg))
        else if Str.eqlIgnoreCase key "mount_source" then
          ret (mkConfig (cfg_module_dir cfg) (cfg_temp_dir cfg)
                        (Some val) (cfg_log_file cfg)
                        (cfg_partitions cfg) (cfg_debug cfg)
                        (cfg_umount cfg))
        else if Str.eqlIgnoreCase key "log_file" then
          ret (mkConfig (cfg_module_dir cfg) (cfg_temp_dir cfg)
                        (cfg_mount_source cfg) (Some val)
                        (cfg_partitions cfg) (cfg_debug cfg)
                        (cfg_umount cfg))
        else if Str.eqlIgnoreCase key "debug" then
          ret (mkConfig (cfg_module_dir cfg) (cfg_temp_dir cfg)
                        (cfg_mount_source cfg) (cfg_log_file cfg)
                        (cfg_partitions cfg) (Utils.str_is_true val)
                        (cfg_umount cfg))
        else if Str.eqlIgnoreCase key "umount" then
          ret (mkConfig (cfg_module_dir cfg) (cfg_temp_dir cfg)
                        (cfg_mount_source cfg) (cfg_log_file cfg)
                        (cfg_partitions cfg) (cfg_debug cfg)
                        (Utils.str_is_true val))
        else if Str.eqlIgnoreCase key "partitions" then
          ret (mkConfig (cfg_module_dir cfg) (cfg_temp_dir cfg)
                        (cfg_mount_source cfg) (cfg_log_file cfg)
                        (Some val) (cfg_debug cfg)
                        (cfg_umount cfg))
        else
          LOG LOG_WARN ("config: unknown key '" ++ key ++ "'") ;;
          ret cfg
    end.

(** The [while] loop of [load_config_file] over the lines read. *)
Fixpoint config_lines (lines : list string) (cfg : Config)
  : M W Config :=
  match lines with
  | [] => ret cfg
  | line :: rest =>
      cfg <- config_line line cfg ;;
      config_lines rest cfg
  end.

Section Partitions.
(** The call [ModuleTree.extra_partition_register(ctx, allocator,
    token)]. *)
Variable register : string -> M W (Res unit).

(** The outer [while (p < list.len) : (p += 1)] of
    [parse_partitions]. *)
Fixpoint partitions_loop (list : string) (p fuel : nat)
  : M W (Res unit) :=
  match fuel with
  | O => out_of_fuel
  | S fuel' =>
      if negb (Nat.ltb p (String.length list)) then ret (Ok tt)
      else
        let p := advance is_separator list p (String.length list) in
        if Nat.leb (String.length list) p then ret (Ok tt)
        else
          let start := p in
          let p := advance (fun c => negb (is_separator c)) list p
                           (String.length list) in
          let token := String.substring start (p - start) list in
          (if Nat.ltb 0 (String.length token)
           then register token
           else ret (Ok tt)) ;;?
          partitions_loop list (S p) fuel'
  end.

Definition parse_partitions (list : string) : M W (Res unit) :=
  if Nat.eqb (String.length list) 0 then ret (Ok tt)
  else partitions_loop list 0 (S (String.length list)).

(** [register] on each name of a list, up to the first error. *)
Fixpoint register_each (names : list string) : M W (Res unit) :=
  match names with
  | [] => ret (Ok tt)
  | name :: rest => register name ;;? register_each rest
  end.

End Partitions.

End WithKernel.

End Main.

(** ** A small file system to run the code on

    One instance of [Kernel]: a tree of files that the calls leave as it
    is, in which every call with an effect succeeds except a mount on one
    of the targets listed in [sim_fail_mounts]. A path is resolved
    component by component; empty components are skipped, so that
    ["//system"] is ["/system"]; a symbolic link is followed by [stat]
    when it is the last component and its target is absolute. *)

Module Sim.

#[warnings="-register-all"] Inductive FsObj : Type :=
| FsReg
| FsDir (entries : list (string * FsObj))
| FsLnk (target : string)
| FsChr (rdev : Z)
| FsBlk
| FsFifo
| FsSock.

Record World : Type := mkWorld {
  sim_root : list (string * FsObj);
  sim_xattrs : list (string * (string * string));
  sim_fail_mounts : list string;
  sim_ksu_fd : Z
}.

(** The components of a path. *)
Fixpoint split_path (s : string) (cur : string) : list string :=
  match s with
  | EmptyString => match cur with EmptyString => [] | _ => [cur] end
  | String c rest =>
      if Str.is_slash c
      then match cur with
           | EmptyString => split_path rest EmptyString
           | _ => cur :: split_path rest EmptyString
           end
      else split_path rest (cur ++ String c EmptyString)
  end.

Definition components (p : string) : list string := split_path p "".

Fixpoint assoc {A} (k : string) (l : list (string * A)) : option A :=
  match l with
  | [] => None
  | (k', v) :: rest => if String.eqb k k' then Some v else assoc k rest
  end.

Fixpoint walk (dir : list (string * FsObj)) (comps : list string)
  : option FsObj :=
  match comps with
  | [] => Some (FsDir dir)
  | c :: rest =>
      match assoc c dir with
      | Some (FsDir d) => walk d rest
      | Some o => match rest with [] => Some o | _ => None end
      | None => None
      end
  end.

Definition lookup (w : World) (p : string) : option FsObj :=
  walk (sim_root w) (components p).

Fixpoint follow (w : World) (hops : nat) (o : FsObj) : option FsObj :=
  match o, hops with
  | FsLnk target, S hops' =>
      if Str.starts_with "/" target
      then match lookup w target with
           | Some o' => follow w hops' o'
           | None => None
           end
      else None
  | FsLnk _, O => None
  | _, _ => Some o
  end.

Definition stat_of (o : FsObj) : Stat :=
  match o with
  | FsReg => mkStat (Z.lor S_IFREG 0x1A4) 0 0 0
  | FsDir _ => mkStat (Z.lor S_IFDIR 0x1ED) 0 0 0
  | FsLnk _ => mkStat (Z.lor S_IFLNK 0x1FF) 0 0 0
  | FsChr rdev => mkStat (Z.lor S_IFCHR 0x180) rdev 0 0
  | FsBlk => mkStat (Z.lor S_IFBLK 0x180) 0 0 0
  | FsFifo => mkStat (Z.lor S_IFIFO 0x1A4) 0 0 0
  | FsSock => mkStat (Z.lor S_IFSOCK 0x1ED) 0 0 0
  end.

Definition ENOENT : Error := SysErr 2.

Definition sim_lstat (w : World) (p : string) : Res Stat :=
  match lookup w p with
  | Some o => Ok (stat_of o)
  | None => Err ENOENT
  end.

Definition resolve (w : World) (p : string) : option FsObj :=
  match lookup w p with
  | Some o => follow w 8 o
  | None => None
  end.

Definition sim_stat (w : World) (p : string) : Res Stat :=
  match resolve w p with
  | Some o => Ok (stat_of o)
  | None => Err ENOENT
  end.

Definition sim_opendir (w : World) (p : string) : Res DirStream :=
  match resolve w p with
  | Some (FsDir d) => Ok (mkDirStream ("." :: ".." :: map fst d) None)
  | Some _ => Err (SysErr 20)
  | None => Err ENOENT
  end.

Definition sim_readlink (w : World) (p : string) : Res string :=
  match lookup w p with
  | Some (FsLnk t) => Ok t
  | Some _ => Err (SysErr 22)
  | None => Err ENOENT
  end.

Definition canonical (p : string) : string :=
  String.concat "/" ("" :: components p).

Definition sim_lgetxattr (w : World) (p name : string) : Res string :=
  match lookup w p with
  | None => Err ENOENT
  | Some _ =>
      match find (fun e => (String.eqb (fst e) (canonical p)
                            && String.eqb (fst (snd e)) name)%bool)
                 (sim_xattrs w) with
      | Some e => Ok (snd (snd e))
      | None => Err (SysErr 61)
      end
  end.

Definition sim_faccessat (w : World) (dir name : string) : bool :=
  match Utils.path_join dir name with
  | Ok p => match resolve w p with Some _ => true | None => false end
  | Err _ => false
  end.

Definition sim_call (w : World) (c : Syscall) : World * Res unit :=
  match c with
  | SysMount _ target _ _ =>
      if Str.mem (canonical target) (sim_fail_mounts w)
      then (w, Err (SysErr 22))
      else (w, Ok tt)
  | _ => (w, Ok tt)
  end.

#[global] Instance sim_kernel : Kernel World := {
  k_lstat := sim_lstat;
  k_stat := sim_stat;
  k_opendir := sim_opendir;
  k_readlink := sim_readlink;
  k_lgetxattr := sim_lgetxattr;
  k_faccessat := sim_faccessat;
  k_ksu_install := fun w => (w, (0, sim_ksu_fd w));
  k_call := sim_call
}.

Fixpoint distinct (l : list string) : bool :=
  match l with
  | [] => true
  | x :: rest => negb (Str.mem x rest) && distinct rest
  end.

(** Every directory below [o] has entries with names that differ from
    each other and from ["."] and [".."]. *)
Fixpoint tidy (o : FsObj) : bool :=
  match o with
  | FsDir entries =>
      distinct ("." :: ".." :: map fst entries)
      && (fix all (l : list (string * FsObj)) : bool :=
            match l with
            | [] => true
            | (_, o') :: rest => tidy o' && all rest
            end) entries
  | _ => true
  end.

Definition tidy_world (w : World) : bool := tidy (FsDir (sim_root w)).

Definition dir (name : string) (entries : list (string * FsObj))
  : string * FsObj := (name, FsDir entries).
Definition file (name : string) : string * FsObj := (name, FsReg).

(** The modules are put under [/data/adb/modules]. *)
Definition world (modules live : list (string * FsObj))
           (fail_mounts : list string) : World :=
  mkWorld (dir "data" [dir "adb" [dir "modules" modules]] :: live)
          [] fail_mounts 3.

End Sim.

(** ** Vocabulary of the statements *)

Module Words.

(** The first path segment of a name, all leading ['/'] ignored. *)
Definition first_path_segment (name : string) : string :=
  Str.take_until Str.is_slash (Str.drop_while Str.is_slash name).

(** The names that registration turns down: empty once trimmed, or with
    a first segment that is, character for character, in the blacklist. *)
Definition registration_rejects (token : string) : bool :=
  let name := Utils.str_trim token in
  (String.eqb name "" ||
   Str.mem (first_path_segment name) ModuleTree.blacklist)%bool.

(** What the specification says of the blacklist test, in its words:
    the first path segment (ignoring a leading ['/']) is lowercased and
    compared against the fixed set. *)
Definition to_lower (c : ascii) : ascii :=
  let n := nat_of_ascii c in
  if (Nat.leb 65 n && Nat.leb n 90)%bool then ascii_of_nat (n + 32) else c.

Fixpoint lowercase (s : string) : string :=
  match s with
  | EmptyString => EmptyString
  | String c rest => String (to_lower c) (lowercase rest)
  end.

Definition without_leading_slash (s : string) : string :=
  match s with
  | String c rest => if Str.is_slash c then rest else s
  | EmptyString => s
  end.

Definition spec_blacklisted_lowercased (name : string) : bool :=
  Str.mem (lowercase (Str.take_until Str.is_slash (without_leading_slash name)))
          ModuleTree.blacklist.

(** The events that concern the mount table: the [mount] calls and the
    entries to [ksu_send_unmountable]. *)
Definition is_mount_table_event (e : Event) : bool :=
  match e with
  | EvSys (SysMount _ _ _ _) => true
  | EvMarkUnmountable _ => true
  | _ => false
  end.

Definition mount_view (tr : list Event) : list Event :=
  filter is_mount_table_event tr.

Definition bind_event (source target : string) : Event :=
  EvSys (SysMount (Some source) target None MS_BIND).

Definition remount_ro_event (target : string) : Event :=
  EvSys (SysMount None target None
                  (Z.lor (Z.lor MS_REMOUNT MS_BIND) MS_RDONLY)).

(** What the mount table sees of a regular node whose bind succeeded. *)
Definition regular_file_events (module_path target path : string)
           (enable : bool) : list Event :=
  [bind_event module_path target]
  ++ (if (enable && negb (Str.contains target Apply.WORKDIR_MARK))%bool
      then [EvMarkUnmountable path] else [])
  ++ [remount_ro_event target].

(** The module a failure of the child [c] of [node] is charged to. *)
Definition owning_module (node c : ModuleTree.Node) : option string :=
  match ModuleTree.n_module_name c with
  | Some mn => Some mn
  | None => ModuleTree.n_module_name node
  end.

(** The relation between the counters that the specification lists
    among its invariants. *)
Definition counted_within_total (st : MountStats) : Prop :=
  nodes_mounted st + nodes_whiteout st + nodes_skipped st + nodes_fail st
  <= nodes_total st.

(** The names of the children of a node, in order. *)
Definition child_names (n : ModuleTree.Node) : list string :=
  map ModuleTree.n_name (ModuleTree.n_children n).

(** A step that makes no call with an effect and leaves the context as
    it is, but for the counters. *)
Definition reads_only {W : Type} (s s' : St W) : Prop :=
  st_world s' = st_world s /\ st_trace s' = st_trace s /\
  st_ksu_fd s' = st_ksu_fd s /\
  module_dir (st_ctx s') = module_dir (st_ctx s) /\
  extra_parts (st_ctx s') = extra_parts (st_ctx s) /\
  failed_modules (st_ctx s') = failed_modules (st_ctx s) /\
  enable_unmountable (st_ctx s') = enable_unmountable (st_ctx s).

(** No two children of a node of the tree have the same name. *)
Fixpoint unique_names (n : ModuleTree.Node) : Prop :=
  match n with
  | ModuleTree.mkNode _ _ cs _ _ _ _ _ =>
      NoDup (map ModuleTree.n_name cs) /\
      (fix all (l : list ModuleTree.Node) : Prop :=
         match l with
         | [] => True
         | c :: r => unique_names c /\ all r
         end) cs
  end.

(** The module [d_name] of the module directory [mdir] has no directory
    [system]. *)
Definition no_system_dir {W : Type} `{Kernel W} (w : W)
           (mdir d_name : string) : Prop :=
  forall mod_path mod_sys,
    Utils.path_join mdir d_name = Ok mod_path ->
    Utils.path_join mod_path "system" = Ok mod_sys ->
    match k_stat w mod_sys with
    | Ok st => S_ISDIR (st_mode st) = false
    | Err _ => True
    end.

(** A step that changes neither the context nor the mount table. *)
Definition quiet {W : Type} (s s' : St W) : Prop :=
  st_ctx s' = st_ctx s /\
  mount_view (st_trace s') = mount_view (st_trace s).

(** *** Events *)

(** [os.mkdir(p, 0o755)] *)
Definition mkdir_event (p : string) : Event := EvSys (SysMkdir p 0x1ED).

Definition is_ksu_install (e : Event) : bool :=
  match e with EvKsuInstall => true | _ => false end.

(** An event that involves KernelSU: the install call, the ioctl, or an
    entry to [ksu_send_unmountable]. *)
Definition is_ksu_event (e : Event) : bool :=
  match e with
  | EvKsuInstall => true
  | EvMarkUnmountable _ => true
  | EvSys (SysKsuIoctl _ _ _ _) => true
  | _ => false
  end.

(** The path that a call creates, changes or mounts on. *)
Definition written_path (c : Syscall) : string :=
  match c with
  | SysMount _ target _ _ => target
  | SysUmount2 target _ => target
  | SysMkdir p _ => p
  | SysCreate p _ => p
  | SysSymlink _ linkpath => linkpath
  | SysChmod p _ => p
  | SysChown p _ _ => p
  | SysLsetxattr p _ _ => p
  | SysRmdir p => p
  | SysKsuIoctl _ mntpoint _ _ => mntpoint
  end.

(** A call that creates, changes or mounts on a path that begins with
    [prefix], and that neither unmounts nor removes anything. *)
Definition writes_under (prefix : string) (e : Event) : bool :=
  match e with
  | EvSys (SysUmount2 _ _) => false
  | EvSys (SysRmdir _) => false
  | EvSys (SysKsuIoctl _ _ _ _) => false
  | EvSys c => Str.starts_with prefix (written_path c)
  | _ => false
  end.

(** A step that leaves the context as it is and only makes calls that
    create, change or mount on paths that begin with [prefix]. *)
Definition writes_only_under {W : Type} (prefix : string) (s s' : St W)
  : Prop :=
  st_ctx s' = st_ctx s /\
  exists evs,
    st_trace s' = (st_trace s ++ evs)%list /\
    forallb (writes_under prefix) evs = true.

(** The same name, type, module and [replace] mark. *)
Definition same_header (c c' : ModuleTree.Node) : Prop :=
  ModuleTree.n_name c' = ModuleTree.n_name c /\
  ModuleTree.n_type c' = ModuleTree.n_type c /\
  ModuleTree.n_module_path c' = ModuleTree.n_module_path c /\
  ModuleTree.n_module_name c' = ModuleTree.n_module_name c /\
  ModuleTree.n_replace c' = ModuleTree.n_replace c.

(** What a scan of a further directory keeps of a tree: [first_wins c c']
    says that [c'] has the header of [c] and, in the places of the
    children of [c], children that are kept in the same way; a child
    that is not a directory is kept as it is. [c'] may have further
    children after those. *)
Inductive first_wins : ModuleTree.Node -> ModuleTree.Node -> Prop :=
| first_wins_node (c c' : ModuleTree.Node) :
    same_header c c' ->
    kept (ModuleTree.n_children c) (ModuleTree.n_children c') ->
    first_wins c c'
with kept : list ModuleTree.Node -> list ModuleTree.Node -> Prop :=
| kept_nil (l : list ModuleTree.Node) : kept [] l
| kept_cons (x y : ModuleTree.Node) (xs ys : list ModuleTree.Node) :
    first_wins x y ->
    (ModuleTree.n_type x <> ModuleTree.NFT_DIRECTORY -> y = x) ->
    kept xs ys ->
    kept (x :: xs) (y :: ys).

Scheme first_wins_mut := Minimality for first_wins Sort Prop
  with kept_mut := Minimality for kept Sort Prop.

Combined Scheme first_wins_kept_ind from first_wins_mut, kept_mut.

(** *** Uses of the logger *)

Inductive LogOp : Type :=
| OpWrite (level : Logging.LogLevel) (file : string) (line : N)
          (msg : string)
| OpSetFile (file : option Logging.File)
| OpSetLevel (level : Logging.LogLevel).

Definition log_step (lg : Logging.Logger) (op : LogOp) : Logging.Logger :=
  match op with
  | OpWrite level file line msg => Logging.logWrite level file line msg lg
  | OpSetFile file => Logging.logSetFile file lg
  | OpSetLevel level => Logging.logSetLevel level lg
  end.

Definition log_run (ops : list LogOp) (lg : Logging.Logger)
  : Logging.Logger :=
  fold_left log_step ops lg.

(** The line of a message, with its line feed. *)
Definition log_line (level : Logging.LogLevel) (file : string) (line : N)
           (msg : string) : string :=
  "[" ++ Logging.logLevelStr level ++ "] " ++ file ++ ":"
      ++ Logging.decimal line ++ ": " ++ msg ++ Logging.newline.

(** The lines of the messages whose level is not above the level in
    force when they are logged, in the order of the calls. *)
Fixpoint accepted (level : Logging.LogLevel) (ops : list LogOp)
  : list string :=
  match ops with
  | [] => []
  | OpWrite lv file line msg :: rest =>
      if Logging.intFromEnum lv <=? Logging.intFromEnum level
      then log_line lv file line msg :: accepted level rest
      else accepted level rest
  | OpSetFile _ :: rest => accepted level rest
  | OpSetLevel level' :: rest => accepted level' rest
  end.

(** What the logger has written, followed by what it still holds. *)
Definition log_output (lg : Logging.Logger) : list string :=
  (map snd (Logging.written lg)
     ++ map (fun l => (l ++ Logging.newline)%string)
            (Logging.g_log_buf lg))%list.

(** Once the logger writes through, it holds nothing back. *)
Definition flushed (lg : Logging.Logger) : Prop :=
  Logging.g_log_initialized lg = true -> Logging.g_log_buf lg = [].

Definition is_set_file (op : LogOp) : bool :=
  match op with
  | OpSetFile _ => true
  | _ => false
  end.

(** The trace only grows. *)
Definition trace_grows {W : Type} (s s' : St W) : Prop :=
  exists evs, st_trace s' = (st_trace s ++ evs)%list.

(** *** What a computation keeps *)

(** Every run of [c] from [s] ends in a state related to [s]. *)
Definition keeps_at {W A : Type} (R : St W -> St W -> Prop)
           (c : M W A) (s : St W) : Prop :=
  forall a s', c s = Some (a, s') -> R s s'.

Definition keeps {W A : Type} (R : St W -> St W -> Prop)
           (c : M W A) : Prop :=
  forall s, keeps_at R c s.

(** The calls that the applier makes directly: everything but the ioctl
    of KernelSU. *)
Definition plain_call (c : Syscall) : bool :=
  match c with
  | SysKsuIoctl _ _ _ _ => false
  | _ => true
  end.

(** The sum of the four counters that the applier feeds. *)
Definition counted (st : MountStats) : Z :=
  nodes_mounted st + nodes_whiteout st + nodes_skipped st + nodes_fail st.

(** [ctx->stats.nodes_total] *)
Definition total_of {W : Type} (s : St W) : Z :=
  nodes_total (stats (st_ctx s)).

(** The number of nodes of a tree. *)
Fixpoint tree_size (n : ModuleTree.Node) : Z :=
  match n with
  | ModuleTree.mkNode _ _ cs _ _ _ _ _ =>
      1 + (fix sum (l : list ModuleTree.Node) : Z :=
             match l with
             | [] => 0
             | c :: r => tree_size c + sum r
             end) cs
  end.

Fixpoint forest_size (cs : list ModuleTree.Node) : Z :=
  match cs with
  | [] => 0
  | c :: r => tree_size c + forest_size r
  end.

(** No directory lists a name twice. *)
Definition listings_distinct {W : Type} `{Kernel W} (w : W) : Prop :=
  forall p ds, k_opendir w p = Ok ds -> NoDup (ds_entries ds).

(** The settings of a run: what the command line and the configuration
    file decide. *)
Definition same_settings (c c' : MagicMount) : Prop :=
  module_dir c' = module_dir c /\
  mount_source c' = mount_source c /\
  extra_parts c' = extra_parts c /\
  enable_unmountable c' = enable_unmountable c.

(** What the tree builder leaves as it found it: the world, the trace,
    the driver descriptor, the settings, the list of failed modules and
    the counters of the applier; the two totals can only grow. *)
Definition builder_frame {W : Type} (s s' : St W) : Prop :=
  st_world s' = st_world s /\ st_trace s' = st_trace s /\
  st_ksu_fd s' = st_ksu_fd s /\
  same_settings (st_ctx s) (st_ctx s') /\
  failed_modules (st_ctx s') = failed_modules (st_ctx s) /\
  nodes_mounted (stats (st_ctx s')) = nodes_mounted (stats (st_ctx s)) /\
  nodes_skipped (stats (st_ctx s')) = nodes_skipped (stats (st_ctx s)) /\
  nodes_whiteout (stats (st_ctx s')) = nodes_whiteout (stats (st_ctx s)) /\
  nodes_fail (stats (st_ctx s')) = nodes_fail (stats (st_ctx s)) /\
  modules_total (stats (st_ctx s)) <= modules_total (stats (st_ctx s')) /\
  nodes_total (stats (st_ctx s)) <= nodes_total (stats (st_ctx s')).

(** What a whole run leaves as it found it: the settings and the
    counter of skipped nodes; the other counters can only grow, and the
    list of failed modules is only added to and stays free of
    duplicates. *)
Definition run_frame {W : Type} (s s' : St W) : Prop :=
  same_settings (st_ctx s) (st_ctx s') /\
  nodes_skipped (stats (st_ctx s')) = nodes_skipped (stats (st_ctx s)) /\
  modules_total (stats (st_ctx s)) <= modules_total (stats (st_ctx s')) /\
  nodes_total (stats (st_ctx s)) <= nodes_total (stats (st_ctx s')) /\
  nodes_mounted (stats (st_ctx s)) <= nodes_mounted (stats (st_ctx s')) /\
  nodes_whiteout (stats (st_ctx s)) <= nodes_whiteout (stats (st_ctx s')) /\
  nodes_fail (stats (st_ctx s)) <= nodes_fail (stats (st_ctx s')) /\
  (exists more,
      failed_modules (st_ctx s')
      = (failed_modules (st_ctx s) ++ more)%list) /\
  (NoDup (failed_modules (st_ctx s)) ->
   NoDup (failed_modules (st_ctx s'))).

(** As [run_frame], and the two totals stay as they are: what the
    applier keeps. *)
Definition applier_frame {W : Type} (s s' : St W) : Prop :=
  run_frame s s' /\
  modules_total (stats (st_ctx s')) = modules_total (stats (st_ctx s)) /\
  nodes_total (stats (st_ctx s')) = nodes_total (stats (st_ctx s)).

(** With [enable_unmountable] off, a step involves KernelSU in no way:
    it adds no KernelSU event to the trace and leaves the driver
    descriptor and the setting as they are. *)
Definition without_ksu {W : Type} (s s' : St W) : Prop :=
  enable_unmountable (st_ctx s) = false ->
  enable_unmountable (st_ctx s') = false /\
  st_ksu_fd s' = st_ksu_fd s /\
  exists evs,
    st_trace s' = (st_trace s ++ evs)%list /\
    forallb (fun e => negb (is_ksu_event e)) evs = true.

(** A step that leaves the context as it is, and after which no
    directory lists a name twice if none did before. *)
Definition context_kept {W : Type} `{Kernel W} (s s' : St W) : Prop :=
  st_ctx s' = st_ctx s /\
  (listings_distinct (st_world s) -> listings_distinct (st_world s')).

(** The calls of the kernel leave the listings free of duplicates. *)
Definition calls_keep_listings (W : Type) `{Kernel W} : Prop :=
  (forall w c, listings_distinct w -> listings_distinct (fst (k_call w c))) /\
  (forall w, listings_distinct w ->
             listings_distinct (fst (k_ksu_install w))).

(** What a failed step leaves to its caller to count. *)
Definition error_cost {A : Type} (r : Res A) : Z :=
  match r with Ok _ => 0 | Err _ => 1 end.

(** A step that counts at most [n] nodes, and at most [n - 1] when it
    fails; it leaves the listings free of duplicates. *)
Definition bounded_step {W : Type} `{Kernel W} {A : Type} (n : Z)
           (s : St W) (r : Res A) (s' : St W) : Prop :=
  (listings_distinct (st_world s) -> listings_distinct (st_world s')) /\
  counted (stats (st_ctx s')) + error_cost r
  <= counted (stats (st_ctx s)) + n.

(** The same name, marks and number of nodes. *)
Definition same_outline (n n' : ModuleTree.Node) : Prop :=
  ModuleTree.n_name n' = ModuleTree.n_name n /\
  ModuleTree.n_skip n' = ModuleTree.n_skip n /\
  ModuleTree.n_done n' = ModuleTree.n_done n /\
  tree_size n' = tree_size n.

(** The nodes below the children that the two loops of the applier may
    still visit, when the names [entries] are still to come from the
    directory and the children before these have the names [seen]: a
    child marked [skip] is never visited; another child is visited by
    the first loop if it is the first child with its name and the name
    is still to come, and by the second loop if it is not marked
    [done]. *)
Fixpoint pending_size (entries seen : list string)
         (cs : list ModuleTree.Node) : Z :=
  match cs with
  | [] => 0
  | c :: rest =>
      (if (negb (ModuleTree.n_skip c)
           && (negb (ModuleTree.n_done c)
               || (Str.mem (ModuleTree.n_name c) entries
                   && negb (Str.mem (ModuleTree.n_name c) seen))))%bool
       then tree_size c else 0)
      + pending_size entries (ModuleTree.n_name c :: seen) rest
  end.

(** *** Strings *)

Fixpoint all_chars (f : ascii -> bool) (s : string) : bool :=
  match s with
  | EmptyString => true
  | String c rest => f c && all_chars f rest
  end.

(** Only whitespace. *)
Definition blank (s : string) : bool := all_chars Str.isWhitespace s.

(** Neither the first nor the last character is whitespace. *)
Definition tight (s : string) : bool :=
  match String.get 0 s, Str.last s with
  | Some a, Some b => negb (Str.isWhitespace a) && negb (Str.isWhitespace b)
  | _, _ => true
  end.

(** Not whitespace, not ['='], not ['#']. *)
Definition plain (c : ascii) : bool :=
  (negb (Str.isWhitespace c) && negb (Ascii.eqb c "="%char)
   && negb (Ascii.eqb c "#"%char))%bool.

(** The maximal runs of characters that are not separators. *)
Fixpoint fields (sep : ascii -> bool) (s cur : string) : list string :=
  match s with
  | EmptyString => match cur with EmptyString => [] | _ => [cur] end
  | String c rest =>
      if sep c
      then match cur with
           | EmptyString => fields sep rest EmptyString
           | _ => cur :: fields sep rest EmptyString
           end
      else fields sep rest (cur ++ String c EmptyString)
  end.

(** The partition names of a list given with [-p] or [partitions =]. *)
Definition tokens (names : string) : list string :=
  fields Main.is_separator names "".

(** A name that is a token by itself. *)
Definition is_token (t : string) : bool :=
  (negb (String.eqb t "")
   && all_chars (fun c => negb (Main.is_separator c)) t)%bool.

(** *** The keys of the configuration file *)

Inductive Key : Type :=
| KModuleDir | KTempDir | KMountSource | KLogFile | KPartitions
| KDebug | KUmount.

Definition key_name (k : Key) : string :=
  match k with
  | KModuleDir => "module_dir"
  | KTempDir => "temp_dir"
  | KMountSource => "mount_source"
  | KLogFile => "log_file"
  | KPartitions => "partitions"
  | KDebug => "debug"
  | KUmount => "umount"
  end.

(** The configuration with the value [v] given to the key [k]. *)
Definition assign (k : Key) (v : string) (cfg : Main.Config) : Main.Config :=
  match k with
  | KModuleDir =>
      Main.mkConfig (Some v) (Main.cfg_temp_dir cfg)
        (Main.cfg_mount_source cfg) (Main.cfg_log_file cfg)
        (Main.cfg_partitions cfg) (Main.cfg_debug cfg) (Main.cfg_umount cfg)
  | KTempDir =>
      Main.mkConfig (Main.cfg_module_dir cfg) (Some v)
        (Main.cfg_mount_source cfg) (Main.cfg_log_file cfg)
        (Main.cfg_partitions cfg) (Main.cfg_debug cfg) (Main.cfg_umount cfg)
  | KMountSource =>
      Main.mkConfig (Main.cfg_module_dir cfg) (Main.cfg_temp_dir cfg)
        (Some v) (Main.cfg_log_file cfg)
        (Main.cfg_partitions cfg) (Main.cfg_debug cfg) (Main.cfg_umount cfg)
  | KLogFile =>
      Main.mkConfig (Main.cfg_module_dir cfg) (Main.cfg_temp_dir cfg)
        (Main.cfg_mount_source cfg) (Some v)
        (Main.cfg_partitions cfg) (Main.cfg_debug cfg) (Main.cfg_umount cfg)
  | KPartitions =>
      Main.mkConfig (Main.cfg_module_dir cfg) (Main.cfg_temp_dir cfg)
        (Main.cfg_mount_source cfg) (Main.cfg_log_file cfg)
        (Some v) (Main.cfg_debug cfg) (Main.cfg_umount cfg)
  | KDebug =>
      Main.mkConfig (Main.cfg_module_dir cfg) (Main.cfg_temp_dir cfg)
        (Main.cfg_mount_source cfg) (Main.cfg_log_file cfg)
        (Main.cfg_partitions cfg) (Utils.str_is_true v) (Main.cfg_umount cfg)
  | KUmount =>
      Main.mkConfig (Main.cfg_module_dir cfg) (Main.cfg_temp_dir cfg)
        (Main.cfg_mount_source cfg) (Main.cfg_log_file cfg)
        (Main.cfg_partitions cfg) (Main.cfg_debug cfg) (Utils.str_is_true v)
  end.

End Words.

(** ** File systems of the scenarios *)

Module Scenario.
Import Sim ModuleTree.

Definition ctx_with_extras (extras : list string) : MagicMount :=
  mkCtx (Some DEFAULT_MODULE_DIR) DEFAULT_MOUNT_SOURCE zero_stats []
        extras true.

(** The context after [--no-umount]. *)
Definition ctx_no_umount : MagicMount :=
  mkCtx (Some DEFAULT_MODULE_DIR) DEFAULT_MOUNT_SOURCE zero_stats []
        [] false.

(** One module with a file under [system/] and a file under [mi_ext/];
    the live system has both files. *)
Definition extra_world : World :=
  world [dir "modA" [dir "system" [file "g"]; dir "mi_ext" [file "f"]]]
        [dir "system" [file "g"]; dir "mi_ext" [file "f"]] [].

(** One module that replaces [/system/etc/init.rc] and adds the symbolic
    link [/system/etc/hosts]. *)
Definition swap_world : World :=
  world [dir "modA"
           [dir "system"
              [dir "etc" [file "init.rc"; ("hosts", FsLnk "/data/hosts")]]]]
        [dir "system" [dir "etc" [file "init.rc"; file "passwd"]]] [].

(** The module root holds one directory, which has no [system/]. *)
Definition empty_fleet_world : World :=
  world [dir "modA" [file "module.prop"]] [dir "system" []] [].

(** As [swap_world], and the bind onto the place of [init.rc] in the
    workdir fails. *)
Definition swap_world_failing : World :=
  mkWorld (sim_root swap_world) []
          ["/dev/.magic_mount/workdir/system/etc/init.rc"] 3.

(** Two files of one module; the bind onto [/system/g] fails. *)
Definition failing_world : World :=
  world [dir "modA" [dir "system" [file "g"; file "h"]]]
        [dir "system" [file "g"; file "h"]] ["/system/g"].

(** The state in which a run ends, [s] if it does not end. *)
Definition state_after {W A : Type} (s : St W) (r : option (A * St W))
  : St W :=
  match r with
  | Some (_, s') => s'
  | None => s
  end.

(** The node of [/system/etc] in the tree of [swap_world]. *)
Definition etc_node : Node :=
  mkNode "etc" NFT_DIRECTORY
         [mkNode "init.rc" NFT_REGULAR []
                 (Some "/data/adb/modules/modA/system/etc/init.rc")
                 (Some "modA") false false false;
          mkNode "hosts" NFT_SYMLINK []
                 (Some "/data/adb/modules/modA/system/etc/hosts")
                 (Some "modA") false false false]
         (Some "/data/adb/modules/modA/system/etc") (Some "modA")
         false false false.

(** As [swap_world], with one more file of the module, [motd], that the
    live directory does not have; the bind onto its place in the workdir
    fails. *)
Definition late_failing_world : World :=
  world [dir "modA"
           [dir "system"
              [dir "etc" [file "init.rc"; file "motd";
                          ("hosts", FsLnk "/data/hosts")]]]]
        [dir "system" [dir "etc" [file "init.rc"; file "passwd"]]]
        ["/dev/.magic_mount/workdir/system/etc/motd"].

(** A file of the module [modA] under [/system/etc]. *)
Definition etc_file (name : string) : Node :=
  mkNode name NFT_REGULAR []
         (Some ("/data/adb/modules/modA/system/etc/" ++ name)) (Some "modA")
         false false false.

(** The node of [/system/etc] in the tree of [late_failing_world]. *)
Definition etc_node_late : Node :=
  mkNode "etc" NFT_DIRECTORY
         [etc_file "init.rc"; etc_file "motd";
          mkNode "hosts" NFT_SYMLINK []
                 (Some "/data/adb/modules/modA/system/etc/hosts")
                 (Some "modA") false false false]
         (Some "/data/adb/modules/modA/system/etc") (Some "modA")
         false false false.

(** Two modules that both provide [/system/etc/hosts]; the second also
    provides [/system/etc/motd] and [/system/bin/tool]. *)
Definition two_modules_world : World :=
  world [dir "modA" [dir "system" [dir "etc" [file "hosts"]]];
         dir "modB"
           [dir "system"
              [dir "etc" [file "hosts"; file "motd"]; dir "bin" [file "tool"]]]]
        [dir "system" [dir "etc" [file "hosts"]; dir "bin" []]] [].

(** The tree of [system] after the first module of [two_modules_world]
    has been merged in. *)
Definition tree_of_modA : Node :=
  mkNode "system" NFT_DIRECTORY
         [mkNode "etc" NFT_DIRECTORY
                 [mkNode "hosts" NFT_REGULAR []
                         (Some "/data/adb/modules/modA/system/etc/hosts")
                         (Some "modA") false false false]
                 (Some "/data/adb/modules/modA/system/etc") (Some "modA")
                 false false false]
         None None false false false.

Definition regular_node (name : string) : Node :=
  mkNode name NFT_REGULAR []
         (Some ("/data/adb/modules/modA/system/" ++ name)) (Some "modA")
         false false false.

Definition system_node : Node :=
  mkNode "system" NFT_DIRECTORY [regular_node "g"; regular_node "h"]
         None None false false false.

End Scenario.

(** * Properties *)

(** ** Strings *)

Lemma string_length_zero (s : string) : String.length s = 0%nat -> s = "".
Proof. destruct s; [reflexivity | discriminate]. Qed.

Lemma string_length_app (a b : string) :
  String.length (a ++ b) = (String.length a + String.length b)%nat.
Proof. induction a as [|c a IH]; simpl; [reflexivity | now rewrite IH]. Qed.

Lemma len_app (a b : string) : Utils.len (a ++ b) = Utils.len a + Utils.len b.
Proof. unfold Utils.len. rewrite string_length_app. lia. Qed.

Lemma len_nonneg (a : string) : 0 <= Utils.len a.
Proof. unfold Utils.len. lia. Qed.

Lemma len_zero (s : string) : Utils.len s = 0 -> s = "".
Proof. unfold Utils.len. intros E. apply string_length_zero. lia. Qed.

(** ** path_join *)

Section PathJoin.
Import Utils.

Lemma path_join_empty_name (base : string) :
  len base < PATH_MAX -> path_join base "" = Ok base.
Proof.
  intros Hlen. unfold path_join. change (len "" =? 0) with true. cbv iota.
  destruct (Z.leb_spec PATH_MAX (len base)); [lia | reflexivity].
Qed.

Lemma path_join_ok_length (base name r : string) :
  path_join base name = Ok r -> len r <= PATH_MAX - 1.
Proof.
  unfold path_join.
  destruct (len name =? 0).
  - destruct (Z.leb_spec PATH_MAX (len base)); [discriminate|].
    intros [= <-]. lia.
  - match goal with |- context [if ?b then true else ?c] => set (u := if b then true else c) end.
    destruct (Z.ltb_spec PATH_MAX
                (len base + (if u then 1 else 0) + len name + 1));
      [discriminate|].
    intros [= <-]. rewrite !len_app.
    destruct u; change (len "/") with 1 in *; change (len "") with 0 in *; lia.
Qed.

Lemma path_join_err (base name : string) (e : Error) :
  path_join base name = Err e ->
  e = NameTooLong /\ PATH_MAX <= len base + len name + 1.
Proof.
  unfold path_join. pose proof (len_nonneg name).
  destruct (Z.eqb_spec (len name) 0) as [E|E].
  - destruct (Z.leb_spec PATH_MAX (len base)); [|discriminate].
    intros [= <-]. split; [reflexivity | lia].
  - match goal with |- context [if ?b then true else ?c] => set (u := if b then true else c) end.
    destruct (Z.ltb_spec PATH_MAX
                (len base + (if u then 1 else 0) + len name + 1));
      [|discriminate].
    intros [= <-]. split; [reflexivity|]. destruct u; lia.
Qed.


Example path_join_plain : path_join "/a" "b" = Ok "/a/b".
Proof. reflexivity. Qed.

Example path_join_trailing_slash : path_join "/a/" "b" = Ok "/a/b".
Proof. reflexivity. Qed.

Example path_join_empty_base : path_join "" "x" = Ok "/x".
Proof. reflexivity. Qed.

Lemma path_join_root_any (name : string) :
  name <> "" -> len name + 3 <= PATH_MAX ->
  path_join "/" name = Ok ("//" ++ name).
Proof.
  intros Hn Hlen. unfold path_join.
  destruct (Z.eqb_spec (len name) 0) as [E|E].
  - now apply len_zero in E.
  - match goal with
    | |- context [if ?b then true else ?c] =>
        change (if b then true else c) with true
    end.
    change (len "/") with 1. cbv iota.
    destruct (Z.ltb_spec PATH_MAX (1 + 1 + len name + 1)); [lia | reflexivity].
Qed.

(** C8. [path_join] with the base ["/"] writes the base, then a separator,
    then the name: the result of joining ["/"] and ["x"] is ["//x"], with
    a doubled slash, and not ["/x"]. *)
Theorem path_join_root_doubles_slash :
  path_join "/" "x" = Ok "//x" /\ path_join "/" "x" <> Ok "/x".
Proof. split; [reflexivity | discriminate]. Qed.

End PathJoin.

(** ** Extra partition registration *)

Section Blacklist.
Import ModuleTree Words.

Lemma first_segment_fits (room : nat) (name : string) :
  (String.length (Str.take_until Str.is_slash name) <= room)%nat ->
  first_segment room name = Str.take_until Str.is_slash name.
Proof.
  revert name. induction room as [|room IH]; intros [|c rest]; simpl; try reflexivity.
  - destruct (Str.is_slash c); simpl; [reflexivity | lia].
  - destruct (Str.is_slash c); simpl; [reflexivity|].
    intros Hl. f_equal. apply IH. lia.
Qed.

Lemma first_segment_full (room : nat) (name : string) :
  (room < String.length (Str.take_until Str.is_slash name))%nat ->
  String.length (first_segment room name) = room.
Proof.
  revert name. induction room as [|room IH]; intros [|c rest]; simpl; try lia.
  destruct (Str.is_slash c); simpl; [lia|].
  intros Hl. f_equal. apply IH. lia.
Qed.

Lemma blacklist_entries_short (x : string) :
  Str.mem x blacklist = true -> (String.length x <= 11)%nat.
Proof.
  unfold blacklist. simpl.
  repeat match goal with
         | |- context [String.eqb x ?y] =>
             destruct (String.eqb_spec x y) as [->|_]; [simpl; lia|]
         end.
  discriminate.
Qed.

(** The 16-byte buffer does not change the verdict: no entry of the
    blacklist is as long as what the buffer holds. *)
Lemma extra_part_blacklisted_segment (name : string) :
  name <> "" ->
  extra_part_blacklisted name = Str.mem (first_path_segment name) blacklist.
Proof.
  intros Hn. unfold extra_part_blacklisted, first_path_segment.
  destruct name as [|c rest]; [contradiction|].
  set (n := Str.drop_while Str.is_slash (String c rest)).
  destruct (Nat.le_gt_cases (String.length (Str.take_until Str.is_slash n)) 15)
    as [Hle|Hgt].
  - now rewrite first_segment_fits.
  - pose proof (first_segment_full 15 n Hgt) as Hfull.
    destruct (Str.mem (first_segment 15 n) blacklist) eqn:E1.
    + apply blacklist_entries_short in E1. lia.
    + destruct (Str.mem (Str.take_until Str.is_slash n) blacklist) eqn:E2;
        [|reflexivity].
      apply blacklist_entries_short in E2. lia.
Qed.

Context {W : Type} `{Kernel W}.

(** C7 (amended). Registration turns down, with a warning and without
    touching the context, exactly the names that are empty once trimmed or
    whose first path segment (all leading ['/'] ignored) is equal,
    character for character and therefore case-sensitively, to a member
    of the blacklist; every other name is appended, trimmed, to the extra
    partitions. No call reaches the kernel. *)
Theorem extra_partition_register_exact (token : string) (s : St W) :
  exists s',
    extra_partition_register token s = Some (tt, s') /\
    st_world s' = st_world s /\ st_trace s' = st_trace s /\
    if registration_rejects token
    then st_ctx s' = st_ctx s /\
         exists msg, st_log s' = (st_log s ++ [(LOG_WARN, msg)])%list
    else st_ctx s' = str_array_append_extra (st_ctx s) (Utils.str_trim token).
Proof.
  unfold extra_partition_register, registration_rejects.
  destruct (Nat.eqb_spec (String.length token) 0) as [E|E].
  - apply string_length_zero in E. subst token. cbn.
    eexists. repeat split; try reflexivity. eexists; reflexivity.
  - destruct (Utils.str_trim token) as [|c rest] eqn:Et.
    + cbn. eexists. repeat split; try reflexivity. eexists; reflexivity.
    + rewrite extra_part_blacklisted_segment by discriminate.
      change (String.eqb (String c rest) "") with false. cbv [orb].
      destruct (Str.mem (first_path_segment (String c rest)) blacklist).
      * cbn. eexists. repeat split; try reflexivity. eexists; reflexivity.
      * cbn. eexists. repeat split; reflexivity.
Qed.

End Blacklist.

(** C7, as stated, fails: ["Vendor"] is, lowercased, a member of the set,
    and registration appends it. *)
Lemma register_uppercase_bypasses_blacklist :
  Words.spec_blacklisted_lowercased "Vendor" = true /\
  option_map (fun r => extra_parts (st_ctx (snd r)))
    (ModuleTree.extra_partition_register "Vendor"
       (init_state (Sim.world [] [] []) magic_mount_init))
  = Some ["Vendor"].
Proof. split; vm_compute; reflexivity. Qed.

(** ** Symlink compatibility *)

Section SymlinkCompat.
Import ModuleTree Utils.









End SymlinkCompat.

(** ** SELinux helpers *)

Section Selcon.
Import Utils.
Context {W : Type} `{Kernel W}.

(** C9 (amended). With an empty argument none of the three helpers
    reaches the kernel. [set_selcon] logs at debug level and succeeds;
    [get_selcon] fails with [InvalidArgument] and logs nothing;
    [copy_selcon] logs at debug level. *)
Theorem selcon_empty_arguments (s : St W) (path con src dst : string) :
  set_selcon "" con s
    = Some (Ok tt, logged s LOG_DEBUG "set_selcon: skip null args") /\
  set_selcon path "" s
    = Some (Ok tt, logged s LOG_DEBUG "set_selcon: skip null args") /\
  get_selcon "" s = Some (Err InvalidArgument, s) /\
  (exists r, copy_selcon "" dst s
             = Some (r, logged s LOG_DEBUG "copy_selcon: skip null args")) /\
  (exists r, copy_selcon src "" s
             = Some (r, logged s LOG_DEBUG "copy_selcon: skip null args")).
Proof.
  split; [reflexivity|]. split.
  - unfold set_selcon. change (String.length "") with 0%nat.
    rewrite Nat.eqb_refl, orb_true_r. reflexivity.
  - split; [reflexivity|]. split.
    + eexists. reflexivity.
    + unfold copy_selcon. change (String.length "") with 0%nat.
      rewrite Nat.eqb_refl, orb_true_r. eexists. reflexivity.
Qed.

End Selcon.

(** C9, as stated, fails: [get_selcon] of the empty path is an error, and
    the log stays as it was. *)
Lemma get_selcon_empty_path_is_error :
  option_map (fun r => (fst r, st_log (snd r)))
    (Utils.get_selcon ""
       (init_state (Sim.world [] [] []) magic_mount_init))
  = Some (Err InvalidArgument, []).
Proof. reflexivity. Qed.

(** ** Entries that are neither file, directory, link nor device *)

Section Unsupported.
Import ModuleTree.
Context {W : Type} `{Kernel W}.

(** C10. For an entry whose [lstat] type is none of character device,
    regular file, directory and symbolic link, [node_create_from_fs]
    returns no node and leaves the context, [nodes_total] included, as it
    was, although [node_type_from_stat] would classify the entry as a
    whiteout; the scan of the directory goes on to the next entry with
    the parent node unchanged. *)
Theorem unsupported_entry_has_no_node
        (name path : string) (module_name : option string)
        (s : St W) (st : Stat) :
  k_lstat (st_world s) path = Ok st ->
  S_ISCHR (st_mode st) = false -> S_ISREG (st_mode st) = false ->
  S_ISDIR (st_mode st) = false -> S_ISLNK (st_mode st) = false ->
  let s' := logged s LOG_DEBUG
              ("node_create_from_fs: skip unsupported file type for " ++ path) in
  node_create_from_fs name path module_name s = Some (None, s') /\
  st_ctx s' = st_ctx s /\
  node_type_from_stat st = NFT_WHITEOUT /\
  forall scan dir rest self any,
    name <> "." -> name <> ".." ->
    Utils.path_join dir name = Ok path ->
    node_child_find self name = None ->
    scan_entries scan dir module_name (name :: rest) self any s
    = scan_entries scan dir module_name rest self any s'.
Proof.
  intros Hl Hc Hr Hd Hk s'.
  assert (Hcreate : node_create_from_fs name path module_name s = Some (None, s')).
  { unfold node_create_from_fs, lstat, bind, get_world, ret. cbn.
    rewrite Hl, Hc, Hr, Hd, Hk. reflexivity. }
  split; [exact Hcreate|]. split; [reflexivity|]. split.
  - unfold node_type_from_stat. now rewrite Hc, Hr, Hd, Hk.
  - intros scan dir rest self any Hdot Hdotdot Hj Hfind.
    cbn [scan_entries].
    apply String.eqb_neq in Hdot, Hdotdot. rewrite Hdot, Hdotdot. cbn [orb].
    rewrite Hj, Hfind. unfold bind at 1. unfold bind at 1.
    rewrite Hcreate. reflexivity.
Qed.

End Unsupported.

(** A FIFO in the [system] directory of a module. *)
Lemma unsupported_entry_fifo :
  ModuleTree.node_create_from_fs "pipe" "/data/adb/modules/modA/system/pipe"
    (Some "modA")
    (init_state
       (Sim.world [Sim.dir "modA" [Sim.dir "system" [("pipe", Sim.FsFifo)]]]
                  [] [])
       magic_mount_init)
  = Some (None,
          logged
            (init_state
               (Sim.world [Sim.dir "modA" [Sim.dir "system" [("pipe", Sim.FsFifo)]]]
                          [] [])
               magic_mount_init)
            LOG_DEBUG
            "node_create_from_fs: skip unsupported file type for /data/adb/modules/modA/system/pipe").
Proof.
  apply (unsupported_entry_has_no_node
           "pipe" "/data/adb/modules/modA/system/pipe" (Some "modA") _
           (Sim.stat_of Sim.FsFifo));
    reflexivity.
Defined.

(** ** What the helpers leave in the trace *)

Section Quiet.
Import Utils Words.
Context {W : Type} `{Kernel W}.

Lemma quiet_refl (s : St W) : quiet s s.
Proof. split; reflexivity. Qed.

Lemma quiet_trans (s1 s2 s3 : St W) : quiet s1 s2 -> quiet s2 s3 -> quiet s1 s3.
Proof. intros [A B] [C D]. split; congruence. Qed.

Lemma mount_view_app (a b : list Event) :
  mount_view (a ++ b) = (mount_view a ++ mount_view b)%list.
Proof. apply filter_app. Qed.

Lemma call_runs (c : Syscall) (s : St W) :
  exists r s', call c s = Some (r, s') /\
               st_ctx s' = st_ctx s /\
               st_trace s' = (st_trace s ++ [EvSys c])%list.
Proof.
  unfold call. destruct (k_call (st_world s) c) as [w' r].
  eexists _, _. repeat split.
Qed.

Lemma call_quiet (c : Syscall) (s : St W) :
  is_mount_table_event (EvSys c) = false ->
  exists r s', call c s = Some (r, s') /\ quiet s s'.
Proof.
  intros Hc. destruct (call_runs c s) as (r & s' & E & Hctx & Htr).
  exists r, s'. split; [exact E|]. split; [exact Hctx|].
  rewrite Htr, mount_view_app. unfold mount_view at 2. cbn [filter].
  rewrite Hc. apply app_nil_r.
Qed.

Lemma LOG_quiet (lv : LogLevel) (msg : string) (s : St W) :
  quiet s (logged s lv msg).
Proof. split; reflexivity. Qed.

Lemma path_is_dir_pure (p : string) (s : St W) :
  exists b, path_is_dir p s = Some (b, s).
Proof. eexists. reflexivity. Qed.

Lemma mkdir_tolerant_quiet (p : string) (s : St W) :
  exists r s', mkdir_tolerant p s = Some (r, s') /\ quiet s s'.
Proof.
  unfold mkdir_tolerant, bind.
  destruct (call_quiet (SysMkdir p 0x1ED) s eq_refl) as (r & s' & E & Q).
  rewrite E. eexists _, _. split; [reflexivity | exact Q].
Qed.

Lemma mkdir_p_loop_quiet (dir : string) (n i : nat) (s : St W) :
  exists r s', mkdir_p_loop dir i n s = Some (r, s') /\ quiet s s'.
Proof.
  revert i s. induction n as [|n IH]; intros i s; simpl.
  - eexists _, _. split; [reflexivity | apply quiet_refl].
  - destruct (String.get i dir) as [c|].
    2:{ eexists _, _. split; [reflexivity | apply quiet_refl]. }
    destruct (Str.is_slash c && negb (Nat.eqb i 0))%bool; [|apply IH].
    unfold bind at 1.
    destruct (path_is_dir_pure (Str.take i dir) s) as [b ->].
    destruct b; [apply IH|].
    unfold bind.
    destruct (mkdir_tolerant_quiet (Str.take i dir) s) as (r & s1 & -> & Q1).
    destruct r as [[]|e].
    + destruct (IH (S i) s1) as (r2 & s2 & -> & Q2).
      eexists _, _. split; [reflexivity | eapply quiet_trans; eassumption].
    + eexists _, _. split; [reflexivity | exact Q1].
Qed.

Lemma mkdir_p_quiet (dir : string) (s : St W) :
  exists r s', mkdir_p dir s = Some (r, s') /\ quiet s s'.
Proof.
  unfold mkdir_p.
  destruct (Nat.eqb (String.length dir) 0).
  { eexists _, _. split; [reflexivity | apply quiet_refl]. }
  unfold bind at 1.
  destruct (path_is_dir_pure dir s) as [b ->].
  destruct b.
  { eexists _, _. split; [reflexivity | apply quiet_refl]. }
  unfold bind.
  destruct (mkdir_p_loop_quiet dir (String.length dir) 0 s) as (r & s1 & -> & Q1).
  destruct r as [[]|e].
  - destruct (mkdir_tolerant_quiet dir s1) as (r2 & s2 & -> & Q2).
    eexists _, _. split; [reflexivity | eapply quiet_trans; eassumption].
  - eexists _, _. split; [reflexivity | exact Q1].
Qed.

(** [ksu_send_unmountable] shows in the mount table view as exactly one
    entry. *)
Lemma ksu_send_unmountable_marks (mntpoint : string) (s : St W) :
  exists r s',
    Ksu.ksu_send_unmountable mntpoint s = Some (r, s') /\
    st_ctx s' = st_ctx s /\
    mount_view (st_trace s')
    = (mount_view (st_trace s) ++ [EvMarkUnmountable mntpoint])%list.
Proof.
  unfold Ksu.ksu_send_unmountable, bind, emit, Ksu.ksuGrabFd. cbn [st_ksu_fd].
  destruct (st_ksu_fd s) as [fd|] eqn:Efd.
  - destruct (fd <? 0).
    + eexists _, _. split; [reflexivity|]. cbn. split; [reflexivity|].
      rewrite mount_view_app. reflexivity.
    + unfold call. cbn.
      destruct (k_call _ _) as [w' [[]|e]]; cbn;
        (eexists _, _; split; [reflexivity|]; cbn; split; [reflexivity|];
         rewrite !mount_view_app; cbn; now rewrite app_nil_r).
  - unfold Ksu.ksuGrabFdOnce, bind. cbn.
    destruct (k_ksu_install (st_world s)) as [w' [result fd]].
    destruct (negb (result =? 0)); cbn.
    + destruct (result <? 0).
      * eexists _, _. split; [reflexivity|]. cbn. split; [reflexivity|].
        rewrite !mount_view_app. cbn. now rewrite app_nil_r.
      * unfold call. cbn.
        destruct (k_call _ _) as [w'' [[]|e]]; cbn;
          (eexists _, _; split; [reflexivity|]; cbn; split; [reflexivity|];
           rewrite !mount_view_app; cbn; now rewrite !app_nil_r).
    + destruct (fd <? 0) eqn:Efd0; cbn; rewrite ?Efd0.
      * eexists _, _. split; [reflexivity|]. cbn. split; [reflexivity|].
        rewrite !mount_view_app. cbn. now rewrite app_nil_r.
      * unfold call. cbn.
        destruct (k_call _ _) as [w'' [[]|e]]; cbn;
          (eexists _, _; split; [reflexivity|]; cbn; split; [reflexivity|];
           rewrite !mount_view_app; cbn; now rewrite !app_nil_r).
Qed.

End Quiet.

(** ** Regular files and the unmountable mark *)

Section RegularFile.
Import ModuleTree Apply Words.
Context {W : Type} `{Kernel W}.

Lemma apply_regular_bind_mount_table (path target : string) (node : Node)
      (s : St W) :
  exists r s',
    apply_regular_bind path target node s = Some (r, s') /\
    ((r = Ok tt /\
      nodes_mounted (stats (st_ctx s')) = nodes_mounted (stats (st_ctx s)) + 1 /\
      exists mp, n_module_path node = Some mp /\
        mount_view (st_trace s')
        = (mount_view (st_trace s)
           ++ regular_file_events mp target path
                (enable_unmountable (st_ctx s)))%list)
     \/
     (st_ctx s' = st_ctx s /\
      (mount_view (st_trace s') = mount_view (st_trace s) \/
       exists mp e, n_module_path node = Some mp /\ r = Err e /\
         mount_view (st_trace s')
         = (mount_view (st_trace s) ++ [bind_event mp target])%list))).
Proof.
  unfold apply_regular_bind.
  destruct (n_module_path node) as [mp|].
  2:{ eexists _, _. split; [reflexivity|]. right. split; [reflexivity|].
      left. reflexivity. }
  unfold mount. unfold bind at 1.
  destruct (call_runs (SysMount (Some mp) target None MS_BIND) s)
    as (r1 & s1 & -> & Hc1 & Ht1).
  destruct r1 as [[]|e].
  2:{ eexists _, _. split; [reflexivity|]. right. split; [exact Hc1|].
      right. exists mp, e. repeat split.
      rewrite Ht1, mount_view_app. reflexivity. }
  assert (Hmark : exists s2,
             (if negb (Str.contains target WORKDIR_MARK)
              then c <- get_ctx ;;
                   (if enable_unmountable c
                    then _ <- Ksu.ksu_send_unmountable path ;; ret tt
                    else ret tt)
              else ret tt) s1 = Some (tt, s2) /\
             st_ctx s2 = st_ctx s1 /\
             mount_view (st_trace s2)
             = (mount_view (st_trace s1)
                ++ (if (enable_unmountable (st_ctx s) &&
                        negb (Str.contains target WORKDIR_MARK))%bool
                    then [EvMarkUnmountable path] else []))%list).
  { destruct (Str.contains target WORKDIR_MARK); cbn [negb].
    - exists s1. rewrite andb_false_r, app_nil_r. repeat split.
    - unfold bind, get_ctx. rewrite Hc1, andb_true_r.
      destruct (enable_unmountable (st_ctx s)); cbv iota.
      + destruct (ksu_send_unmountable_marks path s1) as (r & s2 & -> & Hc2 & Ht2).
        exists s2. split; [reflexivity | split; [congruence | assumption]].
      + exists s1. rewrite app_nil_r. split; [reflexivity | split; congruence]. }
  destruct Hmark as (s2 & Hrun & Hc2 & Ht2).
  unfold bind at 1. rewrite Hrun. unfold bind at 1.
  destruct (call_runs (SysMount None target None
              (Z.lor (Z.lor MS_REMOUNT MS_BIND) MS_RDONLY)) s2)
    as (r3 & s3 & -> & Hc3 & Ht3).
  eexists _, _. split; [reflexivity|]. left. split; [reflexivity|].
  cbn. rewrite Hc3, Hc2, Hc1. split; [reflexivity|].
  exists mp. split; [reflexivity|].
  rewrite Ht3, mount_view_app, Ht2, Ht1, mount_view_app.
  unfold regular_file_events. rewrite <- !app_assoc. reflexivity.
Qed.

(** [mm_apply_regular_file] always returns. When the node is counted as
    mounted, the mount table has seen, in this order, the bind of the
    module file onto the target (the live path without a tmpfs, the
    workdir path with one), then one call of [ksu_send_unmountable] with
    the live path exactly when the flag is set and the target does not
    contain [".magic_mount/workdir/"], then the read-only remount of the
    target. Otherwise the context is unchanged and the mount table has
    seen at most the failed bind. *)
Lemma mm_apply_regular_file_mount_table
        (path wpath : string) (node : Node) (has_tmpfs : bool) (s : St W) :
  exists r s',
    mm_apply_regular_file path wpath node has_tmpfs s = Some (r, s') /\
    ((r = Ok tt /\
      nodes_mounted (stats (st_ctx s')) = nodes_mounted (stats (st_ctx s)) + 1 /\
      exists mp, n_module_path node = Some mp /\
        mount_view (st_trace s')
        = (mount_view (st_trace s)
           ++ regular_file_events mp (if has_tmpfs then wpath else path) path
                (enable_unmountable (st_ctx s)))%list)
     \/
     (st_ctx s' = st_ctx s /\
      (mount_view (st_trace s') = mount_view (st_trace s) \/
       exists mp e, n_module_path node = Some mp /\ r = Err e /\
         mount_view (st_trace s')
         = (mount_view (st_trace s)
            ++ [bind_event mp (if has_tmpfs then wpath else path)])%list))).
Proof.
  unfold mm_apply_regular_file. destruct has_tmpfs.
  2:{ apply apply_regular_bind_mount_table. }
  destruct (Str.last_index_from "/" wpath 0) as [last_slash|].
  2:{ eexists _, _. split; [reflexivity|]. right. split; [reflexivity|].
      left. reflexivity. }
  cbv zeta. unfold bind at 1.
  destruct (mkdir_p_quiet (Str.take last_slash wpath) s)
    as (r1 & s1 & -> & Hc1 & Ht1).
  destruct r1 as [[]|e].
  2:{ eexists _, _. split; [reflexivity|]. right. split; [exact Hc1|].
      left. exact Ht1. }
  unfold bind at 1.
  destruct (call_quiet (SysCreate wpath 0x1A4) s1 eq_refl)
    as (r2 & s2 & -> & Hc2 & Ht2).
  destruct r2 as [[]|e].
  2:{ eexists _, _. split; [reflexivity|]. right.
      split; [congruence|]. left. congruence. }
  destruct (apply_regular_bind_mount_table path wpath node s2)
    as (r & s' & -> & Hcases).
  exists r, s'. split; [reflexivity|].
  rewrite Hc2, Hc1, Ht2, Ht1 in Hcases. exact Hcases.
Qed.

End RegularFile.

(** ** A child that fails *)

(** A run of two steps is a run of the first and a run of the second. *)
Lemma bind_some {W A B : Type} (c : M W A) (k : A -> M W B) (s : St W)
      (r : B) (s' : St W) :
  bind c k s = Some (r, s') ->
  exists a s1, c s = Some (a, s1) /\ k a s1 = Some (r, s').
Proof.
  unfold bind. destruct (c s) as [[a s1]|]; [|discriminate].
  intros E. now exists a, s1.
Qed.

Section ChildFailure.
Import ModuleTree Apply Words.
Context {W : Type} `{Kernel W}.

Lemma mem_In (x : string) (l : list string) : Str.mem x l = true <-> In x l.
Proof.
  induction l as [|y l IH]; simpl.
  - split; [discriminate | contradiction].
  - rewrite orb_true_iff, IH, String.eqb_eq. intuition congruence.
Qed.

Lemma module_mark_failed_runs (mn : string) (s : St W) :
  exists s',
    module_mark_failed mn s = Some (tt, s') /\
    st_world s' = st_world s /\ st_trace s' = st_trace s /\
    stats (st_ctx s') = stats (st_ctx s) /\
    In mn (failed_modules (st_ctx s')).
Proof.
  unfold module_mark_failed, bind, get_ctx.
  destruct (Str.mem mn (failed_modules (st_ctx s))) eqn:E.
  - exists s. repeat split. now apply mem_In.
  - eexists. split; [reflexivity|]. cbn. repeat split.
    apply in_or_app. right. now left.
Qed.

(** The [catch] block: one more failure, the owning module on the list of
    failed modules, and no call to the kernel. *)
Lemma child_failed_runs (node c : Node) (s : St W) :
  exists s',
    child_failed node c s = Some (tt, s') /\
    st_world s' = st_world s /\ st_trace s' = st_trace s /\
    nodes_fail (stats (st_ctx s')) = nodes_fail (stats (st_ctx s)) + 1 /\
    nodes_mounted (stats (st_ctx s')) = nodes_mounted (stats (st_ctx s)) /\
    forall mn, owning_module node c = Some mn ->
               In mn (failed_modules (st_ctx s')).
Proof.
  unfold child_failed, owning_module.
  assert (Hcount : forall s0 : St W,
             exists s', count_fail s0 = Some (tt, s') /\
               st_world s' = st_world s0 /\ st_trace s' = st_trace s0 /\
               nodes_fail (stats (st_ctx s')) = nodes_fail (stats (st_ctx s0)) + 1 /\
               nodes_mounted (stats (st_ctx s')) = nodes_mounted (stats (st_ctx s0)) /\
               failed_modules (st_ctx s') = failed_modules (st_ctx s0)).
  { intros s0. eexists. split; [reflexivity|]. cbn. repeat split. }
  assert (Hmark : forall mn,
             exists s', (module_mark_failed mn ;; count_fail) s = Some (tt, s') /\
               st_world s' = st_world s /\ st_trace s' = st_trace s /\
               nodes_fail (stats (st_ctx s')) = nodes_fail (stats (st_ctx s)) + 1 /\
               nodes_mounted (stats (st_ctx s')) = nodes_mounted (stats (st_ctx s)) /\
               In mn (failed_modules (st_ctx s'))).
  { intros mn. unfold bind at 1.
    destruct (module_mark_failed_runs mn s) as (s1 & -> & Hw & Ht & Hs & Hin).
    destruct (Hcount s1) as (s2 & -> & Hw2 & Ht2 & Hf2 & Hm2 & Hl2).
    exists s2. split; [reflexivity|]. rewrite Hs in *.
    repeat split; congruence. }
  destruct (n_module_name c) as [mn|].
  - destruct (Hmark mn) as (s' & E & Hw & Ht & Hf & Hm & Hin).
    exists s'. repeat split; try assumption. intros ? [= <-]. exact Hin.
  - destruct (n_module_name node) as [mn|].
    + destruct (Hmark mn) as (s' & E & Hw & Ht & Hf & Hm & Hin).
      exists s'. repeat split; try assumption. intros ? [= <-]. exact Hin.
    + unfold bind at 1. cbn [ret].
      destruct (Hcount s) as (s' & E & Hw & Ht & Hf & Hm & Hl).
      exists s'. repeat split; try assumption. discriminate.
Qed.

Variable apply : string -> string -> Node -> bool -> M W (Res unit * Node).
Variable fuel : nat.

(** Without [now_tmp] no failure of a child ends the loop over the
    remaining children: the loop has no other way to return an error. *)
Lemma remaining_children_absorb (path wpath : string) (node : Node)
      (cs cs' : list Node) (r : Res unit) (s s' : St W) :
  remaining_children_loop apply path wpath node false cs s = Some ((r, cs'), s') ->
  r = Ok tt.
Proof.
  revert cs' r s s'. induction cs as [|c rest IH]; intros cs' r s s'; cbn.
  - intros [= <- _ _]. reflexivity.
  - destruct (n_skip c || n_done c)%bool.
    + unfold bind.
      destruct (remaining_children_loop apply path wpath node false rest s)
        as [[[r0 cs0] s0]|] eqn:E; [|discriminate].
      intros [= <- _ _]. eapply IH. exact E.
    + unfold bind at 1.
      destruct (apply path wpath c false s) as [[[res c'] s1]|]; [|discriminate].
      destruct res as [[]|err].
      * unfold bind.
        destruct (remaining_children_loop apply path wpath node false rest s1)
          as [[[r0 cs0] s0]|] eqn:E; [|discriminate].
        intros [= <- _ _]. eapply IH. exact E.
      * unfold bind at 1.
        destruct (child_failed_runs node c' s1) as (s2 & -> & _).
        unfold bind.
        destruct (remaining_children_loop apply path wpath node false rest s2)
          as [[[r0 cs0] s0]|] eqn:E; [|discriminate].
        intros [= <- _ _]. eapply IH. exact E.
Qed.

(** Nor does it end the loop over the entries of the live directory,
    which can then only fail on the error [se] that the directory stream
    reports at its end. *)
Lemma dir_children_result (path wpath : string) (se : option Error)
      (entries : list string) (node node' : Node) (r : Res unit)
      (s s' : St W) :
  dir_children_loop apply fuel path wpath false se entries node s
  = Some ((r, node'), s') ->
  r = match se with Some e => Err e | None => Ok tt end.
Proof.
  revert node node' r s s'.
  induction entries as [|entry rest IH]; intros node node' r s s'; cbn.
  - intros [= <- _ _]. reflexivity.
  - destruct (String.eqb entry "." || String.eqb entry "..")%bool; [apply IH|].
    destruct (node_child_find node entry) as [c|]; [|apply IH].
    destruct (n_skip c); [apply IH|].
    unfold bind at 1.
    destruct (apply path wpath (set_done c true) false s)
      as [[[res c'] s1]|]; [|discriminate].
    destruct res as [[]|err]; [apply IH|].
    unfold bind at 1.
    destruct (child_failed_runs (node_child_store node entry c') c' s1)
      as (s2 & -> & _).
    apply IH.
Qed.

(** The catch block looks at the parent for its module name only. *)
Lemma child_failed_parent (node node' c : Node) :
  n_module_name node' = n_module_name node ->
  child_failed (W := W) node' c = child_failed node c.
Proof. intros E. unfold child_failed. now rewrite E. Qed.

(** The loop over the entries changes the children of the node and
    nothing else of it. *)
Lemma dir_children_loop_module (path wpath : string) (now_tmp : bool)
      (se : option Error) (entries : list string) :
  forall node node' r s s',
    dir_children_loop apply fuel path wpath now_tmp se entries node s
    = Some ((r, node'), s') ->
    n_module_name node' = n_module_name node.
Proof.
  induction entries as [|entry rest IH]; intros node node' r s s' Hrun;
    cbn [dir_children_loop] in Hrun.
  - now injection Hrun as _ <- _.
  - destruct (String.eqb entry "." || String.eqb entry "..")%bool;
      [now apply IH in Hrun|].
    destruct (node_child_find node entry) as [c|].
    + destruct (n_skip c); [now apply IH in Hrun|].
      unfold bind at 1 in Hrun.
      destruct (apply path wpath (set_done c true) now_tmp s)
        as [[[res c'] s1]|]; [|discriminate].
      destruct res as [[]|err]; [now apply IH in Hrun|].
      unfold bind at 1 in Hrun.
      destruct (child_failed_runs (node_child_store node entry c') c' s1)
        as (s2 & E & _).
      rewrite E in Hrun.
      destruct now_tmp; [now injection Hrun as _ <- _ | now apply IH in Hrun].
    + destruct now_tmp; [|now apply IH in Hrun].
      unfold bind at 1 in Hrun.
      destruct (mm_mirror_entry fuel path wpath entry s) as [[u s1]|];
        [|discriminate].
      now apply IH in Hrun.
Qed.

(** The loop over the entries, entry by entry: the entries that come
    after a run of entries that ended without an error are handled from
    the state and with the node that this run left. *)
Lemma dir_children_loop_app (path wpath : string) (now_tmp : bool)
      (se : option Error) (before rest : list string) :
  forall node node1 s0 s,
    dir_children_loop apply fuel path wpath now_tmp None before node s0
    = Some ((Ok tt, node1), s) ->
    dir_children_loop apply fuel path wpath now_tmp se (before ++ rest)
                      node s0
    = dir_children_loop apply fuel path wpath now_tmp se rest node1 s.
Proof.
  induction before as [|entry before IH]; intros node node1 s0 s Hrun;
    cbn [dir_children_loop app] in *.
  - now injection Hrun as <- <-.
  - destruct (String.eqb entry "." || String.eqb entry "..")%bool;
      [now apply IH|].
    destruct (node_child_find node entry) as [c|].
    + destruct (n_skip c); [now apply IH|].
      unfold bind at 1 in Hrun. unfold bind at 1.
      destruct (apply path wpath (set_done c true) now_tmp s0)
        as [[[res c'] s1]|]; [|discriminate].
      destruct res as [[]|err]; [now apply IH|].
      unfold bind at 1 in Hrun. unfold bind at 1.
      destruct (child_failed (node_child_store node entry c') c' s1)
        as [[u s2]|]; [|discriminate].
      destruct now_tmp; [discriminate | now apply IH].
    + destruct now_tmp; [|now apply IH].
      unfold bind at 1 in Hrun. unfold bind at 1.
      destruct (mm_mirror_entry fuel path wpath entry s0) as [[u s1]|];
        [|discriminate].
      now apply IH.
Qed.

(** The same for the loop over the children. *)
Lemma remaining_children_loop_app (path wpath : string) (node : Node)
      (now_tmp : bool) (before rest : list Node) :
  forall before' s0 s,
    remaining_children_loop apply path wpath node now_tmp before s0
    = Some ((Ok tt, before'), s) ->
    remaining_children_loop apply path wpath node now_tmp (before ++ rest)
                            s0
    = (r <- remaining_children_loop apply path wpath node now_tmp rest ;;
       ret (fst r, (before' ++ snd r)%list)) s.
Proof.
  assert (Hret : forall (rest0 : list Node) (s1 : St W),
             (r <- remaining_children_loop apply path wpath node now_tmp
                     rest0 ;;
              ret (fst r, ([] ++ snd r)%list)) s1
             = remaining_children_loop apply path wpath node now_tmp
                 rest0 s1).
  { intros rest0 s1. unfold bind, ret.
    destruct (remaining_children_loop _ _ _ _ _ _ s1) as [[[r l] s2]|];
      reflexivity. }
  assert (Hcons : forall (x : Node) (l0 : list Node) (s1 : St W),
             (r <- (r <- remaining_children_loop apply path wpath node
                           now_tmp rest ;;
                    ret (fst r, (l0 ++ snd r)%list)) ;;
              ret (fst r, x :: snd r)) s1
             = (r <- remaining_children_loop apply path wpath node now_tmp
                       rest ;;
                ret (fst r, ((x :: l0) ++ snd r)%list)) s1).
  { intros x l0 s1. unfold bind, ret.
    destruct (remaining_children_loop _ _ _ _ _ rest s1) as [[[r l] s2]|];
      reflexivity. }
  induction before as [|child before IH]; intros before' s0 s Hrun;
    cbn [remaining_children_loop app] in *.
  - injection Hrun as <- <-. now rewrite Hret.
  - destruct (n_skip child || n_done child)%bool.
    + unfold bind at 1 in Hrun. unfold bind at 1.
      destruct (remaining_children_loop apply path wpath node now_tmp
                  before s0) as [[[r0 l0] s1]|] eqn:E; [|discriminate].
      cbn [ret fst snd] in Hrun. injection Hrun as -> <- <-.
      rewrite (IH _ _ _ E).
      unfold bind at 1 in Hcons. unfold bind at 1. apply Hcons.
    + unfold bind at 1 in Hrun. unfold bind at 1.
      destruct (apply path wpath child now_tmp s0)
        as [[[res child'] s1]|]; [|discriminate].
      assert (Hnext :
        forall s2,
          (r <- remaining_children_loop apply path wpath node now_tmp
                  before ;; ret (fst r, child' :: snd r)) s2
          = Some ((Ok tt, before'), s) ->
          (r <- remaining_children_loop apply path wpath node now_tmp
                  (before ++ rest) ;; ret (fst r, child' :: snd r)) s2
          = (r <- remaining_children_loop apply path wpath node now_tmp
                    rest ;; ret (fst r, (before' ++ snd r)%list)) s).
      { intros s2 Hrun2. unfold bind at 1 in Hrun2. unfold bind at 1.
        destruct (remaining_children_loop apply path wpath node now_tmp
                    before s2) as [[[r0 l0] s3]|] eqn:E; [|discriminate].
        cbn [ret fst snd] in Hrun2. injection Hrun2 as -> <- <-.
        rewrite (IH _ _ _ E).
        unfold bind at 1 in Hcons. apply Hcons. }
      destruct res as [[]|err]; [now apply Hnext|].
      unfold bind at 1 in Hrun. unfold bind at 1.
      destruct (child_failed node child' s1) as [[u s2]|]; [|discriminate].
      destruct now_tmp; [discriminate | now apply Hnext].
Qed.

End ChildFailure.

(** ** A child that fails, in the directory that holds it *)

Section DirectoryChildren.
Import ModuleTree Apply Words.
Context {W : Type} `{Kernel W}.

(** The directory [dir0] is applied below [base], and the steps before
    its children succeed: they decide [create_tmp], leave the node
    [dir1] and the state [t3]. *)
Variables (fuel : nat) (base wbase path wpath : string).
Variables (dir0 dir1 : Node) (has_tmpfs create_tmp : bool).
Variables (t0 t1 t2 t3 : St W).

Hypothesis Htype : n_type dir0 = NFT_DIRECTORY.
Hypothesis Hpath : Utils.path_join base (n_name dir0) = Ok path.
Hypothesis Hwpath : Utils.path_join wbase (n_name dir0) = Ok wpath.
Hypothesis Hprobe :
  (if (negb has_tmpfs
       && negb (negb has_tmpfs && n_replace dir0
                && match n_module_path dir0 with
                   | Some _ => true
                   | None => false
                   end))%bool
   then mm_check_need_tmpfs dir0 path
   else ret ((negb has_tmpfs && n_replace dir0
              && match n_module_path dir0 with
                 | Some _ => true
                 | None => false
                 end)%bool, dir0)) t0
  = Some ((create_tmp, dir1), t1).
Hypothesis Hsetup :
  (if (has_tmpfs || create_tmp)%bool
   then mm_setup_dir_tmpfs path wpath dir1
   else ret (Ok tt)) t1
  = Some (Ok tt, t2).
Hypothesis Hself :
  (if create_tmp then mount (Some wpath) wpath None MS_BIND
   else ret (Ok tt)) t2
  = Some (Ok tt, t3).

Lemma probe_module_name : n_module_name dir1 = n_module_name dir0.
Proof.
  destruct (negb has_tmpfs && negb _)%bool in Hprobe.
  - unfold mm_check_need_tmpfs in Hprobe. apply bind_some in Hprobe.
    destruct Hprobe as [r [s1 [_ Hret]]]. now injection Hret as _ <- _.
  - now injection Hprobe as _ <- _.
Qed.

(** The directory returns the error with which its first pass ends, in
    the state and with the node that the pass left. *)
Lemma first_pass_error_returned (e : Error) (n2 : Node) (s2 : St W) :
  mm_process_dir_children (mm_apply_node_recursive fuel) fuel path wpath
                          dir1 (has_tmpfs || create_tmp) t3
  = Some ((Err e, n2), s2) ->
  mm_apply_node_recursive (S fuel) base wbase dir0 has_tmpfs t0
  = Some ((Err e, n2), s2).
Proof.
  intros Hfirst. cbn [mm_apply_node_recursive].
  rewrite Hpath, Hwpath, Htype. cbv zeta.
  unfold bind at 1. rewrite Hprobe. cbv beta iota.
  unfold bind at 1. rewrite Hsetup. cbv beta iota.
  unfold bind at 1. rewrite Hself. cbv beta iota.
  unfold bind at 1. rewrite Hfirst. reflexivity.
Qed.

(** And the error with which its second pass ends. *)
Lemma second_pass_error_returned (e : Error) (n2 n3 : Node)
      (s2 s3 : St W) :
  mm_process_dir_children (mm_apply_node_recursive fuel) fuel path wpath
                          dir1 (has_tmpfs || create_tmp) t3
  = Some ((Ok tt, n2), s2) ->
  mm_process_remaining_children (mm_apply_node_recursive fuel) path wpath
                                n2 (has_tmpfs || create_tmp) s2
  = Some ((Err e, n3), s3) ->
  mm_apply_node_recursive (S fuel) base wbase dir0 has_tmpfs t0
  = Some ((Err e, n3), s3).
Proof.
  intros Hfirst Hsecond. cbn [mm_apply_node_recursive].
  rewrite Hpath, Hwpath, Htype. cbv zeta.
  unfold bind at 1. rewrite Hprobe. cbv beta iota.
  unfold bind at 1. rewrite Hsetup. cbv beta iota.
  unfold bind at 1. rewrite Hself. cbv beta iota.
  unfold bind at 1. rewrite Hfirst. cbv beta iota.
  unfold bind at 1. rewrite Hsecond. reflexivity.
Qed.

(** C1. Let the application of a child of the directory [dir0] end with
    an error. The failure is counted in [nodes_fail] and charged to the
    owning module (that of the child, else that of the directory),
    without any call to the kernel. Then, whether the child was met in
    the pass over the entries of the live directory
    ([mm_process_dir_children]) or in the pass over the children that
    are left ([mm_process_remaining_children]): when the directory is
    built in the workdir ([now_tmp]), the pass ends at once with that
    error and [mm_apply_node_recursive] returns it for the directory, in
    the state that the catch block left and with the later children as
    they were, so that no further child is applied, the second pass is
    not entered after a failure in the first, and the directory is
    neither moved into place nor counted as mounted; otherwise the pass
    goes on with the next entry or child from that state, and the error
    of the child is not the result of the pass. *)
Theorem child_error_policy (c c' : Node) (err : Error) (s s1 : St W) :
  mm_apply_node_recursive fuel path wpath c (has_tmpfs || create_tmp) s
  = Some ((Err err, c'), s1) ->
  exists s2,
    child_failed dir0 c' s1 = Some (tt, s2) /\
    st_world s2 = st_world s1 /\ st_trace s2 = st_trace s1 /\
    nodes_fail (stats (st_ctx s2)) = nodes_fail (stats (st_ctx s1)) + 1 /\
    nodes_mounted (stats (st_ctx s2)) = nodes_mounted (stats (st_ctx s1)) /\
    (forall mn, owning_module dir0 c' = Some mn ->
                In mn (failed_modules (st_ctx s2))) /\
    (forall dir before entry after node c0,
        is_ok (k_stat (st_world t3) path) = true ->
        n_replace dir1 = false ->
        k_opendir (st_world t3) path = Ok dir ->
        ds_entries dir = (before ++ entry :: after)%list ->
        dir_children_loop (mm_apply_node_recursive fuel) fuel path wpath
                          (has_tmpfs || create_tmp) None before dir1 t3
        = Some ((Ok tt, node), s) ->
        entry <> "." -> entry <> ".." ->
        node_child_find node entry = Some c0 -> n_skip c0 = false ->
        c = set_done c0 true ->
        if (has_tmpfs || create_tmp)%bool
        then
          mm_process_dir_children (mm_apply_node_recursive fuel) fuel
                                  path wpath dir1 true t3
          = Some ((Err err, node_child_store node entry c'), s2) /\
          mm_apply_node_recursive (S fuel) base wbase dir0 has_tmpfs t0
          = Some ((Err err, node_child_store node entry c'), s2)
        else
          mm_process_dir_children (mm_apply_node_recursive fuel) fuel
                                  path wpath dir1 false t3
          = dir_children_loop (mm_apply_node_recursive fuel) fuel path
                              wpath false (ds_error dir) after
                              (node_child_store node entry c') s2 /\
          forall r node' s',
            mm_process_dir_children (mm_apply_node_recursive fuel) fuel
                                    path wpath dir1 false t3
            = Some ((r, node'), s') ->
            r = match ds_error dir with
                | Some e => Err e
                | None => Ok tt
                end) /\
    (forall dir2 t4 before before' after,
        mm_process_dir_children (mm_apply_node_recursive fuel) fuel path
                                wpath dir1 (has_tmpfs || create_tmp) t3
        = Some ((Ok tt, dir2), t4) ->
        n_children dir2 = (before ++ c :: after)%list ->
        remaining_children_loop (mm_apply_node_recursive fuel) path wpath
                                dir2 (has_tmpfs || create_tmp) before t4
        = Some ((Ok tt, before'), s) ->
        n_skip c = false -> n_done c = false ->
        if (has_tmpfs || create_tmp)%bool
        then
          mm_process_remaining_children (mm_apply_node_recursive fuel)
                                        path wpath dir2 true t4
          = Some ((Err err,
                   set_children dir2 (before' ++ c' :: after)), s2) /\
          mm_apply_node_recursive (S fuel) base wbase dir0 has_tmpfs t0
          = Some ((Err err,
                   set_children dir2 (before' ++ c' :: after)), s2)
        else
          mm_process_remaining_children (mm_apply_node_recursive fuel)
                                        path wpath dir2 false t4
          = (r <- remaining_children_loop (mm_apply_node_recursive fuel)
                    path wpath dir2 false after ;;
             ret (fst r, set_children dir2 (before' ++ c' :: snd r))) s2 /\
          forall r node' s',
            mm_process_remaining_children (mm_apply_node_recursive fuel)
                                          path wpath dir2 false t4
            = Some ((r, node'), s') ->
            r = Ok tt).
Proof.
  intros Happly.
  destruct (child_failed_runs dir0 c' s1)
    as (s2 & E & Hw & Ht & Hf & Hm & Hin).
  exists s2. split; [exact E|]. do 5 (split; [assumption|]). split.
  - intros dir before entry after node c0 Hex Hrep Hopen Hent Hbefore
           Hdot Hdotdot Hfind Hskip Hc.
    assert (Hmod : n_module_name (node_child_store node entry c')
                   = n_module_name dir0).
    { cbn [node_child_store set_children n_module_name].
      rewrite (dir_children_loop_module _ _ _ _ _ _ _ _ _ _ _ _ Hbefore).
      apply probe_module_name. }
    assert (Hpass :
      forall now,
        now = (has_tmpfs || create_tmp)%bool ->
        mm_process_dir_children (mm_apply_node_recursive fuel) fuel
                                path wpath dir1 now t3
        = if now
          then Some ((Err err, node_child_store node entry c'), s2)
          else dir_children_loop (mm_apply_node_recursive fuel) fuel path
                 wpath now (ds_error dir) after
                 (node_child_store node entry c') s2).
    { intros now ->. unfold mm_process_dir_children.
      unfold bind at 1, Utils.path_exists, bind at 1, stat, bind at 1,
        get_world, ret.
      rewrite Hex, Hrep. cbn [negb orb].
      unfold bind at 1, opendir, bind at 1, get_world, ret.
      rewrite Hopen, Hent.
      rewrite (dir_children_loop_app _ _ _ _ _ _ _ (entry :: after)
                 _ _ _ _ Hbefore).
      cbn [dir_children_loop].
      apply String.eqb_neq in Hdot, Hdotdot. rewrite Hdot, Hdotdot.
      cbn [orb]. rewrite Hfind, Hskip. unfold bind at 1.
      rewrite <- Hc, Happly. unfold bind at 1.
      rewrite (child_failed_parent dir0 _ c' Hmod), E.
      destruct (has_tmpfs || create_tmp)%bool; reflexivity. }
    pose proof (Hpass _ eq_refl) as Hp.
    pose proof (first_pass_error_returned err
                  (node_child_store node entry c') s2) as Hup.
    clear Hpass. destruct (has_tmpfs || create_tmp)%bool.
    + split; [exact Hp | exact (Hup Hp)].
    + split; [exact Hp|].
      intros r node' s' Hrun. rewrite Hp in Hrun.
      eapply dir_children_result. exact Hrun.
  - intros dir2 t4 before before' after Hfirst Hch Hbefore Hskip Hdone.
    assert (Hmod : n_module_name dir2 = n_module_name dir0).
    { rewrite <- probe_module_name.
      revert Hfirst. unfold mm_process_dir_children. intros Hfirst.
      apply bind_some in Hfirst. destruct Hfirst as [ex [sa [_ Hfirst]]].
      destruct (negb ex || n_replace dir1)%bool;
        [now injection Hfirst as <- _|].
      apply bind_some in Hfirst. destruct Hfirst as [d [sb [_ Hfirst]]].
      destruct d as [dir|e].
      - eapply dir_children_loop_module. exact Hfirst.
      - destruct (negb (has_tmpfs || create_tmp));
          [now injection Hfirst as <- _|].
        apply bind_some in Hfirst. destruct Hfirst as [u [sc [_ Hfirst]]].
        discriminate. }
    assert (Hpass :
      forall now,
        now = (has_tmpfs || create_tmp)%bool ->
        mm_process_remaining_children (mm_apply_node_recursive fuel)
                                      path wpath dir2 now t4
        = if now
          then Some ((Err err,
                      set_children dir2 (before' ++ c' :: after)), s2)
          else (r <- remaining_children_loop
                       (mm_apply_node_recursive fuel) path wpath dir2 now
                       after ;;
                ret (fst r,
                     set_children dir2 (before' ++ c' :: snd r))) s2).
    { intros now ->. unfold mm_process_remaining_children.
      rewrite Hch. unfold bind at 1.
      rewrite (remaining_children_loop_app _ _ _ _ _ _ (c :: after)
                 _ _ _ Hbefore).
      cbn [remaining_children_loop]. rewrite Hskip, Hdone. cbn [orb].
      unfold bind at 1. unfold bind at 1. rewrite Happly.
      unfold bind at 1.
      rewrite (child_failed_parent dir0 _ c' Hmod), E.
      destruct (has_tmpfs || create_tmp)%bool; [reflexivity|].
      unfold bind, ret.
      destruct (remaining_children_loop _ _ _ _ _ after s2)
        as [[[r l] s3]|]; reflexivity. }
    pose proof (Hpass _ eq_refl) as Hp.
    pose proof (second_pass_error_returned err dir2
                  (set_children dir2 (before' ++ c' :: after)) t4 s2
                  Hfirst) as Hup.
    clear Hpass. destruct (has_tmpfs || create_tmp)%bool.
    + split; [exact Hp | exact (Hup Hp)].
    + split; [exact Hp|].
      intros r node' s' Hrun. unfold mm_process_remaining_children in Hrun.
      apply bind_some in Hrun. destruct Hrun as [[r0 l0] [sa [Hloop Hret]]].
      injection Hret as <- _ _.
      eapply remaining_children_absorb. exact Hloop.
Qed.

End DirectoryChildren.

(** Proves the next premise of [H] by computation. *)
Ltac feed H :=
  lazymatch type of H with
  | ?P -> _ =>
      let p := fresh in
      assert (p : P) by (vm_compute; reflexivity);
      specialize (H p); clear p
  end.

(** In [swap_world_failing] the bind onto the place of [init.rc] in the
    workdir fails while [/system/etc] is built there: the directory
    returns the error after that call, the link [hosts] is not applied,
    and the directory is not counted as mounted. In [failing_world] the
    bind onto [/system/g] fails while [/system] is not built in the
    workdir: the pass goes on to [h] and ends without an error. In
    [late_failing_world] the file [motd], which the live directory does
    not have, fails in the second pass of [/system/etc]: the directory
    returns the error after that call and the link [hosts] is not
    applied. *)
Lemma child_error_policy_runs :
  match Apply.mm_apply_node_recursive 4 "//system"
          "/dev/.magic_mount/workdir/system" Scenario.etc_node false
          (init_state Scenario.swap_world_failing magic_mount_init) with
  | Some ((Err e, node'), s') =>
      e = SysErr 22 /\
      nodes_fail (stats (st_ctx s')) = 1 /\
      nodes_mounted (stats (st_ctx s')) = 0 /\
      In "modA" (failed_modules (st_ctx s')) /\
      map ModuleTree.n_done (ModuleTree.n_children node') = [true; false] /\
      List.last (st_trace s') EvKsuInstall
      = Words.bind_event "/data/adb/modules/modA/system/etc/init.rc"
                         "/dev/.magic_mount/workdir/system/etc/init.rc"
  | _ => False
  end /\
  match Apply.mm_process_dir_children (Apply.mm_apply_node_recursive 3) 3
          "//system" "/dev/.magic_mount/workdir/system"
          Scenario.system_node false
          (init_state Scenario.failing_world magic_mount_init) with
  | Some ((r, node'), s') =>
      r = Ok tt /\
      nodes_fail (stats (st_ctx s')) = 1 /\
      failed_modules (st_ctx s') = ["modA"] /\
      map ModuleTree.n_done (ModuleTree.n_children node') = [true; true]
  | None => False
  end /\
  match Apply.mm_apply_node_recursive 4 "//system"
          "/dev/.magic_mount/workdir/system" Scenario.etc_node_late false
          (init_state Scenario.late_failing_world magic_mount_init) with
  | Some ((Err e, node'), s') =>
      e = SysErr 22 /\
      nodes_fail (stats (st_ctx s')) = 1 /\
      nodes_mounted (stats (st_ctx s')) = 1 /\
      map ModuleTree.n_name (ModuleTree.n_children node')
      = ["init.rc"; "motd"; "hosts"] /\
      List.last (st_trace s') EvKsuInstall
      = Words.bind_event "/data/adb/modules/modA/system/etc/motd"
                         "/dev/.magic_mount/workdir/system/etc/motd"
  | _ => False
  end.
Proof.
  split; [|split].
  - set (t0 := init_state Scenario.swap_world_failing magic_mount_init).
    set (path := "//system/etc").
    set (wpath := "/dev/.magic_mount/workdir/system/etc").
    set (t2 := Scenario.state_after t0
                 (Apply.mm_setup_dir_tmpfs path wpath Scenario.etc_node t0)).
    set (t3 := Scenario.state_after t0
                 (mount (Some wpath) wpath None MS_BIND t2)).
    set (c0 := ModuleTree.mkNode "init.rc" ModuleTree.NFT_REGULAR []
                 (Some "/data/adb/modules/modA/system/etc/init.rc")
                 (Some "modA") false false false).
    set (c := ModuleTree.set_done c0 true).
    set (s1 := Scenario.state_after t0
                 (Apply.mm_apply_node_recursive 3 path wpath c true t3)).
    pose proof (child_error_policy 3 "//system"
                  "/dev/.magic_mount/workdir/system" path wpath
                  Scenario.etc_node Scenario.etc_node false true t0 t0 t2 t3)
      as Hpolicy.
    do 6 feed Hpolicy.
    specialize (Hpolicy c c (SysErr 22) t3 s1). feed Hpolicy.
    destruct Hpolicy as (s2 & _ & _ & Ht & Hf & Hm & Hin & Hfirst & _).
    specialize (Hfirst (mkDirStream ["."; ".."; "init.rc"; "passwd"] None)
                       ["."; ".."] "init.rc" ["passwd"] Scenario.etc_node
                       c0).
    do 5 feed Hfirst.
    specialize (Hfirst ltac:(discriminate) ltac:(discriminate)).
    do 3 feed Hfirst.
    destruct Hfirst as [_ Hret]. rewrite Hret.
    split; [reflexivity|]. split; [rewrite Hf; reflexivity|].
    split; [rewrite Hm; reflexivity|].
    split; [apply Hin; reflexivity|].
    split; [reflexivity|]. rewrite Ht. reflexivity.
  - set (t0 := init_state Scenario.failing_world magic_mount_init).
    set (c := ModuleTree.set_done (Scenario.regular_node "g") true).
    set (s1 := Scenario.state_after t0
                 (Apply.mm_apply_node_recursive 3 "//system"
                    "/dev/.magic_mount/workdir/system" c false t0)).
    pose proof (child_error_policy 3 "/" "/dev/.magic_mount/workdir"
                  "//system" "/dev/.magic_mount/workdir/system"
                  Scenario.system_node Scenario.system_node false false
                  t0 t0 t0 t0)
      as Hpolicy.
    do 6 feed Hpolicy.
    specialize (Hpolicy c c (SysErr 22) t0 s1). feed Hpolicy.
    destruct Hpolicy as (s2 & _ & _ & _ & _ & _ & _ & Hfirst & _).
    specialize (Hfirst (mkDirStream ["."; ".."; "g"; "h"] None)
                       ["."; ".."] "g" ["h"]
                       Scenario.system_node (Scenario.regular_node "g")).
    do 5 feed Hfirst.
    specialize (Hfirst ltac:(discriminate) ltac:(discriminate)).
    do 3 feed Hfirst.
    destruct Hfirst as [_ Habsorbed].
    destruct (Apply.mm_process_dir_children _ _ _ _ _ _ _)
      as [[[r node'] s']|] eqn:E.
    + split; [exact (Habsorbed _ _ _ eq_refl)|].
      vm_compute in E. injection E as _ <- <-. repeat split; reflexivity.
    + vm_compute in E. discriminate.
  - set (t0 := init_state Scenario.late_failing_world magic_mount_init).
    set (path := "//system/etc").
    set (wpath := "/dev/.magic_mount/workdir/system/etc").
    set (t2 := Scenario.state_after t0
                 (Apply.mm_setup_dir_tmpfs path wpath Scenario.etc_node_late
                                           t0)).
    set (t3 := Scenario.state_after t0
                 (mount (Some wpath) wpath None MS_BIND t2)).
    set (t4 := Scenario.state_after t0
                 (Apply.mm_process_dir_children
                    (Apply.mm_apply_node_recursive 3) 3 path wpath
                    Scenario.etc_node_late true t3)).
    set (first := ModuleTree.set_done (Scenario.etc_file "init.rc") true).
    set (dir2 := ModuleTree.node_child_store Scenario.etc_node_late
                   "init.rc" first).
    set (c := Scenario.etc_file "motd").
    set (s1 := Scenario.state_after t0
                 (Apply.mm_apply_node_recursive 3 path wpath c true t4)).
    pose proof (child_error_policy 3 "//system"
                  "/dev/.magic_mount/workdir/system" path wpath
                  Scenario.etc_node_late Scenario.etc_node_late false true
                  t0 t0 t2 t3)
      as Hpolicy.
    do 6 feed Hpolicy.
    specialize (Hpolicy c c (SysErr 22) t4 s1). feed Hpolicy.
    destruct Hpolicy as (s2 & _ & _ & Ht & Hf & Hm & _ & _ & Hsecond).
    specialize (Hsecond dir2 t4 [first] [first]
                        [ModuleTree.mkNode "hosts" ModuleTree.NFT_SYMLINK []
                           (Some "/data/adb/modules/modA/system/etc/hosts")
                           (Some "modA") false false false]).
    do 5 feed Hsecond.
    destruct Hsecond as [_ Hret]. rewrite Hret.
    split; [reflexivity|]. split; [rewrite Hf; reflexivity|].
    split; [rewrite Hm; reflexivity|].
    split; [reflexivity|]. rewrite Ht. reflexivity.
Defined.

(** ** The builder only reads *)

Section BuilderReads.
Import ModuleTree Words.
Context {W : Type} `{Kernel W}.

Lemma reads_only_refl (s : St W) : reads_only s s.
Proof. repeat split. Qed.

Lemma reads_only_trans (s1 s2 s3 : St W) :
  reads_only s1 s2 -> reads_only s2 s3 -> reads_only s1 s3.
Proof. unfold reads_only. intuition congruence. Qed.

(** Unfolds a computation made of probes, log lines and updates of the
    context, and closes the goal on each of its paths. *)
Ltac straight :=
  cbv [bind ret get_world get_ctx set_ctx set_stats LOG lstat stat opendir
       readlink lgetxattr faccessat Utils.path_exists Utils.path_is_dir
       Utils.path_is_symlink];
  cbn [st_world st_ctx st_trace st_log st_ksu_fd];
  repeat match goal with
         | |- context [match ?x with _ => _ end] => destruct x
         end;
  intros; repeat match goal with
                 | E : Some _ = Some _ |- _ => injection E as <- <-
                 end;
  try discriminate;
  try (repeat split; reflexivity).

Lemma dir_is_replace_reads (path : string) (s s' : St W) (b : bool) :
  dir_is_replace path s = Some (b, s') -> s' = s.
Proof. unfold dir_is_replace. straight; reflexivity. Qed.

Lemma node_create_from_fs_reads (name path : string) (mn : option string)
      (s s' : St W) (r : option Node) :
  node_create_from_fs name path mn s = Some (r, s') -> reads_only s s'.
Proof.
  unfold node_create_from_fs, bind at 1, lstat, bind at 1, get_world, ret.
  destruct (k_lstat (st_world s) path) as [st|e].
  2:{ straight. }
  destruct (negb _).
  { straight. }
  unfold bind at 1.
  destruct (NodeFileType_eqb (node_type_from_stat st) NFT_DIRECTORY).
  - destruct (dir_is_replace path s) as [[b s1]|] eqn:E; [|discriminate].
    apply dir_is_replace_reads in E. subst s1. straight.
  - straight.
Qed.

Lemma any_exists_pure (mod_dir : string) (files : list string) (s : St W) :
  exists b, any_exists mod_dir files s = Some (b, s).
Proof.
  induction files as [|f rest [b IH]]; cbn.
  - now exists false.
  - destruct (Utils.path_join mod_dir f); [|now exists b].
    cbv [bind Utils.path_exists stat get_world ret].
    destruct (is_ok _); [now exists true | now exists b].
Qed.

Lemma module_is_disabled_pure (mod_dir : string) (s : St W) :
  exists b, module_is_disabled mod_dir s = Some (b, s).
Proof. apply any_exists_pure. Qed.

Section Scan.
Variable scan : Node -> string -> M W (Res (Node * bool)).
Hypothesis scan_reads :
  forall c p s r s', scan c p s = Some (r, s') -> reads_only s s'.

Lemma scan_entries_reads (dir : string) (mn : option string)
      (entries : list string) (self : Node) (any : bool)
      (s s' : St W) (r : Res (Node * bool)) :
  scan_entries scan dir mn entries self any s = Some (r, s') ->
  reads_only s s'.
Proof.
  revert self any s. induction entries as [|d_name rest IH];
    intros self any s; cbn [scan_entries].
  - intros [= <- <-]. apply reads_only_refl.
  - destruct (String.eqb d_name "." || String.eqb d_name "..")%bool;
      [apply IH|].
    destruct (Utils.path_join dir d_name) as [path|e].
    2:{ intros [= <- <-]. apply reads_only_refl. }
    unfold bind at 1.
    destruct (node_child_find self d_name) as [c|].
    + cbn [ret].
      destruct (n_type c); try apply IH.
      unfold bind at 1.
      destruct (scan c path s) as [[[[c' sub]|e] s1]|] eqn:E; [| |discriminate].
      * intros Hrest. apply IH in Hrest. apply scan_reads in E.
        eapply reads_only_trans; eassumption.
      * intros [= <- <-]. eapply scan_reads. exact E.
    + unfold bind at 1.
      destruct (node_create_from_fs d_name path mn s) as [[n s1]|] eqn:E;
        [|discriminate].
      apply node_create_from_fs_reads in E.
      destruct n as [n|]; cbn [ret].
      * destruct (n_type n);
          try (intros Hrest; apply IH in Hrest;
               eapply reads_only_trans; eassumption).
        unfold bind at 1.
        destruct (scan n path s1) as [[[[c' sub]|e] s2]|] eqn:E2;
          [| |discriminate].
        -- intros Hrest. apply IH in Hrest. apply scan_reads in E2.
           eapply reads_only_trans; [eassumption|].
           eapply reads_only_trans; eassumption.
        -- intros [= <- <-]. apply scan_reads in E2.
           eapply reads_only_trans; eassumption.
      * intros Hrest. apply IH in Hrest.
        eapply reads_only_trans; eassumption.
Qed.
End Scan.

Lemma node_scan_dir_reads (fuel : nat) (self : Node) (dir : string)
      (mn : option string) (s s' : St W) (r : Res (Node * bool)) :
  node_scan_dir fuel self dir mn s = Some (r, s') -> reads_only s s'.
Proof.
  revert self dir s s' r. induction fuel as [|fuel IH];
    intros self dir s s' r; cbn [node_scan_dir].
  - discriminate.
  - cbv [bind opendir get_world ret].
    destruct (k_opendir (st_world s) dir) as [ds|e].
    + apply scan_entries_reads. intros c p s0 r0 s0'. apply IH.
    + intros [= <- <-]. apply reads_only_refl.
Qed.

Lemma stat_run (p : string) (s : St W) :
  stat p s = Some (k_stat (st_world s) p, s).
Proof. reflexivity. Qed.

Lemma path_is_dir_run (p : string) (s : St W) :
  Utils.path_is_dir p s
  = Some (match k_stat (st_world s) p with
          | Ok st => S_ISDIR (st_mode st)
          | Err _ => false
          end, s).
Proof. reflexivity. Qed.

Lemma count_module_reads (s : St W) :
  exists s', count_module s = Some (tt, s') /\ reads_only s s'.
Proof. eexists. split; [reflexivity|]. repeat split. Qed.

Lemma collect_modules_reads (fuel : nat) (mdir : string)
      (entries : list string) (system : Node) (has_any : bool)
      (s s' : St W) (r : Res (Node * bool)) :
  collect_modules fuel mdir entries system has_any s = Some (r, s') ->
  reads_only s s'.
Proof.
  revert system has_any s. induction entries as [|d_name rest IH];
    intros system has_any s; cbn [collect_modules].
  - intros [= <- <-]. apply reads_only_refl.
  - destruct (String.eqb d_name "." || String.eqb d_name "..")%bool;
      [apply IH|].
    destruct (Utils.path_join mdir d_name) as [mod_path|e].
    2:{ intros [= <- <-]. apply reads_only_refl. }
    unfold bind at 1. rewrite stat_run.
    destruct (k_stat (st_world s) mod_path) as [mod_st|e]; [|apply IH].
    destruct (negb (S_ISDIR (st_mode mod_st))); [apply IH|].
    unfold bind at 1.
    destruct (module_is_disabled_pure mod_path s) as [dis ->].
    destruct dis; [apply IH|].
    destruct (Utils.path_join mod_path "system") as [mod_sys|e].
    2:{ intros [= <- <-]. apply reads_only_refl. }
    unfold bind at 1. rewrite path_is_dir_run.
    destruct (negb _); [apply IH|].
    unfold bind at 1.
    destruct (count_module_reads s) as (s1 & -> & R1).
    unfold bind at 1.
    destruct (node_scan_dir fuel system mod_sys (Some d_name) s1)
      as [[[[system' sub]|e] s2]|] eqn:E; [| |discriminate].
    + intros Hrest. apply IH in Hrest. apply node_scan_dir_reads in E.
      eapply reads_only_trans; [eassumption|].
      eapply reads_only_trans; eassumption.
    + intros [= <- <-]. apply node_scan_dir_reads in E.
      eapply reads_only_trans; eassumption.
Qed.

End BuilderReads.

(** ** No content at all *)

Section NoContent.
Import ModuleTree Apply Words.
Context {W : Type} {K : Kernel W}.

Lemma collect_modules_no_system (fuel : nat) (mdir : string)
      (entries : list string) (system : Node) (has_any : bool) (s : St W) :
  (forall e, In e entries -> no_system_dir (st_world s) mdir e) ->
  exists r,
    collect_modules fuel mdir entries system has_any s = Some (r, s) /\
    (r = Ok (system, has_any) \/ exists e, r = Err e).
Proof.
  induction entries as [|d_name rest IH]; intros Hno; cbn [collect_modules].
  - eexists. split; [reflexivity | now left].
  - assert (Hrest : forall e, In e rest -> no_system_dir (st_world s) mdir e)
      by (intros e He; apply Hno; now right).
    specialize (IH Hrest).
    destruct (String.eqb d_name "." || String.eqb d_name "..")%bool;
      [exact IH|].
    destruct (Utils.path_join mdir d_name) as [mod_path|e] eqn:Ej.
    2:{ eexists. split; [reflexivity | right; now exists e]. }
    unfold bind at 1. rewrite stat_run.
    destruct (k_stat (st_world s) mod_path) as [mod_st|e]; [|exact IH].
    destruct (negb (S_ISDIR (st_mode mod_st))); [exact IH|].
    unfold bind at 1.
    destruct (module_is_disabled_pure mod_path s) as [dis ->].
    destruct dis; [exact IH|].
    destruct (Utils.path_join mod_path "system") as [mod_sys|e] eqn:Es.
    2:{ eexists. split; [reflexivity | right; now exists e]. }
    unfold bind at 1. rewrite path_is_dir_run.
    pose proof (Hno d_name (or_introl eq_refl) mod_path mod_sys Ej Es) as Hd.
    destruct (k_stat (st_world s) mod_sys) as [st|e]; [rewrite Hd|]; exact IH.
Qed.

Lemma build_mount_tree_no_content (fuel : nat) (s s1 : St W)
      (ds : DirStream) (system : Node) :
  k_opendir (st_world s) (scanned_module_dir (st_ctx s)) = Ok ds ->
  collect_modules fuel (scanned_module_dir (st_ctx s)) (ds_entries ds)
                  (node_new "system" NFT_DIRECTORY) false s
  = Some (Ok (system, false), s1) ->
  build_mount_tree fuel s
  = Some (None,
          logged s1 LOG_WARN
                 "build_mount_tree: no module contributed any content, abort").
Proof.
  intros Hopen Hcollect. unfold build_mount_tree, bind at 1, get_ctx.
  unfold bind at 1, opendir, bind at 1, get_world, ret. rewrite Hopen.
  unfold bind at 1. rewrite Hcollect. reflexivity.
Qed.

Lemma magic_mount_no_tree (fuel : nat) (tmp_root : string) (s s' : St W) :
  build_mount_tree fuel s = Some (None, s') ->
  magic_mount fuel tmp_root s
  = Some (Ok 0, logged s' LOG_INFO "no modules, magic_mount skipped").
Proof. intros E. unfold magic_mount, bind at 1. rewrite E. reflexivity. Qed.

(** C6. Let the module directory be readable. When the scan of the
    modules ends without any content ([has_any] is false),
    [build_mount_tree] returns the no-content result and [magic_mount]
    returns 0 without a single call with an effect, mounts included. When
    no entry of the module directory has a [system] directory, this is
    what happens, whatever the fuel, and the context, [modules_total]
    included, is left as it was. *)
Theorem no_content_is_success (fuel : nat) (tmp_root : string) (s : St W)
        (ds : DirStream) :
  k_opendir (st_world s) (scanned_module_dir (st_ctx s)) = Ok ds ->
  (forall system s1,
      collect_modules fuel (scanned_module_dir (st_ctx s)) (ds_entries ds)
                      (node_new "system" NFT_DIRECTORY) false s
      = Some (Ok (system, false), s1) ->
      exists s2 s3,
        build_mount_tree fuel s = Some (None, s2) /\
        magic_mount fuel tmp_root s = Some (Ok 0, s3) /\
        st_ctx s3 = st_ctx s1 /\
        st_trace s3 = st_trace s /\ st_world s3 = st_world s) /\
  ((forall e, In e (ds_entries ds) ->
              no_system_dir (st_world s) (scanned_module_dir (st_ctx s)) e) ->
   exists s3,
     magic_mount fuel tmp_root s = Some (Ok 0, s3) /\
     st_ctx s3 = st_ctx s /\
     st_trace s3 = st_trace s /\ st_world s3 = st_world s).
Proof.
  intros Hopen. split.
  - intros system s1 Hcollect.
    pose proof (build_mount_tree_no_content fuel s s1 ds system Hopen Hcollect)
      as Hbuild.
    pose proof (magic_mount_no_tree fuel tmp_root s _ Hbuild) as Hrun.
    apply collect_modules_reads in Hcollect as (Hw & Ht & _).
    eexists _, _. split; [exact Hbuild|]. split; [exact Hrun|].
    cbn. repeat split; assumption.
  - intros Hno.
    destruct (collect_modules_no_system fuel _ _
                (node_new "system" NFT_DIRECTORY) false s Hno)
      as (r & Hcollect & [-> | [e ->]]).
    + pose proof (build_mount_tree_no_content fuel s s ds _ Hopen Hcollect)
        as Hbuild.
      rewrite (magic_mount_no_tree fuel tmp_root s _ Hbuild).
      eexists. split; [reflexivity|]. repeat split.
    + assert (Hbuild : build_mount_tree fuel s = Some (None, s)).
      { unfold build_mount_tree, bind at 1, get_ctx.
              unfold bind at 1, opendir, bind at 1, get_world, ret. rewrite Hopen.
        unfold bind at 1. rewrite Hcollect. reflexivity. }
      rewrite (magic_mount_no_tree fuel tmp_root s _ Hbuild).
      eexists. split; [reflexivity|]. repeat split.
Qed.

End NoContent.

(** The empty fleet: the module root holds [modA], which has no [system]
    directory. *)
Lemma empty_fleet_run :
  exists s3,
    Apply.magic_mount 0 "/dev/.magic_mount"
      (init_state Scenario.empty_fleet_world magic_mount_init)
    = Some (Ok 0, s3) /\
    modules_total (stats (st_ctx s3)) = 0 /\
    st_trace s3 = [].
Proof.
  destruct (no_content_is_success (K := Sim.sim_kernel) 0 "/dev/.magic_mount"
              (init_state Scenario.empty_fleet_world magic_mount_init)
              (mkDirStream ["."; ".."; "modA"] None) eq_refl)
    as [_ Hempty].
  destruct Hempty as (s3 & Hrun & Hctx & Htrace & _).
  - intros e [<- | [<- | [<- | []]]] mod_path mod_sys;
      intros [= <-] [= <-]; exact I.
  - exists s3. split; [exact Hrun|]. split; [now rewrite Hctx | exact Htrace].
Defined.

(** ** Names of the children *)

Section UniqueNames.
Import ModuleTree Words.
Context {W : Type} {K : Kernel W}.

Lemma unique_names_eq (n : Node) :
  unique_names n <->
  NoDup (child_names n) /\ Forall unique_names (n_children n).
Proof.
  destruct n as [name t cs mp mn rep sk dn]. unfold child_names. cbn.
  enough (Hall : (fix all (l : list Node) : Prop :=
                    match l with
                    | [] => True
                    | c :: r => unique_names c /\ all r
                    end) cs <-> Forall unique_names cs)
    by (rewrite Hall; reflexivity).
  induction cs as [|c r IH].
  - split; [constructor | trivial].
  - rewrite IH. split.
    + intros [Hc Hr]. now constructor.
    + intros Hf. inversion Hf. now split.
Qed.

Lemma unique_names_leaf (name : string) (t : NodeFileType)
      (mp mn : option string) (rep sk dn : bool) :
  unique_names (mkNode name t [] mp mn rep sk dn).
Proof. cbn. split; [constructor | trivial]. Qed.

Lemma find_child_name (cs : list Node) (name : string) (c : Node) :
  find_child cs name = Some c -> n_name c = name /\ In c cs.
Proof.
  induction cs as [|x cs IH]; cbn; [discriminate|].
  destruct (String.eqb_spec (n_name x) name) as [E|E].
  - intros [= <-]. split; [exact E | now left].
  - intros Hf. destruct (IH Hf). split; [assumption | now right].
Qed.

Lemma find_child_none (cs : list Node) (name : string) :
  find_child cs name = None -> ~ In name (map n_name cs).
Proof.
  induction cs as [|x cs IH]; cbn; [tauto|].
  destruct (String.eqb_spec (n_name x) name) as [E|E]; [discriminate|].
  intros Hf [Hx|Hin]; [congruence | now apply IH].
Qed.

Lemma store_child_names (cs : list Node) (name : string) (c' : Node) :
  n_name c' = name ->
  map n_name (store_child cs name c') = map n_name cs.
Proof.
  intros Hn. induction cs as [|x cs IH]; cbn; [reflexivity|].
  destruct (String.eqb_spec (n_name x) name) as [E|E]; cbn; congruence.
Qed.

Lemma store_child_Forall (P : Node -> Prop) (cs : list Node)
      (name : string) (c' : Node) :
  Forall P cs -> P c' -> Forall P (store_child cs name c').
Proof.
  intros Hall Hc. induction Hall as [|x cs Hx Hcs IH]; cbn; [constructor|].
  destruct (String.eqb (n_name x) name); now constructor.
Qed.

Lemma detach_child_spec (P : Node -> Prop) (cs rest : list Node)
      (name : string) (n : Node) :
  detach_child cs name = Some (n, rest) ->
  NoDup (map n_name cs) -> Forall P cs ->
  n_name n = name /\ P n /\
  NoDup (map n_name rest) /\ ~ In name (map n_name rest) /\
  Forall P rest /\ incl (map n_name rest) (map n_name cs).
Proof.
  revert rest. induction cs as [|x cs IH]; intros rest; cbn; [discriminate|].
  intros Hd Hnd Hall. inversion Hnd as [|? ? Hnotin Hnd']. subst.
  inversion Hall as [|? ? Hx Hcs]. subst.
  destruct (String.eqb_spec (n_name x) name) as [E|E].
  - injection Hd as <- <-. rewrite <- E.
    repeat split; try assumption. apply incl_tl, incl_refl.
  - destruct (detach_child cs name) as [[m rest']|] eqn:Ed; [|discriminate].
    injection Hd as <- <-.
    destruct (IH rest' eq_refl Hnd' Hcs) as (Hn & Hp & Hnd2 & Hni & Hall2 & Hincl).
    repeat split; try assumption.
    + cbn. constructor; [|assumption]. intros Hin. apply Hnotin.
      now apply Hincl.
    + cbn. intros [Hx'|Hin]; [congruence | contradiction].
    + now constructor.
    + cbn. intros y [<-|Hy]; [now left | right; now apply Hincl].
Qed.

(** *** Nodes *)

Lemma unique_names_new (name : string) (t : NodeFileType) :
  unique_names (node_new name t).
Proof. apply unique_names_leaf. Qed.

Lemma unique_names_append (parent child : Node) :
  unique_names parent -> unique_names child ->
  ~ In (n_name child) (child_names parent) ->
  unique_names (node_child_append parent child).
Proof.
  intros Hp Hc Hnotin. apply unique_names_eq in Hp as [Hnd Hall].
  apply unique_names_eq.
  unfold node_child_append, child_names in *. cbn. split.
  - rewrite map_app. cbn. apply NoDup_app; try assumption.
    + constructor; [tauto | constructor].
    + intros x Hx [<-|[]]. contradiction.
  - apply Forall_app. split; [assumption | now constructor].
Qed.

Lemma child_names_append (parent child : Node) :
  child_names (node_child_append parent child)
  = (child_names parent ++ [n_name child])%list.
Proof. unfold child_names, node_child_append. cbn. now rewrite map_app. Qed.

Lemma unique_names_store (parent c' : Node) (name : string) :
  unique_names parent -> unique_names c' -> n_name c' = name ->
  unique_names (node_child_store parent name c') /\
  child_names (node_child_store parent name c') = child_names parent.
Proof.
  intros Hp Hc Hn. apply unique_names_eq in Hp as [Hnd Hall].
  rewrite unique_names_eq.
  unfold node_child_store, child_names in *. cbn.
  rewrite (store_child_names _ _ _ Hn). repeat split; try assumption.
  now apply store_child_Forall.
Qed.

Lemma unique_names_set_module_name (n : Node) (m : option string) :
  unique_names n -> unique_names (set_module_name n m).
Proof. destruct n. cbn. tauto. Qed.

Lemma unique_names_child (parent c : Node) (name : string) :
  unique_names parent -> node_child_find parent name = Some c ->
  unique_names c /\ n_name c = name.
Proof.
  rewrite unique_names_eq. intros [_ Hall] Hf.
  apply find_child_name in Hf as [Hn Hin]. split; [|assumption].
  rewrite Forall_forall in Hall. now apply Hall.
Qed.

(** *** The scan of a module directory *)

Lemma node_create_from_fs_leaf (name path : string) (mn : option string)
      (s s' : St W) (n : Node) :
  node_create_from_fs name path mn s = Some (Some n, s') ->
  n_name n = name /\ unique_names n.
Proof.
  unfold node_create_from_fs, bind at 1, lstat, bind at 1, get_world, ret.
  destruct (k_lstat (st_world s) path) as [st|e].
  2:{ cbv [bind LOG ret]. discriminate. }
  destruct (negb _).
  { cbv [bind LOG ret]. discriminate. }
  unfold bind at 1.
  match goal with
  | |- match ?x with Some _ => _ | None => None end = _ -> _ =>
      destruct x as [[rep s1]|]; [|discriminate]
  end.
  cbv [bind set_stats get_ctx set_ctx ret]. intros [= <- _].
  split; [reflexivity | apply unique_names_leaf].
Qed.

Section Scan.
Variable scan : Node -> string -> M W (Res (Node * bool)).
Hypothesis scan_unique :
  forall c p s c' sub s',
    unique_names c -> scan c p s = Some (Ok (c', sub), s') ->
    unique_names c' /\ n_name c' = n_name c.

Lemma scan_entries_unique (dir : string) (mn : option string)
      (entries : list string) (self self' : Node) (any any' : bool)
      (s s' : St W) :
  unique_names self ->
  scan_entries scan dir mn entries self any s = Some (Ok (self', any'), s') ->
  unique_names self' /\ n_name self' = n_name self.
Proof.
  revert self any s. induction entries as [|d_name rest IH];
    intros self any s Hu; cbn [scan_entries].
  - intros [= <- _ _]. now split.
  - destruct (String.eqb d_name "." || String.eqb d_name "..")%bool;
      [now apply IH|].
    destruct (Utils.path_join dir d_name) as [path|e]; [|discriminate].
    unfold bind at 1.
    destruct (node_child_find self d_name) as [c|] eqn:Hfind.
    + cbn [ret].
      destruct (unique_names_child self c d_name Hu Hfind) as [Hc Hcn].
      destruct (n_type c); try (now apply IH).
      unfold bind at 1.
      destruct (scan c path s) as [[[[c' sub]|e] s1]|] eqn:E;
        try discriminate.
      destruct (scan_unique _ _ _ _ _ _ Hc E) as [Hc' Hn'].
      intros Hrest.
      destruct (unique_names_store self c' d_name Hu Hc') as [Hs _];
        [congruence|].
      apply IH in Hrest; [|exact Hs]. destruct Hrest as [H1 H2].
      split; [exact H1 | exact H2].
    + unfold bind at 1.
      destruct (node_create_from_fs d_name path mn s) as [[n s1]|] eqn:E;
        [|discriminate].
      destruct n as [n|]; cbn [ret]; [|now apply IH].
      destruct (node_create_from_fs_leaf _ _ _ _ _ _ E) as [Hn Hnu].
      assert (Happ : unique_names (node_child_append self n)).
      { apply unique_names_append; try assumption.
        rewrite Hn. now apply find_child_none. }
      destruct (n_type n);
        try (intros Hrest; apply IH in Hrest; [|exact Happ];
             destruct Hrest as [H1 H2]; split; [exact H1 | exact H2]).
      unfold bind at 1.
      destruct (scan n path s1) as [[[[c' sub]|e] s2]|] eqn:E2;
        try discriminate.
      destruct (scan_unique _ _ _ _ _ _ Hnu E2) as [Hc' Hn'].
      intros Hrest.
      destruct (unique_names_store (node_child_append self n) c' d_name
                  Happ Hc') as [Hs _]; [congruence|].
      apply IH in Hrest; [|exact Hs]. destruct Hrest as [H1 H2].
      split; [exact H1 | exact H2].
Qed.
End Scan.

(** [node_scan_dir] keeps the names of the children apart, at every
    depth: it looks a name up before it appends a child. *)
Lemma node_scan_dir_unique (fuel : nat) (self self' : Node) (dir : string)
      (mn : option string) (any : bool) (s s' : St W) :
  unique_names self ->
  node_scan_dir fuel self dir mn s = Some (Ok (self', any), s') ->
  unique_names self' /\ n_name self' = n_name self.
Proof.
  revert self self' dir any s s'. induction fuel as [|fuel IH];
    intros self self' dir any s s' Hu; cbn [node_scan_dir].
  - discriminate.
  - cbv [bind opendir get_world ret].
    destruct (k_opendir (st_world s) dir) as [ds|e]; [|discriminate].
    apply scan_entries_unique; [|exact Hu].
    intros c p s0 c' sub s0' Hc. apply IH. exact Hc.
Qed.

(** *** Symlink resolution *)

Lemma enabled_module_pure (mdir d_name : string) (s : St W) :
  exists r, enabled_module mdir d_name s = Some (r, s).
Proof.
  unfold enabled_module.
  destruct (Utils.path_join mdir d_name) as [mod_path|e];
    [|eexists; reflexivity].
  unfold bind at 1. rewrite stat_run.
  destruct (k_stat (st_world s) mod_path) as [st|e]; [|eexists; reflexivity].
  destruct (negb _); [eexists; reflexivity|].
  unfold bind at 1.
  destruct (module_is_disabled_pure mod_path s) as [dis ->].
  destruct dis; eexists; reflexivity.
Qed.

Lemma find_real_partition_loop_pure (mdir part_name : string)
      (entries : list string) (buf_size : nat) (s : St W) :
  exists r,
    find_real_partition_loop mdir part_name entries buf_size s = Some (r, s).
Proof.
  induction entries as [|d_name rest IH]; cbn [find_real_partition_loop].
  - eexists; reflexivity.
  - destruct (String.eqb d_name "." || String.eqb d_name "..")%bool;
      [exact IH|].
    unfold bind at 1.
    destruct (enabled_module_pure mdir d_name s) as [m ->].
    destruct m as [mod_path|]; [|exact IH].
    destruct (Utils.path_join mod_path part_name) as [part_path|e];
      [|exact IH].
    unfold bind at 1. rewrite path_is_dir_run.
    destruct (match k_stat _ _ with Ok _ => _ | Err _ => _ end);
      [eexists; reflexivity | exact IH].
Qed.

Lemma find_real_partition_dir_pure (part_name : string) (buf_size : nat)
      (s : St W) :
  exists r, find_real_partition_dir part_name buf_size s = Some (r, s).
Proof.
  unfold find_real_partition_dir, open_module_dir, bind at 1, bind at 1,
    get_ctx.
  destruct (module_dir (st_ctx s)) as [mdir|].
  - cbv [opendir bind get_world ret].
    destruct (k_opendir (st_world s) mdir) as [ds|e]; [|eexists; reflexivity].
    apply find_real_partition_loop_pure.
  - eexists; reflexivity.
Qed.

Lemma detach_child_none (cs : list Node) (name : string) :
  detach_child cs name = None -> ~ In name (map n_name cs).
Proof.
  induction cs as [|x cs IH]; cbn; [tauto|].
  destruct (String.eqb_spec (n_name x) name) as [E|E]; [discriminate|].
  destruct (detach_child cs name) as [[m rest]|]; [discriminate|].
  intros _ [Hx|Hin]; [congruence | now apply IH].
Qed.

(** What is left of a node once the child [name] is detached. *)
Lemma unique_names_detach (parent : Node) (name : string) :
  unique_names parent ->
  match node_child_detach parent name with
  | Some (child, parent') =>
      n_name child = name /\ unique_names child /\
      unique_names parent' /\ n_name parent' = n_name parent /\
      ~ In name (child_names parent')
  | None => ~ In name (child_names parent)
  end.
Proof.
  intros Hu. apply unique_names_eq in Hu as [Hnd Hall].
  unfold node_child_detach, child_names in *.
  destruct (detach_child (n_children parent) name) as [[child rest]|] eqn:E.
  - destruct (detach_child_spec unique_names _ _ _ _ E Hnd Hall)
      as (Hn & Hc & Hnd' & Hni & Hall' & _).
    split; [exact Hn|]. split; [exact Hc|].
    split; [|split; [reflexivity | exact Hni]].
    apply unique_names_eq. unfold child_names. cbn. now split.
  - now apply detach_child_none.
Qed.

Lemma symlink_resolve_partition_step (fuel : nat) (system system' : Node)
      (part_name : string) (rc : Z) (s s' : St W) :
  unique_names system ->
  symlink_resolve_partition fuel system part_name s
  = Some ((rc, system'), s') ->
  unique_names system' /\ n_name system' = n_name system /\
  reads_only s s'.
Proof.
  intros Hu. unfold symlink_resolve_partition.
  assert (Hsame : forall rc0 : Z,
             Some ((rc0, system), s) = Some ((rc, system'), s') ->
             unique_names system' /\ n_name system' = n_name system /\
             reads_only s s').
  { intros rc0 [= _ <- <-].
    split; [assumption | split; [reflexivity | apply reads_only_refl]]. }
  destruct (node_child_find system part_name) as [sys_child|];
    [|apply Hsame].
  destruct (n_type sys_child); try apply Hsame.
  destruct (n_module_path sys_child) as [mp|]; [|apply Hsame].
  unfold bind at 1.
  change (readlink mp s) with (Some (k_readlink (st_world s) mp, s)).
  destruct (k_readlink (st_world s) mp) as [target|e]; [|apply Hsame].
  unfold bind at 1, get_ctx.
  destruct (negb _); [apply Hsame|].
  unfold bind at 1.
  destruct (find_real_partition_dir_pure part_name 256 s) as [f ->].
  destruct f as [[real_part_path module_name_buf]|]; [|apply Hsame].
  unfold bind at 1.
  destruct (node_scan_dir fuel (node_new part_name NFT_DIRECTORY)
              real_part_path (Some module_name_buf) s)
    as [[[[new_part has]|e] s1]|] eqn:E; try discriminate.
  - pose proof (node_scan_dir_reads _ _ _ _ _ _ _ E) as Hr.
    destruct (node_scan_dir_unique _ _ _ _ _ _ _ _
                (unique_names_new part_name NFT_DIRECTORY) E) as [Hnu Hnn].
    destruct (negb has).
    + intros [= _ <- <-].
      split; [assumption | split; [reflexivity | assumption]].
    + intros [= _ <- <-]. split; [|split; [|exact Hr]].
      * pose proof (unique_names_detach system part_name Hu) as Hd.
        destruct (node_child_detach system part_name) as [[removed sys1]|].
        -- destruct Hd as (_ & _ & Hs1 & _ & Hni).
           apply unique_names_append;
             [assumption | now apply unique_names_set_module_name |].
           destruct new_part; cbn in *. now subst.
        -- apply unique_names_append;
             [assumption | now apply unique_names_set_module_name |].
           destruct new_part; cbn in *. now subst.
      * pose proof (unique_names_detach system part_name Hu) as Hd.
        destruct (node_child_detach system part_name) as [[removed sys1]|];
          [|reflexivity].
        destruct Hd as (_ & _ & _ & Hn1 & _). exact Hn1.
  - intros [= _ <- <-]. pose proof (node_scan_dir_reads _ _ _ _ _ _ _ E).
    split; [assumption | split; [reflexivity | assumption]].
Qed.

Lemma symlink_resolve_each_step (fuel : nat) (parts : list string)
      (system system' : Node) (s s' : St W) :
  unique_names system ->
  symlink_resolve_each fuel system parts s = Some (system', s') ->
  unique_names system' /\ n_name system' = n_name system /\
  reads_only s s'.
Proof.
  revert system s. induction parts as [|p rest IH]; intros system s Hu;
    cbn [symlink_resolve_each].
  - intros [= <- <-].
    split; [assumption | split; [reflexivity | apply reads_only_refl]].
  - unfold bind at 1.
    destruct (symlink_resolve_partition fuel system p s)
      as [[[rc system1] s1]|] eqn:E; [|discriminate].
    destruct (symlink_resolve_partition_step _ _ _ _ _ _ _ Hu E)
      as (Hu1 & Hn1 & Hr1).
    cbn [snd]. intros Hrest.
    destruct (IH _ _ Hu1 Hrest) as (Hu2 & Hn2 & Hr2).
    split; [assumption|]. split; [congruence|].
    eapply reads_only_trans; eassumption.
Qed.

Lemma symlink_resolve_all_step (fuel : nat) (system system' : Node)
      (s s' : St W) :
  unique_names system ->
  symlink_resolve_all_partition_links fuel system s = Some (system', s') ->
  unique_names system' /\ n_name system' = n_name system /\
  reads_only s s'.
Proof.
  intros Hu. unfold symlink_resolve_all_partition_links, bind at 1.
  destruct (symlink_resolve_each fuel system _ s) as [[system1 s1]|] eqn:E;
    [|discriminate].
  destruct (symlink_resolve_each_step _ _ _ _ _ _ Hu E) as (Hu1 & Hn1 & Hr1).
  unfold bind at 1, get_ctx. intros Hrest.
  destruct (symlink_resolve_each_step _ _ _ _ _ _ Hu1 Hrest)
    as (Hu2 & Hn2 & Hr2).
  split; [assumption|]. split; [congruence|].
  eapply reads_only_trans; eassumption.
Qed.

(** *** Promotion *)

Lemma partition_promote_to_root_step (root system root' system' : Node)
      (part_name : string) (need_symlink : bool) (rc : Z) (s s' : St W) :
  unique_names root -> unique_names system ->
  ~ In part_name (child_names root) ->
  partition_promote_to_root root system part_name need_symlink s
  = Some ((rc, root', system'), s') ->
  s' = s /\ unique_names root' /\ unique_names system' /\
  n_name system' = n_name system /\
  incl (child_names root') (child_names root ++ [part_name]).
Proof.
  intros Hr Hs Hni. unfold partition_promote_to_root.
  assert (Hsame : forall rc0 : Z,
             Some ((rc0, root, system), s) = Some ((rc, root', system'), s') ->
             s' = s /\ unique_names root' /\ unique_names system' /\
             n_name system' = n_name system /\
             incl (child_names root') (child_names root ++ [part_name])).
  { intros rc0 [= _ <- <- <-].
    split; [reflexivity|]. split; [assumption|]. split; [assumption|].
    split; [reflexivity | apply incl_appl, incl_refl]. }
  destruct (Utils.path_join "/" part_name) as [rp|e]; [|apply Hsame].
  destruct (Utils.path_join "/system" part_name) as [sp|e]; [|apply Hsame].
  unfold bind at 1. rewrite path_is_dir_run.
  destruct (negb _); [apply Hsame|].
  unfold bind at 1.
  assert (Hskip : exists b, (if need_symlink
                             then l <- Utils.path_is_symlink sp ;; ret (negb l)
                             else ret false) s = Some (b, s)).
  { destruct need_symlink; eexists; reflexivity. }
  destruct Hskip as [b ->].
  destruct b; [apply Hsame|].
  pose proof (unique_names_detach system part_name Hs) as Hd.
  destruct (node_child_detach system part_name) as [[child sys1]|];
    [|apply Hsame].
  destruct Hd as (Hcn & Hcu & Hs1 & Hn1 & _).
  intros [= _ <- <- <-].
  split; [reflexivity|]. split.
  - apply unique_names_append; [assumption | assumption | now rewrite Hcn].
  - split; [assumption|]. split; [assumption|].
    rewrite child_names_append, Hcn. apply incl_refl.
Qed.

Lemma promote_builtin_step (parts : list (string * bool))
      (root system root' system' : Node) (s s' : St W) :
  unique_names root -> unique_names system ->
  NoDup (map fst parts) ->
  (forall p, In p (map fst parts) -> ~ In p (child_names root)) ->
  promote_builtin root system parts s = Some (Ok (root', system'), s') ->
  s' = s /\ unique_names root' /\ unique_names system' /\
  n_name system' = n_name system /\
  incl (child_names root') (child_names root ++ map fst parts).
Proof.
  revert root system. induction parts as [|[part need] rest IH];
    intros root system Hr Hs Hnd Hfresh; cbn [promote_builtin].
  - intros [= <- <- <-].
    split; [reflexivity|]. split; [assumption|]. split; [assumption|].
    split; [reflexivity | apply incl_appl, incl_refl].
  - unfold bind at 1.
    destruct (partition_promote_to_root root system part need s)
      as [[[[rc root1] system1] s1]|] eqn:E; [|discriminate].
    cbn in Hnd. inversion Hnd as [|? ? Hpart Hnd']. subst.
    destruct (partition_promote_to_root_step _ _ _ _ _ _ _ _ _ Hr Hs
                (Hfresh part (or_introl eq_refl)) E)
      as (-> & Hr1 & Hs1 & Hn1 & Hincl1).
    destruct (negb (rc =? 0)); [discriminate|].
    intros Hrest.
    destruct (IH root1 system1 Hr1 Hs1 Hnd') as (-> & Hr2 & Hs2 & Hn2 & Hincl2);
      [|exact Hrest|].
    + intros p Hp Hin. apply Hincl1 in Hin. apply in_app_or in Hin.
      destruct Hin as [Hin|[<-|[]]].
      * apply (Hfresh p); [now right | assumption].
      * contradiction.
    + split; [reflexivity|]. split; [assumption|]. split; [assumption|].
      split; [congruence|].
      intros x Hx. apply Hincl2 in Hx. apply in_app_or in Hx.
      destruct Hx as [Hx|Hx].
      * apply Hincl1 in Hx. apply in_app_or in Hx.
        destruct Hx as [Hx|[<-|[]]];
          [apply in_or_app; now left | apply in_or_app; right; now left].
      * apply in_or_app. right. now right.
Qed.

(** *** Extra partitions *)

Lemma partition_scan_loop_step (fuel : nat) (mdir part_name : string)
      (entries : list string) (parent parent' : Node) (has_any : bool)
      (rc : Z) (s s' : St W) :
  unique_names parent ->
  partition_scan_loop fuel mdir part_name entries parent has_any s
  = Some ((rc, parent'), s') ->
  unique_names parent' /\ n_name parent' = n_name parent.
Proof.
  revert parent has_any s. induction entries as [|d_name rest IH];
    intros parent has_any s Hu; cbn [partition_scan_loop].
  - intros [= _ <- _]. now split.
  - destruct (String.eqb d_name "." || String.eqb d_name "..")%bool;
      [now apply IH|].
    unfold bind at 1.
    destruct (enabled_module_pure mdir d_name s) as [m ->].
    destruct m as [mod_path|]; [|now apply IH].
    destruct (Utils.path_join mod_path part_name) as [part_path|e];
      [|now apply IH].
    unfold bind at 1. rewrite path_is_dir_run.
    destruct (negb _); [now apply IH|].
    unfold bind at 1.
    destruct (node_scan_dir fuel parent part_path (Some d_name) s)
      as [[[[parent1 sub]|e] s1]|] eqn:E; try discriminate.
    + destruct (node_scan_dir_unique _ _ _ _ _ _ _ _ Hu E) as [Hu1 Hn1].
      intros Hrest. destruct (IH _ _ _ Hu1 Hrest) as [Hu2 Hn2].
      split; [assumption | congruence].
    + intros [= _ <- _]. now split.
Qed.

Lemma partition_scan_from_modules_step (fuel : nat) (part_name : string)
      (parent parent' : Node) (rc : Z) (s s' : St W) :
  unique_names parent ->
  partition_scan_from_modules fuel part_name parent s
  = Some ((rc, parent'), s') ->
  unique_names parent' /\ n_name parent' = n_name parent.
Proof.
  intros Hu. unfold partition_scan_from_modules, open_module_dir,
    bind at 1, bind at 1, get_ctx.
  destruct (module_dir (st_ctx s)) as [mdir|].
  - cbv [opendir bind get_world ret ctx_module_dir get_ctx].
    destruct (k_opendir (st_world s) mdir) as [ds|e].
    + apply partition_scan_loop_step. exact Hu.
    + intros [= _ <- _]. now split.
  - cbv [ret]. intros [= _ <- _]. now split.
Qed.

Lemma attach_extra_parts_step (fuel : nat) (names : list string)
      (root root' : Node) (s s' : St W) :
  unique_names root -> NoDup names ->
  (forall n, In n names -> ~ In n (child_names root)) ->
  attach_extra_parts fuel root names s = Some (Ok root', s') ->
  unique_names root' /\
  incl (child_names root') (child_names root ++ names).
Proof.
  revert root s. induction names as [|name rest IH];
    intros root s Hu Hnd Hfresh; cbn [attach_extra_parts].
  - intros [= <- _]. split; [assumption | apply incl_appl, incl_refl].
  - inversion Hnd as [|? ? Hname Hnd']. subst.
    assert (Hskip : forall s1,
               attach_extra_parts fuel root rest s1 = Some (Ok root', s') ->
               unique_names root' /\
               incl (child_names root') (child_names root ++ name :: rest)).
    { intros s1 Hrest.
      destruct (IH root s1 Hu Hnd') as [Hu' Hincl]; [|exact Hrest|].
      - intros n Hn. apply Hfresh. now right.
      - split; [assumption|]. intros x Hx. apply Hincl in Hx.
        apply in_app_or in Hx. apply in_or_app.
        destruct Hx as [Hx|Hx]; [now left | right; now right]. }
    destruct (Utils.path_join "/" name) as [rp|e]; [|apply Hskip].
    unfold bind at 1. rewrite path_is_dir_run.
    destruct (negb _); [apply Hskip|].
    unfold bind at 1.
    destruct (partition_scan_from_modules fuel name
                (node_new name NFT_DIRECTORY) s)
      as [[[rc child] s1]|] eqn:E; [|discriminate].
    destruct (partition_scan_from_modules_step _ _ _ _ _ _ _
                (unique_names_new name NFT_DIRECTORY) E) as [Hcu Hcn].
    cbn in Hcn.
    destruct (rc =? 0).
    + intros Hrest.
      assert (Hu1 : unique_names (node_child_append root child)).
      { apply unique_names_append; try assumption. rewrite Hcn.
        apply Hfresh. now left. }
      destruct (IH _ s1 Hu1 Hnd') as [Hu' Hincl]; [|exact Hrest|].
      * intros n Hn. rewrite child_names_append, Hcn. intros Hin.
        apply in_app_or in Hin. destruct Hin as [Hin|[<-|[]]].
        -- apply (Hfresh n); [now right | assumption].
        -- contradiction.
      * split; [assumption|]. intros x Hx. apply Hincl in Hx.
        rewrite child_names_append, Hcn in Hx.
        apply in_app_or in Hx. apply in_or_app.
        destruct Hx as [Hx|Hx]; [|right; now right].
        apply in_app_or in Hx.
        destruct Hx as [Hx|[<-|[]]]; [now left | right; now left].
    + destruct (rc =? 1); [apply Hskip | discriminate].
Qed.

(** *** The tree *)

Lemma builtin_parts_distinct :
  NoDup (map fst [("vendor", true); ("system_ext", true);
                  ("product", true); ("odm", false)]).
Proof.
  cbn. repeat (constructor; [cbn; intuition discriminate|]). constructor.
Qed.

Lemma collect_modules_unique (fuel : nat) (mdir : string)
      (entries : list string) (system system' : Node)
      (has_any has_any' : bool) (s s' : St W) :
  unique_names system ->
  collect_modules fuel mdir entries system has_any s
  = Some (Ok (system', has_any'), s') ->
  unique_names system' /\ n_name system' = n_name system.
Proof.
  revert system has_any s. induction entries as [|d_name rest IH];
    intros system has_any s Hu; cbn [collect_modules].
  - intros [= <- _ _]. now split.
  - destruct (String.eqb d_name "." || String.eqb d_name "..")%bool;
      [now apply IH|].
    destruct (Utils.path_join mdir d_name) as [mod_path|e]; [|discriminate].
    unfold bind at 1. rewrite stat_run.
    destruct (k_stat (st_world s) mod_path) as [mod_st|e]; [|now apply IH].
    destruct (negb (S_ISDIR (st_mode mod_st))); [now apply IH|].
    unfold bind at 1.
    destruct (module_is_disabled_pure mod_path s) as [dis ->].
    destruct dis; [now apply IH|].
    destruct (Utils.path_join mod_path "system") as [mod_sys|e];
      [|discriminate].
    unfold bind at 1. rewrite path_is_dir_run.
    destruct (negb _); [now apply IH|].
    unfold bind at 1.
    destruct (count_module_reads s) as (s1 & -> & _).
    unfold bind at 1.
    destruct (node_scan_dir fuel system mod_sys (Some d_name) s1)
      as [[[[system1 sub]|e] s2]|] eqn:E; try discriminate.
    destruct (node_scan_dir_unique _ _ _ _ _ _ _ _ Hu E) as [Hu1 Hn1].
    intros Hrest. destruct (IH _ _ _ Hu1 Hrest) as [Hu2 Hn2].
    split; [assumption | congruence].
Qed.

(** X20. When the extra partitions are pairwise distinct and none of them is
    called [system] or as a promoted partition, no node of the tree that
    [build_mount_tree] returns has two children of the same name. *)
Theorem build_mount_tree_unique_names (fuel : nat) (s s' : St W)
        (root : Node) :
  NoDup (extra_parts (st_ctx s)) ->
  (forall n, In n ["vendor"; "system_ext"; "product"; "odm"; "system"] ->
             ~ In n (extra_parts (st_ctx s))) ->
  build_mount_tree fuel s = Some (Some root, s') ->
  unique_names root.
Proof.
  intros Hnd Hfresh. unfold build_mount_tree, bind at 1, get_ctx.
  cbv zeta. unfold bind at 1, opendir, bind at 1, get_world, ret.
  destruct (k_opendir (st_world s) (scanned_module_dir (st_ctx s)))
    as [ds|e]; [|discriminate].
  unfold bind at 1.
  destruct (collect_modules fuel _ (ds_entries ds) _ false s)
    as [[[[system has_any]|e] s1]|] eqn:Ecollect; try discriminate.
  destruct (negb has_any); [discriminate|].
  unfold bind at 1, count_root_and_system, set_stats, bind at 1, get_ctx,
    set_ctx.
  unfold bind at 1.
  match goal with
  | |- match symlink_resolve_all_partition_links fuel system ?s2 with _ => _ end = _ -> _ =>
      destruct (symlink_resolve_all_partition_links fuel system s2)
        as [[system1 s3]|] eqn:Eresolve; [|discriminate]
  end.
  unfold bind at 1.
  destruct (promote_builtin _ system1 _ s3)
    as [[[[root1 system2]|e] s4]|] eqn:Epromote; try discriminate.
  unfold bind at 1, get_ctx. unfold bind at 1.
  destruct (attach_extra_parts fuel root1 (extra_parts (st_ctx s4)) s4)
    as [[[root2|e] s5]|] eqn:Eattach; try discriminate.
  intros [= <- _].
  destruct (collect_modules_unique _ _ _ _ _ _ _ _ _
              (unique_names_new "system" NFT_DIRECTORY) Ecollect)
    as [Hsu Hsn].
  cbn in Hsn.
  apply collect_modules_reads in Ecollect.
  destruct (symlink_resolve_all_step _ _ _ _ _ Hsu Eresolve)
    as (Hs1u & Hs1n & Hresolve).
  destruct (promote_builtin_step _ _ _ _ _ _ _
              (unique_names_new "" NFT_DIRECTORY) Hs1u
              builtin_parts_distinct
              ltac:(intros p _ Hin; exact Hin)
              Epromote)
    as (-> & Hr1u & Hs2u & Hs2n & Hincl1).
  assert (Hextras : extra_parts (st_ctx s3) = extra_parts (st_ctx s)).
  { destruct Ecollect as (_ & _ & _ & _ & He1 & _).
    destruct Hresolve as (_ & _ & _ & _ & He2 & _).
    rewrite He2. cbn. exact He1. }
  rewrite Hextras in Eattach.
  assert (Hfresh1 : forall n, In n (extra_parts (st_ctx s)) ->
                              ~ In n (child_names root1)).
  { intros n Hn Hin. apply Hincl1 in Hin. cbn in Hin.
    apply (Hfresh n); [|exact Hn]. cbn. tauto. }
  destruct (attach_extra_parts_step _ _ _ _ _ _ Hr1u Hnd Hfresh1 Eattach)
    as [Hr2u Hincl2].
  apply unique_names_append; try assumption.
  intros Hin. apply Hincl2 in Hin. apply in_app_or in Hin.
  rewrite Hs2n, Hs1n, Hsn in Hin.
  destruct Hin as [Hin|Hin].
  - apply Hincl1 in Hin. cbn in Hin. intuition discriminate.
  - apply (Hfresh "system"); [|exact Hin]. cbn. tauto.
Qed.

End UniqueNames.

(** ** Runs on the scenarios *)

(** C5. With the workdir under [/mnt/work], a temp directory set by the
    configuration, the file [init.rc] is bound onto its place in the
    workdir, with [has_tmpfs] set, and [ksu_send_unmountable] is called for
    it all the same, between the bind and the read-only remount: first for
    the node alone, then in the whole run. *)
Theorem workdir_bind_is_marked :
  option_map (fun r => (fst r, Words.mount_view (st_trace (snd r))))
    (Apply.mm_apply_regular_file "//system/etc/init.rc"
       "/mnt/work/workdir/system/etc/init.rc"
       (ModuleTree.mkNode "init.rc" ModuleTree.NFT_REGULAR []
          (Some "/data/adb/modules/modA/system/etc/init.rc") (Some "modA")
          false false false)
       true (init_state Scenario.swap_world magic_mount_init))
  = Some (Ok tt,
          [Words.bind_event "/data/adb/modules/modA/system/etc/init.rc"
                            "/mnt/work/workdir/system/etc/init.rc";
           EvMarkUnmountable "//system/etc/init.rc";
           Words.remount_ro_event "/mnt/work/workdir/system/etc/init.rc"])
  /\
  option_map (fun r => (fst r, Words.mount_view (st_trace (snd r))))
    (Apply.magic_mount 10 "/mnt/work"
       (init_state Scenario.swap_world magic_mount_init))
  = Some (Ok 0,
          [EvSys (SysMount (Some "KSU") "/mnt/work/workdir" (Some "tmpfs") 0);
           EvSys (SysMount None "/mnt/work/workdir" None
                           (Z.lor MS_REC MS_PRIVATE));
           Words.bind_event "/mnt/work/workdir/system/etc"
                            "/mnt/work/workdir/system/etc";
           Words.bind_event "/data/adb/modules/modA/system/etc/init.rc"
                            "/mnt/work/workdir/system/etc/init.rc";
           EvMarkUnmountable "//system/etc/init.rc";
           Words.remount_ro_event "/mnt/work/workdir/system/etc/init.rc";
           Words.bind_event "//system/etc/passwd"
                            "/mnt/work/workdir/system/etc/passwd";
           Words.remount_ro_event "/mnt/work/workdir/system/etc";
           EvSys (SysMount (Some "/mnt/work/workdir/system/etc")
                           "//system/etc" None MS_MOVE);
           EvSys (SysMount None "//system/etc" None (Z.lor MS_REC MS_PRIVATE));
           EvMarkUnmountable "//system/etc"]).
Proof. split; vm_compute; reflexivity. Qed.

(** The same node with the workdir under [/dev/.magic_mount]: no call. *)
Example workdir_bind_default_tempdir :
  option_map (fun r => Words.mount_view (st_trace (snd r)))
    (Apply.mm_apply_regular_file "//system/etc/init.rc"
       "/dev/.magic_mount/workdir/system/etc/init.rc"
       (ModuleTree.mkNode "init.rc" ModuleTree.NFT_REGULAR []
          (Some "/data/adb/modules/modA/system/etc/init.rc") (Some "modA")
          false false false)
       true (init_state Scenario.swap_world magic_mount_init))
  = Some [Words.bind_event "/data/adb/modules/modA/system/etc/init.rc"
                           "/dev/.magic_mount/workdir/system/etc/init.rc";
          Words.remount_ro_event "/dev/.magic_mount/workdir/system/etc/init.rc"].
Proof. vm_compute. reflexivity. Qed.

(** A child that fails inside a directory under construction: the error
    climbs to [/system/etc], which is neither moved into place nor counted
    as mounted; [/system], which is not under construction, absorbs it. *)
Example tmpfs_child_error_abandons_directory :
  option_map (fun r => (fst r, stats (st_ctx (snd r)),
                        failed_modules (st_ctx (snd r)),
                        Words.mount_view (st_trace (snd r))))
    (Apply.magic_mount 10 "/dev/.magic_mount"
       (init_state Scenario.swap_world_failing magic_mount_init))
  = Some (Ok 0, mkStats 1 5 2 0 0 2, ["modA"],
          [EvSys (SysMount (Some "KSU") "/dev/.magic_mount/workdir"
                           (Some "tmpfs") 0);
           EvSys (SysMount None "/dev/.magic_mount/workdir" None
                           (Z.lor MS_REC MS_PRIVATE));
           Words.bind_event "/dev/.magic_mount/workdir/system/etc"
                            "/dev/.magic_mount/workdir/system/etc";
           Words.bind_event "/data/adb/modules/modA/system/etc/init.rc"
                            "/dev/.magic_mount/workdir/system/etc/init.rc"]).
Proof. vm_compute. reflexivity. Qed.

(** C2. With the extra partition [mi_ext] the tree has five nodes, all of
    which end up mounted, and [nodes_total] is four: the node of the extra
    partition is not counted, and the counters of the run break the
    invariant. *)
Theorem extra_partition_node_not_counted :
  exists s',
    Apply.magic_mount 10 "/dev/.magic_mount"
      (init_state Scenario.extra_world (Scenario.ctx_with_extras ["mi_ext"]))
    = Some (Ok 0, s') /\
    stats (st_ctx s') = mkStats 1 4 5 0 0 0 /\
    ~ Words.counted_within_total (stats (st_ctx s')).
Proof.
  assert (E : option_map (fun r => (fst r, stats (st_ctx (snd r))))
                (Apply.magic_mount 10 "/dev/.magic_mount"
                   (init_state Scenario.extra_world
                               (Scenario.ctx_with_extras ["mi_ext"])))
              = Some (Ok 0, mkStats 1 4 5 0 0 0))
    by (vm_compute; reflexivity).
  destruct (Apply.magic_mount _ _ _) as [[r s']|]; [|discriminate].
  cbn in E. injection E as -> Hs. exists s'.
  split; [reflexivity|]. split; [exact Hs|].
  rewrite Hs. unfold Words.counted_within_total. cbn. lia.
Qed.

(** C3. With [mi_ext] registered twice, the root of the tree that
    [build_mount_tree] returns has two children of that name. *)
Theorem duplicate_extra_partition_duplicates_child :
  exists root s',
    ModuleTree.build_mount_tree 10
      (init_state Scenario.extra_world
                  (Scenario.ctx_with_extras ["mi_ext"; "mi_ext"]))
    = Some (Some root, s') /\
    Words.child_names root = ["mi_ext"; "mi_ext"; "system"] /\
    ~ NoDup (Words.child_names root).
Proof.
  assert (E : option_map (fun r => option_map Words.child_names (fst r))
                (ModuleTree.build_mount_tree 10
                   (init_state Scenario.extra_world
                      (Scenario.ctx_with_extras ["mi_ext"; "mi_ext"])))
              = Some (Some ["mi_ext"; "mi_ext"; "system"]))
    by (vm_compute; reflexivity).
  destruct (ModuleTree.build_mount_tree _ _) as [[[root|] s']|];
    try discriminate.
  cbn in E. injection E as Hn. exists root, s'.
  split; [reflexivity|]. split; [exact Hn|].
  rewrite Hn. intros Hnd. inversion Hnd as [|x l Hnotin _]. apply Hnotin.
  now left.
Qed.

(** Registration accepts the same name twice, and accepts [system]. *)
Example registration_keeps_duplicates :
  option_map (fun r => extra_parts (st_ctx (snd r)))
    ((ModuleTree.extra_partition_register "mi_ext" ;;
      ModuleTree.extra_partition_register "mi_ext" ;;
      ModuleTree.extra_partition_register "system")%mm
       (init_state Scenario.extra_world magic_mount_init))
  = Some ["mi_ext"; "mi_ext"; "system"].
Proof. vm_compute. reflexivity. Qed.
(** ** Trimming *)

Section Trim.
Import Utils Words.

Lemma all_chars_app (f : ascii -> bool) (a b : string) :
  all_chars f (a ++ b) = (all_chars f a && all_chars f b)%bool.
Proof.
  induction a as [|c a IH]; simpl; [reflexivity|].
  now rewrite IH, andb_assoc.
Qed.

Lemma drop_while_all (f : ascii -> bool) (l m : string) :
  all_chars f l = true -> Str.drop_while f (l ++ m) = Str.drop_while f m.
Proof.
  induction l as [|c l IH]; simpl; [reflexivity|].
  intros Hc. apply andb_true_iff in Hc as [-> Hl]. now apply IH.
Qed.

Lemma drop_while_split (f : ascii -> bool) (s : string) :
  exists l, s = l ++ Str.drop_while f s /\ all_chars f l = true.
Proof.
  induction s as [|c s [l [Hs Hl]]]; simpl.
  - now exists "".
  - destruct (f c) eqn:E.
    + exists (String c l). simpl. rewrite E, Hl. now rewrite <- Hs.
    + now exists "".
Qed.

Lemma drop_while_head (f : ascii -> bool) (s : string) (c : ascii) :
  String.get 0 (Str.drop_while f s) = Some c -> f c = false.
Proof.
  induction s as [|x s IH]; simpl; [discriminate|].
  destruct (f x) eqn:E; [exact IH|]. simpl. now intros [= <-].
Qed.

Lemma drop_while_end_all (f : ascii -> bool) (r : string) :
  all_chars f r = true -> Str.drop_while_end f r = "".
Proof.
  induction r as [|c r IH]; simpl; [reflexivity|].
  intros Hc. apply andb_true_iff in Hc as [-> Hr]. now rewrite IH.
Qed.

Lemma drop_while_end_app (f : ascii -> bool) (m r : string) :
  all_chars f r = true ->
  Str.drop_while_end f (m ++ r) = Str.drop_while_end f m.
Proof.
  intros Hr. induction m as [|c m IH]; simpl.
  - now apply drop_while_end_all.
  - now rewrite IH.
Qed.

Lemma drop_while_end_split (f : ascii -> bool) (s : string) :
  exists r, s = Str.drop_while_end f s ++ r /\ all_chars f r = true.
Proof.
  induction s as [|c s [r [Hs Hr]]]; simpl.
  - now exists "".
  - destruct (Str.drop_while_end f s) as [|d t] eqn:E.
    + destruct (f c) eqn:Ec.
      * exists (String c s). simpl. split; [reflexivity|].
        rewrite Ec. simpl in Hs. now rewrite Hs.
      * exists s. simpl in Hs. split; [reflexivity|]. now rewrite Hs.
    + exists r. split; [|assumption]. simpl in *. now rewrite <- Hs.
Qed.

Lemma last_cons (c : ascii) (s : string) :
  Str.last (String c s) = match Str.last s with
                          | Some d => Some d
                          | None => Some c
                          end.
Proof.
  unfold Str.last. cbn [String.length].
  destruct s as [|d s]; [reflexivity|]. cbn [String.length].
  change (String.get (S (String.length s)) (String c (String d s)))
    with (String.get (String.length s) (String d s)).
  destruct (String.get (String.length s) (String d s)) eqn:E;
    [reflexivity|].
  exfalso. revert d E. induction s as [|e s IH]; intros d; simpl.
  - discriminate.
  - apply IH.
Qed.

Lemma last_none (s : string) : Str.last s = None -> s = "".
Proof.
  destruct s as [|c s]; [reflexivity|]. rewrite last_cons.
  destruct (Str.last s); discriminate.
Qed.

Lemma drop_while_end_last (f : ascii -> bool) (s : string) (c : ascii) :
  Str.last (Str.drop_while_end f s) = Some c -> f c = false.
Proof.
  induction s as [|x s IH]; simpl; [discriminate|].
  destruct (Str.drop_while_end f s) as [|d t] eqn:E.
  - destruct (f x) eqn:Ex; [discriminate|]. now intros [= <-].
  - rewrite last_cons. destruct (Str.last (String d t)) eqn:El.
    + intros [= <-]. now apply IH.
    + now apply last_none in El.
Qed.

Lemma drop_while_end_fixed (f : ascii -> bool) (s : string) :
  (forall c, Str.last s = Some c -> f c = false) ->
  Str.drop_while_end f s = s.
Proof.
  induction s as [|x s IH]; [reflexivity|]. rewrite last_cons.
  intros Hl. simpl. destruct s as [|d t].
  - simpl. now rewrite (Hl x eq_refl).
  - rewrite IH; [reflexivity|].
    intros c Hc. apply Hl. now rewrite Hc.
Qed.

Lemma drop_while_end_head (f : ascii -> bool) (s : string) (c : ascii) :
  String.get 0 (Str.drop_while_end f s) = Some c -> String.get 0 s = Some c.
Proof.
  destruct s as [|x s]; simpl; [discriminate|].
  destruct (Str.drop_while_end f s).
  - destruct (f x); [discriminate | exact (fun E => E)].
  - exact (fun E => E).
Qed.

Lemma tight_intro (s : string) :
  (forall c, String.get 0 s = Some c -> Str.isWhitespace c = false) ->
  (forall c, Str.last s = Some c -> Str.isWhitespace c = false) ->
  tight s = true.
Proof.
  unfold tight. intros Hh Hl.
  destruct (String.get 0 s) as [a|]; [|reflexivity].
  destruct (Str.last s) as [b|]; [|reflexivity].
  now rewrite (Hh a), (Hl b).
Qed.

Lemma tight_elim (s : string) :
  tight s = true ->
  (forall c, String.get 0 s = Some c -> Str.isWhitespace c = false) /\
  (forall c, Str.last s = Some c -> Str.isWhitespace c = false).
Proof.
  unfold tight. destruct s as [|x s].
  - split; discriminate.
  - cbn [String.get]. rewrite last_cons.
    destruct (Str.last s) as [d|]; intros Ht;
      apply andb_true_iff in Ht as [Ha Hb];
      apply negb_true_iff in Ha, Hb; split; now intros c [= <-].
Qed.

(** X1. [str_trim] takes away the whitespace at both ends and nothing
    else: the argument is the result between two runs of whitespace, and
    the result neither begins nor ends with whitespace. *)
Theorem str_trim_spec (str : string) :
  exists l r,
    str = l ++ str_trim str ++ r /\
    blank l = true /\ blank r = true /\ tight (str_trim str) = true.
Proof.
  unfold str_trim, blank.
  destruct (drop_while_split Str.isWhitespace str) as [l [Hs Hl]].
  destruct (drop_while_end_split Str.isWhitespace
              (Str.drop_while Str.isWhitespace str)) as [r [Hm Hr]].
  exists l, r. split; [|split; [assumption | split; [assumption|]]].
  - rewrite <- Hm. exact Hs.
  - apply tight_intro.
    + intros c Hc. apply drop_while_end_head in Hc.
      now apply drop_while_head in Hc.
    + apply drop_while_end_last.
Qed.

Lemma drop_while_fixed (f : ascii -> bool) (s : string) :
  (forall c, String.get 0 s = Some c -> f c = false) ->
  Str.drop_while f s = s.
Proof.
  destruct s as [|x s]; [reflexivity|]. simpl. intros Hh.
  now rewrite (Hh x eq_refl).
Qed.

Lemma str_trim_tight (m : string) : tight m = true -> str_trim m = m.
Proof.
  intros Ht. apply tight_elim in Ht as [Hh Hl]. unfold str_trim.
  rewrite drop_while_fixed by assumption.
  now apply drop_while_end_fixed.
Qed.

Lemma str_trim_padded (l m r : string) :
  blank l = true -> blank r = true -> tight m = true ->
  str_trim (l ++ m ++ r) = m.
Proof.
  unfold blank. intros Hl Hr Ht. unfold str_trim.
  rewrite drop_while_all by assumption.
  destruct m as [|x m].
  - simpl. destruct (drop_while_split Str.isWhitespace r) as [l' [Hs Hl']].
    rewrite Hs in Hr. rewrite all_chars_app in Hr.
    apply andb_true_iff in Hr as [_ Hr].
    destruct (Str.drop_while Str.isWhitespace r) as [|c t] eqn:E;
      [reflexivity|].
    assert (Hc : Str.isWhitespace c = false).
    { apply (drop_while_head Str.isWhitespace r). now rewrite E. }
    simpl in Hr. now rewrite Hc in Hr.
  - apply tight_elim in Ht as [Hh Hlast].
    rewrite drop_while_fixed.
    + rewrite drop_while_end_app by assumption.
      now apply drop_while_end_fixed.
    + simpl. intros c [= <-]. now apply Hh.
Qed.

(** X2. A text without whitespace at its ends comes back from [str_trim]
    whatever whitespace is put around it; in particular trimming twice
    is trimming once. *)
Theorem str_trim_padding (l m r : string) :
  blank l = true -> blank r = true -> tight m = true ->
  str_trim (l ++ m ++ r) = m /\ str_trim (str_trim (l ++ m ++ r)) = m.
Proof.
  intros Hl Hr Ht. rewrite (str_trim_padded l m r) by assumption.
  split; [reflexivity|]. now apply str_trim_tight.
Qed.

Lemma str_trim_padding_tabs :
  str_trim ((" " ++ String "009"%char "") ++ "a b" ++ String "010"%char "")
  = "a b" /\
  str_trim (str_trim ((" " ++ String "009"%char "") ++ "a b"
                      ++ String "010"%char "")) = "a b".
Proof.
  apply (str_trim_padding (" " ++ String "009"%char "") "a b"
                          (String "010"%char ""));
    reflexivity.
Defined.

End Trim.
(** ** The contract of path_join *)

Section PathJoinContract.
Import Utils.

(** X3. [path_join] returns the base, at most one ['/'] and the name, in a
    result that fits a buffer of [PATH_MAX] bytes with its terminator;
    it fails with [NameTooLong] and with nothing else, and only when the
    two parts do not leave room for both the separator and the
    terminator. *)
Theorem path_join_contract (base name : string) :
  match path_join base name with
  | Ok p =>
      len p <= PATH_MAX - 1 /\
      (p = base ++ name \/ p = base ++ "/" ++ name)
  | Err e =>
      e = NameTooLong /\ PATH_MAX <= len base + len name + 1
  end.
Proof.
  destruct (path_join base name) as [p|e] eqn:E.
  - split; [eapply path_join_ok_length; eassumption|].
    revert E. unfold path_join.
    destruct (len name =? 0) eqn:En.
    + destruct (PATH_MAX <=? len base); [discriminate|].
      intros [= <-]. left. apply Z.eqb_eq in En. apply len_zero in En.
      subst name. clear. induction base as [|c b IH]; simpl; congruence.
    + set (use_slash := if (_ || _)%bool then true else _).
      destruct use_slash;
        match goal with
        | |- (if ?c then _ else _) = _ -> _ => destruct c; [discriminate|]
        end; intros [= <-]; [right | left]; reflexivity.
  - now apply path_join_err in E.
Qed.

End PathJoinContract.

(** ** The children of a node *)

Section ChildList.
Import ModuleTree.

Lemma find_child_app (cs : list Node) (child : Node) (name : string) :
  find_child (cs ++ [child]) name
  = match find_child cs name with
    | Some c => Some c
    | None => if String.eqb (n_name child) name then Some child else None
    end.
Proof.
  induction cs as [|c cs IH]; simpl.
  - reflexivity.
  - destruct (String.eqb (n_name c) name); [reflexivity | exact IH].
Qed.

(** X4. After [node_child_append], [node_child_find] still returns the child
    it returned before for a name, and returns the new child for its
    name exactly when no earlier child has that name. *)
Theorem node_child_find_append (parent child : Node) (name : string) :
  node_child_find (node_child_append parent child) name
  = match node_child_find parent name with
    | Some c => Some c
    | None => if String.eqb (n_name child) name then Some child else None
    end.
Proof. unfold node_child_find, node_child_append. simpl. apply find_child_app. Qed.

Lemma detach_child_first (cs : list Node) (name : string) :
  match detach_child cs name with
  | Some (c, rest) =>
      find_child cs name = Some c /\
      exists before after,
        cs = (before ++ c :: after)%list /\ rest = (before ++ after)%list /\
        find_child before name = None
  | None => find_child cs name = None
  end.
Proof.
  induction cs as [|c cs IH]; simpl; [reflexivity|].
  destruct (String.eqb (n_name c) name) eqn:E.
  - split; [reflexivity|]. now exists [], cs.
  - destruct (detach_child cs name) as [[n rest]|].
    + destruct IH as [Hf [before [after [Hcs [Hrest Hb]]]]].
      split; [assumption|]. exists (c :: before), after. simpl.
      rewrite E. subst. repeat split. assumption.
    + assumption.
Qed.

(** X5. [node_child_detach] takes out the child that [node_child_find]
    returns, the first one with the name, and leaves the other children
    in their order; it returns nothing exactly when there is no such
    child. *)
Theorem node_child_detach_find (parent : Node) (name : string) :
  match node_child_detach parent name with
  | Some (c, parent') =>
      node_child_find parent name = Some c /\
      n_name parent' = n_name parent /\
      exists before after,
        n_children parent = (before ++ c :: after)%list /\
        n_children parent' = (before ++ after)%list /\
        find_child before name = None
  | None => node_child_find parent name = None
  end.
Proof.
  unfold node_child_detach, node_child_find.
  pose proof (detach_child_first (n_children parent) name) as Hd.
  destruct (detach_child (n_children parent) name) as [[c rest]|].
  - destruct Hd as [Hf [before [after [Hcs [Hrest Hb]]]]].
    split; [assumption|]. split; [reflexivity|].
    exists before, after. simpl. now repeat split.
  - assumption.
Qed.

End ChildList.

(** ** The list of failed modules *)

Section FailedModules.
Import ModuleTree.
Context {W : Type} {K : Kernel W}.

(** X6. [module_mark_failed] keeps the failed modules a duplicate-free list:
    the module is on the list afterwards, nothing is taken off it, a
    module already listed changes nothing (so that marking twice is
    marking once), and no counter, setting, call or log line is
    touched. *)
Theorem module_mark_failed_set (module_name : string) (s : St W) :
  exists s',
    module_mark_failed module_name s = Some (tt, s') /\
    In module_name (failed_modules (st_ctx s')) /\
    (failed_modules (st_ctx s')
     = if Str.mem module_name (failed_modules (st_ctx s))
       then failed_modules (st_ctx s)
       else (failed_modules (st_ctx s) ++ [module_name])%list) /\
    (NoDup (failed_modules (st_ctx s)) ->
     NoDup (failed_modules (st_ctx s'))) /\
    module_mark_failed module_name s' = Some (tt, s') /\
    stats (st_ctx s') = stats (st_ctx s) /\
    extra_parts (st_ctx s') = extra_parts (st_ctx s) /\
    st_trace s' = st_trace s /\ st_log s' = st_log s /\
    st_world s' = st_world s.
Proof.
  unfold module_mark_failed, bind, get_ctx, set_ctx, ret.
  destruct (Str.mem module_name (failed_modules (st_ctx s))) eqn:E.
  - exists s. rewrite E. repeat split; try assumption; try tauto.
    now apply mem_In.
  - eexists. split; [reflexivity|]. cbn.
    assert (Hin : Str.mem module_name
                    (failed_modules (st_ctx s) ++ [module_name]) = true).
    { apply mem_In, in_or_app. right. now left. }
    rewrite Hin. repeat split.
    + apply in_or_app. right. now left.
    + intros Hnd. apply NoDup_app; [assumption | repeat constructor; auto | ].
      intros x Hx [<-|[]]. apply mem_In in Hx. congruence.
Qed.

End FailedModules.
(** ** The list of partition names *)

Section Tokens.
Import Main Words.

Lemma string_app_assoc (a b c : string) : (a ++ b) ++ c = a ++ b ++ c.
Proof. induction a as [|x a IH]; simpl; [reflexivity | now rewrite IH]. Qed.

Lemma string_app_nil (a : string) : a ++ "" = a.
Proof. induction a as [|x a IH]; simpl; [reflexivity | now rewrite IH]. Qed.

Lemma skip_get_some (p : nat) (s : string) (c : ascii) :
  String.get p s = Some c -> Str.skip p s = String c (Str.skip (S p) s).
Proof.
  revert s. induction p as [|p IH]; intros [|x s]; simpl; try discriminate.
  - intros [= ->]. now destruct s.
  - intros E. rewrite (IH _ E). reflexivity.
Qed.

Lemma skip_get_none (p : nat) (s : string) :
  String.get p s = None -> Str.skip p s = "".
Proof.
  revert s. induction p as [|p IH]; intros [|x s]; simpl;
    try reflexivity; try discriminate.
  apply IH.
Qed.

Lemma skip_length (p : nat) (s : string) :
  String.length (Str.skip p s) = (String.length s - p)%nat.
Proof.
  revert s. induction p as [|p IH]; intros [|x s]; simpl;
    try reflexivity; try lia.
  apply IH.
Qed.

Lemma skip_beyond (p : nat) (s : string) :
  (String.length s <= p)%nat -> Str.skip p s = "".
Proof.
  intros Hl. apply string_length_zero. rewrite skip_length. lia.
Qed.

Lemma drop_while_length (f : ascii -> bool) (s : string) :
  (String.length (Str.drop_while f s) <= String.length s)%nat.
Proof.
  induction s as [|c s IH]; simpl; [lia|].
  destruct (f c); simpl; lia.
Qed.

(** The inner loops in terms of the rest of the list. *)
Lemma advance_spec (f : ascii -> bool) (list : string) (n p : nat) :
  (String.length (Str.skip p list) <= n)%nat ->
  (p <= String.length list)%nat ->
  let q := advance f list p n in
  Str.skip q list = Str.drop_while f (Str.skip p list) /\
  (q <= String.length list)%nat /\
  (q - p = String.length (Str.skip p list)
           - String.length (Str.drop_while f (Str.skip p list)))%nat.
Proof.
  revert p. induction n as [|n IH]; intros p Hn Hp; cbn [advance].
  - apply Nat.le_0_r, string_length_zero in Hn. rewrite Hn. simpl.
    repeat split; [assumption | lia].
  - destruct (String.get p list) as [c|] eqn:E.
    + pose proof (skip_get_some _ _ _ E) as Hs. rewrite Hs.
      cbn [Str.drop_while].
      pose proof (skip_length p list) as Hl. rewrite Hs in Hl.
      cbn [String.length] in Hl.
      rewrite Hs in Hn. cbn [String.length] in Hn.
      destruct (f c) eqn:Ef.
      * destruct (IH (S p)) as [H1 [H2 H3]]; [lia | lia |].
        split; [assumption|]. split; [assumption|].
        pose proof (drop_while_length f (Str.skip (S p) list)).
        pose proof (skip_length (S p) list) as Hl'.
        pose proof (skip_length (advance f list (S p) n) list) as Ha.
        rewrite H1 in Ha. cbn [String.length]. lia.
      * rewrite Hs. cbn [String.length]. repeat split; lia.
    + rewrite (skip_get_none _ _ E). simpl. repeat split; [assumption | lia].
Qed.

Lemma substring_skip (p m : nat) (s : string) :
  String.substring p m s = Str.take m (Str.skip p s).
Proof.
  unfold Str.take. revert s. induction p as [|p IH]; intros s; simpl.
  - reflexivity.
  - destruct s as [|x s]; simpl.
    + now destruct m.
    + apply IH.
Qed.

Lemma take_until_drop (sep : ascii -> bool) (s : string) :
  s = Str.take_until sep s
      ++ Str.drop_while (fun c => negb (sep c)) s.
Proof.
  induction s as [|c s IH]; simpl; [reflexivity|].
  destruct (sep c); simpl; [reflexivity | now rewrite <- IH].
Qed.

Lemma take_app_length (a b : string) :
  Str.take (String.length a) (a ++ b) = a.
Proof.
  unfold Str.take. induction a as [|x a IH]; simpl.
  - now destruct b.
  - now rewrite IH.
Qed.

Lemma take_until_free (sep : ascii -> bool) (s : string) :
  all_chars (fun c => negb (sep c)) (Str.take_until sep s) = true.
Proof.
  induction s as [|c s IH]; simpl; [reflexivity|].
  destruct (sep c) eqn:E; simpl; [reflexivity | now rewrite E].
Qed.

Lemma drop_nonsep_head (sep : ascii -> bool) (s : string) :
  match Str.drop_while (fun c => negb (sep c)) s with
  | EmptyString => True
  | String c _ => sep c = true
  end.
Proof.
  induction s as [|c s IH]; simpl; [exact I|].
  destruct (sep c) eqn:E; simpl; [assumption | exact IH].
Qed.

Lemma fields_free (sep : ascii -> bool) (t s cur : string) :
  all_chars (fun c => negb (sep c)) t = true ->
  fields sep (t ++ s) cur = fields sep s (cur ++ t).
Proof.
  revert cur. induction t as [|c t IH]; intros cur; simpl.
  - now rewrite string_app_nil.
  - intros Hc. apply andb_true_iff in Hc as [Hc Ht].
    apply negb_true_iff in Hc. rewrite Hc, IH by assumption.
    now rewrite string_app_assoc.
Qed.

Lemma fields_seps (sep : ascii -> bool) (l s : string) :
  all_chars sep l = true -> fields sep (l ++ s) "" = fields sep s "".
Proof.
  induction l as [|c l IH]; simpl; [reflexivity|].
  intros Hc. apply andb_true_iff in Hc as [-> Hl]. now apply IH.
Qed.

Lemma all_chars_snoc (f : ascii -> bool) (a : string) (c : ascii) :
  all_chars f a = true -> f c = true ->
  all_chars f (a ++ String c "") = true.
Proof. intros Ha Hc. rewrite all_chars_app, Ha. simpl. now rewrite Hc. Qed.

Lemma app_not_empty (a : string) (c : ascii) : a ++ String c "" <> "".
Proof. now destruct a. Qed.

Lemma fields_are_tokens (s cur : string) :
  all_chars (fun c => negb (is_separator c)) cur = true ->
  forallb is_token (fields is_separator s cur) = true.
Proof.
  revert cur. induction s as [|c s IH]; intros cur Hcur; simpl.
  - destruct cur as [|x cur]; [reflexivity|]. simpl.
    unfold is_token. rewrite Hcur. reflexivity.
  - destruct (is_separator c) eqn:E.
    + destruct cur as [|x cur]; [now apply IH|].
      cbn [forallb]. rewrite (IH "" eq_refl).
      unfold is_token. rewrite Hcur. reflexivity.
    + apply IH. apply all_chars_snoc; [assumption|]. now rewrite E.
Qed.

Section Loop.
Context {W : Type} {K : Kernel W}.
Variable register : string -> M W (Res unit).

Lemma partitions_loop_fields (list : string) (fuel p : nat) (s : St W) :
  (String.length (Str.skip p list) < fuel)%nat ->
  partitions_loop register list p fuel s
  = register_each register
      (fields is_separator (Str.skip p list) "") s.
Proof.
  revert p s. induction fuel as [|fuel IH]; intros p s Hfuel; [lia|].
  cbn [partitions_loop].
  destruct (Nat.ltb_spec p (String.length list)) as [Hp|Hp]; cbn [negb].
  2:{ now rewrite skip_beyond by assumption. }
  destruct (advance_spec is_separator list (String.length list) p)
    as [Hq1 [Hq1l Hq1d]];
    [rewrite skip_length; lia | lia |].
  set (q1 := advance is_separator list p (String.length list)) in *.
  destruct (drop_while_split is_separator (Str.skip p list))
    as [l [Hsplit Hl]].
  assert (Hf1 : fields is_separator (Str.skip p list) ""
                = fields is_separator (Str.skip q1 list) "").
  { rewrite Hsplit, fields_seps by assumption. now rewrite Hq1. }
  rewrite Hf1.
  destruct (Nat.leb_spec (String.length list) q1) as [Hend|Hmore].
  { now rewrite skip_beyond by assumption. }
  destruct (advance_spec (fun c => negb (is_separator c)) list
                         (String.length list) q1)
    as [Hq2 [Hq2l Hq2d]];
    [rewrite skip_length; lia | lia |].
  set (q2 := advance (fun c => negb (is_separator c)) list q1
                     (String.length list)) in *.
  pose proof (take_until_drop is_separator (Str.skip q1 list)) as Hcut.
  pose proof (take_until_free is_separator (Str.skip q1 list)) as Hfree.
  pose proof (drop_nonsep_head is_separator (Str.skip q1 list)) as Hhead.
  rewrite <- Hq2 in Hcut, Hhead, Hq2d.
  set (tok := Str.take_until is_separator (Str.skip q1 list)) in *.
  assert (Htok : tok <> "").
  { subst tok. destruct (Str.skip q1 list) as [|c t] eqn:E.
    - pose proof (skip_length q1 list) as Hsl. rewrite E in Hsl.
      simpl in Hsl. lia.
    - simpl. destruct (is_separator c) eqn:Ec; [|discriminate].
      exfalso. pose proof (drop_while_head is_separator (Str.skip p list) c)
        as Hh. rewrite <- Hq1 in Hh. simpl in Hh.
      rewrite Hh in Ec; [discriminate | reflexivity]. }
  assert (Hlen : (q2 - q1 = String.length tok)%nat).
  { rewrite Hq2d. rewrite Hcut at 1. rewrite string_length_app. lia. }
  assert (Htoken : String.substring q1 (q2 - q1) list = tok).
  { rewrite substring_skip, Hlen, Hcut. apply take_app_length. }
  rewrite Htoken.
  assert (Hpos : Nat.ltb 0 (String.length tok) = true).
  { apply Nat.ltb_lt. destruct tok; [congruence | simpl; lia]. }
  rewrite Hpos.
  assert (Hf2 : fields is_separator (Str.skip q1 list) ""
                = tok :: fields is_separator (Str.skip (S q2) list) "").
  { rewrite Hcut, fields_free by assumption. cbn [append].
    destruct (String.get q2 list) as [c|] eqn:Eg.
    - rewrite (skip_get_some _ _ _ Eg) in *. cbn [fields].
      rewrite Hhead. destruct tok; [congruence | reflexivity].
    - rewrite (skip_get_none _ _ Eg).
      rewrite skip_beyond.
      + cbn [fields]. destruct tok; [congruence | reflexivity].
      + pose proof (skip_length q2 list) as Hsl.
        rewrite (skip_get_none _ _ Eg) in Hsl. simpl in Hsl. lia. }
  rewrite Hf2. cbn [register_each]. unfold bind.
  destruct (register tok s) as [[[u|e] s1]|]; [|reflexivity|reflexivity].
  apply IH. rewrite skip_length. rewrite skip_length in Hfuel.
  assert (q1 < q2)%nat by (destruct tok; [congruence | simpl in Hlen; lia]).
  assert (p <= q1)%nat; [|lia].
  pose proof (skip_length q1 list) as Ha. rewrite Hq1 in Ha.
  pose proof (drop_while_length is_separator (Str.skip p list)) as Hb.
  rewrite skip_length in Hb. lia.
Qed.

Lemma parse_partitions_fields (list : string) (s : St W) :
  parse_partitions register list s
  = register_each register (tokens list) s.
Proof.
  unfold parse_partitions, tokens.
  destruct (Nat.eqb_spec (String.length list) 0) as [E|E].
  - apply string_length_zero in E. now subst list.
  - rewrite partitions_loop_fields; [reflexivity|].
    rewrite skip_length. lia.
Qed.

(** X7. [parse_partitions] hands to [extra_partition_register], from left
    to right and up to the first error, the maximal runs of characters
    of the list that are neither a comma nor whitespace; each of them
    is non-empty and holds no comma and no whitespace. *)
Theorem parse_partitions_tokens (list : string) (s : St W) :
  parse_partitions register list s
  = register_each register (tokens list) s /\
  forallb is_token (tokens list) = true.
Proof.
  split; [apply parse_partitions_fields | now apply fields_are_tokens].
Qed.

End Loop.

Lemma fields_token_then (t rest : string) :
  is_token t = true ->
  fields is_separator (t ++ String ","%char rest) ""
  = t :: fields is_separator rest "".
Proof.
  unfold is_token. intros Ht. apply andb_true_iff in Ht as [Hne Hfree].
  rewrite fields_free by assumption. cbn.
  destruct t; [discriminate | reflexivity].
Qed.

Lemma tokens_concat (names : list string) :
  forallb is_token names = true ->
  tokens (String.concat "," names) = names.
Proof.
  unfold tokens. induction names as [|t rest IH]; [reflexivity|].
  cbn [forallb]. intros Hall. apply andb_true_iff in Hall as [Ht Hrest].
  cbn [String.concat]. destruct rest as [|t' rest'].
  - unfold is_token in Ht. apply andb_true_iff in Ht as [Hne Hfree].
    rewrite <- (string_app_nil t) at 1.
    rewrite fields_free by assumption. cbn.
    destruct t; [discriminate | reflexivity].
  - change ("," ++ String.concat "," (t' :: rest'))
      with (String ","%char (String.concat "," (t' :: rest'))).
    rewrite fields_token_then by assumption.
    now rewrite IH.
Qed.

(** X8. Given names that are not empty and hold no comma and no
    whitespace, written as a list with commas between them,
    [parse_partitions] hands exactly these names to
    [extra_partition_register], each once and in their order, and stops
    at the first name whose registration fails. *)
Theorem parse_partitions_comma_list {W : Type} {K : Kernel W}
        (register : string -> M W (Res unit)) (names : list string)
        (s : St W) :
  forallb is_token names = true ->
  parse_partitions register (String.concat "," names) s
  = register_each register names s.
Proof.
  intros Hall. rewrite parse_partitions_fields. now rewrite tokens_concat.
Qed.

End Tokens.

(** The list [mi_ext,my_stock] of the command line registers the two
    partitions, in that order. *)
Lemma parse_partitions_comma_list_run :
  option_map (fun r => (fst r, extra_parts (st_ctx (snd r))))
    (Main.parse_partitions
       (fun token => ModuleTree.extra_partition_register token ;; ret (Ok tt))
       "mi_ext,my_stock"
       (init_state Scenario.extra_world magic_mount_init))
  = Some (Ok tt, ["mi_ext"; "my_stock"]).
Proof.
  rewrite (parse_partitions_comma_list _ ["mi_ext"; "my_stock"])
    by reflexivity.
  vm_compute. reflexivity.
Defined.
(** ** Lines of the configuration file *)

Section ConfigLines.
Import Main Words Utils.
Context {W : Type} {K : Kernel W}.

Lemma plain_toLower (c : ascii) :
  plain (Str.toLower c) = true -> plain c = true.
Proof.
  destruct c as [[] [] [] [] [] [] [] []]; vm_compute; intros E; exact E.
Qed.

Lemma eqlIgnoreCase_plain (a b : string) :
  Str.eqlIgnoreCase a b = true ->
  all_chars (fun y => plain (Str.toLower y)) b = true ->
  all_chars plain a = true.
Proof.
  revert b. induction a as [|x a IH]; intros [|y b]; simpl;
    try discriminate; try reflexivity.
  intros He Hb. apply andb_true_iff in He as [Hxy Hab].
  apply andb_true_iff in Hb as [Hy Hb]. apply Ascii.eqb_eq in Hxy.
  rewrite (IH b) by assumption. rewrite andb_true_r.
  apply plain_toLower. now rewrite Hxy.
Qed.

Lemma eqlIgnoreCase_both (a b c : string) :
  Str.eqlIgnoreCase a b = true -> Str.eqlIgnoreCase a c = true ->
  Str.eqlIgnoreCase b c = true.
Proof.
  revert b c. induction a as [|x a IH]; intros [|y b] [|z c]; simpl;
    try discriminate; try reflexivity.
  intros H1 H2. apply andb_true_iff in H1 as [Hxy Hab].
  apply andb_true_iff in H2 as [Hxz Hac].
  apply Ascii.eqb_eq in Hxy, Hxz. rewrite (IH b c) by assumption.
  rewrite <- Hxy, Hxz. now rewrite Ascii.eqb_refl.
Qed.

Lemma eqlIgnoreCase_other (spelled a b : string) :
  Str.eqlIgnoreCase spelled a = true -> Str.eqlIgnoreCase a b = false ->
  Str.eqlIgnoreCase spelled b = false.
Proof.
  intros Ha Hab. destruct (Str.eqlIgnoreCase spelled b) eqn:E;
    [|reflexivity].
  now rewrite (eqlIgnoreCase_both spelled a b) in Hab.
Qed.

Lemma key_name_plain (k : Key) :
  all_chars (fun y => plain (Str.toLower y)) (key_name k) = true.
Proof. destruct k; reflexivity. Qed.

Lemma eqlIgnoreCase_nonempty (a b : string) :
  Str.eqlIgnoreCase a b = true -> b <> "" -> a <> "".
Proof. destruct a, b; simpl; congruence. Qed.

Lemma get0_app (a b : string) : a <> "" -> String.get 0 (a ++ b) = String.get 0 a.
Proof. destruct a; [congruence | reflexivity]. Qed.

Lemma last_app (a b : string) : b <> "" -> Str.last (a ++ b) = Str.last b.
Proof.
  intros Hb. induction a as [|x a IH]; [reflexivity|].
  cbn [append]. rewrite last_cons, IH.
  destruct (Str.last b) eqn:E; [reflexivity|].
  now apply last_none in E.
Qed.

Lemma plain_head (a : string) (c : ascii) :
  all_chars plain a = true -> String.get 0 a = Some c -> plain c = true.
Proof.
  destruct a as [|x a]; simpl; [discriminate|].
  intros Ha [= <-]. now apply andb_true_iff in Ha as [Hx _].
Qed.

Lemma plain_last (a : string) (c : ascii) :
  all_chars plain a = true -> Str.last a = Some c -> plain c = true.
Proof.
  induction a as [|x a IH]; [discriminate|].
  cbn [all_chars]. intros Ha. apply andb_true_iff in Ha as [Hx Ha].
  rewrite last_cons. destruct (Str.last a) eqn:E.
  - intros [= <-]. now apply IH.
  - now intros [= <-].
Qed.

Lemma plain_not_blank (c : ascii) : plain c = true -> Str.isWhitespace c = false.
Proof.
  unfold plain. intros Hp. apply andb_true_iff in Hp as [Hp _].
  apply andb_true_iff in Hp as [Hp _]. now apply negb_true_iff in Hp.
Qed.

Lemma plain_tight (a : string) : all_chars plain a = true -> tight a = true.
Proof.
  intros Ha. apply tight_intro; intros c Hc; apply plain_not_blank.
  - eapply plain_head; eassumption.
  - eapply plain_last; eassumption.
Qed.

Lemma indexOfScalar_first (a b : string) (c : ascii) :
  all_chars (fun x => negb (Ascii.eqb x c)) a = true ->
  Str.indexOfScalar (a ++ String c b) c = Some (String.length a).
Proof.
  induction a as [|x a IH]; simpl.
  - now rewrite Ascii.eqb_refl.
  - intros Ha. apply andb_true_iff in Ha as [Hx Ha].
    apply negb_true_iff in Hx. now rewrite Hx, IH.
Qed.

Lemma all_chars_weaken (f g : ascii -> bool) (a : string) :
  (forall c, f c = true -> g c = true) ->
  all_chars f a = true -> all_chars g a = true.
Proof.
  intros Hfg. induction a as [|x a IH]; simpl; [reflexivity|].
  intros Ha. apply andb_true_iff in Ha as [Hx Ha].
  now rewrite (Hfg x Hx), IH.
Qed.

Lemma whitespace_not_eq (c : ascii) :
  Str.isWhitespace c = true -> negb (Ascii.eqb c "="%char) = true.
Proof.
  destruct c as [[] [] [] [] [] [] [] []]; vm_compute; congruence.
Qed.

Lemma plain_not_eq (c : ascii) :
  plain c = true -> negb (Ascii.eqb c "="%char) = true.
Proof.
  unfold plain. intros Hp. apply andb_true_iff in Hp as [Hp _].
  now apply andb_true_iff in Hp as [_ Hp].
Qed.

Lemma skip_app_length (a b : string) :
  Str.skip (String.length a) (a ++ b) = b.
Proof. induction a as [|x a IH]; simpl; [now destruct b | exact IH]. Qed.

Lemma length_not_zero (a : string) :
  a <> "" -> Nat.eqb (String.length a) 0 = false.
Proof. destruct a; [congruence | reflexivity]. Qed.

(** X9. A line of the configuration file that gives a value to one of the
    seven keys, with the key in any letter case and with any whitespace
    before the key, around ['='] and after the value, sets that key to
    the value and leaves the other settings, the log and the context as
    they are; a ['='] inside the value belongs to the value. *)
Theorem config_line_assign (k : Key) (spelled v p1 p2 p3 p4 : string)
        (cfg : Config) (s : St W) :
  Str.eqlIgnoreCase spelled (key_name k) = true ->
  blank p1 = true -> blank p2 = true -> blank p3 = true ->
  blank p4 = true ->
  tight v = true -> v <> "" ->
  config_line (p1 ++ (spelled ++ p2 ++ "=" ++ p3 ++ v) ++ p4) cfg s
  = Some (assign k v cfg, s).
Proof.
  intros Hk H1 H2 H3 H4 Hv Hne.
  pose proof (eqlIgnoreCase_plain _ _ Hk (key_name_plain k)) as Hplain.
  assert (Hsp : spelled <> "").
  { apply (eqlIgnoreCase_nonempty _ _ Hk). now destruct k. }
  set (body := spelled ++ p2 ++ "=" ++ p3 ++ v).
  assert (Hbody : body <> "") by (subst body; now destruct spelled).
  assert (Htight : tight body = true).
  { apply tight_elim in Hv as [_ Hlast]. apply tight_intro.
    - intros c. unfold body. rewrite get0_app by assumption.
      intros Hc. apply plain_not_blank. eapply plain_head; eassumption.
    - intros c. unfold body.
      rewrite <- !string_app_assoc. rewrite last_app by assumption.
      apply Hlast. }
  unfold config_line.
  rewrite (str_trim_padded p1 body p4) by assumption.
  rewrite (length_not_zero body) by assumption. cbn [orb].
  assert (Hhash : match String.get 0 body with
                  | Some c => Ascii.eqb c "#"%char
                  | None => false
                  end = false).
  { unfold body. rewrite get0_app by assumption.
    destruct (String.get 0 spelled) as [c|] eqn:E; [|reflexivity].
    pose proof (plain_head _ _ Hplain E) as Hp. unfold plain in Hp.
    apply andb_true_iff in Hp as [_ Hp]. now apply negb_true_iff in Hp. }
  rewrite Hhash.
  assert (Hidx : Str.indexOfScalar body "="%char
                 = Some (String.length (spelled ++ p2))).
  { unfold body. rewrite <- string_app_assoc.
    apply indexOfScalar_first. rewrite all_chars_app.
    rewrite (all_chars_weaken plain _ spelled plain_not_eq Hplain).
    now rewrite (all_chars_weaken _ _ p2 whitespace_not_eq H2). }
  rewrite Hidx.
  assert (Hkey : str_trim (Str.take (String.length (spelled ++ p2)) body)
                 = spelled).
  { unfold body. rewrite <- string_app_assoc, take_app_length.
    rewrite <- (string_app_nil (spelled ++ p2)), string_app_assoc.
    change (str_trim ("" ++ spelled ++ p2 ++ "") = spelled).
    rewrite string_app_nil.
    apply (str_trim_padded "" spelled p2); try assumption; try reflexivity.
    now apply plain_tight. }
  assert (Hval : str_trim (Str.skip (String.length (spelled ++ p2) + 1) body)
                 = v).
  { unfold body. rewrite <- string_app_assoc.
    rewrite Nat.add_1_r.
    change ((spelled ++ p2) ++ "=" ++ p3 ++ v)
      with ((spelled ++ p2) ++ String "="%char (p3 ++ v)).
    assert (Hs : forall a b c, Str.skip (S (String.length a))
                                        (a ++ String c b) = b).
    { clear. induction a as [|x a IH]; intros b c; simpl;
        [now destruct b | apply IH]. }
    rewrite Hs. rewrite <- (string_app_nil v) at 1.
    now apply (str_trim_padded p3 v ""). }
  rewrite Hkey, Hval.
  rewrite (length_not_zero spelled), (length_not_zero v) by assumption.
  cbn [orb].
  destruct k; cbn [key_name] in Hk;
    repeat match goal with
           | |- context [Str.eqlIgnoreCase spelled ?n] =>
               first [ rewrite Hk
                     | rewrite (eqlIgnoreCase_other spelled _ n Hk eq_refl) ]
           end; reflexivity.
Qed.

End ConfigLines.

Lemma config_line_assign_umount :
  option_map fst
    (Main.config_line
       ("  " ++ ("UMount" ++ " " ++ "=" ++ String "009"%char "" ++ "off") ++ " ")
       Main.default_config (init_state (Sim.world [] [] []) magic_mount_init))
  = Some (Main.mkConfig None None None None None false false).
Proof.
  assert (Hv : "off" <> "") by discriminate.
  pose proof (config_line_assign Words.KUmount "UMount" "off" "  " " "
                (String "009"%char "") " " Main.default_config
                (init_state (Sim.world [] [] []) magic_mount_init)
                eq_refl eq_refl eq_refl eq_refl eq_refl eq_refl Hv) as E.
  exact (f_equal (option_map fst) E).
Defined.

(** ** Directories, labels and the KernelSU driver *)

Section SmallEffects.
Import Utils Words.
Context {W : Type} {K : Kernel W}.

Lemma starts_with_take (i : nat) (dir : string) :
  Str.starts_with (Str.take i dir) dir = true.
Proof.
  unfold Str.take. revert i. induction dir as [|c d IH]; intros [|i]; simpl;
    try reflexivity.
  now rewrite Ascii.eqb_refl, IH.
Qed.

Lemma starts_with_refl (dir : string) : Str.starts_with dir dir = true.
Proof.
  induction dir as [|c d IH]; simpl; [reflexivity|].
  now rewrite Ascii.eqb_refl, IH.
Qed.

Lemma mkdir_tolerant_event (p : string) (s : St W) :
  exists r s',
    mkdir_tolerant p s = Some (r, s') /\
    st_ctx s' = st_ctx s /\ st_log s' = st_log s /\
    st_ksu_fd s' = st_ksu_fd s /\
    st_trace s' = (st_trace s ++ [mkdir_event p])%list.
Proof.
  unfold mkdir_tolerant, bind, call, ret.
  destruct (k_call (st_world s) (SysMkdir p 493)) as [w' r].
  eexists _, _. split; [reflexivity|]. cbn. repeat split.
Qed.

Lemma mkdir_p_loop_events (dir : string) (n i : nat) (s : St W) :
  exists r s' ps,
    mkdir_p_loop dir i n s = Some (r, s') /\
    st_ctx s' = st_ctx s /\ st_log s' = st_log s /\
    st_ksu_fd s' = st_ksu_fd s /\
    st_trace s' = (st_trace s ++ map mkdir_event ps)%list /\
    Forall (fun p => Str.starts_with p dir = true) ps.
Proof.
  revert i s. induction n as [|n IH]; intros i s; cbn [mkdir_p_loop].
  - exists (Ok tt), s, []. cbn. rewrite app_nil_r. repeat split. constructor.
  - destruct (String.get i dir) as [c|].
    2:{ exists (Ok tt), s, []. cbn. rewrite app_nil_r.
        repeat split. constructor. }
    destruct (Str.is_slash c && negb (Nat.eqb i 0))%bool; [|apply IH].
    unfold bind at 1. rewrite path_is_dir_run.
    destruct (match k_stat (st_world s) (Str.take i dir) with
              | Ok st => S_ISDIR (st_mode st)
              | Err _ => false
              end); [apply IH|].
    unfold bind at 1.
    destruct (mkdir_tolerant_event (Str.take i dir) s)
      as [r [s1 [E [Hc [Hl [Hk Ht]]]]]].
    rewrite E. destruct r as [u|e].
    + destruct (IH (S i) s1) as [r [s' [ps [E' [Hc' [Hl' [Hk' [Ht' Hp]]]]]]]].
      exists r, s', (Str.take i dir :: ps). split; [assumption|].
      split; [congruence|]. split; [congruence|]. split; [congruence|].
      split.
      * rewrite Ht', Ht. cbn. now rewrite <- app_assoc.
      * constructor; [apply starts_with_take | assumption].
    + exists (Err e), s1, [Str.take i dir]. split; [reflexivity|].
      repeat split; try assumption.
      constructor; [apply starts_with_take | constructor].
Qed.

Lemma mkdir_p_after (dir : string) (s : St W) :
  exists r s' ps,
    (mkdir_p_loop dir 0 (String.length dir) ;;? mkdir_tolerant dir) s
    = Some (r, s') /\
    st_ctx s' = st_ctx s /\ st_log s' = st_log s /\
    st_trace s' = (st_trace s ++ map mkdir_event ps)%list /\
    Forall (fun p => Str.starts_with p dir = true) ps /\
    (r = Ok tt -> exists before, ps = (before ++ [dir])%list).
Proof.
  unfold bind.
  destruct (mkdir_p_loop_events dir (String.length dir) 0 s)
    as [r [s1 [ps [E [Hc [Hl [Hk [Ht Hp]]]]]]]].
  rewrite E. destruct r as [u|e].
  - destruct (mkdir_tolerant_event dir s1) as [r [s' [E' [Hc' [Hl' [Hk' Ht']]]]]].
    rewrite E'. exists r, s', (ps ++ [dir])%list.
    split; [reflexivity|]. split; [congruence|]. split; [congruence|].
    split; [|split].
    + rewrite Ht', Ht, map_app. cbn. now rewrite <- app_assoc.
    + apply Forall_app. split; [assumption|].
      constructor; [apply starts_with_refl | constructor].
    + intros _. now exists ps.
  - exists (Err e), s1, ps. split; [reflexivity|].
    repeat split; try assumption. discriminate.
Qed.

Lemma mkdir_p_calls (dir : string) (s : St W) :
  exists r s' ps,
    mkdir_p dir s = Some (r, s') /\
    st_ctx s' = st_ctx s /\ st_log s' = st_log s /\
    st_trace s' = (st_trace s ++ map mkdir_event ps)%list /\
    Forall (fun p => Str.starts_with p dir = true) ps /\
    (dir = "" -> r = Err InvalidArgument /\ ps = []) /\
    (match k_stat (st_world s) dir with
     | Ok st => S_ISDIR (st_mode st) = true
     | Err _ => False
     end -> dir <> "" -> r = Ok tt /\ ps = []) /\
    (r = Ok tt -> ps = [] \/ exists before, ps = (before ++ [dir])%list).
Proof.
  unfold mkdir_p. destruct (Nat.eqb (String.length dir) 0) eqn:Elen.
  - apply Nat.eqb_eq, string_length_zero in Elen.
    exists (Err InvalidArgument), s, []. cbn. rewrite app_nil_r.
    split; [reflexivity|]. split; [reflexivity|]. split; [reflexivity|].
    split; [reflexivity|]. split; [constructor|].
    split; [tauto|]. split; [congruence | discriminate].
  - assert (Hne : dir <> "") by (intros ->; discriminate).
    unfold bind at 1. rewrite path_is_dir_run.
    destruct (match k_stat (st_world s) dir with
              | Ok st => S_ISDIR (st_mode st)
              | Err _ => false
              end) eqn:Eis.
    + exists (Ok tt), s, []. cbn. rewrite app_nil_r.
      split; [reflexivity|]. split; [reflexivity|]. split; [reflexivity|].
      split; [reflexivity|]. split; [constructor|].
      split; [congruence|]. split; [tauto | now left].
    + destruct (mkdir_p_after dir s) as [r [s' [ps [E [Hc [Hl [Ht [Hp Hlast]]]]]]]].
      exists r, s', ps. split; [exact E|].
      split; [assumption|]. split; [assumption|]. split; [assumption|].
      split; [assumption|]. split; [congruence|]. split.
      * intros Hdir _. exfalso.
        destruct (k_stat (st_world s) dir) as [st|e]; [congruence | assumption].
      * intros Hr. right. now apply Hlast.
Qed.


(** X10. [mkdir_p] makes no call but [mkdir] with mode [0o755], and only on
    prefixes of its argument; it makes no call at all on an empty path,
    which it turns down with [InvalidArgument], or on a path that is a
    directory already; when it succeeds after a call, its last call is
    the [mkdir] of the whole path. *)
Theorem mkdir_p_events (dir : string) (s : St W) :
  exists r s' ps,
    mkdir_p dir s = Some (r, s') /\
    st_ctx s' = st_ctx s /\ st_log s' = st_log s /\
    st_trace s' = (st_trace s ++ map mkdir_event ps)%list /\
    Forall (fun p => Str.starts_with p dir = true) ps /\
    (dir = "" -> r = Err InvalidArgument /\ ps = []) /\
    (match k_stat (st_world s) dir with
     | Ok st => S_ISDIR (st_mode st) = true
     | Err _ => False
     end -> dir <> "" -> r = Ok tt /\ ps = []) /\
    (r = Ok tt -> ps = [] \/ exists before, ps = (before ++ [dir])%list).
Proof. apply mkdir_p_calls. Qed.

(** X11. [copy_selcon] with two non-empty paths writes to the destination
    the label it reads from the source, with one [lsetxattr] whose
    answer it returns; when the label cannot be read it makes no call
    and returns that error, and when the label is empty it makes no
    call either and succeeds. It never touches the context. *)
Theorem copy_selcon_label (src dst : string) (s : St W) :
  src <> "" -> dst <> "" ->
  exists r s',
    copy_selcon src dst s = Some (r, s') /\
    st_ctx s' = st_ctx s /\
    match k_lgetxattr (st_world s) src SELINUX_XATTR with
    | Err e =>
        r = Err e /\ st_trace s' = st_trace s /\ st_world s' = st_world s
    | Ok EmptyString =>
        r = Ok tt /\ st_trace s' = st_trace s /\ st_world s' = st_world s
    | Ok con =>
        st_trace s'
        = (st_trace s ++ [EvSys (SysLsetxattr dst SELINUX_XATTR con)])%list /\
        (st_world s', r)
        = k_call (st_world s) (SysLsetxattr dst SELINUX_XATTR con)
    end.
Proof.
  intros Hs Hd. unfold copy_selcon.
  rewrite (length_not_zero src), (length_not_zero dst) by assumption.
  cbn [orb]. unfold get_selcon. rewrite (length_not_zero src) by assumption.
  cbv [bind LOG lgetxattr get_world ret]. cbn [st_world].
  destruct (k_lgetxattr (st_world s) src SELINUX_XATTR) as [con|e] eqn:Ex;
    cbn [st_world st_ctx st_trace st_log st_ksu_fd].
  - rewrite Ex, Nat.eqb_refl. cbn [negb]. unfold set_selcon.
    rewrite (length_not_zero dst) by assumption. cbn [orb].
    destruct con as [|c con].
    + cbn. eexists _, _. split; [reflexivity|]. cbn. repeat split.
    + cbn [String.length Nat.eqb]. cbv [bind LOG call].
      cbn [st_world st_ctx st_trace st_log st_ksu_fd].
      destruct (k_call (st_world s)
                  (SysLsetxattr dst SELINUX_XATTR (String c con)))
        as [w' r].
      eexists _, _. split; [reflexivity|]. cbn. repeat split.
  - eexists _, _. split; [reflexivity|]. cbn. repeat split.
Qed.

(** X12. The KernelSU driver is asked for at most once: a call of
    [ksu_send_unmountable] leaves the descriptor decided, and the next
    call makes no install call; it sends one ioctl on the descriptor
    that was stored, or, when that descriptor is negative, returns [-1]
    without any call. *)
Theorem ksu_driver_grabbed_once (p q : string) (s s1 : St W) (r : Z) :
  Ksu.ksu_send_unmountable p s = Some (r, s1) ->
  exists fd r' s2,
    st_ksu_fd s1 = Some fd /\
    Ksu.ksu_send_unmountable q s1 = Some (r', s2) /\
    st_ksu_fd s2 = Some fd /\
    st_trace s2
    = (st_trace s1 ++ EvMarkUnmountable q
         :: (if fd <? 0 then [] else [EvSys (SysKsuIoctl fd q 2 1)]))%list /\
    (fd < 0 -> r' = -1 /\ st_world s2 = st_world s1).
Proof.
  intros E1.
  assert (Hfd : exists fd, st_ksu_fd s1 = Some fd).
  { revert E1. unfold Ksu.ksu_send_unmountable.
    cbv [bind emit Ksu.ksuGrabFd Ksu.ksuGrabFdOnce Ksu.set_driver_fd LOG
         call ret].
    cbn [st_world st_ctx st_trace st_log st_ksu_fd].
    destruct (st_ksu_fd s) as [fd|] eqn:Efd.
    - destruct (fd <? 0).
      + intros [= _ <-]. cbn. eauto.
      + destruct (k_call _ _) as [w' [u|e]]; intros [= _ <-]; cbn; eauto.
    - destruct (k_ksu_install (st_world s)) as [w' [result fd]].
      destruct (negb (result =? 0)); cbn [st_world st_ctx st_trace st_log st_ksu_fd].
      + destruct (result <? 0).
        * intros [= _ <-]. cbn. eauto.
        * destruct (k_call _ _) as [w2 [u|e]]; intros [= _ <-]; cbn; eauto.
      + destruct (fd <? 0) eqn:Eneg;
          cbn [st_world st_ctx st_trace st_log st_ksu_fd]; rewrite ?Eneg.
        * intros [= _ <-]. cbn. eauto.
        * destruct (k_call _ _) as [w2 [u|e]]; intros [= _ <-]; cbn; eauto. }
  destruct Hfd as [fd Hfd]. exists fd.
  unfold Ksu.ksu_send_unmountable.
  cbv [bind emit Ksu.ksuGrabFd call ret LOG].
  cbn [st_world st_ctx st_trace st_log st_ksu_fd]. rewrite Hfd.
  destruct (Z.ltb_spec fd 0) as [Hneg|Hpos];
    cbn [st_world st_ctx st_trace st_log st_ksu_fd].
  - eexists _, _. split; [reflexivity|]. split; [reflexivity|].
    cbn. split; [reflexivity|]. split; [reflexivity|].
    intros _. split; reflexivity.
  - destruct (k_call (st_world s1) (SysKsuIoctl fd q 2 1)) as [w' [u|e]];
      cbn [st_world st_ctx st_trace st_log st_ksu_fd];
      eexists _, _; (split; [reflexivity|]); (split; [reflexivity|]);
      cbn; (split; [reflexivity|]);
      (split; [now rewrite <- ?app_assoc | lia]).
Qed.

End SmallEffects.

Lemma ksu_driver_grabbed_once_run :
  exists fd r' s2,
    Ksu.ksu_send_unmountable "/system/g"
      (init_state Scenario.extra_world magic_mount_init)
    = Some (0, mkSt Scenario.extra_world magic_mount_init
                   [EvMarkUnmountable "/system/g"; EvKsuInstall;
                    EvSys (SysKsuIoctl 3 "/system/g" 2 1)]
                   [(LOG_DEBUG, "grabbed KSU driver fd")] (Some 3)) /\
    fd = 3 /\
    Ksu.ksu_send_unmountable "/system/h"
      (mkSt Scenario.extra_world magic_mount_init
            [EvMarkUnmountable "/system/g"; EvKsuInstall;
             EvSys (SysKsuIoctl 3 "/system/g" 2 1)]
            [(LOG_DEBUG, "grabbed KSU driver fd")] (Some 3))
    = Some (r', s2) /\
    filter Words.is_ksu_install (st_trace s2) = [EvKsuInstall].
Proof.
  assert (E : Ksu.ksu_send_unmountable "/system/g"
                (init_state Scenario.extra_world magic_mount_init)
              = Some (0, mkSt Scenario.extra_world magic_mount_init
                   [EvMarkUnmountable "/system/g"; EvKsuInstall;
                    EvSys (SysKsuIoctl 3 "/system/g" 2 1)]
                   [(LOG_DEBUG, "grabbed KSU driver fd")] (Some 3)))
    by (vm_compute; reflexivity).
  destruct (ksu_driver_grabbed_once "/system/g" "/system/h" _ _ _ E)
    as [fd [r' [s2 [Hfd [E2 [Hfd2 [Ht _]]]]]]].
  exists fd, r', s2. split; [exact E|].
  cbn in Hfd. injection Hfd as <-.
  split; [reflexivity|]. split; [exact E2|].
  rewrite Ht. reflexivity.
Defined.

Lemma copy_selcon_label_run :
  exists r s',
    Utils.copy_selcon "/system/g" "/dev/w/g"
      (init_state Scenario.extra_world magic_mount_init) = Some (r, s') /\
    r = Err (SysErr 61) /\ st_trace s' = [].
Proof.
  assert (Hs : "/system/g" <> "") by discriminate.
  assert (Hd : "/dev/w/g" <> "") by discriminate.
  destruct (copy_selcon_label "/system/g" "/dev/w/g"
              (init_state Scenario.extra_world magic_mount_init) Hs Hd)
    as [r [s' [E [_ Hm]]]].
  exists r, s'. split; [exact E|].
  change (k_lgetxattr
            (st_world (init_state Scenario.extra_world magic_mount_init))
            "/system/g" SELINUX_XATTR)
    with (Err (A := string) (SysErr 61)) in Hm.
  destruct Hm as [Hr [Ht _]]. split; assumption.
Defined.
(** ** What every step of a run keeps

    A relation between states that holds across the elementary steps of
    the code (a log line, a call, an update of a counter) and that is
    reflexive and transitive holds across every function built from these
    steps. The functions only use the assumptions on the steps they
    make. *)

Create HintDb frame.

Section Frame.
Import ModuleTree Apply Utils Words.
Context {W : Type} {K : Kernel W}.
Variable R : St W -> St W -> Prop.
Hypothesis R_refl : forall s, R s s.
Hypothesis R_trans : forall a b c, R a b -> R b c -> R a c.
Hypothesis R_log : forall lv msg, keeps R (LOG lv msg).
Hypothesis R_call : forall c, plain_call c = true -> keeps R (call c).
Hypothesis R_ksu :
  forall path s, enable_unmountable (st_ctx s) = true ->
                 keeps_at R (Ksu.ksu_send_unmountable path) s.
Hypothesis R_count_mounted : keeps R count_mounted.
Hypothesis R_count_whiteout : keeps R count_whiteout.
Hypothesis R_count_fail : keeps R count_fail.
Hypothesis R_mark_failed : forall m, keeps R (module_mark_failed m).
Hypothesis R_count_module : keeps R count_module.
Hypothesis R_count_root_and_system : keeps R count_root_and_system.
Hypothesis R_count_node :
  keeps R (set_stats (fun st =>
    mkStats (modules_total st) (nodes_total st + 1)
            (nodes_mounted st) (nodes_skipped st)
            (nodes_whiteout st) (nodes_fail st))).

Lemma keeps_ret {A} (a : A) : keeps R (ret a).
Proof. intros s a' s' [= _ <-]. apply R_refl. Qed.

Lemma keeps_out_of_fuel {A} : keeps R (@out_of_fuel W A).
Proof. intros s a s' E. discriminate. Qed.

Lemma keeps_at_bind {A B} (c : M W A) (k : A -> M W B) (s : St W) :
  keeps_at R c s -> (forall a, keeps R (k a)) -> keeps_at R (bind c k) s.
Proof.
  intros Hc Hk b s' E. unfold bind in E.
  destruct (c s) as [[a s1]|] eqn:Ec; [|discriminate].
  eapply R_trans; [eapply Hc; eassumption | eapply Hk; eassumption].
Qed.

Lemma keeps_bind {A B} (c : M W A) (k : A -> M W B) :
  keeps R c -> (forall a, keeps R (k a)) -> keeps R (bind c k).
Proof. intros Hc Hk s. apply keeps_at_bind; [apply Hc | assumption]. Qed.

Lemma keeps_at_keeps {A} (c : M W A) (s : St W) : keeps R c -> keeps_at R c s.
Proof. intros Hc. apply Hc. Qed.

Lemma keeps_get_ctx {B} (k : MagicMount -> M W B) :
  (forall s, keeps_at R (k (st_ctx s)) s) -> keeps R (bind get_ctx k).
Proof. intros Hk s b s' E. eapply Hk. exact E. Qed.

Lemma keeps_get_world {B} (k : W -> M W B) :
  (forall w, keeps R (k w)) -> keeps R (bind get_world k).
Proof. intros Hk s b s' E. eapply Hk. exact E. Qed.

Local Ltac frame :=
  cbv zeta;
  repeat
    lazymatch goal with
    | |- keeps _ (ret _) => apply keeps_ret
    | |- keeps _ out_of_fuel => apply keeps_out_of_fuel
    | |- keeps _ (LOG _ _) => apply R_log
    | |- keeps _ (call _) => apply R_call; reflexivity
    | |- keeps _ (mount _ _ _ _) => apply R_call; reflexivity
    | |- keeps _ (bind get_ctx _) =>
        apply keeps_get_ctx; intros ?; cbv beta
    | |- keeps _ (bind get_world _) =>
        apply keeps_get_world; intros ?; cbv beta
    | |- keeps _ (bind _ _) => apply keeps_bind; [ | intros ?; cbv beta ]
    | |- keeps _ (match ?x with _ => _ end) => destruct x
    | |- keeps_at _ (bind _ _) _ =>
        apply keeps_at_bind; [ | intros ?; cbv beta ]
    | |- keeps_at _ (match ?x with _ => _ end) _ => destruct x eqn:?
    | |- keeps_at _ (Ksu.ksu_send_unmountable _) _ =>
        apply R_ksu; assumption
    | |- keeps_at _ _ _ => apply keeps_at_keeps
    | |- keeps _ _ => solve [auto with frame]
    end.

(** *** Probes *)

Lemma keeps_lstat p : keeps R (lstat p).
Proof. unfold lstat. frame. Qed.
Lemma keeps_stat p : keeps R (stat p).
Proof. unfold stat. frame. Qed.
Lemma keeps_opendir p : keeps R (opendir p).
Proof. unfold opendir. frame. Qed.
Lemma keeps_readlink p : keeps R (readlink p).
Proof. unfold readlink. frame. Qed.
Lemma keeps_lgetxattr p n : keeps R (lgetxattr p n).
Proof. unfold lgetxattr. frame. Qed.
Lemma keeps_faccessat d n : keeps R (faccessat d n).
Proof. unfold faccessat. frame. Qed.
Hint Resolve keeps_lstat keeps_stat keeps_opendir keeps_readlink
     keeps_lgetxattr keeps_faccessat : frame.

Lemma keeps_path_exists p : keeps R (path_exists p).
Proof. unfold path_exists. frame. Qed.
Lemma keeps_path_is_dir p : keeps R (path_is_dir p).
Proof. unfold path_is_dir. frame. Qed.
Lemma keeps_path_is_symlink p : keeps R (path_is_symlink p).
Proof. unfold path_is_symlink. frame. Qed.
Hint Resolve keeps_path_exists keeps_path_is_dir keeps_path_is_symlink
  : frame.

(** *** utils.zig *)

Lemma keeps_mkdir_tolerant p : keeps R (mkdir_tolerant p).
Proof. unfold mkdir_tolerant. frame. Qed.
Hint Resolve keeps_mkdir_tolerant : frame.

Lemma keeps_mkdir_p_loop dir n : forall i, keeps R (mkdir_p_loop dir i n).
Proof. induction n as [|n IH]; intros i; cbn [mkdir_p_loop]; frame. Qed.
Hint Resolve keeps_mkdir_p_loop : frame.

Lemma keeps_mkdir_p dir : keeps R (mkdir_p dir).
Proof. unfold mkdir_p. frame. Qed.
Hint Resolve keeps_mkdir_p : frame.

Lemma keeps_set_selcon p c : keeps R (set_selcon p c).
Proof. unfold set_selcon. frame. Qed.
Lemma keeps_get_selcon p : keeps R (get_selcon p).
Proof. unfold get_selcon. frame. Qed.
Hint Resolve keeps_set_selcon keeps_get_selcon : frame.

Lemma keeps_copy_selcon a b : keeps R (copy_selcon a b).
Proof. unfold copy_selcon. frame. Qed.
Hint Resolve keeps_copy_selcon : frame.

(** *** The applier *)

Lemma keeps_mm_clone_symlink a b : keeps R (mm_clone_symlink a b).
Proof. unfold mm_clone_symlink. frame. Qed.
Hint Resolve keeps_mm_clone_symlink : frame.

Lemma keeps_mm_mirror_entry fuel :
  forall path work name, keeps R (mm_mirror_entry fuel path work name).
Proof.
  induction fuel as [|fuel IH]; intros path work name;
    cbn [mm_mirror_entry]; frame;
    match goal with
    | |- keeps _ (?f (ds_entries ?d)) => generalize (ds_entries d)
    end;
    intros l; induction l as [|entry rest IHl]; frame.
Qed.
Hint Resolve keeps_mm_mirror_entry : frame.

Lemma keeps_apply_regular_bind path target node :
  keeps R (apply_regular_bind path target node).
Proof. unfold apply_regular_bind. frame. Qed.
Hint Resolve keeps_apply_regular_bind : frame.

Lemma keeps_mm_apply_regular_file path wpath node h :
  keeps R (mm_apply_regular_file path wpath node h).
Proof. unfold mm_apply_regular_file. frame. Qed.

Lemma keeps_mm_apply_symlink path wpath node :
  keeps R (mm_apply_symlink path wpath node).
Proof. unfold mm_apply_symlink. frame. Qed.
Hint Resolve keeps_mm_apply_regular_file keeps_mm_apply_symlink : frame.

Lemma keeps_check_need_tmpfs_loop h path cs :
  keeps R (check_need_tmpfs_loop h path cs).
Proof. induction cs as [|c cs IH]; cbn [check_need_tmpfs_loop]; frame. Qed.
Hint Resolve keeps_check_need_tmpfs_loop : frame.

Lemma keeps_mm_check_need_tmpfs node path :
  keeps R (mm_check_need_tmpfs node path).
Proof. unfold mm_check_need_tmpfs. frame. Qed.

Lemma keeps_mm_setup_dir_tmpfs path wpath node :
  keeps R (mm_setup_dir_tmpfs path wpath node).
Proof. unfold mm_setup_dir_tmpfs. frame. Qed.

Lemma keeps_finalise_tmpfs path wpath : keeps R (finalise_tmpfs path wpath).
Proof. unfold finalise_tmpfs. frame. Qed.

Lemma keeps_child_failed node c : keeps R (child_failed node c).
Proof. unfold child_failed. frame. Qed.
Hint Resolve keeps_mm_check_need_tmpfs keeps_mm_setup_dir_tmpfs
     keeps_finalise_tmpfs keeps_child_failed : frame.

Section Children.
Variable apply : string -> string -> Node -> bool -> M W (Res unit * Node).
Variable fuel : nat.
Hypothesis apply_keeps : forall b w n h, keeps R (apply b w n h).

Lemma keeps_dir_children_loop path wpath now_tmp se entries :
  forall node,
    keeps R (dir_children_loop apply fuel path wpath now_tmp se entries node).
Proof.
  induction entries as [|e rest IH]; intros node;
    cbn [dir_children_loop]; frame.
Qed.
Hint Resolve keeps_dir_children_loop : frame.

Lemma keeps_mm_process_dir_children path wpath node now_tmp :
  keeps R (mm_process_dir_children apply fuel path wpath node now_tmp).
Proof. unfold mm_process_dir_children. frame. Qed.

Lemma keeps_remaining_children_loop path wpath node now_tmp cs :
  keeps R (remaining_children_loop apply path wpath node now_tmp cs).
Proof.
  induction cs as [|c cs IH]; cbn [remaining_children_loop]; frame.
Qed.
Hint Resolve keeps_remaining_children_loop : frame.

Lemma keeps_mm_process_remaining_children path wpath node now_tmp :
  keeps R (mm_process_remaining_children apply path wpath node now_tmp).
Proof. unfold mm_process_remaining_children. frame. Qed.
End Children.
Hint Resolve keeps_mm_process_dir_children
     keeps_mm_process_remaining_children : frame.

Lemma keeps_mm_apply_node_recursive fuel :
  forall base wbase node h,
    keeps R (mm_apply_node_recursive fuel base wbase node h).
Proof.
  induction fuel as [|fuel IH]; intros base wbase node h;
    cbn [mm_apply_node_recursive]; frame.
Qed.
Hint Resolve keeps_mm_apply_node_recursive : frame.

(** *** The tree builder *)

Lemma keeps_dir_is_replace p : keeps R (dir_is_replace p).
Proof. unfold dir_is_replace. frame. Qed.
Hint Resolve keeps_dir_is_replace : frame.

Lemma keeps_node_create_from_fs name path mn :
  keeps R (node_create_from_fs name path mn).
Proof. unfold node_create_from_fs. frame. Qed.
Hint Resolve keeps_node_create_from_fs : frame.

Lemma keeps_any_exists d files : keeps R (any_exists d files).
Proof. induction files as [|f rest IH]; cbn [any_exists]; frame. Qed.
Hint Resolve keeps_any_exists : frame.

Lemma keeps_module_is_disabled d : keeps R (module_is_disabled d).
Proof. unfold module_is_disabled. frame. Qed.
Hint Resolve keeps_module_is_disabled : frame.

Section Scan.
Variable scan : Node -> string -> M W (Res (Node * bool)).
Hypothesis scan_keeps : forall c p, keeps R (scan c p).

Lemma keeps_scan_entries dir mn entries :
  forall self any, keeps R (scan_entries scan dir mn entries self any).
Proof.
  induction entries as [|e rest IH]; intros self any;
    cbn [scan_entries]; frame.
Qed.
End Scan.
Hint Resolve keeps_scan_entries : frame.

Lemma keeps_node_scan_dir fuel :
  forall self dir mn, keeps R (node_scan_dir fuel self dir mn).
Proof.
  induction fuel as [|fuel IH]; intros self dir mn;
    cbn [node_scan_dir]; frame.
Qed.
Hint Resolve keeps_node_scan_dir : frame.

Lemma keeps_open_module_dir : keeps R open_module_dir.
Proof. unfold open_module_dir. frame. Qed.
Lemma keeps_ctx_module_dir : keeps R ctx_module_dir.
Proof. unfold ctx_module_dir. frame. Qed.
Lemma keeps_enabled_module mdir d : keeps R (enabled_module mdir d).
Proof. unfold enabled_module. frame. Qed.
Hint Resolve keeps_open_module_dir keeps_ctx_module_dir
     keeps_enabled_module : frame.

Lemma keeps_find_real_partition_loop mdir part entries n :
  keeps R (find_real_partition_loop mdir part entries n).
Proof.
  induction entries as [|e rest IH]; cbn [find_real_partition_loop]; frame.
Qed.
Hint Resolve keeps_find_real_partition_loop : frame.

Lemma keeps_find_real_partition_dir part n :
  keeps R (find_real_partition_dir part n).
Proof. unfold find_real_partition_dir. frame. Qed.
Hint Resolve keeps_find_real_partition_dir : frame.

Lemma keeps_symlink_resolve_partition fuel system part :
  keeps R (symlink_resolve_partition fuel system part).
Proof. unfold symlink_resolve_partition. frame. Qed.
Hint Resolve keeps_symlink_resolve_partition : frame.

Lemma keeps_symlink_resolve_each fuel parts :
  forall system, keeps R (symlink_resolve_each fuel system parts).
Proof.
  induction parts as [|p rest IH]; intros system;
    cbn [symlink_resolve_each]; frame.
Qed.
Hint Resolve keeps_symlink_resolve_each : frame.

Lemma keeps_symlink_resolve_all fuel system :
  keeps R (symlink_resolve_all_partition_links fuel system).
Proof. unfold symlink_resolve_all_partition_links. frame. Qed.
Hint Resolve keeps_symlink_resolve_all : frame.

Lemma keeps_partition_scan_loop fuel mdir part entries :
  forall parent has_any,
    keeps R (partition_scan_loop fuel mdir part entries parent has_any).
Proof.
  induction entries as [|e rest IH]; intros parent has_any;
    cbn [partition_scan_loop]; frame.
Qed.
Hint Resolve keeps_partition_scan_loop : frame.

Lemma keeps_partition_scan_from_modules fuel part parent :
  keeps R (partition_scan_from_modules fuel part parent).
Proof. unfold partition_scan_from_modules. frame. Qed.
Hint Resolve keeps_partition_scan_from_modules : frame.

Lemma keeps_partition_promote_to_root root system part need :
  keeps R (partition_promote_to_root root system part need).
Proof. unfold partition_promote_to_root. frame. Qed.
Hint Resolve keeps_partition_promote_to_root : frame.

Lemma keeps_promote_builtin parts :
  forall root system, keeps R (promote_builtin root system parts).
Proof.
  induction parts as [|[p need] rest IH]; intros root system;
    cbn [promote_builtin]; frame.
Qed.
Hint Resolve keeps_promote_builtin : frame.

Lemma keeps_collect_modules fuel mdir entries :
  forall system has_any,
    keeps R (collect_modules fuel mdir entries system has_any).
Proof.
  induction entries as [|e rest IH]; intros system has_any;
    cbn [collect_modules]; frame.
Qed.
Hint Resolve keeps_collect_modules : frame.

Lemma keeps_attach_extra_parts fuel names :
  forall root, keeps R (attach_extra_parts fuel root names).
Proof.
  induction names as [|n rest IH]; intros root;
    cbn [attach_extra_parts]; frame.
Qed.
Hint Resolve keeps_attach_extra_parts : frame.

Lemma keeps_build_mount_tree fuel : keeps R (build_mount_tree fuel).
Proof. unfold build_mount_tree. frame. Qed.
Hint Resolve keeps_build_mount_tree : frame.

Lemma keeps_magic_mount fuel tmp_root : keeps R (magic_mount fuel tmp_root).
Proof. unfold magic_mount. frame. Qed.

End Frame.
(** ** What the builder, the applier and a whole run keep *)

Section FrameInstances.
Import ModuleTree Apply Utils Words.
Context {W : Type} {K : Kernel W}.

(** Reduces a statement on an elementary step to the states it relates. *)
Local Ltac prim :=
  intros s a s';
  cbv [count_mounted count_whiteout count_fail count_module
       count_root_and_system module_mark_failed set_stats bind get_ctx
       set_ctx LOG ret call];
  cbn [st_world st_ctx st_trace st_log st_ksu_fd];
  repeat match goal with
         | |- context [let '(_, _) := ?x in _] => destruct x
         | |- context [if ?b then _ else _] => destruct b eqn:?
         end;
  intros E; injection E as <- <-.

Lemma same_settings_refl (c : MagicMount) : same_settings c c.
Proof. repeat split. Qed.

Lemma same_settings_trans (a b c : MagicMount) :
  same_settings a b -> same_settings b c -> same_settings a c.
Proof. unfold same_settings. intuition congruence. Qed.

(** *** The builder *)

Lemma builder_frame_refl (s : St W) : builder_frame s s.
Proof.
  unfold builder_frame. repeat split; try reflexivity; apply Z.le_refl.
Qed.

Lemma builder_frame_trans (a b c : St W) :
  builder_frame a b -> builder_frame b c -> builder_frame a c.
Proof.
  unfold builder_frame.
  intros [A1 [A2 [A3 [A4 [A5 [A6 [A7 [A8 [A9 [A10 A11]]]]]]]]]]
         [B1 [B2 [B3 [B4 [B5 [B6 [B7 [B8 [B9 [B10 B11]]]]]]]]]].
  repeat split; try congruence; try lia;
    try (eapply same_settings_trans; eassumption).
Qed.

Lemma builder_frame_log lv msg : keeps (W := W) builder_frame (LOG lv msg).
Proof. prim. unfold builder_frame. cbn. repeat split; lia. Qed.

Lemma builder_frame_count_module : keeps (W := W) builder_frame count_module.
Proof. prim. unfold builder_frame. cbn. repeat split; lia. Qed.

Lemma builder_frame_count_root :
  keeps (W := W) builder_frame count_root_and_system.
Proof. prim. unfold builder_frame. cbn. repeat split; lia. Qed.

Lemma builder_frame_count_node :
  keeps (W := W) builder_frame
    (set_stats (fun st =>
       mkStats (modules_total st) (nodes_total st + 1)
               (nodes_mounted st) (nodes_skipped st)
               (nodes_whiteout st) (nodes_fail st))).
Proof. prim. unfold builder_frame. cbn. repeat split; lia. Qed.

(** X13. The tree builder only reads: whatever it returns, it has made no
    call with an effect, has not asked for the KernelSU driver, and has
    left the settings, the list of failed modules and the four counters
    of the applier as they were; of the context it changes the two
    totals, which it can only raise. *)
Theorem build_mount_tree_only_reads (fuel : nat) (s s' : St W)
        (r : option Node) :
  build_mount_tree fuel s = Some (r, s') -> builder_frame s s'.
Proof.
  apply (keeps_build_mount_tree builder_frame builder_frame_refl
           builder_frame_trans builder_frame_log
           builder_frame_count_module builder_frame_count_root
           builder_frame_count_node).
Qed.

(** *** KernelSU *)

Lemma without_ksu_refl (s : St W) : without_ksu s s.
Proof.
  intros E. split; [assumption|]. split; [reflexivity|].
  exists []. now rewrite app_nil_r.
Qed.

Lemma without_ksu_trans (a b c : St W) :
  without_ksu a b -> without_ksu b c -> without_ksu a c.
Proof.
  intros Hab Hbc E. destruct (Hab E) as [E1 [F1 [evs1 [T1 N1]]]].
  destruct (Hbc E1) as [E2 [F2 [evs2 [T2 N2]]]].
  split; [assumption|]. split; [congruence|].
  exists (evs1 ++ evs2)%list. split.
  - now rewrite T2, T1, app_assoc.
  - rewrite forallb_app. now rewrite N1, N2.
Qed.

Lemma without_ksu_same_trace (s s' : St W) :
  enable_unmountable (st_ctx s') = enable_unmountable (st_ctx s) ->
  st_ksu_fd s' = st_ksu_fd s -> st_trace s' = st_trace s ->
  without_ksu s s'.
Proof.
  intros He Hf Ht E. split; [congruence|]. split; [assumption|].
  exists []. now rewrite app_nil_r.
Qed.

Lemma without_ksu_log lv msg : keeps (W := W) without_ksu (LOG lv msg).
Proof. prim. now apply without_ksu_same_trace. Qed.

Lemma without_ksu_call c :
  plain_call c = true -> keeps (W := W) without_ksu (call c).
Proof.
  intros Hc. prim. intros E. cbn. split; [assumption|].
  split; [reflexivity|]. exists [EvSys c]. split; [reflexivity|].
  cbn. destruct c; try reflexivity. discriminate.
Qed.

Lemma without_ksu_ksu path (s : St W) :
  enable_unmountable (st_ctx s) = true ->
  keeps_at without_ksu (Ksu.ksu_send_unmountable path) s.
Proof. intros E a s' _ E'. congruence. Qed.

Lemma without_ksu_count_mounted : keeps (W := W) without_ksu count_mounted.
Proof. prim. now apply without_ksu_same_trace. Qed.
Lemma without_ksu_count_whiteout : keeps (W := W) without_ksu count_whiteout.
Proof. prim. now apply without_ksu_same_trace. Qed.
Lemma without_ksu_count_fail : keeps (W := W) without_ksu count_fail.
Proof. prim. now apply without_ksu_same_trace. Qed.
Lemma without_ksu_count_module : keeps (W := W) without_ksu count_module.
Proof. prim. now apply without_ksu_same_trace. Qed.
Lemma without_ksu_count_root :
  keeps (W := W) without_ksu count_root_and_system.
Proof. prim. now apply without_ksu_same_trace. Qed.
Lemma without_ksu_count_node :
  keeps (W := W) without_ksu
    (set_stats (fun st =>
       mkStats (modules_total st) (nodes_total st + 1)
               (nodes_mounted st) (nodes_skipped st)
               (nodes_whiteout st) (nodes_fail st))).
Proof. prim. now apply without_ksu_same_trace. Qed.
Lemma without_ksu_mark_failed m :
  keeps (W := W) without_ksu (module_mark_failed m).
Proof. prim; now apply without_ksu_same_trace. Qed.

(** X14. With [enable_unmountable] off ([--no-umount], or [umount] off in
    the configuration file), a run involves KernelSU in no way: it never
    enters [ksu_send_unmountable], makes neither the install call nor an
    ioctl, and leaves the driver descriptor and the setting as they
    were. *)
Theorem magic_mount_without_ksu (fuel : nat) (tmp_root : string)
        (s s' : St W) (r : Res Z) :
  enable_unmountable (st_ctx s) = false ->
  magic_mount fuel tmp_root s = Some (r, s') ->
  enable_unmountable (st_ctx s') = false /\
  st_ksu_fd s' = st_ksu_fd s /\
  exists evs,
    st_trace s' = (st_trace s ++ evs)%list /\
    forallb (fun e => negb (is_ksu_event e)) evs = true.
Proof.
  intros E Hrun.
  exact (keeps_magic_mount without_ksu without_ksu_refl without_ksu_trans
           without_ksu_log without_ksu_call without_ksu_ksu
           without_ksu_count_mounted without_ksu_count_whiteout
           without_ksu_count_fail without_ksu_mark_failed
           without_ksu_count_module without_ksu_count_root
           without_ksu_count_node fuel tmp_root s r s' Hrun E).
Qed.


(** *** A whole run *)

Lemma run_frame_refl (s : St W) : run_frame s s.
Proof.
  unfold run_frame. repeat split; try reflexivity; try apply Z.le_refl.
  - exists []. now rewrite app_nil_r.
  - exact (fun H => H).
Qed.

Lemma run_frame_trans (a b c : St W) :
  run_frame a b -> run_frame b c -> run_frame a c.
Proof.
  unfold run_frame.
  intros [A1 [A2 [A3 [A4 [A5 [A6 [A7 [[m1 A8] A9]]]]]]]]
         [B1 [B2 [B3 [B4 [B5 [B6 [B7 [[m2 B8] B9]]]]]]]].
  split; [eapply same_settings_trans; eassumption|].
  repeat split; try congruence; try lia.
  - exists (m1 ++ m2)%list. now rewrite B8, A8, app_assoc.
  - intros H. apply B9, A9, H.
Qed.

Lemma run_frame_same_ctx (s s' : St W) :
  st_ctx s' = st_ctx s -> run_frame s s'.
Proof.
  intros E. unfold run_frame, same_settings. rewrite E.
  repeat split; try reflexivity; try apply Z.le_refl.
  - exists []. now rewrite app_nil_r.
  - exact (fun H => H).
Qed.

Lemma applier_frame_refl (s : St W) : applier_frame s s.
Proof. split; [apply run_frame_refl | split; reflexivity]. Qed.

Lemma applier_frame_trans (a b c : St W) :
  applier_frame a b -> applier_frame b c -> applier_frame a c.
Proof.
  intros [A [A1 A2]] [B [B1 B2]].
  split; [eapply run_frame_trans; eassumption | split; congruence].
Qed.

Lemma applier_frame_same_ctx (s s' : St W) :
  st_ctx s' = st_ctx s -> applier_frame s s'.
Proof.
  intros E. split; [now apply run_frame_same_ctx|]. now rewrite E.
Qed.

Lemma applier_frame_log lv msg : keeps (W := W) applier_frame (LOG lv msg).
Proof. prim. now apply applier_frame_same_ctx. Qed.

Lemma applier_frame_call c : keeps (W := W) applier_frame (call c).
Proof. prim. now apply applier_frame_same_ctx. Qed.

Lemma applier_frame_ksu path (s : St W) :
  keeps_at applier_frame (Ksu.ksu_send_unmountable path) s.
Proof.
  intros a s' E. apply applier_frame_same_ctx.
  destruct (ksu_send_unmountable_marks path s) as [r [s1 [E1 [Hc _]]]].
  congruence.
Qed.

Local Ltac counter :=
  prim; unfold applier_frame, run_frame, same_settings; cbn;
  repeat split; try lia;
  [ exists []; now rewrite app_nil_r | exact (fun H => H) ].

Lemma applier_frame_count_mounted : keeps (W := W) applier_frame count_mounted.
Proof. counter. Qed.
Lemma applier_frame_count_whiteout :
  keeps (W := W) applier_frame count_whiteout.
Proof. counter. Qed.
Lemma applier_frame_count_fail : keeps (W := W) applier_frame count_fail.
Proof. counter. Qed.

Lemma applier_frame_mark_failed m :
  keeps (W := W) applier_frame (module_mark_failed m).
Proof.
  prim.
  - now apply applier_frame_same_ctx.
  - unfold applier_frame, run_frame, same_settings. cbn.
    repeat split; try lia.
    + now exists [m].
    + intros Hnd. apply NoDup_app; [assumption | repeat constructor; auto | ].
      intros x Hx [<-|[]]. apply mem_In in Hx. congruence.
Qed.

(** X15. The applier keeps the settings, the two totals and the counter of
    skipped nodes (it never counts a node it skips); the counters of
    mounted nodes, whiteouts and failures can only grow; the list of
    failed modules is only added to, and stays free of duplicates. *)
Theorem mm_apply_node_recursive_frame (fuel : nat) (base wbase : string)
        (node node' : Node) (has_tmpfs : bool) (r : Res unit)
        (s s' : St W) :
  mm_apply_node_recursive fuel base wbase node has_tmpfs s
  = Some ((r, node'), s') ->
  applier_frame s s'.
Proof.
  apply (keeps_mm_apply_node_recursive applier_frame applier_frame_refl
           applier_frame_trans applier_frame_log
           (fun c _ => applier_frame_call c)
           (fun path s _ => applier_frame_ksu path s)
           applier_frame_count_mounted applier_frame_count_whiteout
           applier_frame_count_fail applier_frame_mark_failed).
Qed.

Lemma run_frame_of_applier {A} (c : M W A) :
  keeps applier_frame c -> keeps run_frame c.
Proof. intros H s a s' E. now destruct (H s a s' E). Qed.

Lemma run_frame_of_builder (s s' : St W) :
  builder_frame s s' -> run_frame s s'.
Proof.
  unfold builder_frame, run_frame.
  intros [A1 [A2 [A3 [A4 [A5 [A6 [A7 [A8 [A9 [A10 A11]]]]]]]]]].
  split; [assumption|]. repeat split; try lia; try congruence.
  exists []. now rewrite app_nil_r.
Qed.

Lemma run_frame_of_builder_step {A} (c : M W A) :
  keeps builder_frame c -> keeps run_frame c.
Proof.
  intros H s a s' E. apply run_frame_of_builder. exact (H s a s' E).
Qed.

(** X16. A run of [magic_mount] never changes its settings and never counts
    a skipped node: [nodes_skipped] is at the end what it was at the
    start. The other counters can only grow, and the list of failed
    modules is only added to and stays free of duplicates. *)
Theorem magic_mount_frame (fuel : nat) (tmp_root : string)
        (s s' : St W) (r : Res Z) :
  magic_mount fuel tmp_root s = Some (r, s') -> run_frame s s'.
Proof.
  apply (keeps_magic_mount run_frame run_frame_refl run_frame_trans).
  - intros lv msg. apply run_frame_of_applier, applier_frame_log.
  - intros c _. apply run_frame_of_applier, applier_frame_call.
  - intros path s0 _ a s1 E. now destruct (applier_frame_ksu path s0 a s1 E).
  - apply run_frame_of_applier, applier_frame_count_mounted.
  - apply run_frame_of_applier, applier_frame_count_whiteout.
  - apply run_frame_of_applier, applier_frame_count_fail.
  - intros m. apply run_frame_of_applier, applier_frame_mark_failed.
  - apply run_frame_of_builder_step, builder_frame_count_module.
  - apply run_frame_of_builder_step, builder_frame_count_root.
  - apply run_frame_of_builder_step, builder_frame_count_node.
Qed.

End FrameInstances.
(** ** Counting *)

Create HintDb ck.

(** Takes a run of a computation apart into the runs of its steps. *)
Ltac minv H :=
  cbv beta iota zeta in H;
  lazymatch type of H with
  | bind _ _ _ = Some _ =>
      let a := fresh "a" in
      let s1 := fresh "s" in
      let H1 := fresh "Hrun" in
      apply bind_some in H; destruct H as [a [s1 [H1 H]]];
      minv H1; minv H
  | ret _ _ = Some _ => unfold ret in H; injection H as ? ?; subst
  | out_of_fuel _ = Some _ => discriminate H
  | get_ctx _ = Some _ => unfold get_ctx in H; injection H as ? ?; subst
  | get_world _ = Some _ => unfold get_world in H; injection H as ? ?; subst
  | (match ?x with _ => _ end) _ = Some _ =>
      first [ is_var x; destruct x | destruct x eqn:? ]; minv H
  | _ => idtac
  end.

Section Counting.
Import ModuleTree Apply Utils Words.
Context {W : Type} {K : Kernel W}.
Hypothesis Hcalls : calls_keep_listings W.

(** *** Steps that leave the context alone *)

Lemma context_kept_refl (s : St W) : context_kept s s.
Proof. split; [reflexivity | exact (fun H => H)]. Qed.

Lemma context_kept_trans (a b c : St W) :
  context_kept a b -> context_kept b c -> context_kept a c.
Proof. intros [A1 A2] [B1 B2]. split; [congruence | auto]. Qed.

Lemma context_kept_log lv msg : keeps (W := W) context_kept (LOG lv msg).
Proof. intros s a s' [= _ <-]. split; [reflexivity | exact (fun H => H)]. Qed.

Lemma context_kept_call c : keeps (W := W) context_kept (call c).
Proof.
  intros s a s'. unfold call.
  destruct (k_call (st_world s) c) as [w' r] eqn:E. intros [= _ <-].
  split; [reflexivity|]. cbn. intros Hl.
  replace w' with (fst (k_call (st_world s) c)) by now rewrite E.
  now apply (proj1 Hcalls).
Qed.

Lemma context_kept_emit e : keeps (W := W) context_kept (emit e).
Proof. intros s a s' [= _ <-]. split; [reflexivity | exact (fun H => H)]. Qed.

Lemma context_kept_grab : keeps (W := W) context_kept Ksu.ksuGrabFd.
Proof.
  intros s a s'. unfold Ksu.ksuGrabFd.
  destruct (st_ksu_fd s); [intros [= _ <-]; apply context_kept_refl|].
  unfold bind, Ksu.ksuGrabFdOnce.
  destruct (k_ksu_install (st_world s)) as [w' [result fd]] eqn:E.
  assert (Hw : listings_distinct (st_world s) -> listings_distinct w').
  { intros Hl. replace w' with (fst (k_ksu_install (st_world s)))
      by now rewrite E. now apply (proj2 Hcalls). }
  destruct (negb (result =? 0));
    cbv [bind LOG Ksu.set_driver_fd];
    cbn [st_world st_ctx st_trace st_log st_ksu_fd];
    intros [= _ <-]; (split; [reflexivity | exact Hw]).
Qed.

Hint Resolve context_kept_log context_kept_call context_kept_emit
     context_kept_grab : ck.

(** Follows the context through the runs that the hypotheses list. *)
Local Ltac ck :=
  repeat
    match goal with
    | H : ?c ?s1 = Some (?a, ?s2) |- context_kept ?s1 ?s3 =>
        let Kc := fresh in
        assert (Kc : keeps context_kept c) by (auto with ck);
        first [ exact (Kc s1 a s2 H)
              | apply (context_kept_trans s1 s2 s3 (Kc s1 a s2 H));
                clear Kc H ]
    end;
  try apply context_kept_refl.

Lemma context_kept_ksu path (s : St W) :
  keeps_at context_kept (Ksu.ksu_send_unmountable path) s.
Proof.
  intros a s'. unfold Ksu.ksu_send_unmountable. intros H. minv H; ck.
Qed.


(** The generic result on the functions that make no update of the
    context, read for [context_kept]. *)
Local Ltac ck_inst :=
  first [ exact context_kept_refl | exact context_kept_trans
        | exact context_kept_log | exact (fun c _ => context_kept_call c)
        | exact (fun p s _ => context_kept_ksu p s) ].

Lemma ck_path_exists p : keeps (W := W) context_kept (path_exists p).
Proof. apply keeps_path_exists; ck_inst. Qed.
Lemma ck_opendir p : keeps (W := W) context_kept (opendir p).
Proof. apply keeps_opendir; ck_inst. Qed.
Lemma ck_mkdir_p p : keeps (W := W) context_kept (mkdir_p p).
Proof. apply keeps_mkdir_p; ck_inst. Qed.
Lemma ck_mm_clone_symlink a b :
  keeps (W := W) context_kept (mm_clone_symlink a b).
Proof. apply keeps_mm_clone_symlink; ck_inst. Qed.
Lemma ck_mm_mirror_entry fuel path work name :
  keeps (W := W) context_kept (mm_mirror_entry fuel path work name).
Proof. apply keeps_mm_mirror_entry; ck_inst. Qed.
Lemma ck_mm_check_need_tmpfs node path :
  keeps (W := W) context_kept (mm_check_need_tmpfs node path).
Proof. apply keeps_mm_check_need_tmpfs; ck_inst. Qed.
Lemma ck_mm_setup_dir_tmpfs path wpath node :
  keeps (W := W) context_kept (mm_setup_dir_tmpfs path wpath node).
Proof. apply keeps_mm_setup_dir_tmpfs; ck_inst. Qed.
Lemma ck_finalise_tmpfs path wpath :
  keeps (W := W) context_kept (finalise_tmpfs path wpath).
Proof. apply keeps_finalise_tmpfs; ck_inst. Qed.
Lemma ck_mount a b c d : keeps (W := W) context_kept (mount a b c d).
Proof. apply context_kept_call. Qed.
Lemma ck_ksu path : keeps (W := W) context_kept (Ksu.ksu_send_unmountable path).
Proof. intros s. apply context_kept_ksu. Qed.

Hint Resolve ck_path_exists ck_opendir ck_mkdir_p ck_mm_clone_symlink
     ck_mm_mirror_entry ck_mm_check_need_tmpfs ck_mm_setup_dir_tmpfs
     ck_finalise_tmpfs ck_mount ck_ksu : ck.

(** *** The counters *)

Lemma count_mounted_step (s s' : St W) (u : unit) :
  count_mounted s = Some (u, s') ->
  st_world s' = st_world s /\
  counted (stats (st_ctx s')) = counted (stats (st_ctx s)) + 1.
Proof.
  intros E. injection E as _ <-. cbn. unfold counted. cbn.
  split; [reflexivity | lia].
Qed.

Lemma count_whiteout_step (s s' : St W) (u : unit) :
  count_whiteout s = Some (u, s') ->
  st_world s' = st_world s /\
  counted (stats (st_ctx s')) = counted (stats (st_ctx s)) + 1.
Proof.
  intros E. injection E as _ <-. cbn. unfold counted. cbn.
  split; [reflexivity | lia].
Qed.

Lemma count_fail_step (s s' : St W) (u : unit) :
  count_fail s = Some (u, s') ->
  st_world s' = st_world s /\
  counted (stats (st_ctx s')) = counted (stats (st_ctx s)) + 1.
Proof.
  intros E. injection E as _ <-. cbn. unfold counted. cbn.
  split; [reflexivity | lia].
Qed.

Lemma child_failed_step (node c : Node) (s s' : St W) (u : unit) :
  child_failed node c s = Some (u, s') ->
  st_world s' = st_world s /\
  counted (stats (st_ctx s')) = counted (stats (st_ctx s)) + 1.
Proof.
  unfold child_failed. intros H. apply bind_some in H.
  destruct H as [a [s1 [H1 H2]]]. apply count_fail_step in H2.
  destruct H2 as [Hw Hc]. rewrite Hw, Hc.
  assert (Hm : st_world s1 = st_world s /\
               stats (st_ctx s1) = stats (st_ctx s)).
  { assert (Hmark : forall m, module_mark_failed m s = Some (a, s1) ->
                              st_world s1 = st_world s /\
                              stats (st_ctx s1) = stats (st_ctx s)).
    { intros m. unfold module_mark_failed, bind, get_ctx, set_ctx, ret.
      destruct (Str.mem m (failed_modules (st_ctx s)));
        intros [= _ <-]; split; reflexivity. }
    destruct (n_module_name c); [eapply Hmark; exact H1|].
    destruct (n_module_name node); [eapply Hmark; exact H1|].
    injection H1 as _ <-. split; reflexivity. }
  destruct Hm as [Hw1 Hs1]. now rewrite Hw1, Hs1.
Qed.

Local Ltac leaf_count :=
  lazymatch goal with
  | H : count_mounted ?sn = Some (_, ?s') |- bounded_step _ ?s _ ?s' =>
      let Hck := fresh in
      assert (Hck : context_kept s sn) by ck;
      destruct Hck as [Hc Hl]; apply count_mounted_step in H;
      destruct H as [Hw Hcnt];
      split; [ rewrite Hw; exact Hl
             | rewrite Hcnt; first [rewrite Hc | idtac];
               cbn [error_cost]; lia ]
  | |- bounded_step _ ?s ?r ?s' =>
      let Hck := fresh in
      assert (Hck : context_kept s s') by ck;
      destruct Hck as [Hc Hl];
      split; [ exact Hl
             | first [rewrite Hc | idtac];
               try (is_var r; destruct r); cbn [error_cost]; lia ]
  end.

Lemma mm_apply_regular_file_count path wpath node h (s s' : St W) r :
  mm_apply_regular_file path wpath node h s = Some (r, s') ->
  bounded_step 1 s r s'.
Proof.
  unfold mm_apply_regular_file, apply_regular_bind. intros H.
  minv H; leaf_count.
Qed.


Lemma mm_apply_symlink_count path wpath node (s s' : St W) r :
  mm_apply_symlink path wpath node s = Some (r, s') ->
  bounded_step 1 s r s'.
Proof. unfold mm_apply_symlink. intros H. minv H; leaf_count. Qed.

(** *** Sizes *)

Lemma tree_size_children (n : Node) :
  tree_size n = 1 + forest_size (n_children n).
Proof.
  destruct n as [name t cs mp mn rep sk dn]. cbn [tree_size n_children].
  f_equal.
Qed.

Lemma tree_size_pos : forall n : Node, 1 <= tree_size n.
Proof.
  fix IH 1. intros [name t cs mp mn rep sk dn]. cbn [tree_size].
  match goal with |- 1 <= 1 + ?x => enough (0 <= x) by lia end.
  induction cs as [|c cs IHcs]; [lia|].
  pose proof (IH c). lia.
Qed.

Lemma forest_size_nonneg (cs : list Node) : 0 <= forest_size cs.
Proof.
  induction cs as [|c cs IH]; cbn [forest_size]; [lia|].
  pose proof (tree_size_pos c). lia.
Qed.

Lemma tree_size_set_done (c : Node) (b : bool) :
  tree_size (set_done c b) = tree_size c.
Proof. now destruct c. Qed.

Lemma tree_size_set_skip (c : Node) (b : bool) :
  tree_size (set_skip c b) = tree_size c.
Proof. now destruct c. Qed.

Lemma forest_size_store (cs : list Node) (name : string) (c c' : Node) :
  find_child cs name = Some c -> tree_size c' = tree_size c ->
  forest_size (store_child cs name c') = forest_size cs.
Proof.
  induction cs as [|d cs IH]; cbn [find_child store_child]; [discriminate|].
  destruct (String.eqb (n_name d) name).
  - intros [= ->] Hs. cbn [forest_size]. lia.
  - intros Hf Hs. cbn [forest_size]. now rewrite IH.
Qed.

Lemma check_need_tmpfs_loop_size h path (cs cs' : list Node) b
      (s s' : St W) :
  check_need_tmpfs_loop h path cs s = Some ((b, cs'), s') ->
  forest_size cs' = forest_size cs.
Proof.
  revert cs' b s s'. induction cs as [|c cs IH]; intros cs' b s s';
    cbn [check_need_tmpfs_loop]; intros H; minv H;
    cbn [forest_size fst snd]; rewrite ?tree_size_set_skip;
    try reflexivity;
    repeat match goal with
           | H : check_need_tmpfs_loop _ _ _ _ = Some ((_, _), _) |- _ =>
               apply IH in H
           | H : check_need_tmpfs_loop _ _ _ _ = Some (?p, _) |- _ =>
               destruct p
           end; cbn [fst snd]; congruence.
Qed.

(** *** The children that are still to visit *)

Lemma pending_size_nonneg entries seen cs :
  0 <= pending_size entries seen cs.
Proof.
  revert seen. induction cs as [|c cs IH]; intros seen;
    cbn [pending_size]; [lia|].
  pose proof (tree_size_pos c). pose proof (IH (n_name c :: seen)).
  destruct (_ && _)%bool; lia.
Qed.

Lemma pending_size_mono entries entries' seen cs :
  (forall x, Str.mem x entries = true -> Str.mem x entries' = true) ->
  pending_size entries seen cs <= pending_size entries' seen cs.
Proof.
  intros Hsub. revert seen. induction cs as [|c cs IH]; intros seen;
    cbn [pending_size]; [lia|].
  pose proof (tree_size_pos c). pose proof (IH (n_name c :: seen)).
  destruct (Str.mem (n_name c) entries) eqn:E.
  - rewrite (Hsub _ E). lia.
  - cbn [andb]. rewrite orb_false_r.
    destruct (n_skip c), (n_done c); cbn [negb andb orb]; try lia;
      destruct (_ && _)%bool; lia.
Qed.

Lemma pending_size_forest entries seen cs :
  pending_size entries seen cs <= forest_size cs.
Proof.
  revert seen. induction cs as [|c cs IH]; intros seen;
    cbn [pending_size forest_size]; [lia|].
  pose proof (tree_size_pos c). pose proof (IH (n_name c :: seen)).
  destruct (_ && _)%bool; lia.
Qed.

Lemma pending_size_nil seen seen' cs :
  pending_size [] seen cs = pending_size [] seen' cs.
Proof.
  revert seen seen'. induction cs as [|c cs IH]; intros seen seen';
    cbn [pending_size Str.mem]; [reflexivity|].
  now rewrite (IH (n_name c :: seen) (n_name c :: seen')).
Qed.

Lemma mem_cons_other (x e : string) (rest : list string) :
  x <> e -> Str.mem x (e :: rest) = Str.mem x rest.
Proof.
  intros Hne. cbn [Str.mem]. destruct (String.eqb_spec x e); [congruence|].
  reflexivity.
Qed.

Lemma pending_size_visit (e : string) (rest : list string) (c c' : Node) :
  forall cs seen,
    Str.mem e seen = false -> Str.mem e rest = false ->
    find_child cs e = Some c -> n_skip c = false ->
    n_name c' = e -> n_skip c' = false -> n_done c' = true ->
    tree_size c' = tree_size c ->
    pending_size rest seen (store_child cs e c') + tree_size c
    <= pending_size (e :: rest) seen cs.
Proof.
  induction cs as [|d cs IH]; intros seen Hseen Hrest Hfind Hskip Hn Hs Hd Hsz;
    cbn [find_child] in Hfind; [discriminate|].
  cbn [store_child]. destruct (String.eqb_spec (n_name d) e) as [E|E].
  - injection Hfind as ->. cbn [pending_size].
    rewrite Hs, Hd, Hn, E, Hskip, Hrest, Hseen. cbn [Str.mem negb andb orb].
    rewrite String.eqb_refl. cbn [negb andb orb].
    rewrite orb_true_r.
    pose proof (pending_size_mono rest (e :: rest) (e :: seen) cs) as Hm.
    assert (forall x, Str.mem x rest = true -> Str.mem x (e :: rest) = true).
    { intros x Hx. cbn [Str.mem]. now rewrite Hx, orb_true_r. }
    specialize (Hm H). lia.
  - cbn [pending_size]. rewrite (mem_cons_other _ _ rest E).
    assert (Hseen' : Str.mem e (n_name d :: seen) = false).
    { cbn [Str.mem]. destruct (String.eqb_spec e (n_name d)); [congruence|].
      exact Hseen. }
    pose proof (IH (n_name d :: seen) Hseen' Hrest Hfind Hskip Hn Hs Hd Hsz).
    lia.
Qed.

Lemma pending_size_skip (e : string) (rest : list string) (c : Node) :
  forall cs seen,
    find_child cs e = Some c -> n_skip c = true ->
    pending_size rest seen (store_child cs e (set_done c true))
    <= pending_size (e :: rest) seen cs.
Proof.
  assert (Hsub : forall x, Str.mem x rest = true ->
                           Str.mem x (e :: rest) = true).
  { intros x Hx. cbn [Str.mem]. now rewrite Hx, orb_true_r. }
  induction cs as [|d cs IH]; intros seen Hfind Hskip;
    cbn [find_child] in Hfind; [discriminate|].
  cbn [store_child]. destruct (String.eqb_spec (n_name d) e) as [E|E].
  - injection Hfind as ->. cbn [pending_size].
    replace (n_skip (set_done c true)) with true by now destruct c.
    replace (n_name (set_done c true)) with (n_name c) by now destruct c.
    rewrite Hskip. cbn [negb andb].
    pose proof (pending_size_mono rest (e :: rest) (n_name c :: seen) cs Hsub).
    lia.
  - cbn [pending_size]. rewrite (mem_cons_other _ _ rest E).
    pose proof (IH (n_name d :: seen) Hfind Hskip). lia.
Qed.


(** *** The two loops over the children *)

Section Loops.
Variable apply : string -> string -> Node -> bool -> M W (Res unit * Node).
Variable fuel : nat.
Hypothesis apply_counts :
  forall base wbase node h s r node' s',
    listings_distinct (st_world s) ->
    apply base wbase node h s = Some ((r, node'), s') ->
    listings_distinct (st_world s') /\ same_outline node node' /\
    counted (stats (st_ctx s')) + error_cost r
    <= counted (stats (st_ctx s)) + tree_size node.

Lemma dir_children_loop_counts path wpath now_tmp se :
  forall entries node s r node' s',
    NoDup entries -> listings_distinct (st_world s) ->
    dir_children_loop apply fuel path wpath now_tmp se entries node s
    = Some ((r, node'), s') ->
    listings_distinct (st_world s') /\
    n_name node' = n_name node /\ n_skip node' = n_skip node /\
    n_done node' = n_done node /\
    forest_size (n_children node') = forest_size (n_children node) /\
    counted (stats (st_ctx s')) + pending_size [] [] (n_children node')
    <= counted (stats (st_ctx s))
       + pending_size entries [] (n_children node).
Proof.
  induction entries as [|e rest IH]; intros node s r node' s' Hnd Hl H;
    cbn [dir_children_loop] in H.
  - minv H. repeat split; try assumption; lia.
  - inversion Hnd as [|? ? Hnotin Hnd']; subst.
    assert (Hrest : Str.mem e rest = false).
    { destruct (Str.mem e rest) eqn:E; [|reflexivity].
      apply mem_In in E. contradiction. }
    assert (Hsub : forall x, Str.mem x rest = true ->
                             Str.mem x (e :: rest) = true).
    { intros x Hx. cbn [Str.mem]. now rewrite Hx, orb_true_r. }
    pose proof (pending_size_mono rest (e :: rest) [] (n_children node) Hsub)
      as Hmono.
    destruct (String.eqb e "." || String.eqb e "..")%bool.
    { apply IH in H; try assumption.
      destruct H as (H1 & H2 & H3 & H4 & H5 & H6).
      repeat split; try assumption; lia. }
    unfold node_child_find in H.
    destruct (find_child (n_children node) e) as [c|] eqn:Ef.
    + destruct (n_skip c) eqn:Esk.
      * apply IH in H; try assumption.
        destruct H as (H1 & H2 & H3 & H4 & H5 & H6).
        cbn [node_child_store set_children n_children n_name n_skip n_done]
          in *.
        rewrite (forest_size_store _ _ c) in H5
          by (assumption || apply tree_size_set_done).
        pose proof (pending_size_skip e rest c (n_children node) [] Ef Esk).
        repeat split; try assumption; lia.
      * apply bind_some in H. destruct H as [[res c'] [s1 [Ha H]]].
        destruct (apply_counts _ _ _ _ _ _ _ _ Hl Ha)
          as (Hl1 & (On & Os & Od & Oz) & Hcount).
        rewrite tree_size_set_done in Oz, Hcount.
        assert (Hname : n_name c = e).
        { clear -Ef. induction (n_children node) as [|d cs IHcs];
            cbn [find_child] in Ef; [discriminate|].
          destruct (String.eqb_spec (n_name d) e); [|auto].
          now injection Ef as <-. }
        assert (On' : n_name c' = e) by (rewrite On; now destruct c).
        assert (Os' : n_skip c' = false) by (rewrite Os; now destruct c).
        assert (Od' : n_done c' = true) by (rewrite Od; now destruct c).
        pose proof (pending_size_visit e rest c c' (n_children node) []
                      eq_refl Hrest Ef Esk On' Os' Od' Oz) as Hvisit.
        pose proof (forest_size_store _ _ c c' Ef Oz) as Hstore.
        pose proof (pending_size_mono [] rest []
                      (store_child (n_children node) e c')) as Hnil.
        cbv beta iota in H. destruct res as [u|err].
        -- apply IH in H; try assumption.
           destruct H as (H1 & H2 & H3 & H4 & H5 & H6).
           cbn [node_child_store set_children n_children n_name n_skip
                n_done] in *.
           cbn [error_cost] in Hcount.
           repeat split; try assumption; try congruence; lia.
        -- apply bind_some in H. destruct H as [u [s2 [Hf H]]].
           apply child_failed_step in Hf. destruct Hf as [Hw2 Hc2].
           assert (Hl2 : listings_distinct (st_world s2))
             by now rewrite Hw2.
           cbn [error_cost] in Hcount.
           destruct now_tmp.
           ++ minv H.
              cbn [node_child_store set_children n_children n_name n_skip
                   n_done].
              specialize (Hnil (fun x Hx => ltac:(discriminate))).
              repeat split; try assumption; try congruence; lia.
           ++ apply IH in H; try assumption.
              destruct H as (H1 & H2 & H3 & H4 & H5 & H6).
              cbn [node_child_store set_children n_children n_name n_skip
                   n_done] in *.
              repeat split; try assumption; try congruence; lia.
    + destruct now_tmp.
      * apply bind_some in H. destruct H as [u [s1 [Hm H]]].
        apply ck_mm_mirror_entry in Hm. destruct Hm as [Hc1 Hl1].
        apply IH in H; auto.
        destruct H as (H1 & H2 & H3 & H4 & H5 & H6).
        rewrite Hc1 in H6.
        repeat split; try assumption; lia.
      * apply IH in H; try assumption.
        destruct H as (H1 & H2 & H3 & H4 & H5 & H6).
        repeat split; try assumption; lia.
Qed.

Lemma opendir_run (p : string) (s s' : St W) (d : Res DirStream) :
  opendir p s = Some (d, s') -> s' = s /\ d = k_opendir (st_world s) p.
Proof. intros [= <- <-]. split; reflexivity. Qed.

Lemma path_exists_run (p : string) (s s' : St W) (b : bool) :
  path_exists p s = Some (b, s') -> s' = s.
Proof. now intros [= _ <-]. Qed.

Lemma mm_process_dir_children_counts path wpath node now_tmp
      (s s' : St W) r node' :
  listings_distinct (st_world s) ->
  mm_process_dir_children apply fuel path wpath node now_tmp s
  = Some ((r, node'), s') ->
  listings_distinct (st_world s') /\
  n_name node' = n_name node /\ n_skip node' = n_skip node /\
  n_done node' = n_done node /\
  forest_size (n_children node') = forest_size (n_children node) /\
  counted (stats (st_ctx s')) + pending_size [] [] (n_children node')
  <= counted (stats (st_ctx s)) + forest_size (n_children node).
Proof.
  intros Hl H. unfold mm_process_dir_children in H.
  pose proof (pending_size_forest [] [] (n_children node)) as Hp.
  apply bind_some in H. destruct H as [e [s1 [He H]]].
  apply path_exists_run in He. subst s1.
  destruct (negb e || n_replace node)%bool.
  { minv H. repeat split; try assumption; lia. }
  apply bind_some in H. destruct H as [d [s1 [Hd H]]].
  apply opendir_run in Hd. destruct Hd as [-> ->].
  destruct (k_opendir (st_world s) path) as [dir|err] eqn:Eo.
  - apply dir_children_loop_counts in H; try assumption;
      [|now apply (Hl path dir)].
    destruct H as (H1 & H2 & H3 & H4 & H5 & H6).
    pose proof (pending_size_forest (ds_entries dir) [] (n_children node)).
    repeat split; try assumption; lia.
  - destruct (negb now_tmp); minv H;
      try match goal with
          | HL : LOG _ _ _ = Some _ |- _ =>
              apply context_kept_log in HL; destruct HL as [Hc Hl'];
              rewrite Hc
          end;
      repeat split; auto; lia.
Qed.

Lemma remaining_children_loop_counts path wpath node now_tmp :
  forall cs s r cs' s',
    listings_distinct (st_world s) ->
    remaining_children_loop apply path wpath node now_tmp cs s
    = Some ((r, cs'), s') ->
    listings_distinct (st_world s') /\
    forest_size cs' = forest_size cs /\
    counted (stats (st_ctx s'))
    <= counted (stats (st_ctx s)) + pending_size [] [] cs.
Proof.
  induction cs as [|c cs IH]; intros s r cs' s' Hl H;
    cbn [remaining_children_loop] in H.
  - minv H. repeat split; try assumption; cbn; lia.
  - cbn [pending_size Str.mem]. rewrite andb_false_l, orb_false_r.
    rewrite (pending_size_nil [n_name c] [] cs).
    destruct (n_skip c) eqn:Esk; [|destruct (n_done c) eqn:Edn];
      cbn [orb negb andb] in *.
    + apply bind_some in H. destruct H as [[r0 cs0] [s1 [Hr H]]].
      apply IH in Hr; try assumption. minv H.
      cbn [fst snd forest_size]. destruct Hr as (H1 & H2 & H3).
      repeat split; try assumption; lia.
    + apply bind_some in H. destruct H as [[r0 cs0] [s1 [Hr H]]].
      apply IH in Hr; try assumption. minv H.
      cbn [fst snd forest_size]. destruct Hr as (H1 & H2 & H3).
      repeat split; try assumption; lia.
    + apply bind_some in H. destruct H as [[res c'] [s1 [Ha H]]].
      destruct (apply_counts _ _ _ _ _ _ _ _ Hl Ha)
        as (Hl1 & (On & Os & Od & Oz) & Hcount).
      cbv beta iota in H. destruct res as [u|err];
        cbn [error_cost] in Hcount.
      * apply bind_some in H. destruct H as [[r0 cs0] [s2 [Hr H]]].
        apply IH in Hr; try assumption. minv H.
        cbn [fst snd forest_size]. destruct Hr as (H1 & H2 & H3).
        repeat split; try assumption; lia.
      * apply bind_some in H. destruct H as [u [s2 [Hf H]]].
        apply child_failed_step in Hf. destruct Hf as [Hw2 Hc2].
        assert (Hl2 : listings_distinct (st_world s2)) by now rewrite Hw2.
        pose proof (pending_size_nonneg [] [] cs).
        destruct now_tmp.
        -- minv H. cbn [forest_size].
           repeat split; try assumption; lia.
        -- apply bind_some in H. destruct H as [[r0 cs0] [s3 [Hr H]]].
           apply IH in Hr; try assumption. minv H.
           cbn [fst snd forest_size]. destruct Hr as (H1 & H2 & H3).
           repeat split; try assumption; lia.
Qed.

Lemma mm_process_remaining_children_counts path wpath node now_tmp
      (s s' : St W) r node' :
  listings_distinct (st_world s) ->
  mm_process_remaining_children apply path wpath node now_tmp s
  = Some ((r, node'), s') ->
  listings_distinct (st_world s') /\
  n_name node' = n_name node /\ n_skip node' = n_skip node /\
  n_done node' = n_done node /\
  forest_size (n_children node') = forest_size (n_children node) /\
  counted (stats (st_ctx s'))
  <= counted (stats (st_ctx s)) + pending_size [] [] (n_children node).
Proof.
  intros Hl H. unfold mm_process_remaining_children in H.
  apply bind_some in H. destruct H as [[r0 cs0] [s1 [Hr H]]].
  apply remaining_children_loop_counts in Hr; try assumption.
  destruct Hr as (H1 & H2 & H3). minv H.
  cbn [fst snd set_children n_children n_name n_skip n_done].
  repeat split; assumption.
Qed.

End Loops.


(** *** A node and what is below it *)

Lemma mm_check_need_tmpfs_outline node path (s s' : St W) b node' :
  mm_check_need_tmpfs node path s = Some ((b, node'), s') ->
  context_kept s s' /\
  n_name node' = n_name node /\ n_skip node' = n_skip node /\
  n_done node' = n_done node /\
  forest_size (n_children node') = forest_size (n_children node).
Proof.
  intros H. split; [exact (ck_mm_check_need_tmpfs _ _ _ _ _ H)|].
  unfold mm_check_need_tmpfs in H.
  apply bind_some in H. destruct H as [[b0 cs0] [s1 [Hr H]]].
  apply check_need_tmpfs_loop_size in Hr. minv H.
  cbn [fst snd set_children n_children n_name n_skip n_done].
  repeat split; assumption.
Qed.

Lemma same_outline_intro (n n' : Node) :
  n_name n' = n_name n -> n_skip n' = n_skip n -> n_done n' = n_done n ->
  forest_size (n_children n') = forest_size (n_children n) ->
  same_outline n n'.
Proof.
  intros. unfold same_outline. rewrite !tree_size_children.
  repeat split; try assumption. lia.
Qed.

Lemma mm_apply_node_recursive_bound (fuel : nat) :
  forall base wbase node h s r node' s',
    listings_distinct (st_world s) ->
    mm_apply_node_recursive fuel base wbase node h s
    = Some ((r, node'), s') ->
    listings_distinct (st_world s') /\ same_outline node node' /\
    counted (stats (st_ctx s')) + error_cost r
    <= counted (stats (st_ctx s)) + tree_size node.
Proof.
  induction fuel as [|fuel IH]; intros base wbase node h s r node' s' Hl H;
    cbn [mm_apply_node_recursive] in H; [discriminate|].
  pose proof (tree_size_pos node) as Hpos.
  assert (Hsame : same_outline node node) by (repeat split).
  destruct (path_join base (n_name node)) as [path|];
    [destruct (path_join wbase (n_name node)) as [wpath|]|].
  2,3: minv H; cbn [error_cost]; repeat split; try assumption; lia.
  destruct (n_type node).
  - apply bind_some in H. destruct H as [r0 [s1 [Hr H]]].
    apply mm_apply_regular_file_count in Hr. destruct Hr as [Hl1 Hc1].
    minv H. repeat split; auto; lia.
  - (* a directory *)
    pose proof (tree_size_children node) as Hsize.
    apply bind_some in H. destruct H as [[create_tmp node1] [s1 [Hp H]]].
    assert (Hprobe : context_kept s s1 /\
              n_name node1 = n_name node /\ n_skip node1 = n_skip node /\
              n_done node1 = n_done node /\
              forest_size (n_children node1) = forest_size (n_children node)).
    { destruct (negb h && negb _)%bool.
      - now apply mm_check_need_tmpfs_outline in Hp.
      - minv Hp. split; [apply context_kept_refl | repeat split]. }
    clear Hp. destruct Hprobe as ([Hc1 Hl1] & N1 & S1 & D1 & F1).
    specialize (Hl1 Hl).
    assert (Hout1 : same_outline node node1)
      by now apply same_outline_intro.
    cbv beta iota zeta in H.
    apply bind_some in H. destruct H as [setup [s2 [Hs H]]].
    assert (Hk2 : context_kept s1 s2).
    { destruct (h || create_tmp)%bool; [|minv Hs; apply context_kept_refl].
      exact (ck_mm_setup_dir_tmpfs _ _ _ _ _ _ Hs). }
    clear Hs. destruct Hk2 as [Hc2 Hl2]. specialize (Hl2 Hl1).
    destruct setup as [u|e].
    2:{ minv H. cbn [error_cost].
        repeat split; try tauto; try apply Hout1; try congruence.
        rewrite Hc2, Hc1. lia. }
    apply bind_some in H. destruct H as [self [s3 [Hm H]]].
    assert (Hk3 : context_kept s2 s3).
    { destruct create_tmp; [|minv Hm; apply context_kept_refl].
      exact (ck_mount _ _ _ _ _ _ _ Hm). }
    clear Hm. destruct Hk3 as [Hc3 Hl3]. specialize (Hl3 Hl2).
    destruct self as [u'|e].
    2:{ minv H. cbn [error_cost].
        repeat split; try tauto; try apply Hout1; try congruence.
        rewrite Hc3, Hc2, Hc1. lia. }
    apply bind_some in H. destruct H as [[r1 node2] [s4 [Hd H]]].
    apply (mm_process_dir_children_counts _ _ IH) in Hd; [|assumption].
    destruct Hd as (Hl4 & N2 & S2 & D2 & F2 & C2).
    rewrite Hc3, Hc2, Hc1 in C2.
    pose proof (pending_size_nonneg [] [] (n_children node2)) as Hpn.
    assert (Hout2 : same_outline node node2)
      by (apply same_outline_intro; congruence).
    destruct r1 as [u1|e].
    2:{ minv H. cbn [error_cost]. repeat split; try apply Hout2; auto; lia. }
    apply bind_some in H. destruct H as [[r2 node3] [s5 [Hr H]]].
    apply (mm_process_remaining_children_counts _ IH) in Hr; [|assumption].
    destruct Hr as (Hl5 & N3 & S3 & D3 & F3 & C3).
    assert (Hout3 : same_outline node node3)
      by (apply same_outline_intro; congruence).
    destruct r2 as [u2|e].
    2:{ minv H. cbn [error_cost]. repeat split; try apply Hout3; auto; lia. }
    apply bind_some in H. destruct H as [fin [s6 [Hf H]]].
    assert (Hk6 : context_kept s5 s6).
    { destruct create_tmp; [|minv Hf; apply context_kept_refl].
      exact (ck_finalise_tmpfs _ _ _ _ _ Hf). }
    clear Hf. destruct Hk6 as [Hc6 Hl6]. specialize (Hl6 Hl5).
    destruct fin as [u3|e].
    2:{ minv H. cbn [error_cost]. rewrite Hc6.
        repeat split; try apply Hout3; auto; lia. }
    apply bind_some in H. destruct H as [u4 [s7 [Hcm H]]].
    apply count_mounted_step in Hcm. destruct Hcm as [Hw7 Hc7].
    minv H. cbn [error_cost]. rewrite Hc7, Hc6, Hw7.
    repeat split; try apply Hout3; auto; lia.
  - apply bind_some in H. destruct H as [r0 [s1 [Hr H]]].
    apply mm_apply_symlink_count in Hr. destruct Hr as [Hl1 Hc1].
    minv H. repeat split; auto; lia.
  - apply bind_some in H. destruct H as [u [s1 [Hr H]]].
    apply count_whiteout_step in Hr. destruct Hr as [Hw1 Hc1].
    minv H. cbn [error_cost]. rewrite Hc1, Hw1.
    repeat split; auto; lia.
Qed.

(** X17. Applying a node adds to the counters of mounted nodes, whiteouts,
    skipped nodes and failures at most the number of nodes of its
    subtree, and one less when it fails, which leaves room for the
    failure that its caller counts. It leaves the names, the marks of the
    node and the size of the subtree as they are. This holds when no
    directory listing holds a name twice, before and after every call. *)
Theorem mm_apply_node_recursive_counts (fuel : nat) (base wbase : string)
        (node node' : Node) (has_tmpfs : bool) (r : Res unit)
        (s s' : St W) :
  listings_distinct (st_world s) ->
  mm_apply_node_recursive fuel base wbase node has_tmpfs s
  = Some ((r, node'), s') ->
  counted (stats (st_ctx s')) + error_cost r
  <= counted (stats (st_ctx s)) + tree_size node /\
  same_outline node node' /\ listings_distinct (st_world s').
Proof.
  intros Hl H.
  destruct (mm_apply_node_recursive_bound fuel _ _ _ _ _ _ _ _ Hl H)
    as (H1 & H2 & H3).
  repeat split; try apply H2; assumption.
Qed.

End Counting.
(** ** The size of the tree and the total of the builder *)

Section BuilderSize.
Import ModuleTree Apply Utils Words.
Context {W : Type} {K : Kernel W}.

Lemma forest_size_store_any (cs : list Node) (name : string) (c c' : Node) :
  find_child cs name = Some c ->
  forest_size (store_child cs name c')
  = forest_size cs - tree_size c + tree_size c'.
Proof.
  induction cs as [|d cs IH]; cbn [find_child store_child]; [discriminate|].
  destruct (String.eqb (n_name d) name).
  - intros [= ->]. cbn [forest_size]. lia.
  - intros Hf. cbn [forest_size]. rewrite IH by assumption. lia.
Qed.

Lemma forest_size_app (a b : list Node) :
  forest_size (a ++ b) = forest_size a + forest_size b.
Proof. induction a as [|c a IH]; cbn [app forest_size]; lia. Qed.

Lemma tree_size_store (parent : Node) (name : string) (c c' : Node) :
  node_child_find parent name = Some c ->
  tree_size (node_child_store parent name c')
  = tree_size parent - tree_size c + tree_size c'.
Proof.
  intros Hf. rewrite (tree_size_children (node_child_store _ _ _)),
    (tree_size_children parent).
  cbn [node_child_store set_children n_children].
  rewrite (forest_size_store_any _ _ c) by assumption. lia.
Qed.

Lemma tree_size_append (parent child : Node) :
  tree_size (node_child_append parent child)
  = tree_size parent + tree_size child.
Proof.
  rewrite !(tree_size_children (node_child_append _ _)),
    (tree_size_children parent).
  cbn [node_child_append set_children n_children].
  rewrite forest_size_app. cbn [forest_size]. lia.
Qed.

Lemma tree_size_detach (parent parent' child : Node) (name : string) :
  node_child_detach parent name = Some (child, parent') ->
  tree_size parent = tree_size parent' + tree_size child.
Proof.
  unfold node_child_detach.
  destruct (detach_child (n_children parent) name) as [[n cs]|] eqn:E;
    [|discriminate].
  intros [= <- <-]. rewrite (tree_size_children parent),
    (tree_size_children (set_children _ _)).
  cbn [set_children n_children].
  enough (forest_size (n_children parent) = forest_size cs + tree_size n)
    by lia.
  revert n cs E. induction (n_children parent) as [|d l IH]; intros n cs;
    cbn [detach_child]; [discriminate|].
  destruct (String.eqb (n_name d) name).
  - intros [= <- <-]. cbn [forest_size]. lia.
  - destruct (detach_child l name) as [[n0 rest]|]; [|discriminate].
    intros [= <- <-]. cbn [forest_size]. rewrite (IH n0 rest eq_refl). lia.
Qed.

Lemma tree_size_set_module_name (n : Node) (m : option string) :
  tree_size (set_module_name n m) = tree_size n.
Proof. now destruct n. Qed.

Lemma node_create_from_fs_size name path mn (s s' : St W) (r : option Node) :
  node_create_from_fs name path mn s = Some (r, s') ->
  match r with
  | Some n => tree_size n = 1 /\ n_name n = name /\ total_of s' = total_of s + 1
  | None => total_of s' = total_of s
  end.
Proof.
  unfold node_create_from_fs. intros H. minv H;
    repeat match goal with
           | HL : LOG _ _ _ = Some _ |- _ =>
               unfold LOG in HL; injection HL as _ <-
           | HL : lstat _ _ = Some _ |- _ =>
               unfold lstat, bind, get_world, ret in HL;
               injection HL as _ <-
           | HL : dir_is_replace _ _ = Some _ |- _ =>
               apply dir_is_replace_reads in HL; subst
           | HL : set_stats _ _ = Some _ |- _ =>
               unfold set_stats, bind, get_ctx, set_ctx in HL;
               injection HL as _ <-
           end; cbn; repeat split; reflexivity.
Qed.


Section Scan.
Variable scan : Node -> string -> M W (Res (Node * bool)).
Hypothesis scan_size :
  forall c p s c' sub s',
    scan c p s = Some (Ok (c', sub), s') ->
    tree_size c' + total_of s = tree_size c + total_of s'.

Lemma scan_entries_size dir mn entries :
  forall self any s self' any' s',
    scan_entries scan dir mn entries self any s
    = Some (Ok (self', any'), s') ->
    tree_size self' + total_of s = tree_size self + total_of s'.
Proof.
  induction entries as [|e rest IH]; intros self any s self' any' s' H;
    cbn [scan_entries] in H.
  - minv H. lia.
  - destruct (String.eqb e "." || String.eqb e "..")%bool;
      [now apply IH in H|].
    destruct (path_join dir e) as [path|]; [|discriminate].
    apply bind_some in H. destruct H as [[self1 child] [s1 [Hf H]]].
    assert (Hfound :
              tree_size self1 + total_of s = tree_size self + total_of s1 /\
              match child with
              | Some c => node_child_find self1 e = Some c
              | None => True
              end).
    { destruct (node_child_find self e) as [c|] eqn:Ef.
      - minv Hf. split; [lia | assumption].
      - apply bind_some in Hf. destruct Hf as [n [s0 [Hn Hf]]].
        apply node_create_from_fs_size in Hn. destruct n as [n|]; minv Hf.
        + destruct Hn as (Hs & Hname & Ht).
          rewrite tree_size_append. split; [lia|].
          unfold node_child_find, node_child_append in *.
          cbn [set_children n_children]. rewrite find_child_app, Ef.
          now rewrite Hname, String.eqb_refl.
        + split; [lia | exact I]. }
    destruct Hfound as [Hsz Hfind]. cbv beta iota in H.
    destruct child as [c|]; [|apply IH in H; lia].
    destruct (n_type c); try (apply IH in H; lia).
    apply bind_some in H. destruct H as [[[c' sub]|err] [s2 [Hs H]]];
      [|minv H; congruence].
    apply scan_size in Hs. apply IH in H.
    rewrite (tree_size_store _ _ c) in H by assumption. lia.
Qed.
End Scan.

Lemma node_scan_dir_size (fuel : nat) :
  forall self dir mn s self' any s',
    node_scan_dir fuel self dir mn s = Some (Ok (self', any), s') ->
    tree_size self' + total_of s = tree_size self + total_of s'.
Proof.
  induction fuel as [|fuel IH]; intros self dir mn s self' any s' H;
    cbn [node_scan_dir] in H; [discriminate|].
  apply bind_some in H. destruct H as [d [s1 [Hd H]]].
  apply opendir_run in Hd. destruct Hd as [-> ->].
  destruct (k_opendir (st_world s) dir) as [ds|]; [|minv H; congruence].
  eapply scan_entries_size; [|exact H].
  intros c p s0 c' sub s0' Hc. eapply IH. exact Hc.
Qed.

(** The builder only raises the totals. *)
Lemma total_grows {A} (c : M W A) (s s' : St W) (a : A) :
  keeps builder_frame c -> c s = Some (a, s') -> total_of s <= total_of s'.
Proof.
  intros Hk H. destruct (Hk s a s' H) as (_ & _ & _ & _ & _ & _ & _ & _ & _ & _ & Ht).
  exact Ht.
Qed.

Local Ltac bf :=
  first [ exact builder_frame_refl | exact builder_frame_trans
        | exact builder_frame_log | exact builder_frame_count_module
        | exact builder_frame_count_root | exact builder_frame_count_node ].

Lemma collect_modules_size fuel mdir entries :
  forall system has_any s system' has_any' s',
    collect_modules fuel mdir entries system has_any s
    = Some (Ok (system', has_any'), s') ->
    tree_size system' + total_of s = tree_size system + total_of s'.
Proof.
  induction entries as [|e rest IH];
    intros system has_any s system' has_any' s' H;
    cbn [collect_modules] in H.
  - minv H. lia.
  - destruct (String.eqb e "." || String.eqb e "..")%bool;
      [now apply IH in H|].
    destruct (path_join mdir e) as [mod_path|]; [|discriminate].
    apply bind_some in H. destruct H as [st [s1 [Hst H]]].
    rewrite stat_run in Hst. injection Hst as <- <-.
    destruct (k_stat (st_world s) mod_path) as [mod_st|];
      [|now apply IH in H].
    destruct (negb (S_ISDIR (st_mode mod_st))); [now apply IH in H|].
    apply bind_some in H. destruct H as [dis [s1 [Hdis H]]].
    destruct (module_is_disabled_pure mod_path s) as [b Hb].
    rewrite Hb in Hdis. injection Hdis as <- <-.
    destruct b; [now apply IH in H|].
    destruct (path_join mod_path "system") as [mod_sys|]; [|discriminate].
    apply bind_some in H. destruct H as [isdir [s1 [Hi H]]].
    rewrite path_is_dir_run in Hi. injection Hi as <- <-.
    destruct (negb _); [now apply IH in H|].
    apply bind_some in H. destruct H as [u [s1 [Hc H]]].
    assert (Ht1 : total_of s1 = total_of s).
    { unfold count_module, set_stats, bind, get_ctx, set_ctx in Hc.
      now injection Hc as _ <-. }
    apply bind_some in H. destruct H as [[[system1 sub]|err] [s2 [Hs H]]];
      [|minv H; congruence].
    apply node_scan_dir_size in Hs. apply IH in H. lia.
Qed.

Lemma symlink_resolve_partition_size fuel system part (s s' : St W) rc system' :
  symlink_resolve_partition fuel system part s = Some ((rc, system'), s') ->
  tree_size system' + total_of s <= tree_size system + total_of s'.
Proof.
  intros H.
  assert (Hgrow : total_of s <= total_of s').
  { eapply total_grows; [|exact H].
    apply keeps_symlink_resolve_partition; bf. }
  unfold symlink_resolve_partition in H.
  destruct (node_child_find system part) as [sys_child|] eqn:Ef;
    [|minv H; lia].
  destruct (n_type sys_child); try (minv H; lia).
  destruct (n_module_path sys_child) as [mp|]; [|minv H; lia].
  apply bind_some in H. destruct H as [l [s1 [Hl H]]].
  unfold readlink, bind, get_world, ret in Hl. injection Hl as <- <-.
  destruct (k_readlink (st_world s) mp) as [target|]; [|minv H; lia].
  apply bind_some in H. destruct H as [c [s1 [Hc H]]].
  unfold get_ctx in Hc. injection Hc as <- <-.
  destruct (negb _); [minv H; lia|].
  apply bind_some in H. destruct H as [f [s1 [Hf H]]].
  destruct (find_real_partition_dir_pure part 256 s) as [f' Hf'].
  rewrite Hf' in Hf. injection Hf as <- <-.
  destruct f' as [[real_path mod_name]|]; [|minv H; lia].
  apply bind_some in H. destruct H as [[[new_part any]|err] [s2 [Hs H]]];
    [|minv H; lia].
  apply node_scan_dir_size in Hs.
  change (tree_size (node_new part NFT_DIRECTORY)) with 1 in Hs.
  destruct (negb any); [minv H; lia|].
  minv H. rewrite tree_size_append, tree_size_set_module_name.
  pose proof (tree_size_pos sys_child).
  destruct (node_child_detach system part) as [[child system1]|] eqn:Ed.
  - apply tree_size_detach in Ed. pose proof (tree_size_pos child). lia.
  - exfalso. unfold node_child_detach in Ed.
    pose proof (detach_child_first (n_children system) part) as Hd.
    destruct (detach_child (n_children system) part) as [[n cs]|];
      [discriminate|].
    unfold node_child_find in Ef. congruence.
Qed.

Lemma symlink_resolve_each_size fuel parts :
  forall system s system' s',
    symlink_resolve_each fuel system parts s = Some (system', s') ->
    tree_size system' + total_of s <= tree_size system + total_of s'.
Proof.
  induction parts as [|p rest IH]; intros system s system' s' H;
    cbn [symlink_resolve_each] in H.
  - minv H. lia.
  - apply bind_some in H. destruct H as [[rc system1] [s1 [Hp H]]].
    apply symlink_resolve_partition_size in Hp. apply IH in H.
    cbn [snd] in H. lia.
Qed.

Lemma symlink_resolve_all_size fuel system (s s' : St W) system' :
  symlink_resolve_all_partition_links fuel system s = Some (system', s') ->
  tree_size system' + total_of s <= tree_size system + total_of s'.
Proof.
  unfold symlink_resolve_all_partition_links. intros H.
  apply bind_some in H. destruct H as [system1 [s1 [H1 H]]].
  apply symlink_resolve_each_size in H1.
  apply bind_some in H. destruct H as [c [s2 [Hc H]]].
  unfold get_ctx in Hc. injection Hc as <- <-.
  apply symlink_resolve_each_size in H. lia.
Qed.

Lemma partition_promote_to_root_size root system part need
      (s s' : St W) rc root' system' :
  partition_promote_to_root root system part need s
  = Some ((rc, root', system'), s') ->
  s' = s /\
  tree_size root' + tree_size system' = tree_size root + tree_size system.
Proof.
  unfold partition_promote_to_root. intros H.
  destruct (path_join "/" part); [|minv H; split; [reflexivity | lia]].
  destruct (path_join "/system" part); [|minv H; split; [reflexivity | lia]].
  apply bind_some in H. destruct H as [isdir [s1 [Hi H]]].
  rewrite path_is_dir_run in Hi. injection Hi as <- <-.
  destruct (negb _); [minv H; split; [reflexivity | lia]|].
  apply bind_some in H. destruct H as [skip [s1 [Hs H]]].
  assert (s1 = s).
  { destruct need; [|now minv Hs].
    apply bind_some in Hs. destruct Hs as [l [s2 [Hl Hs]]].
    unfold path_is_symlink, lstat, bind, get_world, ret in Hl.
    injection Hl as _ <-. now minv Hs. }
  subst s1. destruct skip; [minv H; split; [reflexivity | lia]|].
  destruct (node_child_detach system part) as [[child system1]|] eqn:Ed;
    minv H; (split; [reflexivity|]); [|lia].
  apply tree_size_detach in Ed. rewrite tree_size_append. lia.
Qed.

Lemma promote_builtin_size parts :
  forall root system s root' system' s',
    promote_builtin root system parts s = Some (Ok (root', system'), s') ->
    s' = s /\
    tree_size root' + tree_size system' = tree_size root + tree_size system.
Proof.
  induction parts as [|[p need] rest IH];
    intros root system s root' system' s' H; cbn [promote_builtin] in H.
  - minv H. split; [reflexivity | lia].
  - apply bind_some in H. destruct H as [[[rc root1] system1] [s1 [Hp H]]].
    apply partition_promote_to_root_size in Hp. destruct Hp as [-> Hsz].
    cbv beta iota in H. destruct (negb (rc =? 0)); [minv H; congruence|].
    apply IH in H. destruct H as [-> H]. split; [reflexivity | lia].
Qed.

Lemma partition_scan_loop_size fuel mdir part entries :
  forall parent has_any s rc parent' s',
    partition_scan_loop fuel mdir part entries parent has_any s
    = Some ((rc, parent'), s') ->
    rc <> -1 ->
    tree_size parent' + total_of s = tree_size parent + total_of s'.
Proof.
  induction entries as [|e rest IH];
    intros parent has_any s rc parent' s' H Hrc;
    cbn [partition_scan_loop] in H.
  - minv H. lia.
  - destruct (String.eqb e "." || String.eqb e "..")%bool;
      [now apply IH in H|].
    apply bind_some in H. destruct H as [m [s1 [Hm H]]].
    destruct (enabled_module_pure mdir e s) as [m' Hm'].
    rewrite Hm' in Hm. injection Hm as <- <-.
    destruct m' as [mod_path|]; [|now apply IH in H].
    destruct (path_join mod_path part) as [part_path|];
      [|now apply IH in H].
    apply bind_some in H. destruct H as [isdir [s1 [Hi H]]].
    rewrite path_is_dir_run in Hi. injection Hi as <- <-.
    destruct (negb _); [now apply IH in H|].
    apply bind_some in H. destruct H as [[[parent1 sub]|err] [s2 [Hs H]]];
      [|minv H; congruence].
    apply node_scan_dir_size in Hs. apply IH in H; [lia | assumption].
Qed.

Lemma partition_scan_from_modules_size fuel part parent
      (s s' : St W) rc parent' :
  partition_scan_from_modules fuel part parent s
  = Some ((rc, parent'), s') ->
  rc <> -1 ->
  tree_size parent' + total_of s = tree_size parent + total_of s'.
Proof.
  unfold partition_scan_from_modules. intros H Hrc.
  apply bind_some in H. destruct H as [d [s1 [Hd H]]].
  assert (s1 = s).
  { unfold open_module_dir in Hd. apply bind_some in Hd.
    destruct Hd as [c [s2 [Hc Hd]]]. unfold get_ctx in Hc.
    injection Hc as <- <-. destruct (module_dir (st_ctx s));
      [now apply opendir_run in Hd | now minv Hd]. }
  subst s1. destruct d as [ds|]; [|minv H; congruence].
  apply bind_some in H. destruct H as [mdir [s1 [Hm H]]].
  unfold ctx_module_dir, bind, get_ctx, ret in Hm. injection Hm as <- <-.
  now apply partition_scan_loop_size in H.
Qed.

Lemma attach_extra_parts_size fuel names :
  forall root s root' s',
    attach_extra_parts fuel root names s = Some (Ok root', s') ->
    tree_size root' + total_of s
    <= tree_size root + total_of s' + Z.of_nat (length names).
Proof.
  induction names as [|name rest IH]; intros root s root' s' H;
    cbn [attach_extra_parts] in H.
  - minv H. cbn. lia.
  - cbn [length]. rewrite Nat2Z.inj_succ.
    destruct (path_join "/" name);
      [|apply IH in H; lia].
    apply bind_some in H. destruct H as [isdir [s1 [Hi H]]].
    rewrite path_is_dir_run in Hi. injection Hi as <- <-.
    destruct (negb _); [apply IH in H; lia|].
    apply bind_some in H. destruct H as [[rc child] [s1 [Hp H]]].
    cbv beta iota in H.
    destruct (Z.eqb_spec rc 0) as [E0|E0].
    + apply partition_scan_from_modules_size in Hp; [|lia].
      change (tree_size (node_new name NFT_DIRECTORY)) with 1 in Hp.
      apply IH in H. rewrite tree_size_append in H. lia.
    + destruct (Z.eqb_spec rc 1) as [E1|E1]; [|minv H; congruence].
      apply partition_scan_from_modules_size in Hp; [|lia].
      apply IH in H. pose proof (tree_size_pos child).
      change (tree_size (node_new name NFT_DIRECTORY)) with 1 in Hp. lia.
Qed.

Lemma build_mount_tree_size_le (fuel : nat) (s s' : St W) (root : Node) :
  build_mount_tree fuel s = Some (Some root, s') ->
  tree_size root
  <= total_of s' - total_of s
     + Z.of_nat (length (extra_parts (st_ctx s))).
Proof.
  unfold build_mount_tree. intros H.
  apply bind_some in H. destruct H as [c [s1 [Hc H]]].
  unfold get_ctx in Hc. injection Hc as <- <-.
  apply bind_some in H. destruct H as [d [s1 [Hd H]]].
  apply opendir_run in Hd. destruct Hd as [-> ->].
  destruct (k_opendir _ _) as [ds|]; [|minv H; congruence].
  apply bind_some in H. destruct H as [[[system has_any]|err] [s1 [Hm H]]];
    [|minv H; congruence].
  assert (Hextra : extra_parts (st_ctx s1) = extra_parts (st_ctx s)).
  { assert (Hb : builder_frame s s1).
    { eapply (keeps_collect_modules builder_frame); try exact Hm; bf. }
    destruct Hb as (_ & _ & _ & (_ & _ & He & _) & _). exact He. }
  apply collect_modules_size in Hm.
  change (tree_size (node_new "system" NFT_DIRECTORY)) with 1 in Hm.
  destruct (negb has_any); [minv H; congruence|].
  apply bind_some in H. destruct H as [u [s2 [Hcount H]]].
  assert (Ht2 : total_of s2 = total_of s1 + 2 /\
                extra_parts (st_ctx s2) = extra_parts (st_ctx s1)).
  { unfold count_root_and_system, set_stats, bind, get_ctx, set_ctx in Hcount.
    injection Hcount as _ <-. split; reflexivity. }
  destruct Ht2 as [Ht2 He2].
  apply bind_some in H. destruct H as [system1 [s3 [Hr H]]].
  assert (He3 : extra_parts (st_ctx s3) = extra_parts (st_ctx s2)).
  { assert (Hb : builder_frame s2 s3).
    { eapply (keeps_symlink_resolve_all builder_frame); try exact Hr; bf. }
    destruct Hb as (_ & _ & _ & (_ & _ & He & _) & _). exact He. }
  apply symlink_resolve_all_size in Hr.
  apply bind_some in H. destruct H as [[[root1 system2]|err] [s4 [Hp H]]];
    [|minv H; congruence].
  apply promote_builtin_size in Hp. destruct Hp as [-> Hp].
  change (tree_size (node_new "" NFT_DIRECTORY)) with 1 in Hp.
  apply bind_some in H. destruct H as [c [s4 [Hc H]]].
  unfold get_ctx in Hc. injection Hc as <- <-.
  apply bind_some in H. destruct H as [[root2|err] [s5 [Ha H]]];
    [|minv H; congruence].
  apply attach_extra_parts_size in Ha.
  minv H. rewrite tree_size_append.
  rewrite He3, He2, Hextra in Ha. lia.
Qed.

(** X18. The tree that the builder returns has at most as many nodes as the
    builder added to [nodes_total], plus one for each registered extra
    partition: the node of an extra partition is put into the tree
    without being counted. *)
Theorem build_mount_tree_size (fuel : nat) (s s' : St W) (root : Node) :
  build_mount_tree fuel s = Some (Some root, s') ->
  tree_size root
  <= total_of s' - total_of s
     + Z.of_nat (length (extra_parts (st_ctx s))).
Proof. apply build_mount_tree_size_le. Qed.

End BuilderSize.

(** ** The counters of a whole run *)

Section RunCounts.
Import ModuleTree Apply Utils Words.
Context {W : Type} {K : Kernel W}.
Hypothesis Hcalls : calls_keep_listings W.

Lemma magic_mount_counts_le (fuel : nat) (tmp_root : string)
      (s s' : St W) (r : Res Z) :
  listings_distinct (st_world s) ->
  magic_mount fuel tmp_root s = Some (r, s') ->
  counted (stats (st_ctx s')) + total_of s
  <= counted (stats (st_ctx s)) + total_of s'
     + Z.of_nat (length (extra_parts (st_ctx s))).
Proof.
  intros Hl H. unfold magic_mount in H.
  apply bind_some in H. destruct H as [b [s1 [Hb H]]].
  assert (Hframe : builder_frame s s1).
  { eapply (keeps_build_mount_tree builder_frame); try exact Hb;
      first [ exact builder_frame_refl | exact builder_frame_trans
            | exact builder_frame_log | exact builder_frame_count_module
            | exact builder_frame_count_root
            | exact builder_frame_count_node ]. }
  destruct Hframe as (Fw & _ & _ & _ & _ & F1 & F2 & F3 & F4 & _ & Ft).
  assert (Hcnt : counted (stats (st_ctx s1)) = counted (stats (st_ctx s)))
    by (unfold counted; lia).
  assert (Hl1 : listings_distinct (st_world s1)) by now rewrite Fw.
  assert (Hn : 0 <= Z.of_nat (length (extra_parts (st_ctx s)))) by lia.
  unfold total_of in *.
  destruct b as [root|].
  2:{ apply bind_some in H. destruct H as [u [s2 [HL H]]].
      apply context_kept_log in HL. destruct HL as [Hc _].
      minv H. rewrite Hc. lia. }
  apply build_mount_tree_size_le in Hb. unfold total_of in Hb.
  pose proof (tree_size_pos root) as Hpos.
  destruct (path_join tmp_root "workdir") as [tmp_dir|]; [|minv H; lia].
  apply bind_some in H. destruct H as [m [s2 [Hm H]]].
  apply (ck_mkdir_p Hcalls) in Hm. destruct Hm as [Hc2 Hl2].
  specialize (Hl2 Hl1). destruct m as [u|e]; [|minv H; rewrite Hc2; lia].
  apply bind_some in H. destruct H as [c [s3 [Hc H]]].
  unfold get_ctx in Hc. injection Hc as <- <-.
  apply bind_some in H. destruct H as [mt [s3 [Hmt H]]].
  apply (ck_mount Hcalls) in Hmt. destruct Hmt as [Hc3 Hl3].
  specialize (Hl3 Hl2).
  destruct mt as [u'|e]; [|minv H; rewrite Hc3, Hc2; lia].
  apply bind_some in H. destruct H as [mp [s4 [Hmp H]]].
  apply (ck_mount Hcalls) in Hmp. destruct Hmp as [Hc4 Hl4].
  specialize (Hl4 Hl3).
  apply bind_some in H. destruct H as [[res root'] [s5 [Ha H]]].
  pose proof (mm_apply_node_recursive_bound Hcalls _ _ _ _ _ _ _ _ _ Hl4 Ha)
    as (Hl5 & _ & Hbound).
  assert (Htot5 : nodes_total (stats (st_ctx s5))
                  = nodes_total (stats (st_ctx s4))).
  { assert (Hf : applier_frame s4 s5).
    { eapply (keeps_mm_apply_node_recursive applier_frame); try exact Ha;
        first [ exact applier_frame_refl | exact applier_frame_trans
              | exact applier_frame_log
              | exact (fun c _ => applier_frame_call c)
              | exact (fun path s _ => applier_frame_ksu path s)
              | exact applier_frame_count_mounted
              | exact applier_frame_count_whiteout
              | exact applier_frame_count_fail
              | exact applier_frame_mark_failed ]. }
    destruct Hf as (_ & _ & Ht). exact Ht. }
  rewrite Hc4, Hc3, Hc2 in Hbound, Htot5.
  apply bind_some in H. destruct H as [rc [s6 [Hrc H]]].
  assert (H6 : st_world s6 = st_world s5 /\
               nodes_total (stats (st_ctx s6))
               = nodes_total (stats (st_ctx s5)) /\
               counted (stats (st_ctx s6)) + total_of s
               <= counted (stats (st_ctx s)) + total_of s6
                  + Z.of_nat (length (extra_parts (st_ctx s)))).
  { unfold total_of. cbn [fst] in Hrc. destruct res as [u5|e5];
      cbn [error_cost] in Hbound.
    - minv Hrc. repeat split; lia.
    - apply bind_some in Hrc. destruct Hrc as [u6 [s7 [Hf Hrc]]].
      assert (Ht7 : nodes_total (stats (st_ctx s7))
                    = nodes_total (stats (st_ctx s5))).
      { unfold count_fail, set_stats, bind, get_ctx, set_ctx in Hf.
        now injection Hf as _ <-. }
      apply (count_fail_step) in Hf. destruct Hf as [Hw7 Hc7].
      minv Hrc. repeat split; try assumption; lia. }
  destruct H6 as (Hw6 & Ht6 & Hc6). unfold total_of in Hc6.
  assert (Hl6 : listings_distinct (st_world s6)) by now rewrite Hw6.
  apply bind_some in H. destruct H as [um [s7 [Hu H]]].
  apply (context_kept_call Hcalls) in Hu. destruct Hu as [Hc7 _].
  apply bind_some in H. destruct H as [u8 [s8 [Hlog H]]].
  assert (Hc8 : st_ctx s8 = st_ctx s7).
  { destruct um; [now minv Hlog|].
    apply context_kept_log in Hlog. exact (proj1 Hlog). }
  apply bind_some in H. destruct H as [rm [s9 [Hrm H]]].
  apply (context_kept_call Hcalls) in Hrm. destruct Hrm as [Hc9 _].
  minv H. rewrite Hc9, Hc8, Hc7. lia.
Qed.

(** X19. In a run of [magic_mount] the counters of mounted nodes, whiteouts,
    skipped nodes and failures grow together by at most what
    [nodes_total] grows by, plus one for each registered extra
    partition. With no extra partition registered the four counters
    stay within [nodes_total] if they were within it at the start. This
    holds when no directory listing holds a name twice, before and
    after every call. *)
Theorem magic_mount_counts (fuel : nat) (tmp_root : string)
        (s s' : St W) (r : Res Z) :
  listings_distinct (st_world s) ->
  magic_mount fuel tmp_root s = Some (r, s') ->
  counted (stats (st_ctx s')) - counted (stats (st_ctx s))
  <= total_of s' - total_of s
     + Z.of_nat (length (extra_parts (st_ctx s))) /\
  (extra_parts (st_ctx s) = [] ->
   counted_within_total (stats (st_ctx s)) ->
   counted_within_total (stats (st_ctx s'))).
Proof.
  intros Hl H. pose proof (magic_mount_counts_le _ _ _ _ _ Hl H) as Hle.
  split; [lia|]. intros He. rewrite He in Hle. cbn in Hle.
  unfold counted_within_total, counted, total_of in *. lia.
Qed.

End RunCounts.
(** ** The small file system *)

Section SimListings.
Import Sim Words.

Lemma distinct_NoDup (l : list string) : distinct l = true -> NoDup l.
Proof.
  induction l as [|x l IH]; cbn [distinct]; [constructor|].
  intros H. apply andb_true_iff in H as [Hx Hl].
  constructor; [|now apply IH].
  intros Hin. apply mem_In in Hin. now rewrite Hin in Hx.
Qed.

Lemma tidy_dir (d : list (string * FsObj)) :
  tidy (FsDir d) = true ->
  distinct ("." :: ".." :: map fst d) = true /\
  forall name o, In (name, o) d -> tidy o = true.
Proof.
  cbn [tidy]. intros H. apply andb_true_iff in H as [Hd Hall].
  split; [assumption|]. clear Hd.
  induction d as [|[n o'] d IH]; [intros ? ? []|].
  apply andb_true_iff in Hall as [Ho Hrest].
  intros name o [[= <- <-]|Hin]; [assumption|].
  eapply IH; eassumption.
Qed.

Lemma assoc_In {A} (k : string) (l : list (string * A)) (v : A) :
  assoc k l = Some v -> exists k', In (k', v) l.
Proof.
  induction l as [|[k' v'] l IH]; cbn [assoc]; [discriminate|].
  destruct (String.eqb k k').
  - intros [= <-]. exists k'. now left.
  - intros H. destruct (IH H) as [k0 Hk]. exists k0. now right.
Qed.

Lemma walk_tidy (comps : list string) :
  forall d o, tidy (FsDir d) = true -> walk d comps = Some o ->
              tidy o = true.
Proof.
  induction comps as [|c rest IH]; intros d o Ht; cbn [walk].
  - now intros [= <-].
  - destruct (assoc c d) as [o'|] eqn:Ea; [|discriminate].
    destruct (assoc_In _ _ _ Ea) as [k Hk].
    pose proof (proj2 (tidy_dir d Ht) k o' Hk) as Ho'.
    destruct o'; try (destruct rest; [intros [= <-]; assumption | discriminate]).
    now apply IH.
Qed.

Lemma follow_tidy (w : World) (hops : nat) :
  tidy_world w = true ->
  forall o o', tidy o = true -> follow w hops o = Some o' -> tidy o' = true.
Proof.
  intros Hw. induction hops as [|hops IH]; intros o o' Ho;
    destruct o; cbn [follow]; try (now intros [= <-]); try discriminate.
  destruct (Str.starts_with "/" target); [|discriminate].
  destruct (lookup w target) as [o1|] eqn:El; [|discriminate].
  apply IH. eapply walk_tidy; [exact Hw | exact El].
Qed.

(** In a tidy file system no listing holds a name twice, and the calls
    keep it so: they leave the tree as it is. *)
Lemma tidy_listings (w : World) :
  tidy_world w = true -> listings_distinct w.
Proof.
  intros Hw p ds. cbn [k_opendir sim_kernel]. unfold sim_opendir, resolve.
  destruct (lookup w p) as [o|] eqn:El; [|discriminate].
  pose proof (walk_tidy _ _ _ Hw El) as Ho.
  destruct (follow w 8 o) as [o'|] eqn:Ef; [|discriminate].
  pose proof (follow_tidy w 8 Hw _ _ Ho Ef) as Ho'.
  destruct o'; try discriminate. intros [= <-]. cbn [ds_entries].
  apply distinct_NoDup. exact (proj1 (tidy_dir _ Ho')).
Qed.

Lemma sim_calls_keep_listings : calls_keep_listings World.
Proof.
  split.
  - intros w c Hl. cbn [k_call sim_kernel]. unfold sim_call.
    destruct c; try exact Hl. destruct (Str.mem _ _); exact Hl.
  - intros w Hl. exact Hl.
Qed.

End SimListings.

(** ** Runs on the small file system *)

Lemma build_mount_tree_only_reads_run :
  match ModuleTree.build_mount_tree 8
          (init_state Scenario.extra_world
                      (Scenario.ctx_with_extras ["mi_ext"])) with
  | Some (_, s') =>
      Words.builder_frame
        (init_state Scenario.extra_world (Scenario.ctx_with_extras ["mi_ext"]))
        s' /\ st_trace s' = []
  | None => False
  end.
Proof.
  destruct (ModuleTree.build_mount_tree 8 _) as [[r s']|] eqn:E.
  - pose proof (build_mount_tree_only_reads _ _ _ _ E) as H.
    split; [exact H|]. exact (proj1 (proj2 H)).
  - vm_compute in E. discriminate.
Defined.

Lemma magic_mount_without_ksu_run :
  match Apply.magic_mount 8 "/dev/.magic_mount"
          (init_state Scenario.swap_world Scenario.ctx_no_umount) with
  | Some (_, s') =>
      st_ksu_fd s' = None /\
      filter Words.is_ksu_event (st_trace s') = []
  | None => False
  end.
Proof.
  destruct (Apply.magic_mount 8 _ _) as [[r s']|] eqn:E.
  - destruct (magic_mount_without_ksu 8 "/dev/.magic_mount"
                (init_state Scenario.swap_world Scenario.ctx_no_umount)
                s' r eq_refl E)
      as (_ & Hfd & evs & Ht & Hno).
    split; [exact Hfd|]. rewrite Ht. cbn [st_trace init_state app].
    clear -Hno. induction evs as [|e evs IH]; [reflexivity|].
    cbn [forallb] in Hno. apply andb_true_iff in Hno as [He Hno].
    cbn [filter]. apply negb_true_iff in He. rewrite He. now apply IH.
  - vm_compute in E. discriminate.
Defined.

Lemma mm_apply_node_recursive_frame_run :
  match Apply.mm_apply_node_recursive 4 "/" "/dev/.magic_mount/workdir"
          Scenario.system_node false
          (init_state Scenario.failing_world magic_mount_init) with
  | Some (_, s') =>
      Words.applier_frame
        (init_state Scenario.failing_world magic_mount_init) s' /\
      nodes_total (stats (st_ctx s')) = 0
  | None => False
  end.
Proof.
  destruct (Apply.mm_apply_node_recursive 4 _ _ _ _ _) as [[[r n] s']|] eqn:E.
  - pose proof (mm_apply_node_recursive_frame _ _ _ _ _ _ _ _ _ E) as H.
    split; [exact H|]. exact (proj2 (proj2 H)).
  - vm_compute in E. discriminate.
Defined.

Lemma magic_mount_frame_run :
  match Apply.magic_mount 8 "/dev/.magic_mount"
          (init_state Scenario.failing_world magic_mount_init) with
  | Some (_, s') =>
      Words.run_frame (init_state Scenario.failing_world magic_mount_init) s' /\
      nodes_skipped (stats (st_ctx s')) = 0
  | None => False
  end.
Proof.
  destruct (Apply.magic_mount 8 _ _) as [[r s']|] eqn:E.
  - pose proof (magic_mount_frame _ _ _ _ _ E) as H.
    split; [exact H|]. exact (proj1 (proj2 H)).
  - vm_compute in E. discriminate.
Defined.

Lemma mm_apply_node_recursive_counts_run :
  match Apply.mm_apply_node_recursive 4 "/" "/dev/.magic_mount/workdir"
          Scenario.system_node false
          (init_state Scenario.failing_world magic_mount_init) with
  | Some ((r, _), s') =>
      Words.counted (stats (st_ctx s')) + Words.error_cost r <= 3
  | None => False
  end.
Proof.
  destruct (Apply.mm_apply_node_recursive 4 _ _ _ _ _) as [[[r n] s']|] eqn:E.
  - assert (Hl : Words.listings_distinct
                   (st_world (init_state Scenario.failing_world
                                         magic_mount_init)))
      by (apply tidy_listings; reflexivity).
    exact (proj1 (mm_apply_node_recursive_counts sim_calls_keep_listings
                    _ _ _ _ _ _ _ _ _ Hl E)).
  - vm_compute in E. discriminate.
Defined.

Lemma build_mount_tree_size_run :
  match ModuleTree.build_mount_tree 8
          (init_state Scenario.extra_world
                      (Scenario.ctx_with_extras ["mi_ext"])) with
  | Some (Some root, s') => Words.tree_size root <= Words.total_of s' + 1
  | _ => False
  end.
Proof.
  destruct (ModuleTree.build_mount_tree 8 _) as [[[root|] s']|] eqn:E.
  - pose proof (build_mount_tree_size _ _ _ _ E) as H.
    change (Words.total_of (init_state Scenario.extra_world
                              (Scenario.ctx_with_extras ["mi_ext"])))
      with 0 in H.
    change (Z.of_nat (length (extra_parts (st_ctx
              (init_state Scenario.extra_world
                          (Scenario.ctx_with_extras ["mi_ext"]))))))
      with 1 in H.
    lia.
  - vm_compute in E. discriminate.
  - vm_compute in E. discriminate.
Defined.

Lemma magic_mount_counts_run :
  match Apply.magic_mount 8 "/dev/.magic_mount"
          (init_state Scenario.swap_world magic_mount_init) with
  | Some (_, s') => Words.counted_within_total (stats (st_ctx s'))
  | None => False
  end.
Proof.
  destruct (Apply.magic_mount 8 _ _) as [[r s']|] eqn:E.
  - assert (Hl : Words.listings_distinct
                   (st_world (init_state Scenario.swap_world magic_mount_init)))
      by (apply tidy_listings; reflexivity).
    apply (proj2 (magic_mount_counts sim_calls_keep_listings
                    _ _ _ _ _ Hl E)).
    + reflexivity.
    + unfold Words.counted_within_total. cbn. lia.
  - vm_compute in E. discriminate.
Defined.

Lemma build_mount_tree_unique_names_run :
  match ModuleTree.build_mount_tree 8
          (init_state Scenario.extra_world
                      (Scenario.ctx_with_extras ["mi_ext"])) with
  | Some (Some root, _) =>
      Words.unique_names root /\
      Words.child_names root = ["mi_ext"; "system"]
  | _ => False
  end.
Proof.
  destruct (ModuleTree.build_mount_tree 8 _) as [[[root|] s']|] eqn:E.
  - split.
    + assert (Hnd : NoDup ["mi_ext"])
        by (constructor; [intros [] | constructor]).
      assert (Hres : forall n,
                 In n ["vendor"; "system_ext"; "product"; "odm"; "system"] ->
                 ~ In n ["mi_ext"]).
      { intros n Hn [<-|[]]. cbn in Hn. intuition discriminate. }
      exact (build_mount_tree_unique_names 8
               (init_state Scenario.extra_world
                           (Scenario.ctx_with_extras ["mi_ext"]))
               s' root Hnd Hres E).
    + vm_compute in E. now injection E as <- _.
  - vm_compute in E. discriminate.
  - vm_compute in E. discriminate.
Defined.
(** ** Directories that cannot become a tmpfs *)

Section NeedTmpfs.
Import ModuleTree Apply Utils Words.
Context {W : Type} {K : Kernel W}.

Lemma check_need_tmpfs_loop_no_module path :
  forall cs s b cs' s',
    check_need_tmpfs_loop false path cs s = Some ((b, cs'), s') ->
    b = false /\
    Forall2 (fun c c' => c' = c \/ c' = set_skip c true) cs cs'.
Proof.
  induction cs as [|c cs IH]; intros s b cs' s' H;
    cbn [check_need_tmpfs_loop] in H; minv H;
    repeat match goal with
           | Hr : check_need_tmpfs_loop _ _ _ _ = Some (?p, _) |- _ =>
               is_var p; destruct p
           | Hr : check_need_tmpfs_loop _ _ _ _ = Some ((_, _), _) |- _ =>
               apply IH in Hr; destruct Hr
           end;
    cbn [fst snd] in *; try discriminate;
    try (split; [ first [assumption | reflexivity]
                | constructor;
                  [first [now left | now right] | assumption]]).
  split; [reflexivity | constructor].
Qed.

(** X21. For a node that no module directory stands behind (the root, the
    [system] node), [mm_check_need_tmpfs] never asks for a tmpfs: the
    children that would need one are marked [skip], and nothing else
    of the node changes. *)
Theorem mm_check_need_tmpfs_no_module (node node' : Node) (path : string)
        (b : bool) (s s' : St W) :
  n_module_path node = None ->
  mm_check_need_tmpfs node path s = Some ((b, node'), s') ->
  b = false /\
  node' = set_children node (n_children node') /\
  Forall2 (fun c c' => c' = c \/ c' = set_skip c true)
          (n_children node) (n_children node') /\
  st_ctx s' = st_ctx s /\ st_trace s' = st_trace s.
Proof.
  intros Hmp H.
  assert (Hq : quiet s s' /\ st_trace s' = st_trace s).
  { assert (Hk : keeps (fun a b : St W => st_ctx b = st_ctx a /\
                                          st_trace b = st_trace a)
                       (mm_check_need_tmpfs node path)).
    { apply keeps_mm_check_need_tmpfs.
      - now intros.
      - intros a0 b0 c0 [A1 A2] [B1 B2]. split; congruence.
      - intros lv msg s0 a s1 E. injection E as _ <-. now split. }
    destruct (Hk _ _ _ H) as [Hc Ht]. split; [|assumption].
    split; [assumption | now rewrite Ht]. }
  destruct Hq as [[Hc _] Ht].
  unfold mm_check_need_tmpfs in H. rewrite Hmp in H.
  apply bind_some in H. destruct H as [[b0 cs0] [s1 [Hr H]]].
  apply check_need_tmpfs_loop_no_module in Hr. destruct Hr as [-> Hf].
  minv H. cbn [fst snd set_children n_children].
  repeat split; assumption.
Qed.

End NeedTmpfs.

Lemma mm_check_need_tmpfs_no_module_run :
  match Apply.mm_check_need_tmpfs
          (ModuleTree.mkNode "etc" ModuleTree.NFT_DIRECTORY
             [ModuleTree.mkNode "hosts" ModuleTree.NFT_SYMLINK []
                (Some "/data/adb/modules/modA/system/etc/hosts")
                (Some "modA") false false false]
             None None false false false)
          "/system/etc"
          (init_state Scenario.swap_world magic_mount_init) with
  | Some ((b, node'), _) =>
      b = false /\ map ModuleTree.n_skip (ModuleTree.n_children node') = [true]
  | None => False
  end.
Proof.
  destruct (Apply.mm_check_need_tmpfs _ _ _) as [[[b node'] s']|] eqn:E.
  - split.
    + refine (proj1 (mm_check_need_tmpfs_no_module _ _ _ _ _ _ _ E)).
      reflexivity.
    + vm_compute in E. now injection E as _ <- _.
  - vm_compute in E. discriminate.
Defined.

(** ** The end of a run *)

Section RunEnd.
Import ModuleTree Apply Utils Words.
Context {W : Type} {K : Kernel W}.

Lemma trace_grows_refl (s : St W) : trace_grows s s.
Proof. exists []. now rewrite app_nil_r. Qed.

Lemma trace_grows_trans (a b c : St W) :
  trace_grows a b -> trace_grows b c -> trace_grows a c.
Proof.
  intros [e1 H1] [e2 H2]. exists (e1 ++ e2)%list.
  now rewrite H2, H1, app_assoc.
Qed.

Lemma trace_grows_same (s s' : St W) :
  st_trace s' = st_trace s -> trace_grows s s'.
Proof. intros E. exists []. now rewrite app_nil_r. Qed.

Lemma trace_grows_call c : keeps (W := W) trace_grows (call c).
Proof.
  intros s a s'. unfold call. destruct (k_call _ _) as [w' r].
  intros [= _ <-]. now exists [EvSys c].
Qed.

Local Ltac same :=
  intros s a s';
  cbv [count_mounted count_whiteout count_fail module_mark_failed
       set_stats bind get_ctx set_ctx LOG ret];
  repeat match goal with
         | |- context [if ?b then _ else _] => destruct b
         end;
  intros E; injection E as _ <-; now apply trace_grows_same.

Lemma trace_grows_log lv msg : keeps (W := W) trace_grows (LOG lv msg).
Proof. same. Qed.
Lemma trace_grows_count_mounted : keeps (W := W) trace_grows count_mounted.
Proof. same. Qed.
Lemma trace_grows_count_whiteout : keeps (W := W) trace_grows count_whiteout.
Proof. same. Qed.
Lemma trace_grows_count_fail : keeps (W := W) trace_grows count_fail.
Proof. same. Qed.
Lemma trace_grows_mark_failed m :
  keeps (W := W) trace_grows (module_mark_failed m).
Proof. same. Qed.

Lemma trace_grows_ksu path (s : St W) :
  keeps_at trace_grows (Ksu.ksu_send_unmountable path) s.
Proof.
  intros a s' H. unfold Ksu.ksu_send_unmountable in H.
  apply bind_some in H. destruct H as [u [s1 [He H]]].
  injection He as _ <-.
  apply bind_some in H. destruct H as [fd [s2 [Hg H]]].
  assert (Hg' : trace_grows
                  (mkSt (st_world s) (st_ctx s)
                        (st_trace s ++ [EvMarkUnmountable path])
                        (st_log s) (st_ksu_fd s)) s2).
  { revert Hg. unfold Ksu.ksuGrabFd. cbn [st_ksu_fd].
    destruct (st_ksu_fd s); [intros [= _ <-]; apply trace_grows_refl|].
    unfold bind, Ksu.ksuGrabFdOnce. cbn [st_world].
    destruct (k_ksu_install (st_world s)) as [w' [result fd0]].
    destruct (negb (result =? 0));
      cbv [bind LOG Ksu.set_driver_fd];
      cbn [st_world st_ctx st_trace st_log st_ksu_fd];
      intros [= _ <-]; now exists [EvKsuInstall]. }
  assert (H0 : trace_grows s s2).
  { eapply trace_grows_trans; [|exact Hg']. now exists [EvMarkUnmountable path]. }
  eapply trace_grows_trans; [exact H0|].
  destruct (fd <? 0); [minv H; apply trace_grows_refl|].
  apply bind_some in H. destruct H as [rc [s3 [Hc H]]].
  apply trace_grows_call in Hc.
  eapply trace_grows_trans; [exact Hc|].
  destruct rc; minv H; [apply trace_grows_refl|].
  match goal with HL : LOG _ _ _ = Some _ |- _ =>
    apply trace_grows_log in HL; exact HL end.
Qed.

(** X22. A run of [magic_mount] that returns a code either has made no call
    at all (no module had content, or the workdir path is too long), or
    ends by detaching the workdir and removing its directory, whatever
    the applier did and returned. A run that returns an error has
    stopped before the applier: its calls were the [mkdir] of the
    workdir path and at most the mount of the tmpfs, and it has not
    removed what it created. *)
Theorem magic_mount_cleans_up (fuel : nat) (tmp_root : string)
        (s s' : St W) (r : Res Z) :
  magic_mount fuel tmp_root s = Some (r, s') ->
  match r with
  | Ok rc =>
      st_trace s' = st_trace s \/
      exists tmp_dir middle,
        path_join tmp_root "workdir" = Ok tmp_dir /\
        st_trace s'
        = (st_trace s ++ middle
             ++ [EvSys (SysUmount2 tmp_dir MNT_DETACH);
                 EvSys (SysRmdir tmp_dir)])%list
  | Err e =>
      exists tmp_dir ps,
        path_join tmp_root "workdir" = Ok tmp_dir /\
        Forall (fun p => Str.starts_with p tmp_dir = true) ps /\
        (st_trace s' = (st_trace s ++ map mkdir_event ps)%list \/
         st_trace s'
         = (st_trace s ++ map mkdir_event ps
              ++ [EvSys (SysMount (Some (mount_source (st_ctx s))) tmp_dir
                                  (Some "tmpfs") 0)])%list)
  end.
Proof.
  intros H. unfold magic_mount in H.
  apply bind_some in H. destruct H as [b [s1 [Hb H]]].
  assert (Hframe : builder_frame s s1).
  { eapply (keeps_build_mount_tree builder_frame); try exact Hb;
      first [ exact builder_frame_refl | exact builder_frame_trans
            | exact builder_frame_log | exact builder_frame_count_module
            | exact builder_frame_count_root
            | exact builder_frame_count_node ]. }
  destruct Hframe as (_ & Ht1 & _ & (_ & Hsrc & _ & _) & _).
  destruct b as [root|].
  2:{ apply bind_some in H. destruct H as [u [s2 [HL H]]].
      injection HL as _ <-. minv H. left. exact Ht1. }
  destruct (path_join tmp_root "workdir") as [tmp_dir|]; [|minv H; now left].
  apply bind_some in H. destruct H as [m [s2 [Hm H]]].
  destruct (mkdir_p_calls tmp_dir s1) as
    (r2 & s2' & ps & Em & Hc2 & _ & Ht2 & Hps & _).
  rewrite Em in Hm. injection Hm as <- <-.
  rewrite Ht1 in Ht2.
  destruct r2 as [u|e].
  2:{ minv H. exists tmp_dir, ps. split; [reflexivity|].
      split; [assumption | now left]. }
  apply bind_some in H. destruct H as [c [s3 [Hc H]]].
  unfold get_ctx in Hc. injection Hc as <- <-.
  apply bind_some in H. destruct H as [mt [s3 [Hmt H]]].
  assert (Ht3 : st_trace s3
                = (st_trace s2'
                     ++ [EvSys (SysMount (Some (mount_source (st_ctx s)))
                                         tmp_dir (Some "tmpfs") 0)])%list).
  { unfold mount, call in Hmt. destruct (k_call _ _) as [w' r'].
    injection Hmt as _ <-. cbn [st_trace]. now rewrite Hc2, Hsrc. }
  destruct mt as [u'|e].
  2:{ minv H. exists tmp_dir, ps. split; [reflexivity|].
      split; [assumption|]. right. rewrite Ht3, Ht2.
      now rewrite <- app_assoc. }
  apply bind_some in H. destruct H as [mp [s4 [Hmp H]]].
  apply trace_grows_call in Hmp.
  apply bind_some in H. destruct H as [[res root'] [s5 [Ha H]]].
  assert (Hg5 : trace_grows s4 s5).
  { eapply (keeps_mm_apply_node_recursive trace_grows); try exact Ha;
      first [ exact trace_grows_refl | exact trace_grows_trans
            | exact trace_grows_log | exact (fun c _ => trace_grows_call c)
            | exact (fun path s _ => trace_grows_ksu path s)
            | exact trace_grows_count_mounted
            | exact trace_grows_count_whiteout
            | exact trace_grows_count_fail
            | exact trace_grows_mark_failed ]. }
  apply bind_some in H. destruct H as [rc [s6 [Hrc H]]].
  assert (Ht6 : st_trace s6 = st_trace s5).
  { cbn [fst] in Hrc. destruct res; [now minv Hrc|].
    apply bind_some in Hrc. destruct Hrc as [u6 [s7 [Hf Hrc]]].
    injection Hf as _ <-. now minv Hrc. }
  apply bind_some in H. destruct H as [um [s7 [Hu H]]].
  assert (Ht7 : st_trace s7
                = (st_trace s6 ++ [EvSys (SysUmount2 tmp_dir MNT_DETACH)])%list).
  { unfold call in Hu. destruct (k_call _ _) as [w' r'].
    now injection Hu as _ <-. }
  apply bind_some in H. destruct H as [u8 [s8 [Hlog H]]].
  assert (Ht8 : st_trace s8 = st_trace s7).
  { destruct um; [now minv Hlog | now injection Hlog as _ <-]. }
  apply bind_some in H. destruct H as [rm [s9 [Hrm H]]].
  assert (Ht9 : st_trace s9
                = (st_trace s8 ++ [EvSys (SysRmdir tmp_dir)])%list).
  { unfold call in Hrm. destruct (k_call _ _) as [w' r'].
    now injection Hrm as _ <-. }
  minv H. right. destruct Hmp as [e4 He4]. destruct Hg5 as [e5 He5].
  exists tmp_dir.
  exists (map mkdir_event ps
            ++ [EvSys (SysMount (Some (mount_source (st_ctx s))) tmp_dir
                                (Some "tmpfs") 0)]
            ++ e4 ++ e5)%list.
  split; [reflexivity|].
  rewrite Ht9, Ht8, Ht7, Ht6, He5, He4, Ht3, Ht2.
  repeat rewrite <- app_assoc. reflexivity.
Qed.

End RunEnd.

Lemma magic_mount_cleans_up_run :
  match Apply.magic_mount 8 "/dev/.magic_mount"
          (init_state Scenario.failing_world magic_mount_init) with
  | Some (Ok rc, s') =>
      rc = 0 /\
      exists middle,
        st_trace s'
        = (middle
             ++ [EvSys (SysUmount2 "/dev/.magic_mount/workdir" MNT_DETACH);
                 EvSys (SysRmdir "/dev/.magic_mount/workdir")])%list
  | _ => False
  end.
Proof.
  destruct (Apply.magic_mount 8 _ _) as [[[rc|e] s']|] eqn:E.
  - split; [vm_compute in E; now injection E as <- _|].
    destruct (magic_mount_cleans_up _ _ _ _ _ E)
      as [Hsame | (tmp_dir & middle & Hj & Ht)].
    + exfalso. vm_compute in E. injection E as _ <-. discriminate.
    + injection Hj as <-. exists middle. exact Ht.
  - vm_compute in E. discriminate.
  - vm_compute in E. discriminate.
Defined.
(** ** Mirroring stays in the workdir *)

Section Mirror.
Import ModuleTree Apply Utils Words.
Context {W : Type} {K : Kernel W}.

Lemma starts_with_app (a b : string) : Str.starts_with a (a ++ b) = true.
Proof.
  induction a as [|c a IH]; simpl; [reflexivity|].
  now rewrite Ascii.eqb_refl, IH.
Qed.

Lemma starts_with_trans (a b c : string) :
  Str.starts_with a b = true -> Str.starts_with b c = true ->
  Str.starts_with a c = true.
Proof.
  revert b c. induction a as [|x a IH]; intros [|y b] [|z c]; simpl;
    try discriminate; try reflexivity.
  intros H1 H2. apply andb_true_iff in H1 as [Hxy Hab].
  apply andb_true_iff in H2 as [Hyz Hbc].
  apply Ascii.eqb_eq in Hxy, Hyz. subst. rewrite Ascii.eqb_refl.
  now rewrite (IH b c).
Qed.

Lemma path_join_prefix (base name p : string) :
  path_join base name = Ok p -> Str.starts_with base p = true.
Proof.
  unfold path_join. destruct (len name =? 0).
  - destruct (PATH_MAX <=? len base); [discriminate|].
    intros [= <-]. apply starts_with_refl.
  - match goal with
    | |- (if ?c then _ else _) = _ -> _ => destruct c; [discriminate|]
    end.
    intros [= <-]. apply starts_with_app.
Qed.

Lemma writes_only_under_refl w (s : St W) : writes_only_under w s s.
Proof. split; [reflexivity|]. exists []. now rewrite app_nil_r. Qed.

Lemma writes_only_under_trans w (a b c : St W) :
  writes_only_under w a b -> writes_only_under w b c ->
  writes_only_under w a c.
Proof.
  intros [A1 [e1 [A2 A3]]] [B1 [e2 [B2 B3]]]. split; [congruence|].
  exists (e1 ++ e2)%list. rewrite B2, A2, app_assoc, forallb_app.
  now rewrite A3, B3.
Qed.

Lemma writes_under_weaken w w' e :
  Str.starts_with w w' = true ->
  writes_under w' e = true -> writes_under w e = true.
Proof.
  intros Hw. destruct e as [c| |]; try discriminate.
  destruct c; cbn [writes_under written_path]; try discriminate;
    intros H; eapply starts_with_trans; eassumption.
Qed.

Lemma writes_only_under_weaken w w' (s s' : St W) :
  Str.starts_with w w' = true ->
  writes_only_under w' s s' -> writes_only_under w s s'.
Proof.
  intros Hw [A1 [evs [A2 A3]]]. split; [assumption|]. exists evs.
  split; [assumption|]. clear A2.
  induction evs as [|e evs IH]; [reflexivity|].
  cbn [forallb] in *. apply andb_true_iff in A3 as [He Hr].
  now rewrite (writes_under_weaken w w' e Hw He), IH.
Qed.

Lemma writes_only_under_call w c (s s' : St W) r :
  call c s = Some (r, s') ->
  writes_under w (EvSys c) = true -> writes_only_under w s s'.
Proof.
  intros H Hc. revert H. unfold call. destruct (k_call _ _) as [w' r'].
  intros [= _ <-]. split; [reflexivity|]. exists [EvSys c].
  split; [reflexivity|]. cbn [forallb]. now rewrite Hc.
Qed.

Lemma writes_only_under_log w lv msg (s s' : St W) u :
  LOG lv msg s = Some (u, s') -> writes_only_under w s s'.
Proof.
  intros [= _ <-]. split; [reflexivity|]. exists [].
  cbn. now rewrite app_nil_r.
Qed.

Lemma copy_selcon_writes src dst (s s' : St W) r :
  copy_selcon src dst s = Some (r, s') -> writes_only_under dst s s'.
Proof.
  unfold copy_selcon, get_selcon, set_selcon. intros H. minv H;
    repeat match goal with
           | HL : LOG _ _ ?a = Some (_, ?b) |- writes_only_under _ ?a _ =>
               apply (writes_only_under_trans dst a b);
               [exact (writes_only_under_log dst _ _ _ _ _ HL)|]; clear HL
           | HL : lgetxattr _ _ ?a = Some (_, ?b) |- _ =>
               unfold lgetxattr, bind, get_world, ret in HL;
               injection HL as ? ?; subst
           | HL : call _ ?a = Some (_, ?b) |- writes_only_under _ ?a _ =>
               apply (writes_only_under_trans dst a b);
               [exact (writes_only_under_call dst _ _ _ _ HL
                                              (starts_with_refl dst))|];
               clear HL
           end;
    apply writes_only_under_refl.
Qed.

Lemma mm_clone_symlink_writes src dst (s s' : St W) r :
  mm_clone_symlink src dst s = Some (r, s') -> writes_only_under dst s s'.
Proof.
  unfold mm_clone_symlink. intros H. minv H;
    repeat match goal with
           | HL : readlink _ ?a = Some (_, ?b) |- _ =>
               unfold readlink, bind, get_world, ret in HL;
               injection HL as ? ?; subst
           | HL : call _ ?a = Some (_, ?b) |- writes_only_under _ ?a _ =>
               apply (writes_only_under_trans dst a b);
               [exact (writes_only_under_call dst _ _ _ _ HL
                                              (starts_with_refl dst))|];
               clear HL
           | HL : copy_selcon _ _ ?a = Some (_, ?b)
             |- writes_only_under _ ?a _ =>
               apply (writes_only_under_trans dst a b);
               [exact (copy_selcon_writes _ _ _ _ _ HL)|]; clear HL
           end;
    apply writes_only_under_refl.
Qed.

Lemma mm_mirror_entry_writes (fuel : nat) :
  forall path work name s r s',
    mm_mirror_entry fuel path work name s = Some (r, s') ->
    writes_only_under work s s'.
Proof.
  induction fuel as [|fuel IH]; intros path work name s r s' H;
    cbn [mm_mirror_entry] in H; [discriminate|].
  destruct (path_join path name) as [src|];
    [|minv H; apply writes_only_under_refl].
  destruct (path_join work name) as [dst|] eqn:Ed;
    [|minv H; apply writes_only_under_refl].
  apply path_join_prefix in Ed.
  apply (writes_only_under_weaken work dst); [assumption|].
  apply bind_some in H. destruct H as [l [s1 [Hl H]]].
  unfold lstat, bind, get_world, ret in Hl. injection Hl as <- <-.
  destruct (k_lstat (st_world s) src) as [st|].
  2:{ minv H. eapply writes_only_under_log. eassumption. }
  destruct (S_ISREG (st_mode st)).
  { apply bind_some in H. destruct H as [c [s1 [Hc H]]].
    apply (writes_only_under_call dst) in Hc; [|apply starts_with_refl].
    eapply writes_only_under_trans; [exact Hc|].
    destruct c; [|minv H; apply writes_only_under_refl].
    eapply (writes_only_under_call dst); [exact H|]. apply starts_with_refl. }
  destruct (S_ISDIR (st_mode st)).
  2:{ destruct (S_ISLNK (st_mode st));
        [now apply mm_clone_symlink_writes in H
        | minv H; apply writes_only_under_refl]. }
  apply bind_some in H. destruct H as [mk [s1 [Hmk H]]].
  apply (writes_only_under_call dst) in Hmk; [|apply starts_with_refl].
  eapply writes_only_under_trans; [exact Hmk|]. clear Hmk.
  assert (Hbody :
    forall s1,
      (_ <- call (SysChmod dst (Z.land (st_mode st) 4095)) ;;
       _ <- call (SysChown dst (st_uid st) (st_gid st)) ;;
       _ <- copy_selcon src dst ;;
       dir <-? opendir src ;;
       (fix each (entries : list string) : M W (Res unit) :=
          match entries with
          | [] => ret (match ds_error dir with
                       | Some e => Err e
                       | None => Ok tt
                       end)
          | entry :: rest =>
              if (String.eqb entry "." || String.eqb entry "..")%bool
              then each rest
              else mm_mirror_entry fuel src dst entry ;;? each rest
          end) (ds_entries dir))%mm s1 = Some (r, s') ->
      writes_only_under dst s1 s').
  { clear H s1. intros s1 H.
    apply bind_some in H. destruct H as [c1 [s2 [Hc1 H]]].
    apply (writes_only_under_call dst) in Hc1; [|apply starts_with_refl].
    eapply writes_only_under_trans; [exact Hc1|]. clear Hc1.
    apply bind_some in H. destruct H as [c2 [s3 [Hc2 H]]].
    apply (writes_only_under_call dst) in Hc2; [|apply starts_with_refl].
    eapply writes_only_under_trans; [exact Hc2|]. clear Hc2.
    apply bind_some in H. destruct H as [c3 [s4 [Hc3 H]]].
    apply copy_selcon_writes in Hc3.
    eapply writes_only_under_trans; [exact Hc3|]. clear Hc3.
    apply bind_some in H. destruct H as [d [s5 [Hd H]]].
    apply opendir_run in Hd. destruct Hd as [-> ->].
    destruct (k_opendir (st_world s4) src) as [dir|];
      [|minv H; apply writes_only_under_refl].
    cbv beta iota in H. revert s4 H.
    induction (ds_entries dir) as [|entry rest IHl]; intros s4 H.
    - minv H. apply writes_only_under_refl.
    - destruct (String.eqb entry "." || String.eqb entry "..")%bool;
        [now apply IHl|].
      apply bind_some in H. destruct H as [m [s5 [Hm H]]].
      apply IH in Hm.
      eapply writes_only_under_trans; [exact Hm|].
      destruct m; [now apply IHl | minv H; apply writes_only_under_refl]. }
  destruct mk as [u|e]; [now apply Hbody|].
  destruct e; try (minv H; apply writes_only_under_refl).
  now apply Hbody.
Qed.

(** X23. Mirroring an entry of the live directory into the workdir writes
    below the work directory only: every call it makes creates, changes
    or binds onto a path that begins with [work], it unmounts and
    removes nothing, involves KernelSU in no way, and leaves the context,
    counters included, as it is. *)
Theorem mm_mirror_entry_stays_in_work (fuel : nat)
        (path work name : string) (s s' : St W) (r : Res unit) :
  mm_mirror_entry fuel path work name s = Some (r, s') ->
  st_ctx s' = st_ctx s /\
  exists evs,
    st_trace s' = (st_trace s ++ evs)%list /\
    forallb (writes_under work) evs = true.
Proof. apply mm_mirror_entry_writes. Qed.

End Mirror.

Lemma mm_mirror_entry_stays_in_work_run :
  match Apply.mm_mirror_entry 4 "/system" "/dev/.magic_mount/workdir/system"
          "etc" (init_state Scenario.swap_world magic_mount_init) with
  | Some (r, s') =>
      r = Ok tt /\
      forallb (Words.writes_under "/dev/.magic_mount/workdir/system")
              (st_trace s') = true /\
      length (st_trace s') = 7%nat
  | None => False
  end.
Proof.
  destruct (Apply.mm_mirror_entry 4 _ _ _ _) as [[r s']|] eqn:E.
  - destruct (mm_mirror_entry_stays_in_work _ _ _ _ _ _ _ E)
      as [_ [evs [Ht Hu]]].
    split; [vm_compute in E; now injection E as <- _|].
    split; [now rewrite Ht|].
    vm_compute in E. now injection E as _ <-.
  - vm_compute in E. discriminate.
Defined.
(** ** The module that comes first wins *)

Section Precedence.
Import ModuleTree Words.
Context {W : Type} {K : Kernel W}.

Lemma same_header_refl (c : Node) : same_header c c.
Proof. repeat split. Qed.

Lemma same_header_trans (a b c : Node) :
  same_header a b -> same_header b c -> same_header a c.
Proof. unfold same_header. intuition congruence. Qed.

Lemma same_header_set_children (c : Node) (cs : list Node) :
  same_header c (set_children c cs).
Proof. repeat split. Qed.

Lemma first_wins_refl : forall c : Node, first_wins c c.
Proof.
  fix IH 1. intros [name t cs mp mn rep sk dn].
  constructor; [apply same_header_refl|]. cbn [n_children].
  induction cs as [|c cs IHcs]; constructor;
    [apply IH | reflexivity | exact IHcs].
Qed.

Lemma kept_more (cs l : list Node) : kept cs (cs ++ l).
Proof.
  induction cs as [|c cs IH]; cbn [app]; constructor;
    [apply first_wins_refl | reflexivity | exact IH].
Qed.

Lemma kept_refl (cs : list Node) : kept cs cs.
Proof. rewrite <- (app_nil_r cs) at 2. apply kept_more. Qed.

Lemma first_wins_kept_trans :
  (forall a b, first_wins a b -> forall c, first_wins b c -> first_wins a c)
  /\ (forall xs ys, kept xs ys -> forall zs, kept ys zs -> kept xs zs).
Proof.
  apply first_wins_kept_ind.
  - intros a b Hh _ IH c Hbc. inversion Hbc as [? ? Hh' Hk]; subst.
    constructor; [eapply same_header_trans; eassumption | now apply IH].
  - constructor.
  - intros x y xs ys _ IHx Hfile _ IHxs zs Hz.
    inversion Hz as [|? z ? zs' Hyz Hfile' Hrest]; subst.
    constructor; [now apply IHx | | now apply IHxs].
    intros Hx. pose proof (Hfile Hx) as ->. now apply Hfile'.
Qed.

Lemma first_wins_trans (a b c : Node) :
  first_wins a b -> first_wins b c -> first_wins a c.
Proof. intros H. now apply (proj1 first_wins_kept_trans). Qed.

Lemma kept_store (cs : list Node) (name : string) (c c' : Node) :
  find_child cs name = Some c ->
  first_wins c c' -> (n_type c <> NFT_DIRECTORY -> c' = c) ->
  kept cs (store_child cs name c').
Proof.
  intros Hf Hw Hfile. induction cs as [|x cs IH]; [discriminate|].
  cbn [find_child store_child] in *.
  destruct (String.eqb (n_name x) name).
  - injection Hf as ->. constructor; [assumption | assumption | apply kept_refl].
  - constructor; [apply first_wins_refl | reflexivity | now apply IH].
Qed.

Lemma kept_store_new (cs : list Node) (name : string) (n c' : Node) :
  find_child cs name = None ->
  kept cs (store_child (cs ++ [n]) name c').
Proof.
  intros Hf. induction cs as [|x cs IH]; [constructor|].
  cbn [find_child store_child app] in *.
  destruct (String.eqb (n_name x) name); [discriminate|].
  constructor; [apply first_wins_refl | reflexivity | now apply IH].
Qed.

Lemma first_wins_store (self : Node) (name : string) (c c' : Node) :
  node_child_find self name = Some c ->
  first_wins c c' -> (n_type c <> NFT_DIRECTORY -> c' = c) ->
  first_wins self (node_child_store self name c').
Proof.
  intros Hf Hw Hfile. constructor; [apply same_header_set_children|].
  cbn [node_child_store set_children n_children].
  now apply (kept_store _ _ c).
Qed.

Lemma first_wins_append (self n : Node) :
  first_wins self (node_child_append self n).
Proof.
  constructor; [apply same_header_set_children|]. apply kept_more.
Qed.

Lemma first_wins_store_new (self : Node) (name : string) (n c' : Node) :
  node_child_find self name = None ->
  first_wins self (node_child_store (node_child_append self n) name c').
Proof.
  intros Hf. constructor; [repeat split|].
  cbn [node_child_store node_child_append set_children n_children].
  now apply kept_store_new.
Qed.

Section ScanWins.
Variable scan : Node -> string -> M W (Res (Node * bool)).
Hypothesis scan_wins :
  forall c p s c' sub s',
    scan c p s = Some (Ok (c', sub), s') -> first_wins c c'.

Lemma scan_entries_wins (dir : string) (mn : option string)
      (entries : list string) :
  forall self any s self' any' s',
    scan_entries scan dir mn entries self any s
    = Some (Ok (self', any'), s') ->
    first_wins self self'.
Proof.
  induction entries as [|d_name rest IH];
    intros self any s self' any' s' H; cbn [scan_entries] in H.
  - injection H as <- _ _. apply first_wins_refl.
  - destruct (String.eqb d_name "." || String.eqb d_name "..")%bool;
      [now apply IH in H|].
    destruct (Utils.path_join dir d_name) as [path|e]; [|discriminate].
    apply bind_some in H. destruct H as [[self1 child] [s1 [Hfound H]]].
    destruct (node_child_find self d_name) as [c|] eqn:Ef.
    + injection Hfound as <- <- <-.
      destruct (n_type c) eqn:Et; try (now apply IH in H).
      apply bind_some in H. destruct H as [r [s2 [Hscan H]]].
      destruct r as [[c' sub]|e]; [|discriminate].
      apply IH in H. apply scan_wins in Hscan.
      eapply first_wins_trans; [|exact H].
      apply (first_wins_store _ _ c); [assumption | assumption|].
      intros Hx. now rewrite Et in Hx.
    + apply bind_some in Hfound. destruct Hfound as [n [s2 [Hn Hfound]]].
      destruct n as [n|]; injection Hfound as <- <- <-.
      2:{ now apply IH in H. }
      destruct (n_type n) eqn:Et;
        try (apply IH in H; eapply first_wins_trans;
             [apply first_wins_append | exact H]).
      apply bind_some in H. destruct H as [r [s3 [Hscan H]]].
      destruct r as [[c' sub]|e]; [|discriminate].
      apply IH in H. eapply first_wins_trans; [|exact H].
      now apply first_wins_store_new.
Qed.
End ScanWins.

Lemma node_scan_dir_wins (fuel : nat) :
  forall self dir mn s self' any s',
    node_scan_dir fuel self dir mn s = Some (Ok (self', any), s') ->
    first_wins self self'.
Proof.
  induction fuel as [|fuel IH]; intros self dir mn s self' any s' H;
    cbn [node_scan_dir] in H; [discriminate|].
  apply bind_some in H. destruct H as [d [s1 [_ H]]].
  destruct d as [ds|e]; [|discriminate].
  eapply scan_entries_wins; [|exact H].
  intros c p s0 c' sub s0'. apply IH.
Qed.

Lemma collect_modules_wins (fuel : nat) (mdir : string)
      (entries : list string) :
  forall system has_any s system' has_any' s',
    collect_modules fuel mdir entries system has_any s
    = Some (Ok (system', has_any'), s') ->
    first_wins system system'.
Proof.
  induction entries as [|d_name rest IH];
    intros system has_any s system' has_any' s' H;
    cbn [collect_modules] in H.
  - injection H as <- _ _. apply first_wins_refl.
  - destruct (String.eqb d_name "." || String.eqb d_name "..")%bool;
      [now apply IH in H|].
    destruct (Utils.path_join mdir d_name) as [mod_path|e]; [|discriminate].
    apply bind_some in H. destruct H as [st [s1 [_ H]]].
    destruct st as [mod_st|e]; [|now apply IH in H].
    destruct (negb (S_ISDIR (st_mode mod_st))); [now apply IH in H|].
    apply bind_some in H. destruct H as [dis [s2 [_ H]]].
    destruct dis; [now apply IH in H|].
    destruct (Utils.path_join mod_path "system") as [mod_sys|e];
      [|discriminate].
    apply bind_some in H. destruct H as [isdir [s3 [_ H]]].
    destruct (negb isdir); [now apply IH in H|].
    apply bind_some in H. destruct H as [u [s4 [_ H]]].
    apply bind_some in H. destruct H as [r [s5 [Hscan H]]].
    destruct r as [[system1 sub]|e]; [|discriminate].
    apply IH in H. apply node_scan_dir_wins in Hscan.
    eapply first_wins_trans; eassumption.
Qed.

(** X24. Scanning a directory into a node never takes back what the node
    already holds: when [node_scan_dir] succeeds, every node of the old
    tree is in the new one at the same place, with its name, type,
    source path, module and [replace] mark, and a child that is not a
    directory is unchanged altogether. What the scan finds is added
    after the children that were there. *)
Theorem node_scan_dir_first_wins (fuel : nat) (self : Node) (dir : string)
        (mn : option string) (s s' : St W) (self' : Node) (any : bool) :
  node_scan_dir fuel self dir mn s = Some (Ok (self', any), s') ->
  first_wins self self'.
Proof. apply node_scan_dir_wins. Qed.

(** X25. Over the loop of [build_mount_tree] that merges the modules: the
    module that is read first wins. Whatever a module has put into the
    tree of [system] stays there when the later modules are merged in,
    and files, links and whiteouts stay with the module that brought
    them. *)
Theorem collect_modules_first_wins (fuel : nat) (mdir : string)
        (entries : list string) (system : Node) (has_any : bool)
        (s s' : St W) (system' : Node) (has_any' : bool) :
  collect_modules fuel mdir entries system has_any s
  = Some (Ok (system', has_any'), s') ->
  first_wins system system'.
Proof. apply collect_modules_wins. Qed.

End Precedence.

Lemma node_scan_dir_first_wins_run :
  match ModuleTree.node_scan_dir 8 Scenario.tree_of_modA
          "/data/adb/modules/modB/system" (Some "modB")
          (init_state Scenario.two_modules_world magic_mount_init) with
  | Some (Ok (self', _), _) =>
      Words.first_wins Scenario.tree_of_modA self' /\
      map ModuleTree.n_name (ModuleTree.n_children self') = ["etc"; "bin"]
  | _ => False
  end.
Proof.
  destruct (ModuleTree.node_scan_dir 8 _ _ _ _) as [[[[self' any]|e] s']|] eqn:E.
  - split; [exact (node_scan_dir_first_wins _ _ _ _ _ _ _ _ E)|].
    vm_compute in E. now injection E as <- _ _.
  - vm_compute in E. discriminate.
  - vm_compute in E. discriminate.
Defined.

Lemma collect_modules_first_wins_run :
  match ModuleTree.collect_modules 8 "/data/adb/modules" ["modB"]
          Scenario.tree_of_modA true
          (init_state Scenario.two_modules_world magic_mount_init) with
  | Some (Ok (system', _), _) =>
      Words.first_wins Scenario.tree_of_modA system' /\
      map ModuleTree.n_name (ModuleTree.n_children system') = ["etc"; "bin"]
  | _ => False
  end.
Proof.
  destruct (ModuleTree.collect_modules 8 _ _ _ _ _)
    as [[[[system' any]|e] s']|] eqn:E.
  - split; [exact (collect_modules_first_wins _ _ _ _ _ _ _ _ _ E)|].
    vm_compute in E. now injection E as <- _ _.
  - vm_compute in E. discriminate.
  - vm_compute in E. discriminate.
Defined.
(** ** The logger keeps every accepted line *)

Section Logger.
Import Logging Words.

Lemma substring_all_but_last (a : string) (c : ascii) :
  String.substring 0 (String.length (a ++ String c "") - 1)
                   (a ++ String c "") = a.
Proof.
  assert (Hlen : String.length (a ++ String c "") = S (String.length a)).
  { induction a as [|x a IH]; cbn [String.append String.length];
      [reflexivity | now rewrite IH]. }
  rewrite Hlen, Nat.sub_1_r. cbn [Nat.pred].
  clear Hlen. induction a as [|x a IH]; [reflexivity|].
  cbn [String.append String.length]. cbn [substring]. now rewrite IH.
Qed.

Lemma entry_of_full (lv : LogLevel) (file : string) (line : N)
      (msg : string) :
  let full := ("[" ++ logLevelStr lv ++ "] " ++ file ++ ":" ++ decimal line
                  ++ ": ") ++ msg ++ newline in
  full = log_line lv file line msg /\
  String.substring 0 (String.length full - 1) full ++ newline = full.
Proof.
  cbv zeta. split.
  - unfold log_line. now repeat rewrite <- string_app_assoc.
  - rewrite <- (string_app_assoc _ msg newline). unfold newline.
    now rewrite substring_all_but_last.
Qed.

Lemma fold_left_written (out : option File) (buf : list string) :
  forall w,
    map snd (fold_left (fun w line =>
                          (w ++ [(out, (line ++ newline)%string)])%list)
                       buf w)
    = (map snd w ++ map (fun l => (l ++ newline)%string) buf)%list.
Proof.
  induction buf as [|l buf IH]; intros w; cbn [fold_left map].
  - now rewrite app_nil_r.
  - rewrite IH, map_app. cbn [map snd]. now rewrite <- app_assoc.
Qed.

Lemma log_step_flushed (lg : Logger) (op : LogOp) :
  flushed lg -> flushed (log_step lg op).
Proof.
  unfold flushed. intros Hf.
  destruct op as [lv file line msg|file|lv]; cbn [log_step].
  - unfold logWrite. destruct (_ >? _); [assumption|].
    destruct (g_log_initialized lg) eqn:Ei;
      cbn [negb g_log_initialized g_log_buf]; [now intros _; apply Hf|].
    intros E. congruence.
  - unfold logSetFile. cbn [g_log_initialized g_log_buf].
    destruct (g_log_initialized lg) eqn:Ei;
      cbn [negb g_log_initialized g_log_buf logFlushBuffer];
      [now intros _; apply Hf | reflexivity].
  - exact Hf.
Qed.

Lemma log_step_output (lg : Logger) (op : LogOp) :
  flushed lg ->
  log_output (log_step lg op)
  = (log_output lg ++ accepted (g_log_level lg) [op])%list
  /\ g_log_level (log_step lg op)
     = match op with OpSetLevel lv => lv | _ => g_log_level lg end.
Proof.
  intros Hf.
  destruct op as [lv file line msg|file|lv]; cbn [log_step accepted].
  - unfold logWrite. rewrite Z.gtb_ltb, Z.leb_antisym.
    destruct (intFromEnum (g_log_level lg) <? intFromEnum lv);
      cbn [negb]; [now rewrite app_nil_r|].
    destruct (entry_of_full lv file line msg) as [Hfull Hentry].
    cbv zeta in Hfull, Hentry.
    destruct (g_log_initialized lg) eqn:Ei; cbn [negb]; unfold log_output;
      cbn [written g_log_buf g_log_level]; split; try reflexivity.
    + rewrite (Hf Ei). cbn [map]. rewrite !app_nil_r, map_app.
      cbn [map snd]. now rewrite Hfull.
    + rewrite map_app. cbn [map]. rewrite Hentry, Hfull.
      now rewrite <- !app_assoc.
  - unfold logSetFile. cbn [g_log_initialized g_log_level g_log_file
                            g_log_buf written].
    rewrite app_nil_r.
    destruct (g_log_initialized lg); cbn [negb]; unfold log_output;
      [split; reflexivity|].
    unfold logFlushBuffer. cbn [written g_log_buf g_log_level g_log_file
                                g_log_initialized map].
    now rewrite fold_left_written, app_nil_r.
  - rewrite app_nil_r. split; reflexivity.
Qed.

Lemma log_run_flushed (ops : list LogOp) :
  forall lg, flushed lg -> flushed (log_run ops lg).
Proof.
  induction ops as [|op ops IH]; intros lg Hf; cbn [log_run fold_left];
    [assumption|].
  apply IH. now apply log_step_flushed.
Qed.

Lemma log_run_output (ops : list LogOp) :
  forall lg,
    flushed lg ->
    log_output (log_run ops lg)
    = (log_output lg ++ accepted (g_log_level lg) ops)%list.
Proof.
  induction ops as [|op ops IH]; intros lg Hf; cbn [log_run fold_left].
  - cbn [accepted]. now rewrite app_nil_r.
  - fold (log_run ops (log_step lg op)).
    rewrite (IH _ (log_step_flushed lg op Hf)).
    destruct (log_step_output lg op Hf) as [-> ->]. rewrite <- app_assoc.
    f_equal. destruct op as [lv file line msg|file|lv]; cbn [accepted];
      try reflexivity.
    now destruct (intFromEnum lv <=? intFromEnum (g_log_level lg)).
Qed.

Lemma log_run_held (ops : list LogOp) :
  forall lg,
    g_log_initialized lg = false ->
    forallb (fun op => negb (is_set_file op)) ops = true ->
    written (log_run ops lg) = written lg /\
    g_log_initialized (log_run ops lg) = false.
Proof.
  induction ops as [|op ops IH]; intros lg Hi Hops;
    cbn [log_run fold_left]; [now split|].
  cbn [forallb] in Hops. apply andb_true_iff in Hops as [Hop Hops].
  fold (log_run ops (log_step lg op)).
  assert (Hs : written (log_step lg op) = written lg /\
               g_log_initialized (log_step lg op) = false).
  { destruct op as [lv file line msg|file|lv]; cbn [log_step];
      [|discriminate|now split].
    unfold logWrite. destruct (_ >? _); [now split|].
    rewrite Hi. cbn [negb written g_log_initialized]. now split. }
  destruct Hs as [Hw Hi']. destruct (IH _ Hi' Hops) as [-> ->].
  now split.
Qed.

(** X26. The logger loses no line and keeps the order of the calls. Over any
    sequence of [logWrite], [logSetFile] and [logSetLevel], what has been
    written followed by what is still held in the buffer grows by
    exactly the lines of the accepted messages, in the order of the
    calls, and once lines are written through none is held back. A
    message is accepted when its level is not above the level in force,
    so with the level [info] the messages of the levels [warn] and
    [error] are dropped and those of [debug] are kept. The line feed
    taken off a held line is put back when the buffer is flushed. *)
Theorem log_keeps_accepted_lines (ops : list LogOp) (lg : Logger) :
  flushed lg ->
  log_output (log_run ops lg)
  = (log_output lg ++ accepted (g_log_level lg) ops)%list
  /\ flushed (log_run ops lg).
Proof.
  intros Hf. split; [now apply log_run_output | now apply log_run_flushed].
Qed.

(** X27. Until [logSetFile] is called for the first time the logger writes
    nothing, neither to a file nor to the standard error stream: the
    accepted lines stay in the buffer, however many messages are
    logged. *)
Theorem log_held_until_set_file (ops : list LogOp) (lg : Logger) :
  g_log_initialized lg = false ->
  forallb (fun op => negb (is_set_file op)) ops = true ->
  written (log_run ops lg) = written lg /\
  map (fun l => (l ++ newline)%string) (g_log_buf (log_run ops lg))
  = (map (fun l => (l ++ newline)%string) (g_log_buf lg)
       ++ accepted (g_log_level lg) ops)%list.
Proof.
  intros Hi Hops. destruct (log_run_held ops lg Hi Hops) as [Hw _].
  split; [exact Hw|].
  assert (Hf : flushed lg) by (intros E; congruence).
  pose proof (log_run_output ops lg Hf) as H. unfold log_output in H.
  rewrite Hw, <- app_assoc in H. now apply app_inv_head in H.
Qed.

End Logger.

Lemma log_keeps_accepted_lines_run :
  map snd
      (Logging.written
         (Words.log_run [Words.OpWrite Logging.info "main.zig" 7 "one";
                         Words.OpWrite Logging.warn "main.zig" 8 "two";
                         Words.OpSetFile (Some 3);
                         Words.OpWrite Logging.debug "main.zig" 9 "three"]
                        Logging.logInit))
  = Words.accepted Logging.info
      [Words.OpWrite Logging.info "main.zig" 7 "one";
       Words.OpWrite Logging.warn "main.zig" 8 "two";
       Words.OpSetFile (Some 3);
       Words.OpWrite Logging.debug "main.zig" 9 "three"]
  /\ length (Words.accepted Logging.info
               [Words.OpWrite Logging.info "main.zig" 7 "one";
                Words.OpWrite Logging.warn "main.zig" 8 "two";
                Words.OpSetFile (Some 3);
                Words.OpWrite Logging.debug "main.zig" 9 "three"]) = 2%nat.
Proof.
  split; [|reflexivity].
  destruct (log_keeps_accepted_lines
              [Words.OpWrite Logging.info "main.zig" 7 "one";
               Words.OpWrite Logging.warn "main.zig" 8 "two";
               Words.OpSetFile (Some 3);
               Words.OpWrite Logging.debug "main.zig" 9 "three"]
              Logging.logInit) as [Hout Hfl].
  - intros E. discriminate E.
  - unfold Words.log_output in Hout. rewrite (Hfl eq_refl) in Hout.
    cbn [map] in Hout. rewrite app_nil_r in Hout. exact Hout.
Defined.

Lemma log_held_until_set_file_run :
  Logging.written
    (Words.log_run [Words.OpWrite Logging.debug "main.zig" 12 "start";
                    Words.OpWrite Logging.error "main.zig" 40 "lost";
                    Words.OpSetLevel Logging.error;
                    Words.OpWrite Logging.error "main.zig" 41 "kept"]
                   Logging.logInit) = [] /\
  Logging.g_log_buf
    (Words.log_run [Words.OpWrite Logging.debug "main.zig" 12 "start";
                    Words.OpWrite Logging.error "main.zig" 40 "lost";
                    Words.OpSetLevel Logging.error;
                    Words.OpWrite Logging.error "main.zig" 41 "kept"]
                   Logging.logInit)
  = ["[DEBUG] main.zig:12: start"; "[ERROR] main.zig:41: kept"].
Proof.
  split.
  - apply (log_held_until_set_file _ Logging.logInit); reflexivity.
  - reflexivity.
Defined.
